(** * stress-ng: supervision, metrics and fault recovery

    A shallow embedding of the parts of [stress-atomic.c], [stress-cgroup.c]
    and [stress-dev.c] that the specification talks about, with the
    properties proved about them.

    Conventions.
    - A [w]-bit unsigned C integer is a [Z] in [0, 2^w); every operation
      writes its wrap-around out with [wrap].
    - A C [double] is an IEEE 754 binary64 number ([spec_float] of the
      Standard Library, with a precision of 53 bits): sums, differences and
      quotients are rounded to nearest, ties to even, and infinities and
      NaN are there.  The readings of the clock in [stress_dev_rw] alone
      are kept as rationals: the only arithmetic on them is
      [now - t_start > 0.25], where 0.25 is a binary64 number and the
      difference of two doubles with [t_start <= now <= 2 * t_start], as
      two readings of a clock that counts from the epoch are, is exact.
    - System calls, the clock, the random generator and the continue flags
      are inputs: each function takes the answers of its environment as
      arguments (oracles indexed by call number) and returns, next to its
      result, the list of effects it performed.
    - Loops whose exit depends on the environment carry a fuel argument and
      say so in their result when the fuel is spent.

    The embedding comes first, one module per source file; the properties
    follow, one module of facts per module of definitions. *)

From Stdlib Require Import ZArith QArith Lia Lqa List Bool String Ascii.
From Stdlib Require Import SpecFloat.
From stdpp Require Import base list.

Local Open Scope Z_scope.

(** Exit statuses of a stressor (the values of [stress-ng.h] are not needed,
    only that the three are distinct). *)
Inductive exit_status : Type :=
  | EXIT_SUCCESS
  | EXIT_FAILURE
  | EXIT_NO_RESOURCE.

(** The outcome of running a loop with fuel. *)
Inductive outcome (A : Type) : Type :=
  | Returned (a : A)
  | OutOfFuel.
Arguments Returned {A} a.
Arguments OutOfFuel {A}.

(** ** Machine words *)

Definition wrap (w z : Z) : Z := z mod 2 ^ w.

Definition in_word (w z : Z) : Prop := 0 <= z < 2 ^ w.

(** The all-ones word: the C expression [~0] converted to a [w]-bit type. *)
Definition all_ones (w : Z) : Z := wrap w (Z.lnot 0).

(** ** Doubles *)

Definition prec : Z := 53.
Definition emax : Z := 1024.

Abbreviation double := spec_float.

(** [a + b], [a - b] and [a / b], rounded to nearest, ties to even. *)
Definition dadd : double -> double -> double := SFadd prec emax.
Definition dsub : double -> double -> double := SFsub prec emax.
Definition ddiv : double -> double -> double := SFdiv prec emax.

(** [a <= b] and [a > b]; both are false when an operand is a NaN. *)
Definition dle (a b : double) : bool := SFleb a b.
Definition dgt (a b : double) : bool := SFltb b a.

(** The conversion of an integer to [double], as C makes it for an integer
    operand or constant; written implicitly below. *)
Definition double_of_Z (z : Z) : double :=
  binary_normalize prec emax z 0 false.

Coercion double_of_Z : Z >-> spec_float.

(** [0.0] *)
Definition d0 : double := S754_zero false.

Definition is_zero (x : double) : bool :=
  match x with S754_zero _ => true | _ => false end.

(** Division, with the division by zero made visible: C gives an infinity or
    a NaN there, the model gives [None]. *)
Definition fdiv (a b : double) : option double :=
  if is_zero b then None else Some (ddiv a b).

(** A double with its sign bit clear that is no NaN and is well formed (its
    mantissa and exponent are those of the binary64 format). *)
Definition nonneg_double (x : double) : bool :=
  valid_binary prec emax x
  && match x with
     | S754_nan => false
     | S754_zero s | S754_infinity s | S754_finite s _ _ => negb s
     end.

Definition is_finite (x : double) : bool :=
  match x with
  | S754_zero _ | S754_finite _ _ _ => true
  | _ => false
  end.

(** Mantissa and exponent are those of a binary64 number: the exponent is
    at least -1074, the mantissa has at most 53 bits, and exactly 53 above
    the least exponent. *)
Definition in_format (m e : Z) : Prop :=
  -1074 <= e /\ 0 <= m < 2 ^ 53 /\ (-1074 < e -> 2 ^ 52 <= m).

(** [a > b] on the readings of the clock in [stress_dev_rw]. *)
Definition fgt (a b : Q) : bool := negb (Qle_bool a b).

(** * Signals, errno values and process results shared by the supervisors *)

Definition EINTR : Z := 4.
Definition EAGAIN : Z := 11.
Definition ENOMEM : Z := 12.
Definition SIGKILL : Z := 9.
Definition SIGTERM : Z := 15.

(** [EXIT_FAILURE] as a number, in a wait status. *)
Definition exit_code_failure : Z := 1.

(** What [fork()] gave to the process that called it. *)
Inductive fork_result : Type :=
  | ForkFailed (errno : Z)
  | ForkParent (pid : Z)
  | ForkChild.

(** What a blocking [shim_waitpid(pid, &status, 0)] gave. *)
Inductive wait_result : Type :=
  | WaitFailed (errno : Z)
  | WaitExited (code : Z)
  | WaitSignaled (sig : Z).

(** How a supervisor function ends: it returns, the process exits (the
    child's side of a fork), or the fuel ran out while it was looping. *)
Inductive ending : Type :=
  | Returns (rc : exit_status)
  | Exits (rc : exit_status)
  | StillLooping.

(** Effects in front of a continuation's effects. *)
Definition emit {E R : Type} (evs : list E) (k : R * list E) : R * list E :=
  (fst k, evs ++ snd k).

(** * stress-atomic.c *)
Module Atomic.

(** The gcc [__atomic] builtins the stressor uses. *)
Inductive builtin : Type :=
  | ADD_FETCH | AND_FETCH | CLEAR | FETCH_ADD | FETCH_AND | FETCH_NAND
  | FETCH_OR | FETCH_SUB | FETCH_XOR | LOAD | NAND_FETCH | OR_FETCH
  | STORE | SUB_FETCH | XOR_FETCH.

Inductive memorder : Type := RELAXED | ACQUIRE.

(** An implementation of the builtins: from the width, the contents of the
    object and the operand to the new contents and the value handed back
    (the value read, for [LOAD]).  The memory order has no effect on a
    single access and is not an argument. *)
Definition implementation : Type := builtin -> Z -> Z -> Z -> Z * Z.

(** What gcc documents.  [__atomic_clear] is meant for a [bool] or a
    [char]: it stores 0 in the one byte at the address it is given, which
    is the low byte of the word on a little-endian target, the one modelled
    here. *)
Definition gcc_builtin : implementation := fun b w mem val =>
  match b with
  | ADD_FETCH => let r := wrap w (mem + val) in (r, r)
  | SUB_FETCH => let r := wrap w (mem - val) in (r, r)
  | AND_FETCH => let r := wrap w (Z.land mem val) in (r, r)
  | XOR_FETCH => let r := wrap w (Z.lxor mem val) in (r, r)
  | OR_FETCH => let r := wrap w (Z.lor mem val) in (r, r)
  | NAND_FETCH => let r := wrap w (Z.lnot (Z.land mem val)) in (r, r)
  | FETCH_ADD => (wrap w (mem + val), mem)
  | FETCH_SUB => (wrap w (mem - val), mem)
  | FETCH_AND => (wrap w (Z.land mem val), mem)
  | FETCH_XOR => (wrap w (Z.lxor mem val), mem)
  | FETCH_OR => (wrap w (Z.lor mem val), mem)
  | FETCH_NAND => (wrap w (Z.lnot (Z.land mem val)), mem)
  | STORE => (wrap w val, 0)
  | LOAD => (mem, mem)
  | CLEAR => (wrap w (Z.land mem (Z.lnot 255)), 0)
  end.

(** What the build found: which [HAVE_ATOMIC_*] are defined, whether the
    compiler is a gcc other than 11 ([HAVE_COMPILER_GCC && __GNUC__ != 11]),
    the builtins themselves and [sizeof(long int)]. *)
Record build : Type := mk_build {
  have : builtin -> bool;
  gcc_not_11 : bool;
  impl : implementation;
  sizeof_long : Z
}.

Section Shims.

Variable B : build.

(** [SHIM_ATOMIC_xxx(ptr, val, memorder)] for the builtins with a single
    definition: the builtin when it is there, [DO_NOTHING()] otherwise.
    The value handed back is dropped. *)
Definition SHIM (b : builtin) (w mem val : Z) (_ : memorder) : Z :=
  if have B b then fst (impl B b w mem val) else mem.

(** The two-step sequences used in place of the NAND builtins; the operand
    [~0] of the second step is converted to the type of the object. *)
Definition FETCH_NAND_workaround (w mem val : Z) : Z :=
  let mem1 := fst (impl B FETCH_AND w mem val) in
  fst (impl B FETCH_XOR w mem1 (all_ones w)).

Definition NAND_FETCH_workaround (w mem val : Z) : Z :=
  let mem1 := fst (impl B AND_FETCH w mem val) in
  fst (impl B XOR_FETCH w mem1 (all_ones w)).

Definition SHIM_ATOMIC_FETCH_NAND (w mem val : Z) (_ : memorder) : Z :=
  if have B FETCH_NAND then
    if gcc_not_11 B then fst (impl B FETCH_NAND w mem val)
    else FETCH_NAND_workaround w mem val
  else mem.

Definition SHIM_ATOMIC_NAND_FETCH (w mem val : Z) (_ : memorder) : Z :=
  if have B NAND_FETCH then
    if gcc_not_11 B then fst (impl B NAND_FETCH w mem val)
    else NAND_FETCH_workaround w mem val
  else mem.

(** [SHIM_ATOMIC_LOAD(ptr, &dst, memorder)]: the new value of [dst]. *)
Definition SHIM_ATOMIC_LOAD (w mem dst : Z) (_ : memorder) : Z :=
  if have B LOAD then snd (impl B LOAD w mem 0) else dst.

(** One line of [DO_ATOMIC_OPS] on [var]: a store of [tmp], a load into
    [tmp], or a builtin with a constant operand (written before its cast to
    [type]). *)
Inductive instr : Type :=
  | I_STORE (mo : memorder)
  | I_LOAD (mo : memorder)
  | I_OP (b : builtin) (k : Z) (mo : memorder)
  | I_CLEAR (mo : memorder).

(** The 60 operations on [var], in the order of the macro. *)
Definition var_ops : list instr :=
  [ I_STORE RELAXED; I_LOAD RELAXED; I_LOAD ACQUIRE;
    I_OP ADD_FETCH 1 RELAXED; I_OP ADD_FETCH 2 ACQUIRE;
    I_OP SUB_FETCH 3 RELAXED; I_OP SUB_FETCH 4 ACQUIRE;
    I_OP AND_FETCH (Z.lnot 1) RELAXED; I_OP AND_FETCH (Z.lnot 2) ACQUIRE;
    I_OP XOR_FETCH (Z.lnot 4) RELAXED; I_OP XOR_FETCH (Z.lnot 8) ACQUIRE;
    I_OP OR_FETCH 16 RELAXED; I_OP OR_FETCH 32 ACQUIRE;
    I_OP NAND_FETCH 64 RELAXED; I_OP NAND_FETCH 128 ACQUIRE;
    I_CLEAR RELAXED;

    I_STORE RELAXED;
    I_OP FETCH_ADD 1 RELAXED; I_OP FETCH_ADD 2 ACQUIRE;
    I_OP FETCH_SUB 3 RELAXED; I_OP FETCH_SUB 4 ACQUIRE;
    I_OP FETCH_AND (Z.lnot 1) RELAXED; I_OP FETCH_AND (Z.lnot 2) ACQUIRE;
    I_OP FETCH_XOR (Z.lnot 4) RELAXED; I_OP FETCH_XOR (Z.lnot 8) ACQUIRE;
    I_OP FETCH_OR 16 RELAXED; I_OP FETCH_OR 32 ACQUIRE;
    I_OP FETCH_NAND 64 RELAXED; I_OP FETCH_NAND 128 ACQUIRE;
    I_CLEAR RELAXED;

    I_STORE RELAXED; I_LOAD RELAXED;
    I_OP ADD_FETCH 1 RELAXED; I_OP SUB_FETCH 3 RELAXED;
    I_OP AND_FETCH (Z.lnot 1) RELAXED; I_OP XOR_FETCH (Z.lnot 4) RELAXED;
    I_OP OR_FETCH 16 RELAXED; I_OP NAND_FETCH 64 RELAXED;
    I_LOAD ACQUIRE;
    I_OP ADD_FETCH 2 ACQUIRE; I_OP SUB_FETCH 4 ACQUIRE;
    I_OP AND_FETCH (Z.lnot 2) ACQUIRE; I_OP XOR_FETCH (Z.lnot 8) ACQUIRE;
    I_OP OR_FETCH 32 ACQUIRE; I_OP NAND_FETCH 128 ACQUIRE;
    I_CLEAR RELAXED;

    I_STORE RELAXED;
    I_OP FETCH_ADD 1 RELAXED; I_OP FETCH_SUB 3 RELAXED;
    I_OP FETCH_AND (Z.lnot 1) RELAXED; I_OP FETCH_XOR (Z.lnot 4) RELAXED;
    I_OP FETCH_OR 16 RELAXED; I_OP FETCH_NAND 64 RELAXED;
    I_OP FETCH_ADD 2 ACQUIRE; I_OP FETCH_SUB 4 ACQUIRE;
    I_OP FETCH_AND (Z.lnot 2) ACQUIRE; I_OP FETCH_XOR (Z.lnot 8) ACQUIRE;
    I_OP FETCH_OR 32 ACQUIRE; I_OP FETCH_NAND 128 ACQUIRE;
    I_CLEAR RELAXED ].

(** One instruction on the pair ([*var], [tmp]).  Other processes write the
    same [var]; their interleaved writes are not modelled (nothing below
    depends on the contents of [var]). *)
Definition exec_instr (w : Z) (s : Z * Z) (i : instr) : Z * Z :=
  let '(var, tmp) := s in
  match i with
  | I_STORE mo => (SHIM STORE w var tmp mo, tmp)
  | I_LOAD mo => (var, SHIM_ATOMIC_LOAD w var tmp mo)
  | I_OP NAND_FETCH k mo => (SHIM_ATOMIC_NAND_FETCH w var (wrap w k) mo, tmp)
  | I_OP FETCH_NAND k mo => (SHIM_ATOMIC_FETCH_NAND w var (wrap w k) mo, tmp)
  | I_OP b k mo => (SHIM b w var (wrap w k) mo, tmp)
  | I_CLEAR mo => (SHIM CLEAR w var 0 mo, tmp)
  end.

End Shims.

(** [stress_metrics_t]: the two accumulators of a workload kind. *)
Record stress_metrics_t : Type := mk_metrics {
  duration : double;
  count : double
}.

(** What one expansion of [DO_ATOMIC_OPS] takes from its environment: the
    random word of [stress_mwc64()], the indeterminate initial contents of
    the local [unshared], and the two readings of [stress_time_now()]. *)
Record batch_env : Type := mk_batch_env {
  mwc64 : Z;
  unshared_init : Z;
  time_before : double;
  time_after : double
}.

(** The end-of-batch check: the value loaded from [unshared], decremented,
    against [check1]. *)
Definition batch_check (B : build) (w : Z) (e : batch_env) : bool :=
  let tmp := wrap w (mwc64 e) in
  let check1 := tmp in
  let check2 := wrap w (Z.lnot tmp) in
  let unshared := SHIM B STORE w (unshared_init e) check1 RELAXED in
  let unshared := SHIM B ADD_FETCH w unshared (wrap w 2) RELAXED in
  let unshared := SHIM B SUB_FETCH w unshared (wrap w 1) RELAXED in
  let check2 := SHIM_ATOMIC_LOAD B w unshared check2 RELAXED in
  let check2 := wrap w (check2 - 1) in
  check2 =? check1.

(** [DO_ATOMIC_OPS(args, type, var, duration, count, rc)] for a [type] of
    [w] bits: the new contents of [*var], the new accumulators and the new
    [rc] ([-1] is assigned when the check fails, after the accumulators were
    updated). *)
Definition DO_ATOMIC_OPS (B : build) (w : Z) (var : Z) (m : stress_metrics_t)
    (rc : Z) (e : batch_env) : Z * stress_metrics_t * Z :=
  let tmp := wrap w (mwc64 e) in
  let t := time_before e in
  let '(var', _) := fold_left (exec_instr B w) var_ops (var, tmp) in
  let m' :=
    mk_metrics (dadd (duration m) (dsub (time_after e) t))
               (dadd (count m) 64) in
  (var', m', if batch_check B w e then rc else -1).

(** The part of the process state the exercise functions touch: the arrays
    [g_shared->atomic.val64] .. [val8] and the four [static int idx].  The
    arrays live in memory shared by every process; each process is given its
    own view of them here, and the writes of the others in between its own
    are not modelled. *)
Record proc_state : Type := mk_proc {
  val64 : list Z; val32 : list Z; val16 : list Z; val8 : list Z;
  idx64 : Z; idx32 : Z; idx16 : Z; idx8 : Z
}.

(** The common shape of the four functions: run the macro on [vals[idx]]
    when [guard] holds, then [idx++; idx &= SIZEOF_ARRAY(vals) - 1]. *)
Definition exercise_word (B : build) (w : Z) (guard : bool) (vals : list Z)
    (idx : Z) (m : stress_metrics_t) (e : batch_env)
    : list Z * Z * stress_metrics_t * Z :=
  let rc := 0 in
  let var := nth (Z.to_nat idx) vals 0 in
  let '(var', m', rc') :=
    if guard then DO_ATOMIC_OPS B w var m rc e else (var, m, rc) in
  let idx' := Z.land (idx + 1) (Z.of_nat (length vals) - 1) in
  (<[Z.to_nat idx := var']> vals, idx', m', rc').

Definition atomic_func_t : Type :=
  proc_state -> stress_metrics_t -> batch_env ->
  proc_state * stress_metrics_t * Z.

Definition stress_atomic_uint64 (B : build) : atomic_func_t := fun p m e =>
  let '(vals, idx, m', rc) :=
    exercise_word B 64 (sizeof_long B =? 8) (val64 p) (idx64 p) m e in
  (mk_proc vals (val32 p) (val16 p) (val8 p)
           idx (idx32 p) (idx16 p) (idx8 p), m', rc).

Definition stress_atomic_uint32 (B : build) : atomic_func_t := fun p m e =>
  let '(vals, idx, m', rc) :=
    exercise_word B 32 true (val32 p) (idx32 p) m e in
  (mk_proc (val64 p) vals (val16 p) (val8 p)
           (idx64 p) idx (idx16 p) (idx8 p), m', rc).

Definition stress_atomic_uint16 (B : build) : atomic_func_t := fun p m e =>
  let '(vals, idx, m', rc) :=
    exercise_word B 16 true (val16 p) (idx16 p) m e in
  (mk_proc (val64 p) (val32 p) vals (val8 p)
           (idx64 p) (idx32 p) idx (idx8 p), m', rc).

Definition stress_atomic_uint8 (B : build) : atomic_func_t := fun p m e =>
  let '(vals, idx, m', rc) :=
    exercise_word B 8 true (val8 p) (idx8 p) m e in
  (mk_proc (val64 p) (val32 p) (val16 p) vals
           (idx64 p) (idx32 p) (idx16 p) idx, m', rc).

Record atomic_func_info_t : Type := mk_func_info {
  func : atomic_func_t;
  name : string
}.

Definition atomic_func_info (B : build) : list atomic_func_info_t :=
  [ mk_func_info (stress_atomic_uint64 B) "uint64";
    mk_func_info (stress_atomic_uint32 B) "uint32";
    mk_func_info (stress_atomic_uint16 B) "uint16";
    mk_func_info (stress_atomic_uint8 B) "uint8" ].

Definition STRESS_ATOMIC_MAX_PROCS : nat := 3.
Definition STRESS_ATOMIC_MAX_FUNCS : nat := 4.

(** [stress_atomic_info_t]: one slot of the shared region. *)
Record stress_atomic_info_t : Type := mk_info {
  metrics : list stress_metrics_t;
  pid : Z
}.

(** The mmap'd array [atomic_info[n_atomic_procs]]. *)
Abbreviation region := (list stress_atomic_info_t).

Definition zero_metrics : stress_metrics_t := mk_metrics d0 d0.

(** [atomic_info[p].metrics[i]], read and written in place. *)
Definition get_metrics (r : region) (p i : nat) : stress_metrics_t :=
  match r !! p with
  | Some s => match metrics s !! i with Some m => m | None => zero_metrics end
  | None => zero_metrics
  end.

Definition set_metrics (r : region) (p i : nat) (m : stress_metrics_t) : region :=
  alter (fun s => mk_info (<[i := m]> (metrics s)) (pid s)) p r.

Definition set_pid (r : region) (p : nat) (v : Z) : region :=
  alter (fun s => mk_info (metrics s) v) p r.

(** What a process running [stress_atomic_exercise] is made of: its
    [proc_state], the shared region, the number of exercise calls it made
    and the number of passes it completed (its share of the bogo-op
    counter). *)
Record world : Type := mk_world {
  w_proc : proc_state;
  atomic_info : region;
  calls : nat;
  bogo : nat
}.

(** What it takes from its environment: the inputs of its n-th exercise call
    and the answer of [stress_continue(args)] after its k-th pass. *)
Record exercise_env : Type := mk_exercise_env {
  batch : nat -> batch_env;
  stress_continue : nat -> bool
}.

Definition rounds : nat := 1000.

(** [func(args, &atomic_info->metrics[i].duration,
          &atomic_info->metrics[i].count)] with [atomic_info = &region[p]]. *)
Definition call_func (E : exercise_env) (f : atomic_func_t) (p i : nat)
    (w : world) : world * Z :=
  let '(ps, m, rc) :=
    f (w_proc w) (get_metrics (atomic_info w) p i) (batch E (calls w)) in
  (mk_world ps (set_metrics (atomic_info w) p i m) (S (calls w)) (bogo w), rc).

(** [for (j = 0; j < rounds; j++) if (func(...) < 0) return -1;] with [n]
    rounds to go; the boolean tells whether [return -1] was reached. *)
Fixpoint exercise_rounds (E : exercise_env) (f : atomic_func_t) (p i : nat)
    (n : nat) (w : world) : world * bool :=
  match n with
  | O => (w, false)
  | S n' =>
      let '(w', rc) := call_func E f p i w in
      if rc <? 0 then (w', true) else exercise_rounds E f p i n' w'
  end.

(** [for (i = 0; i < STRESS_ATOMIC_MAX_FUNCS; i++)] over the rest [fs] of
    [atomic_func_info], at index [i]. *)
Fixpoint exercise_funcs (E : exercise_env) (fs : list atomic_func_info_t)
    (p i : nat) (n : nat) (w : world) : world * bool :=
  match fs with
  | [] => (w, false)
  | fi :: fs' =>
      let '(w', failed) := exercise_rounds E (func fi) p i n w in
      if failed then (w', true) else exercise_funcs E fs' p (S i) n w'
  end.

Definition stress_bogo_inc (w : world) : world :=
  mk_world (w_proc w) (atomic_info w) (calls w) (S (bogo w)).

(** [stress_atomic_exercise(args, &region[p])]: the do-while loop, one pass
    per unit of fuel. *)
Fixpoint stress_atomic_exercise (B : build) (E : exercise_env) (p : nat)
    (fuel : nat) (w : world) : world * outcome Z :=
  match fuel with
  | O => (w, OutOfFuel)
  | S fuel' =>
      let '(w1, failed) := exercise_funcs E (atomic_func_info B) p 0 rounds w in
      if failed then (w1, Returned (-1))
      else
        let w2 := stress_bogo_inc w1 in
        if stress_continue E (bogo w1)
        then stress_atomic_exercise B E p fuel' w2
        else (w2, Returned 0)
  end.

(** The child's side of [fork()] in [stress_atomic]: the argument of
    [_exit]. *)
Definition stress_atomic_child (B : build) (E : exercise_env) (i : nat)
    (fuel : nat) (w : world) : world * outcome exit_status :=
  match stress_atomic_exercise B E i fuel w with
  | (w', Returned rc) =>
      (w', Returned (if rc <? 0 then EXIT_FAILURE else EXIT_SUCCESS))
  | (w', OutOfFuel) => (w', OutOfFuel)
  end.

(** The inner loop of the aggregation: [for (i = ..; i < n; i++)] adding
    slot [i]'s accumulators of kind [j], with [k] slots to go. *)
Fixpoint sum_slots (r : region) (j : nat) (i k : nat)
    (acc : double * double) : double * double :=
  match k with
  | O => acc
  | S k' =>
      let m := get_metrics r i j in
      sum_slots r j (S i) k'
        (dadd (fst acc) (duration m), dadd (snd acc) (count m))
  end.

(** One pass of the outer loop: the sums and the rate of kind [j]. *)
Definition aggregate (r : region) (n_atomic_procs : nat) (j : nat)
    : option (double * double * double) :=
  let '(duration, count) := sum_slots r j 0 n_atomic_procs (d0, d0) in
  match (if dgt duration d0 then fdiv count duration else Some d0) with
  | Some rate => Some (duration, count, rate)
  | None => None
  end.

Inductive stress_state : Type := STRESS_STATE_RUN | STRESS_STATE_DEINIT.

(** A wait status, decoded by [WIFEXITED]/[WEXITSTATUS] and
    [WIFSIGNALED]/[WTERMSIG]. *)
Inductive wait_status : Type :=
  | Exited (code : Z)
  | Signaled (sig : Z).

(** What [waitpid] gave: the pid asked for, with a status, or another
    value (0 while the child runs, -1 on error). *)
Inductive waitpid_result : Type :=
  | Reaped (st : wait_status)
  | NotReaped (ret : Z).

(** The effects of [stress_atomic] on the outside. *)
Inductive atomic_event : Type :=
  | E_pr_inf_skip
  | E_set_proc_state (s : stress_state)
  | E_fork (i : nat) (pid : Z)
  | E_waitpid (pid : Z) (wnohang : bool)
  | E_kill (pid : Z) (sig : Z)
  | E_force_killed_bogo
  | E_metrics_set (j : nat) (str : string) (rate : option double)
  | E_munmap.

(** The environment of one run of [stress_atomic]: whether [mmap] failed;
    what [fork] returned in the parent for child [i]; the environment of
    each child and of the parent, and how many passes each makes before it
    is looked at (its fuel); what the two [waitpid(.., WNOHANG)] and
    [shim_kill(.., 0)] calls of the reaping loop answered. *)
Record atomic_env : Type := mk_atomic_env {
  mmap_failed : bool;
  fork_pid : nat -> Z;
  child_env : nat -> exercise_env;
  child_fuel : nat -> nat;
  parent_env : exercise_env;
  parent_fuel : nat;
  waitpid_nohang : nat -> waitpid_result;
  kill0 : nat -> Z
}.

(** Anonymous shared memory comes zero-filled. *)
Definition mmap_region (n_atomic_procs : nat) : region :=
  replicate n_atomic_procs
    (mk_info (replicate STRESS_ATOMIC_MAX_FUNCS zero_metrics) 0).

(** The initialisation loops: [pid = -1] and both accumulators [0.0]. *)
Definition init_slot (r : region) (i : nat) : region :=
  fold_left (fun r j => set_metrics r i j (mk_metrics d0 d0))
    (seq 0 STRESS_ATOMIC_MAX_FUNCS) (set_pid r i (-1)).

Definition init_region (r : region) (n_atomic_procs : nat) : region :=
  fold_left init_slot (seq 0 n_atomic_procs) r.

(** The fork loop, from child [i], [k] children to go.  The parent records
    the pid in slot [i]; a child that was created runs
    [stress_atomic_exercise] on slot [i] with its own copy of the statics.
    The children run concurrently with each other and with the parent; they
    are run here one after the other, which gives the same region because
    every process writes the accumulators of its own slot only. *)
Fixpoint fork_children (B : build) (env : atomic_env) (ps : proc_state)
    (i k : nat) (r : region) : region * list atomic_event :=
  match k with
  | O => (r, [])
  | S k' =>
      let pid := fork_pid env i in
      let r1 :=
        if 0 <? pid then
          atomic_info
            (fst (stress_atomic_child B (child_env env i) i (child_fuel env i)
                    (mk_world ps r 0 0)))
        else r in
      let r2 := set_pid r1 i pid in
      let '(r3, evs) := fork_children B env ps (S i) k' r2 in
      (r3, E_fork i pid :: evs)
  end.

Definition slot_pid (r : region) (i : nat) : Z :=
  match r !! i with Some s => pid s | None => 0 end.

(** The reaping loop, from child [i], [k] children to go. *)
Fixpoint reap_children (env : atomic_env) (r : region) (i k : nat)
    (rc : exit_status) : exit_status * list atomic_event :=
  match k with
  | O => (rc, [])
  | S k' =>
      let pid := slot_pid r i in
      if 0 <? pid then
        match waitpid_nohang env i with
        | Reaped (Exited code) =>
            let rc1 := if code =? exit_code_failure then EXIT_FAILURE else rc in
            let '(rc2, evs) := reap_children env r (S i) k' rc1 in
            (rc2, E_waitpid pid true :: evs)
        | _ =>
            let kills :=
              if kill0 env i =? 0
              then [E_kill pid 0; E_force_killed_bogo; E_kill pid SIGKILL]
              else [E_kill pid 0] in
            let '(rc2, evs) := reap_children env r (S i) k' rc in
            (rc2, E_waitpid pid true :: kills ++ E_waitpid pid false :: evs)
        end
      else reap_children env r (S i) k' rc
  end.

(** The reporting loop, from kind [j], over the rest [fs] of
    [atomic_func_info]. *)
Fixpoint report_rates (r : region) (n_atomic_procs : nat)
    (fs : list atomic_func_info_t) (j : nat) : list atomic_event :=
  match fs with
  | [] => []
  | fi :: fs' =>
      let rate :=
        match aggregate r n_atomic_procs j with
        | Some (_, _, rate) => Some rate
        | None => None
        end in
      E_metrics_set j (name fi ++ " atomic ops per sec") rate
        :: report_rates r n_atomic_procs fs' (S j)
  end.

(** [stress_atomic(args)]: its return value, its effects and the region as
    it is read by the reporting loop. *)
Definition stress_atomic (B : build) (env : atomic_env) (ps : proc_state)
    : outcome exit_status * list atomic_event * region :=
  let n_atomic_procs := S STRESS_ATOMIC_MAX_PROCS in
  if mmap_failed env then (Returned EXIT_NO_RESOURCE, [E_pr_inf_skip], [])
  else
    let r0 := init_region (mmap_region n_atomic_procs) n_atomic_procs in
    let '(r1, forks) := fork_children B env ps 0 STRESS_ATOMIC_MAX_PROCS r0 in
    match stress_atomic_exercise B (parent_env env) (n_atomic_procs - 1)
            (parent_fuel env) (mk_world ps r1 0 0) with
    | (w, OutOfFuel) =>
        (OutOfFuel, E_set_proc_state STRESS_STATE_RUN :: forks, atomic_info w)
    | (w, Returned ret) =>
        let rc := if ret <? 0 then EXIT_FAILURE else EXIT_SUCCESS in
        let r2 := atomic_info w in
        let '(rc', reaps) := reap_children env r2 0 STRESS_ATOMIC_MAX_PROCS rc in
        (Returned rc',
         E_set_proc_state STRESS_STATE_RUN :: forks ++ reaps
           ++ report_rates r2 n_atomic_procs (atomic_func_info B) 0
           ++ [E_set_proc_state STRESS_STATE_DEINIT; E_munmap],
         r2)
    end.

(** ** Notions the properties are stated with *)

(** The width of the type exercised by [atomic_func_info[i]]. *)
Definition width_of (i : nat) : Z :=
  match i with
  | O => 64
  | 1%nat => 32
  | 2%nat => 16
  | _ => 8
  end.

(** Whether [atomic_func_info[i].func] expands the macro at all: the 64-bit
    function does so where [sizeof(long int) == sizeof(uint64_t)]. *)
Definition runs_batch (B : build) (i : nat) : bool :=
  match i with
  | O => sizeof_long B =? 8
  | _ => true
  end.

(** Whether a call of [atomic_func_info[i].func] with inputs [e] passes its
    end-of-batch check (a call that expands no macro has no check to
    fail). *)
Definition batch_ok (B : build) (i : nat) (e : batch_env) : bool :=
  if runs_batch B i then batch_check B (width_of i) e else true.

(** The calls of a process are numbered from 0; with [n] rounds per
    function, call [c] belongs to the function of index [(c / n) mod 4] and
    to pass [c / (4 * n)]. *)
Definition kind_of_call (n c : nat) : nat :=
  ((c / n) mod STRESS_ATOMIC_MAX_FUNCS)%nat.

Definition call_ok (B : build) (E : exercise_env) (c : nat) : bool :=
  batch_ok B (kind_of_call rounds c) (batch E c).

Definition calls_per_pass : nat := (STRESS_ATOMIC_MAX_FUNCS * rounds)%nat.

(** The sum of a list of doubles: from [0.0], one addition per element, in
    the order of the list, each rounded. *)
Definition dsum (l : list double) : double := fold_left dadd l d0.

(** The values of one accumulator of kind [j] in the first [n] slots. *)
Definition column (f : stress_metrics_t -> double) (r : region) (j n : nat)
    : list double :=
  map (fun i => f (get_metrics r i j)) (seq 0 n).

(** The rate [stress_atomic] reports for kind [j] of a region of four
    slots: [count / duration] of the two sums when the sum of the durations
    is greater than 0, and 0 otherwise. *)
Definition rate_of (r : region) (j : nat) : double :=
  let d := dsum (column duration r j 4) in
  let c := dsum (column count r j 4) in
  if dgt d d0 then ddiv c d else d0.

Definition is_metrics_set (ev : atomic_event) : bool :=
  match ev with E_metrics_set _ _ _ => true | _ => false end.

(** Two worlds that a process working on slot [p] cannot tell apart: the
    same statics, call and pass counters, and the same slot [p]. *)
Definition same_slot (p : nat) (w1 w2 : world) : Prop :=
  w_proc w1 = w_proc w2 /\ calls w1 = calls w2 /\ bogo w1 = bogo w2
  /\ atomic_info w1 !! p = atomic_info w2 !! p.

(** The region a process leaves behind when it runs
    [stress_atomic_exercise] on slot [p] of region [r] from a fresh start. *)
Definition region_after (B : build) (E : exercise_env) (p : nat) (fuel : nat)
    (ps : proc_state) (r : region) : region :=
  atomic_info (fst (stress_atomic_exercise B E p fuel (mk_world ps r 0 0))).

(** A reading of the clock: a finite double that is not negative. *)
Definition is_reading (t : double) : bool := nonneg_double t && is_finite t.

(** A clock that does not run backwards during any batch of [E]. *)
Definition monotonic_clock (E : exercise_env) : Prop :=
  forall c,
    is_reading (time_before (batch E c)) = true
    /\ is_reading (time_after (batch E c)) = true
    /\ dle (time_before (batch E c)) (time_after (batch E c)) = true.

(** Accumulators that are not negative, and the order on accumulator
    pairs. *)
Definition metrics_ok (m : stress_metrics_t) : Prop :=
  nonneg_double (duration m) = true /\ nonneg_double (count m) = true.

Definition metrics_le (m m' : stress_metrics_t) : Prop :=
  dle (duration m) (duration m') = true /\ dle (count m) (count m') = true.

(** The region of [stress_atomic] after its initialisation loops. *)
Definition region0 : region :=
  init_region (mmap_region (S STRESS_ATOMIC_MAX_PROCS))
              (S STRESS_ATOMIC_MAX_PROCS).

(** The workers of a run of [stress_atomic]: child [i] for [i < 3], when
    [fork] created it, and the parent, worker 3; the environment and the
    fuel of each. *)
Definition worker_ran (env : atomic_env) (i : nat) : bool :=
  if (i <? STRESS_ATOMIC_MAX_PROCS)%nat then 0 <? fork_pid env i
  else (i =? STRESS_ATOMIC_MAX_PROCS)%nat.

Definition worker_env (env : atomic_env) (i : nat) : exercise_env :=
  if (i <? STRESS_ATOMIC_MAX_PROCS)%nat then child_env env i
  else parent_env env.

Definition worker_fuel (env : atomic_env) (i : nat) : nat :=
  if (i <? STRESS_ATOMIC_MAX_PROCS)%nat then child_fuel env i
  else parent_fuel env.

(** The region worker [i] leaves when it runs alone, on slot [i], from the
    region as it is initialised. *)
Definition worker_alone (B : build) (env : atomic_env) (ps : proc_state)
    (i : nat) : region :=
  if worker_ran env i
  then region_after B (worker_env env i) i (worker_fuel env i) ps region0
  else region0.

(** What child [c] leaves in slot [c] of region [r], with the pid the
    parent records there. *)
Definition child_slot (B : build) (env : atomic_env) (ps : proc_state)
    (c : nat) (r : region) : option stress_atomic_info_t :=
  set_pid
    (if 0 <? fork_pid env c
     then region_after B (child_env env c) c (child_fuel env c) ps r
     else r) c (fork_pid env c) !! c.

(** ** Sample inputs *)

(** A build for a 64-bit target with every builtin, one for a 32-bit
    target, and one whose [__atomic_add_fetch] adds one too many. *)
Definition build_lp64 : build := mk_build (fun _ => true) true gcc_builtin 8.
Definition build_ilp32 : build := mk_build (fun _ => true) true gcc_builtin 4.

Definition broken_add_fetch : implementation := fun b w mem val =>
  match b with
  | ADD_FETCH => let r := wrap w (mem + val + 1) in (r, r)
  | _ => gcc_builtin b w mem val
  end.

Definition build_broken : build :=
  mk_build (fun _ => true) true broken_add_fetch 8.

(** A process state with 8 words per array, an environment whose batches
    take one second each and which stops after the first pass, and the
    region as the initialisation loops leave it. *)
Definition proc0 : proc_state :=
  mk_proc (replicate 8 0) (replicate 8 0) (replicate 8 0) (replicate 8 0)
          0 0 0 0.

Definition env_one_pass : exercise_env :=
  mk_exercise_env (fun c => mk_batch_env (Z.of_nat c) 0 0 1) (fun _ => false).

Definition world0 : world := mk_world proc0 region0 0 0.

(** The two slots of the specification's example, (2.0, 10) and (3.0, 5)
    for kind 0, in a region whose other accumulators are zero; and the
    region right after its initialisation. *)
Definition region_example : region :=
  set_metrics (set_metrics region0 0 0 (mk_metrics 2 10)) 1 0 (mk_metrics 3 5).

(** A run of [stress_atomic] in which [mmap] succeeds and the three forks
    give pids 101..103, each process makes one pass, and the children are
    found exited with status 0; and the same with a failing [mmap]. *)
Definition atomic_env_ok : atomic_env :=
  mk_atomic_env false (fun i => 101 + Z.of_nat i)
    (fun _ => env_one_pass) (fun _ => 1%nat) env_one_pass 1%nat
    (fun _ => Reaped (Exited 0)) (fun _ => 0).

(** The same run when the three forks fail: the parent works alone. *)
Definition atomic_env_no_fork : atomic_env :=
  mk_atomic_env false (fun _ => -1)
    (fun _ => env_one_pass) (fun _ => 1%nat) env_one_pass 1%nat
    (fun _ => Reaped (Exited 0)) (fun _ => 0).

(** A run in which the first fork alone works: child 0 makes one pass with
    batches of one second, the parent one pass with batches of two seconds,
    and the child is found exited with status [EXIT_FAILURE]. *)
Definition env_two_seconds : exercise_env :=
  mk_exercise_env (fun c => mk_batch_env (Z.of_nat c) 0 0 2) (fun _ => false).

Definition atomic_env_child_failed : atomic_env :=
  mk_atomic_env false (fun i => match i with O => 101 | _ => -1 end)
    (fun _ => env_one_pass) (fun _ => 1%nat) env_two_seconds 1%nat
    (fun _ => Reaped (Exited exit_code_failure)) (fun _ => 0).

Definition atomic_env_no_mmap : atomic_env :=
  mk_atomic_env true (fun i => 101 + Z.of_nat i)
    (fun _ => env_one_pass) (fun _ => 1%nat) env_one_pass 1%nat
    (fun _ => Reaped (Exited 0)) (fun _ => 0).

End Atomic.

(** * stress-cgroup.c *)
Module Cgroup.

Inductive cgroup_event : Type :=
  | E_set_proc_state_RUN
  | E_set_proc_state_DEINIT
  | E_stress_continue_flag (b : bool)
  | E_fork (r : fork_result)
  | E_stress_redo_fork (errno : Z) (b : bool)
  | E_goto_again
  | E_goto_finish
  | E_stress_continue (b : bool)
  | E_pr_err_fork_failed (errno : Z)
  | E_waitpid (pid : Z)
  | E_pr_dbg_waitpid (errno : Z)
  | E_stress_kill_pid (pid : Z)
  | E_pr_dbg_child_died (sig : Z)
  | E_stress_log_system_mem_info
  | E_pr_dbg_restarting
  | E_pr_fail_child_failed
  | E_stress_cgroup_child.

(** The answers of the environment during one trip from the label [again]
    to the next jump: the continue flag, [fork], [stress_continue(args)]
    inside the fork-failure branch, the wait, the result of
    [stress_cgroup_child] (used on the child's side) and
    [stress_continue(args)] in the loop condition. *)
Record trip_env : Type := mk_trip {
  continue_flag : bool;
  fork_r : fork_result;
  continue_on_failure : bool;
  wait_r : wait_result;
  child_rc : exit_status;
  continue_loop : bool
}.

(** Modelled from the spec: [stress_redo_fork(args, errno)] is declared in
    [stress-ng.h] and defined outside the files at hand.  The specification
    classifies a fork failure as transient, and retried by re-entering the
    fork attempt, when it is [EAGAIN] or out of memory. *)
Definition stress_redo_fork (errno : Z) : bool :=
  (errno =? EAGAIN) || (errno =? ENOMEM).

Section Mount.

(** The classification of fork failures the supervisor is linked with. *)
Variable redo_fork : Z -> bool.

(** The environment, by trip number. *)
Variable env : nat -> trip_env.

Definition finish : ending * list cgroup_event :=
  (Returns EXIT_SUCCESS, [E_set_proc_state_DEINIT]).

(** The body of the do-while loop of [stress_cgroup_mount] from the label
    [again], for the [n]-th time; one unit of fuel per arrival at [again]. *)
Fixpoint mount_from_again (fuel : nat) (n : nat) : ending * list cgroup_event :=
  match fuel with
  | O => (StillLooping, [])
  | S fuel' =>
      let e := env n in
      let again := mount_from_again fuel' (S n) in
      let loop_condition :=
        if continue_loop e
        then emit [E_stress_continue true] again
        else emit [E_stress_continue false] finish in
      if negb (continue_flag e)
      then emit [E_stress_continue_flag false] finish
      else
        emit [E_stress_continue_flag true; E_fork (fork_r e)]
          match fork_r e with
          | ForkFailed errno =>
              if redo_fork errno
              then emit [E_stress_redo_fork errno true; E_goto_again] again
              else if negb (continue_on_failure e)
              then emit [E_stress_redo_fork errno false;
                         E_stress_continue false; E_goto_finish] finish
              else emit [E_stress_redo_fork errno false;
                         E_stress_continue true;
                         E_pr_err_fork_failed errno] loop_condition
          | ForkParent pid =>
              match wait_r e with
              | WaitFailed errno =>
                  emit (E_waitpid pid
                          :: (if negb (errno =? EINTR)
                              then [E_pr_dbg_waitpid errno; E_stress_kill_pid pid]
                              else [])
                          ++ [E_waitpid pid]) loop_condition
              | WaitSignaled sig =>
                  emit [E_waitpid pid; E_pr_dbg_child_died sig]
                    (if sig =? SIGKILL
                     then emit [E_stress_log_system_mem_info;
                                E_pr_dbg_restarting; E_goto_again] again
                     else loop_condition)
              | WaitExited code =>
                  if code =? exit_code_failure
                  then (Returns EXIT_FAILURE,
                        [E_waitpid pid; E_pr_fail_child_failed])
                  else emit [E_waitpid pid] loop_condition
              end
          | ForkChild => (Exits (child_rc e), [E_stress_cgroup_child])
          end
  end.

(** [stress_cgroup_mount(args)] *)
Definition stress_cgroup_mount (fuel : nat) : ending * list cgroup_event :=
  emit [E_set_proc_state_RUN] (mount_from_again fuel 0).

End Mount.

(** ** Notions the properties are stated with, and sample runs *)

Definition is_fork (e : cgroup_event) : bool :=
  match e with E_fork _ => true | _ => false end.

(** The number of [fork] calls among a list of effects. *)
Definition forks (tr : list cgroup_event) : nat :=
  length (List.filter is_fork tr).

Definition SIGSEGV : Z := 11.

(** A first child that dies of [sig], then a second one that exits with
    status 0, after which [stress_continue] says no. *)
Definition env_signal_then_exit (sig : Z) : nat -> trip_env := fun n =>
  match n with
  | O => mk_trip true (ForkParent 100) true (WaitSignaled sig) EXIT_SUCCESS true
  | _ => mk_trip true (ForkParent 101) true (WaitExited 0) EXIT_SUCCESS false
  end.

(** The same first child, with the operation budget used up when it dies
    ([stress_continue(args)] says no, the continue flag still says yes). *)
Definition env_signal_budget_spent (sig : Z) : nat -> trip_env := fun n =>
  match n with
  | O => mk_trip true (ForkParent 100) true (WaitSignaled sig) EXIT_SUCCESS false
  | _ => mk_trip true (ForkParent 101) true (WaitExited 0) EXIT_SUCCESS false
  end.

(** A fork that fails with [errno], then one that works. *)
Definition env_fork_fails_once (errno : Z) : nat -> trip_env := fun n =>
  match n with
  | O => mk_trip true (ForkFailed errno) true (WaitExited 0) EXIT_SUCCESS true
  | _ => mk_trip true (ForkParent 101) true (WaitExited 0) EXIT_SUCCESS false
  end.

End Cgroup.

(** * stress-dev.c *)
Module Dev.

(** ** stress_dev_rw *)

Inductive open_flags : Type := O_RDONLY_NONBLOCK | O_RDONLY_WRONLY_NONBLOCK.
Inductive whence : Type := SEEK_SET | SEEK_CUR | SEEK_END.
Inductive fcntl_cmd : Type := F_GETFD | F_GETFL | F_GETSIG.
Inductive prot : Type := PROT_READ | PROT_WRITE.
Inductive map_flags : Type := MAP_PRIVATE | MAP_SHARED.

(** The calls [stress_dev_rw] makes, in a Linux build where every
    conditional block of the function is compiled in. *)
Inductive sys : Type :=
  | S_spin_lock
  | S_spin_unlock
  | S_time_now
  | S_open (f : open_flags)
  | S_close
  | S_fstat
  | S_pr_fail_stat
  | S_dev_blk
  | S_dev_scsi_blk
  | S_dev_hd_linux
  | S_ioctl_TCGETS
  | S_dev_tty
  | S_lseek (wh : whence)
  | S_poll
  | S_select
  | S_fcntl (c : fcntl_cmd)
  | S_mmap (p : prot) (f : map_flags)
  | S_munmap
  | S_fsync
  | S_dev_func (devpath : string).

(** The answers of the environment during one iteration of the while loop:
    the spin lock, the path found in [dev_path], the flag, the readings of
    [stress_time_now()] by call number, and what the calls on the device
    returned. *)
Record rw_env : Type := mk_rw_env {
  spin_lock_ret : Z;
  dev_path : string;
  keep_stressing_flag : bool;
  time_now : nat -> Q;
  open1_errno : option Z;
  fstat_failed : bool;
  st_is_blk : bool;
  st_is_chr : bool;
  tcgets_ok : bool;
  mmap_ok : prot -> map_flags -> bool;
  open2_errno : option Z;
  open3_ok : bool
}.

Definition threshold : Q := 25 # 100.

(** [!strncmp(a, b, n)] *)
Definition strncmp_eq (a b : string) (n : nat) : bool :=
  String.eqb (substring 0 n a) (substring 0 n b).

(** The device paths of [dev_funcs[]]. *)
Definition dev_funcs : list string :=
  [ "/dev/media"; "/dev/vcs"; "/dev/dm"; "/dev/video"; "/dev/random";
    "/dev/mem"; "/dev/kmem"; "/dev/kmsg"; "/dev/nvram"; "/dev/cdrom";
    "/dev/sr0"; "/dev/console"; "/dev/port"; "/dev/hpet"; "/dev/null";
    "/dev/ptp" ]%string.

(** The two labels the body jumps to. *)
Inductive label : Type := next | rdwr.

(** The state of one iteration: the calls made so far (latest last), the
    number of clock readings taken, and the local [timeout]. *)
Record rw_state : Type := mk_rw_state {
  trace : list sys;
  ticks : nat;
  timeout : bool
}.

(** Straight-line code with jumps: a step either goes on with a value or
    leaves for a label. *)
Definition M (A : Type) : Type := rw_state -> (A + label) * rw_state.

Definition ret {A : Type} (a : A) : M A := fun s => (inl a, s).

Definition bind {A B : Type} (m : M A) (k : A -> M B) : M B := fun s =>
  match m s with
  | (inl a, s') => k a s'
  | (inr l, s') => (inr l, s')
  end.

Definition goto {A : Type} (l : label) : M A := fun s => (inr l, s).

Definition call (c : sys) : M unit := fun s =>
  (inl tt, mk_rw_state (trace s ++ [c]) (ticks s) (timeout s)).

Definition set_timeout : M unit := fun s =>
  (inl tt, mk_rw_state (trace s) (ticks s) true).

Definition stress_time_now (env : rw_env) : M Q := fun s =>
  (inl (time_now env (ticks s)),
   mk_rw_state (trace s ++ [S_time_now]) (S (ticks s)) (timeout s)).

Definition when (b : bool) (m : M unit) : M unit := if b then m else ret tt.

Declare Scope rw_scope.
Delimit Scope rw_scope with rw.
Notation "x <- m ;; k" := (bind m (fun x => k))
  (at level 100, m at next level, right associativity) : rw_scope.
Notation "m ;; k" := (bind m (fun _ => k))
  (at level 100, right associativity) : rw_scope.

Local Open Scope rw_scope.

(** [if (stress_time_now() - t_start > threshold)
       { timeout = true; (void)close(fd); goto next; }]
    ([close_fd] is false at the two places where the descriptor was closed
    before the reading). *)
Definition deadline (env : rw_env) (t_start : Q) (close_fd : bool) : M unit :=
  now <- stress_time_now env ;;
  if fgt (now - t_start) threshold
  then set_timeout ;; when close_fd (call S_close) ;; goto next
  else ret tt.

(** [ptr = mmap(..); if (ptr != MAP_FAILED) munmap(..);] *)
Definition mmap_munmap (env : rw_env) (p : prot) (f : map_flags) : M unit :=
  call (S_mmap p f) ;; when (mmap_ok env p f) (call S_munmap).

(** The loop over [dev_funcs]. *)
Fixpoint run_dev_funcs (path : string) (fs : list string) : M unit :=
  match fs with
  | [] => ret tt
  | devpath :: fs' =>
      when (strncmp_eq path devpath (String.length devpath))
           (call (S_dev_func devpath)) ;;
      run_dev_funcs path fs'
  end.

(** The body of the while loop from [t_start = stress_time_now()] up to the
    label [rdwr]. *)
Definition rw_body (env : rw_env) (path : string) : M unit :=
  t_start <- stress_time_now env ;;
  call (S_open O_RDONLY_NONBLOCK) ;;
  match open1_errno env with
  | Some errno => if errno =? EINTR then goto next else goto rdwr
  | None => ret tt
  end ;;
  deadline env t_start true ;;
  call S_fstat ;;
  (if fstat_failed env then call S_pr_fail_stat
   else when (negb (st_is_blk env || st_is_chr env))
             (call S_close ;; goto next)) ;;
  when (st_is_blk env)
       (call S_dev_blk ;; call S_dev_scsi_blk ;; call S_dev_hd_linux) ;;
  when (st_is_chr env && negb (strncmp_eq "/dev/vsock" path 9)
          && negb (strncmp_eq "/dev/dri" path 7))
       (call S_ioctl_TCGETS ;; when (tcgets_ok env) (call S_dev_tty)) ;;
  call (S_lseek SEEK_SET) ;;
  call (S_lseek SEEK_CUR) ;;
  call (S_lseek SEEK_END) ;;
  deadline env t_start true ;;
  call S_poll ;;
  deadline env t_start true ;;
  call S_select ;;
  deadline env t_start true ;;
  call (S_fcntl F_GETFD) ;;
  deadline env t_start true ;;
  call (S_fcntl F_GETFL) ;;
  deadline env t_start true ;;
  call (S_fcntl F_GETSIG) ;;
  deadline env t_start true ;;
  mmap_munmap env PROT_READ MAP_PRIVATE ;;
  mmap_munmap env PROT_READ MAP_SHARED ;;
  call S_close ;;
  deadline env t_start false ;;
  call (S_open O_RDONLY_NONBLOCK) ;;
  match open2_errno env with
  | Some errno => if errno =? EINTR then goto next else goto rdwr
  | None => ret tt
  end ;;
  mmap_munmap env PROT_WRITE MAP_PRIVATE ;;
  mmap_munmap env PROT_WRITE MAP_SHARED ;;
  call S_fsync ;;
  run_dev_funcs path dev_funcs ;;
  call S_close ;;
  deadline env t_start false.

(** The code at the label [rdwr]. *)
Definition rw_rdwr (env : rw_env) : M unit :=
  call (S_open O_RDONLY_WRONLY_NONBLOCK) ;;
  when (open3_ok env) (call S_close).

(** One iteration from [t_start = ...] to the label [next]. *)
Definition rw_iteration (env : rw_env) (path : string) : rw_state :=
  let s0 := mk_rw_state [] 0 false in
  match rw_body env path s0 with
  | (inl _, s) | (inr rdwr, s) => snd (rw_rdwr env s)
  | (inr next, s) => s
  end.

(** [stress_dev_rw(args, loops)]: the calls of each iteration, one unit of
    fuel per iteration, the environment by iteration number. *)
Fixpoint stress_dev_rw (envs : nat -> rw_env) (fuel n : nat) (loops : Z)
    : outcome unit * list (list sys) :=
  match fuel with
  | O => (OutOfFuel, [])
  | S fuel' =>
      if (loops =? -1) || (0 <? loops) then
        let env := envs n in
        if negb (spin_lock_ret env =? 0) then (Returned tt, [[S_spin_lock]])
        else
          let path := dev_path env in
          if String.eqb path EmptyString || negb (keep_stressing_flag env)
          then (Returned tt, [[S_spin_lock; S_spin_unlock]])
          else
            let s := rw_iteration env path in
            let calls := S_spin_lock :: S_spin_unlock :: trace s in
            if 0 <? loops then
              if timeout s then (Returned tt, [calls])
              else emit [calls] (stress_dev_rw envs fuel' (S n) (loops - 1))
            else emit [calls] (stress_dev_rw envs fuel' (S n) loops)
      else (Returned tt, [])
  end.

(** ** Notions the properties of [stress_dev_rw] are stated with *)

(** Whether the [k]-th reading of the clock in an iteration (the 0-th is
    [t_start]) lies more than [threshold] after [t_start]. *)
Definition exceeds (env : rw_env) (k : nat) : bool :=
  fgt (time_now env k - time_now env 0) threshold.

Definition is_time_now (c : sys) : bool :=
  match c with S_time_now => true | _ => false end.

(** The number of clock readings among a list of calls. *)
Definition readings (tr : list sys) : nat :=
  length (List.filter is_time_now tr).

(** An iteration is under way and no deadline was missed so far: the clock
    was read at least once, every reading is in the trace, every reading
    after the first was within the threshold, and [timeout] is false. *)
Definition on_time (env : rw_env) (s : rw_state) : Prop :=
  (1 <= ticks s)%nat
  /\ readings (trace s) = ticks s
  /\ (forall k, (1 <= k < ticks s)%nat -> exceeds env k = false)
  /\ timeout s = false.

(** An iteration was abandoned by the deadline guard: the last reading, and
    only the last, was beyond the threshold, [timeout] was set, and after
    that reading nothing was called but, at most, [close]. *)
Definition abandoned (env : rw_env) (s : rw_state) : Prop :=
  (2 <= ticks s)%nat
  /\ readings (trace s) = ticks s
  /\ (forall k, (1 <= k)%nat -> (k + 1 < ticks s)%nat -> exceeds env k = false)
  /\ exceeds env (ticks s - 1) = true
  /\ timeout s = true
  /\ exists pre, trace s = pre ++ [S_time_now]
                 \/ trace s = pre ++ [S_time_now; S_close].

(** A piece of the loop body keeps an iteration on time, or abandons it by a
    jump to [next]. *)
Definition guarded {A : Type} (env : rw_env) (m : M A) : Prop :=
  forall s, on_time env s ->
    match m s with
    | (inl _, s') => on_time env s'
    | (inr rdwr, s') => on_time env s'
    | (inr next, s') => on_time env s' \/ abandoned env s'
    end.

(** A piece of the loop body only adds calls to those already made. *)
Definition appends {A : Type} (m : M A) : Prop :=
  forall s, exists new, trace (snd (m s)) = trace s ++ new.

(** The calls on the device that may block, after which the code checks
    the time: the seeks, [poll], [select], [fcntl] and [mmap]; and [open] of
    the device for reading, which is checked when it gave a descriptor. *)
Definition is_guard_point (c : sys) : bool :=
  match c with
  | S_lseek _ | S_poll | S_select | S_fcntl _ | S_mmap _ _ => true
  | _ => false
  end.

Definition is_open_rd (c : sys) : bool :=
  match c with S_open O_RDONLY_NONBLOCK => true | _ => false end.

Definition is_suspension_point (c : sys) : bool :=
  is_guard_point c || is_open_rd c.

(** Every call of the kind [gp] among a list of calls is followed, later in
    the list, by a reading of the clock. *)
Fixpoint followed (gp : sys -> bool) (tr : list sys) : bool :=
  match tr with
  | [] => true
  | c :: rest => (negb (gp c) || existsb is_time_now rest) && followed gp rest
  end.

Definition all_followed (gp : sys -> bool) (tr : list sys) : Prop :=
  followed gp tr = true.

Definition any_calls (tr : list sys) : Prop := True.

(** The calls that share a check: the three seeks are followed by one
    check, and so are the two mappings of a descriptor. *)
Definition same_batch (k c : sys) : bool :=
  match k, c with
  | S_lseek _, S_lseek _ => true
  | S_mmap _ _, S_mmap _ _ => true
  | _, _ => false
  end.

(** A walk along the calls of an iteration that watches the checks: after a
    seek, [poll], [select], [fcntl] or [mmap] it awaits a reading of the
    clock, and a suspension point that is not of the same batch met while
    it waits is a check missed. *)
Inductive check_state : Type :=
  | Checked
  | Awaits (k : sys)
  | Missed.

Definition check_step (st : check_state) (c : sys) : check_state :=
  match st with
  | Missed => Missed
  | Checked => if is_guard_point c then Awaits c else Checked
  | Awaits k =>
      if is_time_now c then Checked
      else if is_suspension_point c
           then (if same_batch k c then Awaits k else Missed)
           else Awaits k
  end.

Definition check_walk (tr : list sys) : check_state :=
  fold_left check_step tr Checked.

Definition walks_to (st : check_state) (tr : list sys) : Prop :=
  check_walk tr = st.

(** The calls [post] made after the call [c] start with a reading of the
    clock, before which no suspension point is met but those that share
    the check of [c]. *)
Definition checked_next (c : sys) (post : list sys) : Prop :=
  exists mid post',
    post = mid ++ S_time_now :: post'
    /\ Forall (fun c' => is_time_now c' = false
                         /\ (is_suspension_point c' = true ->
                             same_batch c c' = true)) mid.

(** The last [n] calls of a list. *)
Definition last_calls (n : nat) (tr : list sys) : list sys :=
  skipn (length tr - n) tr.

(** The device opens and is, or may be, a device: the iteration gets past
    [fstat]. *)
Definition gets_past_fstat (env : rw_env) : bool :=
  match open1_errno env with
  | None => fstat_failed env || st_is_blk env || st_is_chr env
  | Some _ => false
  end.

(** An environment in which the device opens, is a character device that
    answers [TCGETS], maps, and where the clock advances by [step] between
    two readings. *)
Definition env_steps (path : string) (step : Q) : rw_env :=
  mk_rw_env 0 path true (fun n => inject_Z (Z.of_nat n) * step)%Q
    None false false true true (fun _ _ => true) None true.

(** ** stress_dev_dir *)

Local Close Scope rw_scope.

Inductive d_type : Type := DT_DIR | DT_BLK | DT_CHR | DT_other.

Record dirent : Type := mk_dirent {
  d_name : string;
  d_kind : d_type
}.

(** [isdigit], on the codes of '0'..'9'. *)
Definition isdigit (c : ascii) : bool :=
  (48 <=? nat_of_ascii c)%nat && (nat_of_ascii c <=? 57)%nat.

(** [name[p]], the NUL terminator past the end. *)
Definition char_at (name : string) (p : nat) : ascii :=
  match String.get p name with Some c => c | None => zero end.

(** [while (ptr > d->d_name && isdigit((int)*ptr)) ptr--;] with [ptr] the
    index [p]: the index at which the loop stops. *)
Fixpoint scan_back (name : string) (p : nat) : nat :=
  match p with
  | O => O
  | S p' => if isdigit (char_at name p) then scan_back name p' else p
  end.

(** The decimal digits at the head of a string, as [strtol] reads them once
    it is past white space and sign: their value, before any limit. *)
Fixpoint atoi_digits (s : string) (acc : Z) : Z :=
  match s with
  | EmptyString => acc
  | String c s' =>
      if isdigit c
      then atoi_digits s' (10 * acc + (Z.of_nat (nat_of_ascii c) - 48))
      else acc
  end.

Definition isspace (c : ascii) : bool :=
  let n := nat_of_ascii c in
  (n =? 32)%nat || ((9 <=? n)%nat && (n <=? 13)%nat).

(** White space, an optional sign, then the digits. *)
Fixpoint strtol_value (s : string) : Z :=
  match s with
  | EmptyString => 0
  | String c s' =>
      if isspace c then strtol_value s'
      else if (nat_of_ascii c =? 45)%nat then - atoi_digits s' 0
      else if (nat_of_ascii c =? 43)%nat then atoi_digits s' 0
      else atoi_digits s 0
  end.

Definition LONG_MAX : Z := 2 ^ 63 - 1.
Definition LONG_MIN : Z := - 2 ^ 63.

(** [strtol(s, NULL, 10)] with a 64-bit [long]: the value, held at
    [LONG_MAX] or [LONG_MIN] when it is out of range. *)
Definition strtol (s : string) : Z :=
  Z.max LONG_MIN (Z.min LONG_MAX (strtol_value s)).

(** The conversion of a [long] to [int]: the low 32 bits, signed. *)
Definition int_of_long (z : Z) : Z := (z + 2 ^ 31) mod 2 ^ 32 - 2 ^ 31.

(** [atoi(s)], an [int].  The C standard leaves the result undefined when
    the number does not fit; the C library the stressor is built with on
    Linux computes [(int)strtol(s, NULL, 10)], which is what is modelled. *)
Definition atoi (s : string) : Z := int_of_long (strtol s).

Definition INT_MAX : Z := 2147483647.

(** The string [ptr] points to when [atoi(ptr)] is called: what follows the
    index at which [scan_back] stopped.  Defined for [len > 1]. *)
Definition digit_suffix (name : string) : string :=
  let len := String.length name in
  let p := S (scan_back name (len - 1)) in
  substring p (len - p) name.

(** The test of the block "Exercise no more than 3 of the same device
    driver": true when the entry is passed over. *)
Definition too_many_of_driver (name : string) : bool :=
  if (1 <? String.length name)%nat
  then 2 <? atoi (digit_suffix name)
  else false.

(** [strstr(haystack, needle) != NULL] *)
Fixpoint strstr (haystack needle : string) : bool :=
  String.prefix needle haystack
  || match haystack with
     | EmptyString => false
     | String _ h' => strstr h' needle
     end.

(** [S_IRGRP | S_IWGRP | S_IROTH | S_IWOTH] *)
Definition rw_group_other : Z := 54.

Inductive dir_event : Type :=
  | D_scandir (path : string) (depth : Z)
  | D_stat (path : string)
  | D_hash_add (path : string)
  | D_try_open (path : string)
  | D_dev_rw (path : string) (loops : Z)
  | D_inc_counter
  | D_dirent_list_free.

(** The environment of a traversal: the two continue predicates by call
    number; the file system, by path ([scandir] gives the entries in the
    order of [mixup_sort], or nothing when it returns [n <= 0]; [stat]
    gives [st_mode] or fails); [stress_try_open] and the spin lock by path;
    [stress_is_dot_filename], which [stress-ng.h] declares. *)
Record dir_env : Type := mk_dir_env {
  dir_keep_stressing_flag : nat -> bool;
  dir_keep_stressing : nat -> bool;
  scandir : string -> list dirent;
  stat_mode : string -> option Z;
  stress_try_open : string -> Z;
  dir_spin_lock : string -> Z;
  stress_is_dot_filename : string -> bool
}.

(** Modelled from the spec: [stress_hash_get] and [stress_hash_add] are
    defined outside the files at hand.  The specification's VisitedCache is
    a set of resource identifiers with [lookup] and [insert]; it is kept
    here as the list of the inserted paths. *)
Definition stress_hash_get (table : list string) (path : string) : bool :=
  existsb (String.eqb path) table.

Definition stress_hash_add (table : list string) (path : string) : list string :=
  path :: table.

(** The state of a traversal: [dev_hash_table], the number of calls made to
    each continue predicate, and the effects so far (latest last). *)
Record dir_state : Type := mk_dir_state {
  dev_hash_table : list string;
  flag_calls : nat;
  keep_calls : nat;
  dir_trace : list dir_event
}.

Definition log (evs : list dir_event) (st : dir_state) : dir_state :=
  mk_dir_state (dev_hash_table st) (flag_calls st) (keep_calls st)
    (dir_trace st ++ evs).

Definition hash_add (path : string) (st : dir_state) : dir_state :=
  mk_dir_state (stress_hash_add (dev_hash_table st) path) (flag_calls st)
    (keep_calls st) (dir_trace st ++ [D_hash_add path]).

Definition tick_flag (st : dir_state) : dir_state :=
  mk_dir_state (dev_hash_table st) (S (flag_calls st)) (keep_calls st)
    (dir_trace st).

Definition tick_keep (st : dir_state) : dir_state :=
  mk_dir_state (dev_hash_table st) (flag_calls st) (S (keep_calls st))
    (dir_trace st).

Section DevDir.

Variable env : dir_env.

(** [args->instance] and [euid]. *)
Variable instance : Z.
Variable euid : Z.

Definition dir_loops : Z := if instance <? 8 then instance + 1 else 8.

(** What an entry of kind [DT_BLK] or [DT_CHR] gets. *)
Definition visit_device (tmp : string) (st : dir_state) : dir_state :=
  if stress_hash_get (dev_hash_table st) tmp then st
  else if strstr tmp "watchdog" then hash_add tmp st
  else if negb (stress_try_open env tmp =? 0)
  then hash_add tmp (log [D_try_open tmp] st)
  else if dir_spin_lock env tmp =? 0
  then log [D_try_open tmp; D_dev_rw tmp dir_loops; D_inc_counter] st
  else log [D_try_open tmp] st.

(** What the loop body does with an entry once [keep_stressing()] said yes;
    [self] is [stress_dev_dir] for the nested call. *)
Definition visit_entry (self : string -> bool -> Z -> dir_state -> option dir_state)
    (path : string) (recurse : bool) (depth : Z) (d : dirent) (st : dir_state)
    : option dir_state :=
  if stress_is_dot_filename env (d_name d) then Some st
  else if (euid =? 0) && String.eqb (d_name d) "hpet" then Some st
  else if too_many_of_driver (d_name d) then Some st
  else
    let tmp := (path ++ "/" ++ d_name d)%string in
    match d_kind d with
    | DT_DIR =>
        if negb recurse then Some st
        else if stress_hash_get (dev_hash_table st) tmp then Some st
        else
          match stat_mode env tmp with
          | None => Some (hash_add tmp (log [D_stat tmp] st))
          | Some mode =>
              if Z.land mode rw_group_other =? 0
              then Some (hash_add tmp (log [D_stat tmp] st))
              else self tmp recurse (depth + 1)
                     (log [D_stat tmp; D_inc_counter] st)
          end
    | DT_BLK | DT_CHR => Some (visit_device tmp st)
    | DT_other => Some st
    end.

(** [for (i = 0; i < n; i++)] over the entries still to visit, and the code
    at the label [done]. *)
Fixpoint visit_entries (visit : dirent -> dir_state -> option dir_state)
    (ds : list dirent) (st : dir_state) : option dir_state :=
  match ds with
  | [] => Some (log [D_dirent_list_free] st)
  | d :: ds' =>
      if negb (dir_keep_stressing env (keep_calls st))
      then Some (log [D_dirent_list_free] (tick_keep st))
      else
        match visit d (tick_keep st) with
        | None => None
        | Some st' => visit_entries visit ds' st'
        end
  end.

(** [stress_dev_dir(args, path, recurse, depth, euid)], one unit of fuel per
    nested call; [None] when the fuel does not reach the bottom of the
    recursion. *)
Fixpoint stress_dev_dir (fuel : nat) (path : string) (recurse : bool)
    (depth : Z) (st : dir_state) : option dir_state :=
  match fuel with
  | O => None
  | S fuel' =>
      if negb (dir_keep_stressing_flag env (flag_calls st))
      then Some (tick_flag st)
      else if 20 <? depth then Some (tick_flag st)
      else
        visit_entries
          (visit_entry (stress_dev_dir fuel') path recurse depth)
          (scandir env path)
          (log [D_scandir path depth] (tick_flag st))
  end.

End DevDir.

(** ** Notions the properties of [stress_dev_dir] are stated with *)

(** The longest suffix of a string made of decimal digits only. *)
Fixpoint trailing_digits (s : string) : string :=
  match s with
  | EmptyString => EmptyString
  | String c s' =>
      let t := trailing_digits s' in
      if isdigit c && (String.length t =? String.length s')%nat then s else t
  end.

(** The depths at which [scandir] was called. *)
Fixpoint scandir_depths (tr : list dir_event) : list Z :=
  match tr with
  | [] => []
  | D_scandir _ depth :: tr' => depth :: scandir_depths tr'
  | _ :: tr' => scandir_depths tr'
  end.

(** [st'] extends the effects of [st] by events whose [scandir] calls were
    all made at a depth between [lo] and 20. *)
Definition extends (lo : Z) (st st' : dir_state) : Prop :=
  exists new,
    dir_trace st' = dir_trace st ++ new
    /\ Forall (fun z => lo <= z <= 20) (scandir_depths new).

(** A file system in which every directory holds a device [ttyS7], a device
    [30] and a directory [sub]: a tree without a bottom. *)
Definition endless_fs : dir_env :=
  mk_dir_env (fun _ => true) (fun _ => true)
    (fun _ => [mk_dirent "ttyS7" DT_CHR; mk_dirent "30" DT_CHR;
               mk_dirent "sub" DT_DIR]%string)
    (fun _ => Some 438) (fun _ => 0) (fun _ => 0)
    (fun name => String.eqb name "." || String.eqb name "..").

Definition dir_state0 : dir_state := mk_dir_state [] 0 0 [].

(** ** stress_dev *)

Inductive dev_event : Type :=
  | V_keep_stressing (b : bool)
  | V_fork (r : fork_result)
  | V_goto_again
  | V_setpgid (pid : Z)
  | V_waitpid (pid : Z)
  | V_pr_dbg_waitpid (errno : Z)
  | V_kill (pid : Z) (sig : Z)
  | V_child
  | V_spin_destroy.

(** The answers of the environment during one trip from the label [again]:
    [keep_stressing()] there, [fork], the wait, the child's exit status (on
    the child's side), and [keep_stressing()] in the loop condition. *)
Record dev_trip : Type := mk_dev_trip {
  keep_at_again : bool;
  dev_fork : fork_result;
  dev_wait : wait_result;
  dev_child_rc : exit_status;
  keep_at_loop : bool
}.

Section StressDev.

Variable env : nat -> dev_trip.

(** The do-while loop of [stress_dev] from the label [again], for the [n]-th
    time, with the current [rc]; one unit of fuel per arrival at [again]. *)
Fixpoint dev_from_again (fuel : nat) (n : nat) (rc : exit_status)
    : ending * list dev_event :=
  match fuel with
  | O => (StillLooping, [])
  | S fuel' =>
      let e := env n in
      let leave (rc : exit_status) := (Returns rc, [V_spin_destroy]) in
      let loop_condition :=
        if keep_at_loop e
        then emit [V_keep_stressing true] (dev_from_again fuel' (S n) rc)
        else emit [V_keep_stressing false] (leave rc) in
      if negb (keep_at_again e)
      then emit [V_keep_stressing false] (leave rc)
      else
        emit [V_keep_stressing true; V_fork (dev_fork e)]
          match dev_fork e with
          | ForkFailed errno =>
              if (errno =? EAGAIN) || (errno =? ENOMEM)
              then emit [V_goto_again] (dev_from_again fuel' (S n) rc)
              else loop_condition
          | ForkParent pid =>
              emit [V_setpgid pid; V_waitpid pid]
                match dev_wait e with
                | WaitFailed errno =>
                    emit ((if negb (errno =? EINTR)
                           then [V_pr_dbg_waitpid errno] else [])
                          ++ [V_kill pid SIGTERM; V_kill pid SIGKILL;
                              V_waitpid pid]) loop_condition
                | WaitExited code =>
                    if negb (code =? 0) then leave EXIT_FAILURE
                    else loop_condition
                | WaitSignaled _ => loop_condition
                end
          | ForkChild => (Exits (dev_child_rc e), [V_child])
          end
  end.

(** [stress_dev(args)] *)
Definition stress_dev (fuel : nat) : ending * list dev_event :=
  dev_from_again fuel 0 EXIT_SUCCESS.

End StressDev.

(** ** Notions the properties of [stress_dev] are stated with *)

Definition is_dev_fork (e : dev_event) : bool :=
  match e with V_fork _ => true | _ => false end.

(** The number of [fork] calls among a list of effects. *)
Definition dev_forks (tr : list dev_event) : nat :=
  length (List.filter is_dev_fork tr).

(** A fork failure is transient when it is [EAGAIN] or [ENOMEM]. *)
Definition transient (errno : Z) : Prop := errno = EAGAIN \/ errno = ENOMEM.

(** A fork that fails [m] times with [errno], then works, the child exiting
    with status 0 and [keep_stressing()] then saying no. *)
Definition env_fork_fails (m : nat) (errno : Z) : nat -> dev_trip := fun n =>
  if (n <? m)%nat
  then mk_dev_trip true (ForkFailed errno) (WaitExited 0) EXIT_SUCCESS true
  else mk_dev_trip true (ForkParent 101) (WaitExited 0) EXIT_SUCCESS false.

Definition ENOSYS : Z := 38.

End Dev.

From Stdlib Require Import DecimalString.

(** * stress-atomic.c: notions the further properties are stated with *)
Module AtomicNotions.
Import Atomic.

(** The region as [stress_atomic] finds it when the fork loop is over, and
    the parent's own run of [stress_atomic_exercise] on the last slot. *)
Definition region_forked (B : build) (env : atomic_env) (ps : proc_state)
    : region :=
  fst (fork_children B env ps 0 STRESS_ATOMIC_MAX_PROCS region0).

Definition parent_run (B : build) (env : atomic_env) (ps : proc_state)
    : world * outcome Z :=
  stress_atomic_exercise B (parent_env env) STRESS_ATOMIC_MAX_PROCS
    (parent_fuel env) (mk_world ps (region_forked B env ps) 0 0).

(** Child [i] was created and the non-blocking [waitpid] of the reaping loop
    found it exited with status [EXIT_FAILURE]. *)
Definition child_failed (env : atomic_env) (i : nat) : bool :=
  (0 <? fork_pid env i)
  && match waitpid_nohang env i with
     | Reaped (Exited code) => code =? exit_code_failure
     | _ => false
     end.

(** An effect on a process is an effect on a child that [fork] created. *)
Definition targets_child (env : atomic_env) (e : atomic_event) : Prop :=
  match e with
  | E_waitpid pid _ | E_kill pid _ =>
      0 < pid
      /\ exists i, (i < STRESS_ATOMIC_MAX_PROCS)%nat /\ pid = fork_pid env i
  | _ => True
  end.

(** The array and the [static int idx] of [atomic_func_info[i].func]. *)
Definition vals_of (i : nat) (p : proc_state) : list Z :=
  match i with
  | O => val64 p
  | 1%nat => val32 p
  | 2%nat => val16 p
  | _ => val8 p
  end.

Definition idx_of (i : nat) (p : proc_state) : Z :=
  match i with
  | O => idx64 p
  | 1%nat => idx32 p
  | 2%nat => idx16 p
  | _ => idx8 p
  end.

(** An array whose number of elements is a power of two, with an index
    inside it. *)
Definition in_bounds (vals : list Z) (idx : Z) : Prop :=
  (exists k, 0 <= k /\ Z.of_nat (length vals) = 2 ^ k)
  /\ 0 <= idx < Z.of_nat (length vals).

(** A build with gcc's builtins all but one, which expands to
    [DO_NOTHING()]. *)
Definition builtin_eqb (a b : builtin) : bool :=
  match a, b with
  | ADD_FETCH, ADD_FETCH | AND_FETCH, AND_FETCH | CLEAR, CLEAR
  | FETCH_ADD, FETCH_ADD | FETCH_AND, FETCH_AND | FETCH_NAND, FETCH_NAND
  | FETCH_OR, FETCH_OR | FETCH_SUB, FETCH_SUB | FETCH_XOR, FETCH_XOR
  | LOAD, LOAD | NAND_FETCH, NAND_FETCH | OR_FETCH, OR_FETCH
  | STORE, STORE | SUB_FETCH, SUB_FETCH | XOR_FETCH, XOR_FETCH => true
  | _, _ => false
  end.

Definition build_without (missing : builtin) (gcc_not_11 : bool)
    (sizeof_long : Z) : build :=
  mk_build (fun b => negb (builtin_eqb b missing)) gcc_not_11 gcc_builtin
    sizeof_long.

End AtomicNotions.

(** * stress-dev.c: helpers of the device functions *)
Module DevUtil.
Import Dev.

(** [dev_basename(devpath)].  [ptr] and [base] point into [devpath]; each is
    kept as the string it points to. *)
Fixpoint basename_from (ptr base : string) : string :=
  match ptr with
  | EmptyString => base
  | String c rest =>
      basename_from rest
        (if Ascii.eqb c "/" && negb (String.eqb rest EmptyString)
         then rest else base)
  end.

Definition dev_basename (devpath : string) : string :=
  basename_from devpath devpath.

(** The index of a character in a string holds a slash. *)
Definition slash_at (s : string) (i : nat) : Prop :=
  String.get i s = Some "/"%char.

Section MixupSort.

(** [stress_hash_pjw], a hash to [uint32_t] defined outside the files at
    hand. *)
Variable stress_hash_pjw : string -> Z.

(** [mixup_sort(d1, d2)] *)
Definition mixup_sort (d1 d2 : dirent) : Z :=
  let s1 := stress_hash_pjw (d_name d1) in
  let s2 := stress_hash_pjw (d_name d2) in
  if s1 =? s2 then 0
  else if s1 <? s2 then -1 else 1.

End MixupSort.

(** ** Notions the further properties of [stress_dev_rw] are stated with *)

(** A piece of the loop body started with calls that satisfy [P] goes on
    with calls that satisfy [Q], or leaves for a label with calls that
    satisfy [X]. *)
Definition triple {A : Type} (P : list sys -> Prop) (m : M A)
    (Q X : list sys -> Prop) : Prop :=
  forall s, P (trace s) ->
    match m s with
    | (inl _, s') => Q (trace s')
    | (inr _, s') => X (trace s')
    end.

(** Whether a call works on the descriptor [fd]. *)
Definition uses_fd (c : sys) : bool :=
  match c with
  | S_fstat | S_dev_blk | S_dev_scsi_blk | S_dev_hd_linux | S_ioctl_TCGETS
  | S_dev_tty | S_lseek _ | S_poll | S_select | S_fcntl _ | S_mmap _ _
  | S_fsync | S_dev_func _ => true
  | _ => false
  end.

(** Whether an [open] of an iteration gave a descriptor: the first and the
    second [open(path, O_RDONLY | O_NONBLOCK)] ([earlier] counts those made
    before), and the one at the label [rdwr]. *)
Definition open_worked (env : rw_env) (f : open_flags) (earlier : nat) : bool :=
  match f with
  | O_RDONLY_NONBLOCK =>
      match earlier with
      | O => match open1_errno env with None => true | Some _ => false end
      | _ => match open2_errno env with None => true | Some _ => false end
      end
  | O_RDONLY_WRONLY_NONBLOCK => open3_ok env
  end.

(** The discipline of the descriptor, call by call: [held] tells whether
    [fd] is an open descriptor.  An [open] while a descriptor is held loses
    that descriptor; a [close] or a call on [fd] needs a descriptor held. *)
Definition fd_step (env : rw_env) (st : bool * nat) (c : sys)
    : option (bool * nat) :=
  let '(held, earlier) := st in
  match c with
  | S_open f =>
      if held then None
      else Some (open_worked env f earlier,
                 match f with
                 | O_RDONLY_NONBLOCK => S earlier
                 | O_RDONLY_WRONLY_NONBLOCK => earlier
                 end)
  | S_close => if held then Some (false, earlier) else None
  | _ => if uses_fd c && negb held then None else Some st
  end.

(** The discipline along a list of calls: the state at its end, or nothing
    when a call broke it. *)
Fixpoint fd_discipline (env : rw_env) (st : bool * nat) (tr : list sys)
    : option (bool * nat) :=
  match tr with
  | [] => Some st
  | c :: tr' =>
      match fd_step env st c with
      | Some st' => fd_discipline env st' tr'
      | None => None
      end
  end.

(** The device paths of the [dev_funcs] entries whose function was called,
    in the order of the calls. *)
Fixpoint dev_funcs_called (tr : list sys) : list string :=
  match tr with
  | [] => []
  | S_dev_func devpath :: tr' => devpath :: dev_funcs_called tr'
  | _ :: tr' => dev_funcs_called tr'
  end.

(** The entries of [dev_funcs] that [strncmp] finds at the head of a
    path. *)
Definition matching (path : string) : list string :=
  List.filter (fun devpath => strncmp_eq path devpath (String.length devpath))
    dev_funcs.

(** The two calls of the terminal branch. *)
Definition is_tty_call (c : sys) : bool :=
  match c with
  | S_ioctl_TCGETS | S_dev_tty => true
  | _ => false
  end.

(** The calls so far kept the discipline and leave the descriptor held or
    not, [n] opens for reading having been made. *)
Definition fd_at (env : rw_env) (held : bool) (n : nat) (tr : list sys) : Prop :=
  fd_discipline env (false, 0%nat) tr = Some (held, n).

Definition fd_closed (env : rw_env) (tr : list sys) : Prop :=
  exists n, fd_at env false n tr.

Definition is_dev_func (c : sys) : bool :=
  match c with S_dev_func _ => true | _ => false end.

(** Before [fsync] no device function was called; after the loop over the
    table those of the matching entries were. *)
Definition before_fsync (tr : list sys) : Prop :=
  ~ In S_fsync tr /\ dev_funcs_called tr = [].

Definition after_table (path : string) (tr : list sys) : Prop :=
  In S_fsync tr /\ dev_funcs_called tr = matching path.

Definition either_side (path : string) (tr : list sys) : Prop :=
  before_fsync tr \/ after_table path tr.

Definition not_table (c : sys) : bool := negb (is_dev_func c).

Definition not_fsync_nor_table (c : sys) : bool :=
  negb (is_dev_func c) && match c with S_fsync => false | _ => true end.

(** ** Notions the further properties of [stress_dev_dir] are stated with *)

(** [st'] extends the effects of [st] by events that all satisfy [ok]. *)
Definition adds (ok : dir_event -> Prop) (st st' : dir_state) : Prop :=
  exists new, dir_trace st' = dir_trace st ++ new /\ Forall ok new.

(** The path of a device that was opened or exercised. *)
Definition device_touched (e : dir_event) : option string :=
  match e with
  | D_try_open p | D_dev_rw p _ => Some p
  | _ => None
  end.

(** No device touched by the event has [watchdog] in its path. *)
Definition spares_watchdog (e : dir_event) : Prop :=
  forall p, device_touched e = Some p -> strstr p "watchdog" = false.

(** No device touched by the event is an entry named [hpet]. *)
Definition spares_hpet (e : dir_event) : Prop :=
  forall p dir, device_touched e = Some p -> p <> (dir ++ "/hpet")%string.

(** A name with no slash in it, as the names of directory entries are. *)
Fixpoint no_slash (name : string) : bool :=
  match name with
  | EmptyString => true
  | String c rest => negb (Ascii.eqb c "/") && no_slash rest
  end.

(** A [/dev] with two watchdog devices, a directory named after one, the
    timer [hpet] and a serial port. *)
Definition guarded_fs : dir_env :=
  mk_dir_env (fun _ => true) (fun _ => true)
    (fun p =>
       if String.eqb p "/dev"
       then [mk_dirent "watchdog" DT_CHR; mk_dirent "watchdog0" DT_CHR;
             mk_dirent "hpet" DT_CHR; mk_dirent "ttyS0" DT_CHR;
             mk_dirent "watchdogs" DT_DIR]
       else if String.eqb p "/dev/watchdogs"
       then [mk_dirent "wd1" DT_CHR]
       else [])%string
    (fun _ => Some 438) (fun _ => 0) (fun _ => 0)
    (fun name => String.eqb name "." || String.eqb name "..").

(** ** Notions the further properties of the loops are stated with *)

(** Whether a pass of the while loop of [stress_dev_rw] ends the call before
    the device is touched: the lock failed, [dev_path] is empty or the
    continue flag was cleared. *)
Definition rw_stops (e : rw_env) : bool :=
  negb (spin_lock_ret e =? 0)
  || String.eqb (dev_path e) EmptyString
  || negb (keep_stressing_flag e).

(** An environment whose device misses every deadline. *)
Definition env_slow (path : string) : rw_env := env_steps path 1.

(** How a run of [stress_dev] may end, and with which last effects. *)
Definition dev_ending (env : nat -> dev_trip) (r : ending * list dev_event)
    : Prop :=
  match r with
  | (Returns EXIT_SUCCESS, tr) =>
      exists pre, tr = pre ++ [V_keep_stressing false; V_spin_destroy]
  | (Returns EXIT_FAILURE, tr) =>
      exists pre m pid code,
        tr = pre ++ [V_fork (ForkParent pid); V_setpgid pid; V_waitpid pid;
                     V_spin_destroy]
        /\ dev_fork (env m) = ForkParent pid
        /\ dev_wait (env m) = WaitExited code /\ code <> 0
  | (Returns EXIT_NO_RESOURCE, _) => False
  | (Exits rc, tr) =>
      exists pre m,
        tr = pre ++ [V_fork ForkChild; V_child] /\ rc = dev_child_rc (env m)
  | (StillLooping, _) => True
  end.

End DevUtil.

(** * stress-cgroup.c: the rest of the file *)
Module CgroupOps.
Import Cgroup.

(** ** Notions the further properties of [stress_cgroup_mount] are stated
    with *)

Definition is_deinit (e : cgroup_event) : bool :=
  match e with E_set_proc_state_DEINIT => true | _ => false end.

(** How a run of [stress_cgroup_mount] may end, and with which last
    effects. *)
Definition mount_ending (env : nat -> trip_env)
    (r : ending * list cgroup_event) : Prop :=
  match r with
  | (Returns EXIT_SUCCESS, tr) =>
      exists pre,
        tr = pre ++ [E_set_proc_state_DEINIT]
        /\ forallb (fun e => negb (is_deinit e)) pre = true
  | (Returns EXIT_FAILURE, tr) =>
      exists pre m pid,
        tr = pre ++ [E_fork (ForkParent pid); E_waitpid pid;
                     E_pr_fail_child_failed]
        /\ fork_r (env m) = ForkParent pid
        /\ wait_r (env m) = WaitExited exit_code_failure
        /\ forallb (fun e => negb (is_deinit e)) tr = true
  | (Returns EXIT_NO_RESOURCE, _) => False
  | (Exits rc, tr) =>
      exists pre m,
        tr = pre ++ [E_fork ForkChild; E_stress_cgroup_child]
        /\ rc = child_rc (env m)
  | (StillLooping, _) => True
  end.

(** ** The helpers of the child

    The helpers talk to the kernel only; each call they make is recorded,
    and a call whose result is looked at takes it from the environment: the
    answer to a call is the one the environment gives for its position in
    the list of the calls made so far. *)

Definition EBUSY : Z := 16.
Definition ENODEV : Z := 19.
Definition EINVAL : Z := 22.
Definition ENOSPC : Z := 28.
Definition PATH_MAX : nat := 4096.
Definition MB : Z := 1048576.

(** [MAP_FAILED], as a number. *)
Definition MAP_FAILED : Z := -1.

(** What a call gave: its return value, [errno] after it, and the string it
    left in the buffer it was handed. *)
Record answer : Type := mk_answer {
  a_ret : Z;
  a_errno : Z;
  a_data : string
}.

Inductive cg_call : Type :=
  | G_mwc1
  | G_umount2_force (path : string)
  | G_umount (path : string)
  | G_nanosleep (ns : Z)
  | G_pr_inf_umount_failed (path : string) (errno : Z)
  | G_open (path : string)
  | G_fstat
  | G_read (size : Z)
  | G_mwc32modn (n : Z)
  | G_lseek (offset : Z)
  | G_close
  | G_system_read (path : string) (size : Z)
  | G_system_write (path : string) (buf : string) (len : Z)
  | G_fork
  | G_mmap (size : Z)
  | G_sched_yield
  | G_munmap (size : Z)
  | G_continue_flag
  | G_exit (status : Z)
  | G_mkdir (path : string)
  | G_rmdir (path : string)
  | G_kill_pid (pid : Z)
  | G_parent_died_alarm
  | G_sched_settings_apply
  | G_temp_dir
  | G_realpath (path : string)
  | G_pr_fail_mkdir (path : string) (errno : Z)
  | G_pr_fail_realpath (path : string) (errno : Z)
  | G_temp_dir_rm
  | G_mount (path : string)
  | G_pr_fail_mount (errno : Z)
  | G_bogo_inc
  | G_continue.

(** How a helper is left: it returns to its caller, the process it runs in
    exits (the child's side of the [fork] in [stress_cgroup_new_group]), or
    the fuel ran out in one of its loops. *)
Inductive flow : Type := Back | Gone | Spent.

(** The line feed. *)
Definition LF : ascii := "010"%char.

(** [stress_cgroup_remove_nl(str)]: the string [str] holds afterwards. *)
Fixpoint stress_cgroup_remove_nl (str : string) : string :=
  match str with
  | EmptyString => EmptyString
  | String c rest =>
      if Ascii.eqb c LF then EmptyString
      else String c (stress_cgroup_remove_nl rest)
  end.

(** [snprintf(buf, size, ..)] once the format is expanded to [s]: what the
    buffer holds and what is returned, the length of [s]. *)
Definition snprintf (size : nat) (s : string) : string * Z :=
  (substring 0 (size - 1) s, Z.of_nat (String.length s)).

(** [strtok(.., " ")] on what is left to scan: the token and what is left
    after it, or nothing when no token is left. *)
Fixpoint skip_spaces (s : string) : string :=
  match s with
  | EmptyString => EmptyString
  | String c rest => if Ascii.eqb c " " then skip_spaces rest else s
  end.

Fixpoint take_token (s : string) : string * string :=
  match s with
  | EmptyString => (EmptyString, EmptyString)
  | String c rest =>
      if Ascii.eqb c " " then (EmptyString, rest)
      else let '(token, more) := take_token rest in (String c token, more)
  end.

Definition strtok (saved : string) : option (string * string) :=
  match skip_spaces saved with
  | EmptyString => None
  | s => Some (take_token s)
  end.

(** The [filenames] of [stress_cgroup_read_files] and the [values] of
    [stress_cgroup_new_group]. *)
Definition cgroup_filenames : list string :=
  [ "cgroup.type"; "cgroup.procs"; "cgroup.threads"; "cgroup.controllers";
    "cgroup.subtree_control"; "cgroup.events"; "cgroup.max.descendants";
    "cgroup.max.depth"; "cgroup.stat"; "cgroup.freeze"; "cgroup.kill";
    "cgroup.pressure"; "irq.pressure" ]%string.

Definition cgroup_values : list (string * option string) :=
  [
    ("cpu.stat", None);
    ("cpu.weight", Some "90");
    ("cpu.weight.nice", Some "-4");
    ("cpu.max", None);
    ("cpu.max.burst", Some "50");
    ("cpu.pressure", None);
    ("cpu.uclamp.min", Some "10.0");
    ("cpu.uclamp.max", Some "95.0");
    ("memory.current", None);
    ("memory.min", Some "1M");
    ("memory.low", Some "2M");
    ("memory.high", Some "32M");
    ("memory.max", Some "128M");
    ("memory.reclaim", Some "2M");
    ("memory.peak", None);
    ("memory.oom.group", None);
    ("memory.events", None);
    ("memory.events.local", None);
    ("memory.stat", None);
    ("memory.numa_stat", None);
    ("memory.swap.current", None);
    ("memory.swap.peak", None);
    ("memory.swap.max", None);
    ("memory.swap.events", None);
    ("memory.zswap.current", None);
    ("memory.zswap.max", None);
    ("memory.pressure", None);
    ("io.stat", None);
    ("io.cost.qos", None);
    ("io.cost.model", None);
    ("io.weight", Some "default 90");
    ("io.max", None);
    ("io.pressure", None);
    ("io.latency", None);
    ("io.stat", None);
    ("pids.max", Some "10000");
    ("pids.current", None);
    ("cpuset.cpus", Some "0");
    ("cpuset.cpus.effective", None);
    ("cpuset.mems", Some "0");
    ("cpuset.mems.effective", None);
    ("cpuset.cpus.partition", None);
    ("rdma.max", None);
    ("rdma.current", None);
    ("hugetlb.1GB.current", None);
    ("hugetlb.1GB.events", None);
    ("hugetlb.1GB.events.local", None);
    ("hugetlb.1GB.max", None);
    ("hugetlb.1GB.numa_stat", None);
    ("hugetlb.1GB.rsvd.current", None);
    ("hugetlb.1GB.rsvd.max", None);
    ("hugetlb.2GB.current", None);
    ("hugetlb.2GB.events", None);
    ("hugetlb.2GB.events.local", None);
    ("hugetlb.2GB.max", None);
    ("hugetlb.2GB.numa_stat", None);
    ("hugetlb.2GB.rsvd.current", None);
    ("hugetlb.2GB.rsvd.max", None);
    ("misc.capacity", None);
    ("misc.current", None);
    ("misc.max", None);
    ("misc.events", None)
  ]%string.

(** [%jd] *)
Definition fmt_jd (n : Z) : string := NilZero.string_of_int (Z.to_int n).

Section Helpers.

Variable env : nat -> answer.

(** Whether the build has [umount2] and [MNT_FORCE]. *)
Variable have_umount2 : bool.

(** A call whose result is looked at, and one whose result is dropped. *)
Definition ask (c : cg_call) (tr : list cg_call) : answer * list cg_call :=
  (env (length tr), tr ++ [c]).

Definition tell (c : cg_call) (tr : list cg_call) : list cg_call := tr ++ [c].

(** *** stress_cgroup_umount *)

(** [ns]: a tenth of a second. *)
Definition umount_ns : Z := 100000000.

(** One attempt. *)
Definition umount_attempt (path : string) (tr : list cg_call)
    : answer * list cg_call :=
  if have_umount2 then
    let '(r, tr1) := ask G_mwc1 tr in
    if negb (a_ret r =? 0) then ask (G_umount2_force path) tr1
    else ask (G_umount path) tr1
  else ask (G_umount path) tr.

(** [for (i = ..; i < 100; i++)], with [k] attempts to go. *)
Fixpoint umount_loop (path : string) (i : Z) (k : nat) (tr : list cg_call)
    : list cg_call :=
  match k with
  | O => tr
  | S k' =>
      let '(a, tr1) := umount_attempt path tr in
      if a_ret a =? 0 then
        umount_loop path (i + 1) k'
          (if 1 <? i then tell (G_nanosleep umount_ns) tr1 else tr1)
      else if (a_errno a =? EAGAIN) || (a_errno a =? EBUSY)
              || (a_errno a =? ENOMEM)
      then umount_loop path (i + 1) k' (tell (G_nanosleep umount_ns) tr1)
      else if a_errno a =? EINVAL then tr1
      else umount_loop path (i + 1) k'
             (tell (G_pr_inf_umount_failed path (a_errno a)) tr1)
  end.

Definition stress_cgroup_umount (path : string) (tr : list cg_call)
    : list cg_call :=
  umount_loop path 0 100 tr.

(** *** stress_cgroup_read *)

(** [for (;;)]: the bytes read when a [read] gives nothing more. *)
Fixpoint read_to_end (fuel : nat) (len : Z) (tr : list cg_call)
    : option Z * list cg_call :=
  match fuel with
  | O => (None, tr)
  | S fuel' =>
      let '(r, tr1) := ask (G_read 1024) tr in
      if 0 <? a_ret r then read_to_end fuel' (len + a_ret r) tr1
      else (Some len, tr1)
  end.

(** [for (i = ..; (i < 2) && (i < len); i++)], two turns at most. *)
Fixpoint seek_reads (i : Z) (k : nat) (len : Z) (tr : list cg_call)
    : list cg_call :=
  match k with
  | O => tr
  | S k' =>
      if (i <? 2) && (i <? len) then
        let '(o, tr1) := ask (G_mwc32modn (wrap 32 len)) tr in
        let '(s, tr2) := ask (G_lseek (a_ret o)) tr1 in
        seek_reads (i + 1) k' len
          (if 0 <=? a_ret s then tell (G_read 1024) tr2 else tr2)
      else tr
  end.

Definition stress_cgroup_read (fuel : nat) (path : string)
    (tr : list cg_call) : flow * list cg_call :=
  let '(o, tr1) := ask (G_open path) tr in
  if a_ret o <? 0 then (Back, tr1)
  else
    match read_to_end fuel 0 (tell G_fstat tr1) with
    | (None, tr2) => (Spent, tr2)
    | (Some len, tr2) => (Back, tell G_close (seek_reads 0 2 len tr2))
    end.

(** *** stress_cgroup_controllers *)

(** [for (ptr = controllers; (token = strtok(ptr, " ")) != NULL;
    ptr = NULL)]; a token takes a character at least, so the length of the
    string bounds the number of turns. *)
Fixpoint controllers_loop (path : string) (turns : nat) (saved : string)
    (tr : list cg_call) : list cg_call :=
  match turns with
  | O => tr
  | S turns' =>
      match strtok saved with
      | None => tr
      | Some (token, more) =>
          let '(controller, ret) :=
            snprintf 256 ("+" ++ token ++ String LF EmptyString) in
          controllers_loop path turns' more
            (tell (G_system_write path controller ret) tr)
      end
  end.

Definition stress_cgroup_controllers (realpathname : string)
    (tr : list cg_call) : list cg_call :=
  let path :=
    fst (snprintf (PATH_MAX + 32)
           (realpathname ++ "/" ++ "cgroup.subtree_control")) in
  let '(r, tr1) := ask (G_system_read path 512) tr in
  if a_ret r <? 0 then tr1
  else
    let controllers := stress_cgroup_remove_nl (a_data r) in
    controllers_loop path (S (String.length controllers)) controllers tr1.

(** *** stress_cgroup_read_files *)

Fixpoint read_files_loop (fuel : nat) (realpathname : string)
    (names : list string) (tr : list cg_call) : flow * list cg_call :=
  match names with
  | [] => (Back, tr)
  | name :: names' =>
      let path :=
        fst (snprintf (PATH_MAX + 32) (realpathname ++ "/" ++ name)) in
      match stress_cgroup_read fuel path tr with
      | (Back, tr1) => read_files_loop fuel realpathname names' tr1
      | other => other
      end
  end.

Definition stress_cgroup_read_files (fuel : nat) (realpathname : string)
    (tr : list cg_call) : flow * list cg_call :=
  read_files_loop fuel realpathname cgroup_filenames tr.

(** *** stress_cgroup_add_pid, stress_cgroup_del_pid *)

Definition stress_cgroup_add_pid (realpathname : string) (pid : Z)
    (tr : list cg_call) : list cg_call :=
  let '(cmd, len) := snprintf 64 (fmt_jd pid ++ String LF EmptyString) in
  let filename :=
    fst (snprintf (PATH_MAX + 64)
           (realpathname ++ "/stress-ng-" ++ fmt_jd pid ++ "/cgroup.procs")) in
  tell (G_system_write filename cmd len) tr.

Definition stress_cgroup_del_pid (realpathname : string) (pid : Z)
    (tr : list cg_call) : list cg_call :=
  let '(cmd, len) := snprintf 64 (fmt_jd pid ++ String LF EmptyString) in
  let filename :=
    fst (snprintf (PATH_MAX + 64) (realpathname ++ "/cgroup.procs")) in
  tell (G_system_write filename cmd len) tr.

(** *** stress_cgroup_new_group *)

(** The child's side of the [fork]: the do-while loop, then [_exit(0)]. *)
Fixpoint new_group_child (fuel : nat) (tr : list cg_call)
    : flow * list cg_call :=
  match fuel with
  | O => (Spent, tr)
  | S fuel' =>
      let '(p, tr1) := ask (G_mmap MB) tr in
      let tr2 := tell G_sched_yield tr1 in
      let tr3 :=
        if negb (a_ret p =? MAP_FAILED) then tell (G_munmap MB) tr2 else tr2 in
      let '(c, tr4) := ask G_continue_flag (tell G_sched_yield tr3) in
      if negb (a_ret c =? 0) then new_group_child fuel' tr4
      else (Gone, tell (G_exit 0) tr4)
  end.

(** The loop over [values] on the parent's side. *)
Fixpoint new_group_values (fuel : nat) (realpathname : string) (pid : Z)
    (values : list (string * option string)) (tr : list cg_call)
    : flow * list cg_call :=
  match values with
  | [] => (Back, tr)
  | (name, value) :: values' =>
      let tr1 := stress_cgroup_add_pid realpathname pid tr in
      let filename :=
        fst (snprintf (PATH_MAX + 64)
               (realpathname ++ "/stress-ng-" ++ fmt_jd pid ++ "/" ++ name)) in
      match stress_cgroup_read fuel filename tr1 with
      | (Back, tr2) =>
          let written :=
            match value with
            | Some v =>
                stress_cgroup_read fuel filename
                  (tell (G_system_write filename v
                           (Z.of_nat (String.length v))) tr2)
            | None => (Back, tr2)
            end in
          match written with
          | (Back, tr3) =>
              new_group_values fuel realpathname pid values'
                (stress_cgroup_del_pid realpathname pid tr3)
          | other => other
          end
      | other => other
      end
  end.

Definition stress_cgroup_new_group (fuel : nat) (realpathname : string)
    (tr : list cg_call) : flow * list cg_call :=
  let '(f, tr1) := ask G_fork tr in
  let pid := a_ret f in
  if pid =? 0 then new_group_child fuel tr1
  else
    let path :=
      fst (snprintf (PATH_MAX + 64)
             (realpathname ++ "/stress-ng-" ++ fmt_jd pid)) in
    let '(m, tr2) := ask (G_mkdir path) tr1 in
    if a_ret m <? 0 then (Back, tell (G_rmdir path) tr2)
    else
      match new_group_values fuel realpathname pid cgroup_values tr2 with
      | (Back, tr3) => (Back, tell (G_rmdir path) (tell (G_kill_pid pid) tr3))
      | other => other
      end.

(** *** stress_cgroup_child *)

(** The code at the label [cleanup]; [rc] is never assigned after its
    initialisation to [EXIT_SUCCESS]. *)
Definition child_cleanup (realpathname : string) (tr : list cg_call)
    : ending * list cg_call :=
  (Returns EXIT_SUCCESS,
   tell G_temp_dir_rm (stress_cgroup_umount realpathname tr)).

(** The do-while loop, one unit of fuel per turn; the loops of the helpers
    called in a turn are given the fuel of the turn. *)
Fixpoint child_loop (fuel : nat) (realpathname : string) (tr : list cg_call)
    : ending * list cg_call :=
  match fuel with
  | O => (StillLooping, tr)
  | S fuel' =>
      let '(m, tr1) := ask (G_mount realpathname) tr in
      if a_ret m <? 0 then
        child_cleanup realpathname
          (if negb (a_errno m =? ENOSPC) && negb (a_errno m =? ENOMEM)
              && negb (a_errno m =? ENODEV)
           then tell (G_pr_fail_mount (a_errno m)) tr1 else tr1)
      else
        let tr2 := stress_cgroup_controllers realpathname tr1 in
        match stress_cgroup_read_files (S fuel') realpathname tr2 with
        | (Back, tr3) =>
            match stress_cgroup_new_group (S fuel') realpathname tr3 with
            | (Back, tr4) =>
                let tr5 :=
                  tell G_bogo_inc (stress_cgroup_umount realpathname tr4) in
                let '(c, tr6) := ask G_continue tr5 in
                if negb (a_ret c =? 0) then child_loop fuel' realpathname tr6
                else child_cleanup realpathname tr6
            | (Gone, tr4) => (Exits EXIT_SUCCESS, tr4)
            | (Spent, tr4) => (StillLooping, tr4)
            end
        | (_, tr3) => (StillLooping, tr3)
        end
  end.

(** [stress_cgroup_child(args)]; [stress_temp_dir] leaves the path in
    [pathname], [realpath] the resolved path in [realpathname] (it returns
    a null pointer, 0, when it fails). *)
Definition stress_cgroup_child (fuel : nat) (tr : list cg_call)
    : ending * list cg_call :=
  let tr1 := tell G_sched_settings_apply (tell G_parent_died_alarm tr) in
  let '(t, tr2) := ask G_temp_dir tr1 in
  let pathname := a_data t in
  let '(m, tr3) := ask (G_mkdir pathname) tr2 in
  if a_ret m <? 0
  then (Returns EXIT_FAILURE, tell (G_pr_fail_mkdir pathname (a_errno m)) tr3)
  else
    let '(r, tr4) := ask (G_realpath pathname) tr3 in
    if a_ret r =? 0
    then (Returns EXIT_FAILURE,
          tell G_temp_dir_rm
            (tell (G_pr_fail_realpath pathname (a_errno r)) tr4))
    else child_loop fuel (a_data r) tr4.

End Helpers.

(** ** Notions the properties of the helpers are stated with *)

Definition is_umount (c : cg_call) : bool :=
  match c with G_umount _ | G_umount2_force _ => true | _ => false end.

Definition is_nanosleep (c : cg_call) : bool :=
  match c with G_nanosleep _ => true | _ => false end.

Definition is_lseek (c : cg_call) : bool :=
  match c with G_lseek _ => true | _ => false end.

Definition is_open_or_close (c : cg_call) : bool :=
  match c with G_open _ | G_close => true | _ => false end.

(** The number of calls of a kind among a list of calls. *)
Definition count_calls (kind : cg_call -> bool) (tr : list cg_call) : nat :=
  length (List.filter kind tr).

(** The bytes that [n] calls in a row gave, the first of them at position
    [base]. *)
Fixpoint bytes_read (env : nat -> answer) (base n : nat) : Z :=
  match n with
  | O => 0
  | S n' => a_ret (env base) + bytes_read env (S base) n'
  end.

(** The words of a line: its longest runs of characters other than the
    space; [cur] is the word under way. *)
Fixpoint words_from (s : string) (cur : string) : list string :=
  match s with
  | EmptyString =>
      match cur with EmptyString => [] | _ => [cur] end
  | String c rest =>
      if Ascii.eqb c " " then
        match cur with
        | EmptyString => words_from rest EmptyString
        | _ => cur :: words_from rest EmptyString
        end
      else words_from rest (cur ++ String c EmptyString)
  end.

Definition words (s : string) : list string := words_from s EmptyString.

(** Whether a string holds a given character. *)
Fixpoint holds (c : ascii) (s : string) : bool :=
  match s with
  | EmptyString => false
  | String c' rest => Ascii.eqb c' c || holds c rest
  end.

(** The files a pid line was written to, in the order of the writes. *)
Fixpoint pid_writes (cmd : string) (tr : list cg_call) : list string :=
  match tr with
  | [] => []
  | G_system_write path buf _ :: tr' =>
      if String.eqb buf cmd then path :: pid_writes cmd tr'
      else pid_writes cmd tr'
  | _ :: tr' => pid_writes cmd tr'
  end.

(** Answers: every call gives [ret], with [errno] and no data. *)
Definition always (ret errno : Z) : nat -> answer :=
  fun _ => mk_answer ret errno EmptyString.

(** Answers given by position, [other] elsewhere. *)
Fixpoint script (answers : list answer) (other : answer) (k : nat) : answer :=
  match answers, k with
  | [], _ => other
  | a :: _, O => a
  | _ :: rest, S k' => script rest other k'
  end.

(** The calls [stress_cgroup_read] makes. *)
Definition is_read_call (c : cg_call) : bool :=
  match c with
  | G_open _ | G_fstat | G_read _ | G_mwc32modn _ | G_lseek _ | G_close => true
  | _ => false
  end.

(** No file is endless: among any [n] answers in a row one is not a
    positive number. *)
Definition ends_within (env : nat -> answer) (n : nat) : Prop :=
  forall k, exists j, (j < n)%nat /\ a_ret (env (k + j)%nat) <= 0.

(** The line written for a pid, and the two files it is written to. *)
Definition pid_line (pid : Z) : string :=
  fst (snprintf 64 (fmt_jd pid ++ String LF EmptyString)).

Definition group_procs (realpathname : string) (pid : Z) : string :=
  fst (snprintf (PATH_MAX + 64)
         (realpathname ++ "/stress-ng-" ++ fmt_jd pid ++ "/cgroup.procs")).

Definition root_procs (realpathname : string) : string :=
  fst (snprintf (PATH_MAX + 64) (realpathname ++ "/cgroup.procs")).

Definition group_dir (realpathname : string) (pid : Z) : string :=
  fst (snprintf (PATH_MAX + 64) (realpathname ++ "/stress-ng-" ++ fmt_jd pid)).

(** [fork] gives 77 (or -1), [mkdir] works, no file opens. *)
Definition env_group (pid : Z) : nat -> answer :=
  script [mk_answer pid 0 EmptyString; mk_answer 0 0 EmptyString]
    (mk_answer (-1) 2 EmptyString).

(** [stress_system_read] gives a first line of three controllers. *)
Definition env_controllers : nat -> answer :=
  fun _ => mk_answer 20 0 (" cpu  io memory" ++ String LF "pids").

(** The calls [stress_cgroup_new_group] makes on the child and on its
    directory. *)
Definition is_group_call (c : cg_call) : bool :=
  match c with
  | G_fork | G_mkdir _ | G_rmdir _ | G_kill_pid _ => true
  | _ => false
  end.

(** How [stress_cgroup_child] may end once its directory is set up. *)
Definition child_ending (env : nat -> answer) (have_umount2 : bool)
    (realpathname : string) (r : ending * list cg_call) : Prop :=
  match r with
  | (Returns EXIT_SUCCESS, tr) =>
      exists pre,
        tr = stress_cgroup_umount env have_umount2 realpathname pre
               ++ [G_temp_dir_rm]
  | (Returns _, _) => False
  | (Exits rc, tr) => rc = EXIT_SUCCESS /\ exists pre, tr = pre ++ [G_exit 0]
  | (StillLooping, _) => True
  end.

(** The directory is made and resolved, then [mount] fails with [errno]. *)
Definition env_mount_fails (errno : Z) : nat -> answer :=
  script [mk_answer 0 0 EmptyString; mk_answer 0 0 EmptyString;
          mk_answer 0 0 "tmp-cg"; mk_answer 0 0 EmptyString;
          mk_answer 1 0 "/tmp/cg"; mk_answer (-1) errno EmptyString]
    (mk_answer (-1) EINVAL EmptyString).

Definition EPERM : Z := 1.

End CgroupOps.

(** * stress-dev.c: the cache of SCSI devices *)

Module DevScsi.
Import Dev DevUtil.

(** What [is_scsi_dev] reads: the names [scandir] gives for a path, in
    [alphasort] order (none when it returns [n <= 0]), and what
    [shim_pthread_spin_lock] returns, by call number. *)
Record scsi_env : Type := mk_scsi_env {
  scsi_scandir : string -> list string;
  scsi_spin_lock : nat -> Z
}.

(** [scsi_hash_table], kept as [dev_hash_table] is; the number of calls of
    [shim_pthread_spin_lock]; the paths given to [scandir], latest last. *)
Record scsi_state : Type := mk_scsi_state {
  scsi_hash_table : list string;
  spin_calls : nat;
  scanned : list string
}.

Definition scsi_device_path : string := "/sys/class/scsi_device/".

(** [d_name[0] == '.'] *)
Definition starts_with_dot (d_name : string) : bool :=
  match d_name with
  | String c _ => Ascii.eqb c "."
  | EmptyString => false
  end.

(** [scsi_block_path] after the [snprintf] of [is_scsi_dev]. *)
Definition scsi_block_path_of (d_name : string) : string :=
  fst (CgroupOps.snprintf CgroupOps.PATH_MAX
         (scsi_device_path ++ "/" ++ d_name ++ "/device/block")).

Section Scsi.

Variable env : scsi_env.

Definition spin_lock (st : scsi_state) : Z * scsi_state :=
  (scsi_spin_lock env (spin_calls st),
   mk_scsi_state (scsi_hash_table st) (S (spin_calls st)) (scanned st)).

Definition do_scandir (path : string) (st : scsi_state)
    : list string * scsi_state :=
  (scsi_scandir env path,
   mk_scsi_state (scsi_hash_table st) (spin_calls st) (scanned st ++ [path])).

Definition add_scsi_dev (devpath : string) (st : scsi_state) : scsi_state :=
  let '(ret, st1) := spin_lock st in
  if negb (ret =? 0) then st1
  else mk_scsi_state (stress_hash_add (scsi_hash_table st1) devpath)
         (spin_calls st1) (scanned st1).

Definition is_scsi_dev_cached (devpath : string) (st : scsi_state)
    : bool * scsi_state :=
  let '(ret, st1) := spin_lock st in
  if negb (ret =? 0) then (false, st1)
  else (stress_hash_get (scsi_hash_table st1) devpath, st1).

(** The loop on [j]. *)
Fixpoint block_loop (devname : string) (scsi_block_list : list string) : bool :=
  match scsi_block_list with
  | [] => false
  | d_name :: rest =>
      if String.eqb devname d_name then true else block_loop devname rest
  end.

(** The loop on [i], from the entry at hand, with [is_scsi] still false. *)
Fixpoint device_loop (devname : string) (scsi_device_list : list string)
    (st : scsi_state) : bool * scsi_state :=
  match scsi_device_list with
  | [] => (false, st)
  | d_name :: rest =>
      if starts_with_dot d_name then device_loop devname rest st
      else
        let '(scsi_block_list, st1) :=
          do_scandir (scsi_block_path_of d_name) st in
        match scsi_block_list with
        | [] => device_loop devname rest st1
        | _ =>
            if block_loop devname scsi_block_list then (true, st1)
            else device_loop devname rest st1
        end
  end.

Definition is_scsi_dev (devpath : string) (st : scsi_state)
    : bool * scsi_state :=
  let devname := dev_basename devpath in
  match devname with
  | EmptyString => (false, st)
  | _ =>
      let '(cached, st1) := is_scsi_dev_cached devpath st in
      if cached then (true, st1)
      else
        let '(scsi_device_list, st2) := do_scandir scsi_device_path st1 in
        match scsi_device_list with
        | [] => (false, st2)
        | _ =>
            let '(is_scsi, st3) := device_loop devname scsi_device_list st2 in
            if is_scsi then (true, add_scsi_dev devpath st3)
            else (false, st3)
        end
  end.

End Scsi.

(** [/sys/class/scsi_device] lists a device, one whose name does not start
    with a dot, with a block device of this name. *)
Definition listed (env : scsi_env) (devname : string) : Prop :=
  exists d_name,
    In d_name (scsi_scandir env scsi_device_path)
    /\ starts_with_dot d_name = false
    /\ In devname (scsi_scandir env (scsi_block_path_of d_name)).

Definition lock_works (env : scsi_env) : Prop :=
  forall n, scsi_spin_lock env n = 0.

(** A host with one SCSI disk, [sda]. *)
Definition sysfs_sda (path : string) : list string :=
  if String.eqb path scsi_device_path then ["."; ".."; "0:0:0:0"]%string
  else if String.eqb path "/sys/class/scsi_device//0:0:0:0/device/block"
       then ["."; ".."; "sda"]%string
       else [].

Definition env_sda : scsi_env := mk_scsi_env sysfs_sda (fun _ => 0).

(** The same host once the disk is gone. *)
Definition env_unplugged : scsi_env := mk_scsi_env (fun _ => []) (fun _ => 0).

Definition scsi_start : scsi_state := mk_scsi_state [] 0 [].

End DevScsi.

(** * Properties *)

(** ** Machine words *)

Lemma wrap_wrap w z : wrap w (wrap w z) = wrap w z.
Proof. unfold wrap. apply Zmod_mod. Qed.

Lemma wrap_small w z : in_word w z -> wrap w z = z.
Proof. unfold in_word, wrap. intros H. by apply Z.mod_small. Qed.

Lemma wrap_in_word w z : 0 <= w -> in_word w (wrap w z).
Proof.
  intros Hw. unfold in_word, wrap. apply Z.mod_pos_bound.
  by apply Z.pow_pos_nonneg.
Qed.

Lemma wrap_add_l w a b : wrap w (wrap w a + b) = wrap w (a + b).
Proof. unfold wrap. apply Zplus_mod_idemp_l. Qed.

Lemma wrap_add_r w a b : wrap w (a + wrap w b) = wrap w (a + b).
Proof. unfold wrap. apply Zplus_mod_idemp_r. Qed.

Lemma wrap_sub_l w a b : wrap w (wrap w a - b) = wrap w (a - b).
Proof. unfold wrap. apply Zminus_mod_idemp_l. Qed.

Lemma wrap_sub_r w a b : wrap w (a - wrap w b) = wrap w (a - b).
Proof. unfold wrap. apply Zminus_mod_idemp_r. Qed.

(** ** The readings of the clock in [stress_dev_rw] *)

Lemma fgt_true a b : fgt a b = true <-> (b < a)%Q.
Proof.
  unfold fgt. rewrite negb_true_iff, <- not_true_iff_false, Qle_bool_iff.
  split; [apply Qnot_le_lt|apply Qlt_not_le].
Qed.

Lemma fgt_false a b : fgt a b = false <-> (a <= b)%Q.
Proof.
  unfold fgt. by rewrite negb_false_iff, Qle_bool_iff.
Qed.

(** Under the guard the divisor is not zero. *)
Lemma fdiv_guarded a b : dgt b d0 = true -> fdiv a b = Some (ddiv a b).
Proof.
  unfold dgt, SFltb, fdiv.
  destruct b as [s|s| |s m e]; cbn; intros H; try discriminate H; reflexivity.
Qed.

(** * Doubles: what rounding keeps

    The sums and differences of the accumulators are rounded.  What the
    properties below need of them is proved here from the definitions of
    the Standard Library: the result of a rounding is a well-formed double,
    adding a double that is not negative does not lower a sum, and the
    difference of two ordered readings is not negative. *)

Lemma digits2_bounds (p : positive) :
  2 ^ (Zpos (digits2_pos p) - 1) <= Zpos p < 2 ^ Zpos (digits2_pos p).
Proof.
  induction p as [p IH|p IH|]; cbn [digits2_pos]; [| |simpl; lia];
    rewrite Pos2Z.inj_succ;
    replace (Z.succ (Zpos (digits2_pos p)) - 1)
      with (Z.succ (Zpos (digits2_pos p) - 1)) by lia;
    rewrite !Z.pow_succ_r by lia; lia.
Qed.

Lemma pow2_lt_exp (a b : Z) : 0 <= b -> 2 ^ a < 2 ^ b -> a < b.
Proof. intros Hb H. apply (Z.pow_lt_mono_r_iff 2); lia. Qed.

Lemma digits2_unique (p : positive) (d : Z) :
  2 ^ (d - 1) <= Zpos p < 2 ^ d -> Zpos (digits2_pos p) = d.
Proof.
  intros [H1 H2]. pose proof (digits2_bounds p) as [H3 H4].
  assert (0 <= d).
  { destruct (Z.le_gt_cases 0 d); [done|].
    rewrite (Z.pow_neg_r 2 d) in H2 by lia. lia. }
  assert (Zpos (digits2_pos p) - 1 < d) by (apply pow2_lt_exp; lia).
  assert (d - 1 < Zpos (digits2_pos p)) by (apply pow2_lt_exp; lia).
  lia.
Qed.

Lemma digits2_mono (p q : positive) :
  (p <= q)%positive -> Zpos (digits2_pos p) <= Zpos (digits2_pos q).
Proof.
  intros Hpq. pose proof (digits2_bounds p) as [H1 _].
  pose proof (digits2_bounds q) as [_ H2].
  assert (Zpos (digits2_pos p) - 1 < Zpos (digits2_pos q))
    by (apply pow2_lt_exp; lia).
  lia.
Qed.

Lemma iter_xO_value (m k : positive) :
  Zpos (Pos.iter xO m k) = Zpos m * 2 ^ Zpos k.
Proof.
  induction k as [|k IH] using Pos.peano_ind.
  - simpl. lia.
  - rewrite Pos.iter_succ, Pos2Z.inj_xO, IH, Pos2Z.inj_succ, Z.pow_succ_r by lia.
    lia.
Qed.

(** The mantissa of [x] brought to the exponent [e' <= e]. *)
Lemma shl_align_value (m : positive) (e e' : Z) :
  e' <= e ->
  Zpos (fst (shl_align m e e')) = Zpos m * 2 ^ (e - e').
Proof.
  intros He. unfold shl_align.
  destruct (e' - e) as [|k|k] eqn:Hk; cbn [fst].
  - replace (e - e') with 0 by lia. lia.
  - lia.
  - rewrite iter_xO_value. f_equal. f_equal. lia.
Qed.

Lemma shr_1_m (mrs : shr_record) :
  0 <= shr_m mrs -> shr_m (shr_1 mrs) = shr_m mrs / 2.
Proof.
  destruct mrs as [m r s]. cbn [shr_m]. intros Hm.
  destruct m as [|[p|p|]|p]; cbn [shr_1 shr_m]; [reflexivity| | |reflexivity|lia].
  - rewrite (Pos2Z.inj_xI p). apply (Z.div_unique _ 2 _ 1); lia.
  - rewrite (Pos2Z.inj_xO p). apply (Z.div_unique _ 2 _ 0); lia.
Qed.

Lemma pow2_xI (p : positive) : 2 ^ Zpos p~1 = 2 * (2 ^ Zpos p * 2 ^ Zpos p).
Proof.
  rewrite (Pos2Z.inj_xI p). replace (2 * Zpos p + 1) with (Zpos p + Zpos p + 1) by lia.
  rewrite Z.pow_add_r by lia. rewrite Z.pow_add_r by lia.
  change (2 ^ 1) with 2. ring.
Qed.

Lemma pow2_xO (p : positive) : 2 ^ Zpos p~0 = 2 ^ Zpos p * 2 ^ Zpos p.
Proof.
  rewrite (Pos2Z.inj_xO p). replace (2 * Zpos p) with (Zpos p + Zpos p) by lia.
  by rewrite Z.pow_add_r by lia.
Qed.

Lemma iter_shr_1_m (p : positive) : forall mrs,
  0 <= shr_m mrs ->
  shr_m (SpecFloat.iter_pos shr_1 p mrs) = shr_m mrs / 2 ^ Zpos p.
Proof.
  assert (Hpow : forall k, 0 < 2 ^ Zpos k)
    by (intros k; apply Z.pow_pos_nonneg; lia).
  assert (Hpos : forall a k, 0 <= a -> 0 <= a / 2 ^ Zpos k)
    by (intros a k Ha; apply Z.div_pos; [done|apply Hpow]).
  induction p as [p IH|p IH|]; intros mrs Hm; cbn [SpecFloat.iter_pos].
  - assert (H1 : 0 <= shr_m (shr_1 mrs)).
    { rewrite shr_1_m by done. apply Z.div_pos; lia. }
    assert (H2 : 0 <= shr_m (SpecFloat.iter_pos shr_1 p (shr_1 mrs)))
      by (rewrite IH by done; by apply Hpos).
    rewrite (IH _ H2), (IH _ H1), shr_1_m by done.
    pose proof (Hpow p).
    rewrite !Z.div_div by lia. by rewrite pow2_xI.
  - assert (H2 : 0 <= shr_m (SpecFloat.iter_pos shr_1 p mrs))
      by (rewrite IH by done; by apply Hpos).
    rewrite (IH _ H2), (IH _ Hm).
    pose proof (Hpow p).
    rewrite !Z.div_div by lia. by rewrite pow2_xO.
  - rewrite shr_1_m by done. reflexivity.
Qed.

Lemma round_nearest_even_cases (m : Z) (l : location) :
  round_nearest_even m l = m \/ round_nearest_even m l = m + 1.
Proof.
  destruct l as [|[| |]]; cbn [round_nearest_even]; auto.
  destruct (Z.even m); auto.
Qed.

Lemma fexp_eq (e : Z) : fexp prec emax e = Z.max (e - 53) (-1074).
Proof. reflexivity. Qed.

Lemma shr_spec (mrs : shr_record) (e n : Z) :
  0 <= n -> 0 <= shr_m mrs ->
  shr_m (fst (shr mrs e n)) = shr_m mrs / 2 ^ n /\ snd (shr mrs e n) = e + n.
Proof.
  intros Hn Hm. destruct n as [|p|p]; cbn [shr fst snd].
  - rewrite Z.pow_0_r, Z.div_1_r. lia.
  - split; [by apply iter_shr_1_m|reflexivity].
  - lia.
Qed.

Lemma shr_no_shift (mrs : shr_record) (e n : Z) :
  n <= 0 -> shr mrs e n = (mrs, e).
Proof. destruct n; [reflexivity|lia|reflexivity]. Qed.

Lemma canonical_in_format (m : positive) (e : Z) :
  canonical_mantissa prec emax m e = true <-> in_format (Zpos m) e.
Proof.
  unfold canonical_mantissa, in_format. rewrite fexp_eq, Z.eqb_eq.
  pose proof (digits2_bounds m) as [H1 H2].
  set (d := Zpos (digits2_pos m)) in *.
  assert (Hd : 0 < d) by (unfold d; lia).
  split.
  - intros He.
    assert (Hd53 : d <= 53) by lia.
    assert (2 ^ d <= 2 ^ 53) by (apply Z.pow_le_mono_r; lia).
    split; [lia|]. split; [lia|].
    intros Hgt. assert (d = 53) by lia. subst d.
    replace 52 with (Zpos (digits2_pos m) - 1) by lia. exact H1.
  - intros (He & [_ Hm] & Hnorm).
    assert (Hd53 : d - 1 < 53) by (apply pow2_lt_exp; lia).
    destruct (Z.eq_dec e (-1074)) as [->|Hne]; [lia|].
    assert (H52 : 2 ^ 52 <= Zpos m) by (apply Hnorm; lia).
    assert (52 < d) by (apply pow2_lt_exp; lia).
    lia.
Qed.

(** The first shift of [binary_round_aux]. *)
Lemma first_shift (M : positive) (e : Z) :
  let t := fexp prec emax (Zpos (digits2_pos M) + e) in
  e <= t ->
  snd (shr_fexp prec emax (Zpos M) e loc_Exact) = t
  /\ shr_m (fst (shr_fexp prec emax (Zpos M) e loc_Exact))
     = Zpos M / 2 ^ (t - e)
  /\ in_format (Zpos M / 2 ^ (t - e)) t.
Proof.
  intros t Het. unfold shr_fexp. cbn [Zdigits2 shr_record_of_loc]. fold t.
  destruct (shr_spec (Build_shr_record (Zpos M) false false) e (t - e))
    as [Hm He]; [lia|cbn [shr_m]; lia|].
  cbn [shr_m] in Hm. split; [lia|]. split; [exact Hm|].
  pose proof (digits2_bounds M) as [H1 H2].
  set (d := Zpos (digits2_pos M)) in *.
  assert (Hd : 0 < d) by (unfold d; lia).
  assert (Ht : t = Z.max (d + e - 53) (-1074)) by (unfold t; apply fexp_eq).
  assert (Hk : 0 < 2 ^ (t - e)) by (apply Z.pow_pos_nonneg; lia).
  unfold in_format. split; [lia|]. split; [split|].
  - apply Z.div_pos; lia.
  - apply Z.div_lt_upper_bound; [done|].
    rewrite <- Z.pow_add_r by lia.
    eapply Z.lt_le_trans; [exact H2|]. apply Z.pow_le_mono_r; lia.
  - intros Hgt. assert (Hte : t - e = d - 53) by lia.
    apply Z.div_le_lower_bound; [done|].
    rewrite <- Z.pow_add_r by lia.
    replace (t - e + 52) with (d - 1) by lia. exact H1.
Qed.

(** The second shift, after the rounding: it shifts by one bit when the
    rounding carried into a 54th bit, and does nothing otherwise. *)
Lemma second_shift (m' m t : Z) :
  in_format m' t -> m = m' \/ m = m' + 1 ->
  (m < 2 ^ 53
   /\ shr_m (fst (shr_fexp prec emax m t loc_Exact)) = m
   /\ snd (shr_fexp prec emax m t loc_Exact) = t)
  \/ (m = 2 ^ 53
      /\ shr_m (fst (shr_fexp prec emax m t loc_Exact)) = 2 ^ 52
      /\ snd (shr_fexp prec emax m t loc_Exact) = t + 1).
Proof.
  intros (He & [Hm0 Hm1] & Hnorm) Hm.
  assert (Hm' : 0 <= m <= 2 ^ 53) by lia.
  unfold shr_fexp. cbn [shr_record_of_loc]. rewrite fexp_eq.
  destruct (Z.eq_dec m (2 ^ 53)) as [->|Hne].
  - right. split; [reflexivity|].
    change (Zdigits2 (2 ^ 53)) with 54.
    replace (Z.max (54 + t - 53) (-1074) - t) with 1 by lia.
    split; [reflexivity|]. cbn [shr snd]. lia.
  - left. split; [lia|].
    assert (Hn : Z.max (Zdigits2 m + t - 53) (-1074) - t <= 0).
    { destruct m as [|p|p]; cbn [Zdigits2]; [lia| |lia].
      pose proof (digits2_bounds p) as [H1 H2].
      assert (Zpos (digits2_pos p) - 1 < 53) by (apply pow2_lt_exp; lia).
      lia. }
    by rewrite shr_no_shift.
Qed.

(** What [binary_round_aux] gives for a positive mantissa that is not
    shorter than the format asks for. *)
Lemma binary_round_aux_pos (M : positive) (e : Z) :
  let t := fexp prec emax (Zpos (digits2_pos M) + e) in
  let m' := Zpos M / 2 ^ (t - e) in
  e <= t ->
  in_format m' t
  /\ exists m'',
       (m'' = m' \/ m'' = m' + 1)
       /\ binary_round_aux prec emax false (Zpos M) e loc_Exact
          = if m'' =? 0 then S754_zero false
            else if m'' <? 2 ^ 53
                 then if t <=? 971 then S754_finite false (Z.to_pos m'') t
                      else S754_infinity false
                 else if t + 1 <=? 971
                      then S754_finite false (Z.to_pos (2 ^ 52)) (t + 1)
                      else S754_infinity false.
Proof.
  intros t m' Het.
  destruct (first_shift M e Het) as (He' & Hm' & Hfmt). fold t m' in He', Hm', Hfmt.
  split; [exact Hfmt|].
  unfold binary_round_aux.
  destruct (shr_fexp prec emax (Zpos M) e loc_Exact) as [mrs' e'] eqn:Hs1.
  cbn [fst snd] in He', Hm'. subst e'.
  set (m'' := round_nearest_even (shr_m mrs') (loc_of_shr_record mrs')).
  assert (Hm'' : m'' = m' \/ m'' = m' + 1).
  { unfold m''. rewrite <- Hm'. apply round_nearest_even_cases. }
  exists m''. split; [exact Hm''|].
  destruct (second_shift m' m'' t Hfmt Hm'') as [(Hlt & Hm3 & He3)|(Heq & Hm3 & He3)];
    destruct (shr_fexp prec emax m'' t loc_Exact) as [mrs'' e''];
    cbn [fst snd] in Hm3, He3; rewrite Hm3; subst e''.
  - destruct Hfmt as (_ & [Hm0 _] & _).
    destruct (Z.eqb_spec m'' 0) as [->|Hne]; [reflexivity|].
    destruct (Z.ltb_spec m'' (2 ^ 53)); [|lia].
    destruct m'' as [|p|p]; [done| |lia]. reflexivity.
  - rewrite Heq. reflexivity.
Qed.

Lemma digits2_shl (m k : positive) :
  Zpos (digits2_pos (Pos.iter xO m k)) = Zpos (digits2_pos m) + Zpos k.
Proof.
  apply digits2_unique. rewrite iter_xO_value.
  pose proof (digits2_bounds m) as [H1 H2].
  assert (Hk : 0 < 2 ^ Zpos k) by (apply Z.pow_pos_nonneg; lia).
  replace (Zpos (digits2_pos m) + Zpos k - 1)
    with (Zpos (digits2_pos m) - 1 + Zpos k) by lia.
  rewrite !Z.pow_add_r by lia. nia.
Qed.

(** After the alignment of [binary_round] the mantissa is not shorter than
    the format asks for. *)
Lemma shl_align_fexp (M : positive) (e : Z) :
  let '(mz, ez) :=
    shl_align M e (fexp prec emax (Zpos (digits2_pos M) + e)) in
  ez <= fexp prec emax (Zpos (digits2_pos mz) + ez).
Proof.
  unfold shl_align.
  destruct (fexp prec emax (Zpos (digits2_pos M) + e) - e) as [|k|k] eqn:Hk;
    [lia|lia|].
  rewrite digits2_shl.
  replace (Zpos (digits2_pos M) + Zpos k
           + fexp prec emax (Zpos (digits2_pos M) + e))
    with (Zpos (digits2_pos M) + e) by lia.
  lia.
Qed.

Lemma in_format_valid (m : positive) (e : Z) :
  in_format (Zpos m) e -> e <= 971 ->
  nonneg_double (S754_finite false m e) = true.
Proof.
  intros Hfmt He. unfold nonneg_double, valid_binary, bounded.
  rewrite (proj2 (canonical_in_format m e) Hfmt).
  change (emax - prec) with 971. by rewrite (proj2 (Z.leb_le e 971) He).
Qed.

(** The result of a rounding is a well-formed double of the sign asked
    for. *)
Lemma binary_round_aux_nonneg (M : positive) (e : Z) :
  e <= fexp prec emax (Zpos (digits2_pos M) + e) ->
  nonneg_double (binary_round_aux prec emax false (Zpos M) e loc_Exact) = true.
Proof.
  intros Het.
  destruct (binary_round_aux_pos M e Het) as (Hfmt & m'' & Hm'' & ->).
  destruct Hfmt as (He & [Hm0 Hm1] & Hnorm).
  destruct (Z.eqb_spec m'' 0) as [_|Hne]; [reflexivity|].
  destruct (Z.ltb_spec m'' (2 ^ 53)) as [Hlt|Hge].
  - destruct (Z.leb_spec (fexp prec emax (Zpos (digits2_pos M) + e)) 971);
      [|reflexivity].
    apply in_format_valid; [|done].
    rewrite Z2Pos.id by lia. unfold in_format. split; [done|]. split; lia.
  - destruct (Z.leb_spec (fexp prec emax (Zpos (digits2_pos M) + e) + 1) 971);
      [|reflexivity].
    apply in_format_valid; [|done].
    rewrite Z2Pos.id by (by apply Z.pow_pos_nonneg).
    unfold in_format. split; [lia|]. split; [|lia].
    split; [by apply Z.pow_nonneg|]. by apply Z.pow_lt_mono_r.
Qed.

Lemma binary_round_nonneg (M : positive) (e : Z) :
  nonneg_double (binary_round prec emax false M e) = true.
Proof.
  unfold binary_round. pose proof (shl_align_fexp M e) as H.
  destruct (shl_align M e _) as [mz ez]. by apply binary_round_aux_nonneg.
Qed.

(** ** The order of the doubles that are not negative *)

Lemma nonneg_finite_format (m : positive) (e : Z) :
  nonneg_double (S754_finite false m e) = true -> in_format (Zpos m) e.
Proof.
  unfold nonneg_double, valid_binary, bounded. intros H.
  apply canonical_in_format.
  by destruct (canonical_mantissa prec emax m e).
Qed.

Lemma nonneg_sign (x : double) :
  nonneg_double x = true ->
  match x with
  | S754_nan => False
  | S754_zero s | S754_infinity s | S754_finite s _ _ => s = false
  end.
Proof.
  unfold nonneg_double. intros H. apply andb_prop in H as [_ H].
  destruct x as [s|s| |s m e]; try (by destruct s). done.
Qed.

Lemma dle_refl (x : double) : nonneg_double x = true -> dle x x = true.
Proof.
  intros H. apply nonneg_sign in H. unfold dle, SFleb.
  destruct x as [s|s| |s m e]; cbn [SFcompare];
    [reflexivity|by destruct s|done|].
  subst s. by rewrite Z.compare_refl, Pos.compare_cont_refl.
Qed.

Lemma dle_finite (m1 m2 : positive) (e1 e2 : Z) :
  dle (S754_finite false m1 e1) (S754_finite false m2 e2) = true
  <-> e1 < e2 \/ (e1 = e2 /\ Zpos m1 <= Zpos m2).
Proof.
  unfold dle, SFleb. cbn [SFcompare].
  destruct (Z.compare_spec e1 e2) as [->|Hlt|Hgt].
  - change (Pos.compare_cont Eq m1 m2) with (Pos.compare m1 m2).
    destruct (Pos.compare_spec m1 m2) as [->|H|H]; split; try done; try lia;
      intros [?|[_ ?]]; lia.
  - split; [by left|done].
  - split; [done|lia].
Qed.

Lemma dle_trans (x y z : double) :
  nonneg_double x = true -> nonneg_double y = true -> nonneg_double z = true ->
  dle x y = true -> dle y z = true -> dle x z = true.
Proof.
  intros Hx Hy Hz.
  apply nonneg_sign in Hx. apply nonneg_sign in Hy. apply nonneg_sign in Hz.
  destruct x as [sx|sx| |sx mx ex]; [| |done|];
    (destruct y as [sy|sy| |sy my ey]; [| |done|]);
    (destruct z as [sz|sz| |sz mz ez]; [| |done|]);
    subst; try done.
  rewrite !dle_finite. lia.
Qed.

Lemma dle_finite_infinity (m : positive) (e : Z) :
  dle (S754_finite false m e) (S754_infinity false) = true.
Proof. reflexivity. Qed.

(** Rounding a value that is not below a double does not give less than
    that double. *)
Lemma binary_round_ge (mx M : positive) (ex ez : Z) :
  in_format (Zpos mx) ex -> ez <= ex ->
  Zpos mx * 2 ^ (ex - ez) <= Zpos M ->
  dle (S754_finite false mx ex) (binary_round prec emax false M ez) = true.
Proof.
  intros Hx Hez HM.
  pose proof (proj2 (canonical_in_format mx ex) Hx) as Hcan.
  unfold canonical_mantissa in Hcan. rewrite fexp_eq, Z.eqb_eq in Hcan.
  pose proof (digits2_bounds mx) as [Hx1 Hx2].
  pose proof (digits2_bounds M) as [HM1 HM2].
  set (dx := Zpos (digits2_pos mx)) in *.
  set (d := Zpos (digits2_pos M)) in *.
  assert (Hdx : 0 < dx) by (unfold dx; lia).
  assert (Hd : 0 < d) by (unfold d; lia).
  assert (Hk : 0 < 2 ^ (ex - ez)) by (apply Z.pow_pos_nonneg; lia).
  assert (Hdd : dx + (ex - ez) <= d).
  { assert (dx - 1 + (ex - ez) < d); [|lia].
    apply pow2_lt_exp; [lia|]. rewrite Z.pow_add_r by lia. nia. }
  set (t := fexp prec emax (d + ez)).
  assert (Ht : t = Z.max (d + ez - 53) (-1074)) by (unfold t; apply fexp_eq).
  assert (Hext : ex <= t) by lia.
  unfold binary_round. fold d t.
  assert (Hal : shl_align M ez t = (M, ez)).
  { unfold shl_align. destruct (t - ez) eqn:Hte; [reflexivity..|lia]. }
  rewrite Hal.
  destruct (binary_round_aux_pos M ez) as (Hfmt & m'' & Hm'' & ->);
    fold d t; [lia|].
  fold d t in Hfmt, Hm''.
  set (m' := Zpos M / 2 ^ (t - ez)) in *.
  destruct Hfmt as (He & [Hm0 Hm1] & Hnorm).
  assert (Hp52 : 0 < 2 ^ 52) by (by apply Z.pow_pos_nonneg).
  assert (Hm'1 : 1 <= m' /\ (t = ex -> Zpos mx <= m')).
  { destruct (Z.eq_dec t ex) as [Heq|Hne].
    - assert (Zpos mx <= m'); [|lia].
      unfold m'. rewrite Heq. apply Z.div_le_lower_bound; lia.
    - assert (2 ^ 52 <= m') by (apply Hnorm; destruct Hx; lia). lia. }
  destruct Hm'1 as [Hm'1 Hm'x].
  destruct (Z.eqb_spec m'' 0) as [H0|_]; [lia|].
  destruct (Z.ltb_spec m'' (2 ^ 53)) as [Hlt|Hge].
  - destruct (t <=? 971); [|apply dle_finite_infinity].
    apply dle_finite.
    destruct (Z.eq_dec t ex) as [Heq|Hne]; [right|left; lia].
    split; [done|]. specialize (Hm'x Heq).
    rewrite Z2Pos.id by lia. lia.
  - destruct (t + 1 <=? 971); [|apply dle_finite_infinity].
    apply dle_finite. left. lia.
Qed.

(** Adding a double that is not negative to another one gives a double
    that is not negative and not less than the first one: the rounding
    keeps the sum from falling below it. *)
Lemma dadd_nonneg (x d : double) :
  nonneg_double x = true -> nonneg_double d = true ->
  nonneg_double (dadd x d) = true /\ dle x (dadd x d) = true.
Proof.
  intros Hx Hd.
  pose proof (nonneg_sign x Hx) as Hsx. pose proof (nonneg_sign d Hd) as Hsd.
  destruct x as [sx|sx| |sx mx ex]; [| |done|];
    (destruct d as [sd|sd| |sd md ed]; [| |done|]); subst;
    try (split; [done|reflexivity]).
  - split; [exact Hx|by apply dle_refl].
  - unfold dadd, SFadd. cbn [cond_Zopp].
    set (ez := Z.min ex ed).
    set (a := fst (shl_align mx ex ez)).
    set (b := fst (shl_align md ed ez)).
    change (Zpos a + Zpos b) with (Zpos (a + b)). cbn [binary_normalize].
    split; [apply binary_round_nonneg|].
    apply binary_round_ge; [by apply nonneg_finite_format|unfold ez; lia|].
    rewrite <- shl_align_value by (unfold ez; lia). fold a. lia.
Qed.

(** The mantissas of two ordered doubles, brought to the same exponent,
    are ordered. *)
Lemma aligned_le (ma mb : positive) (ea eb : Z) :
  in_format (Zpos ma) ea -> in_format (Zpos mb) eb ->
  dle (S754_finite false ma ea) (S754_finite false mb eb) = true ->
  Zpos (fst (shl_align ma ea (Z.min eb ea)))
  <= Zpos (fst (shl_align mb eb (Z.min eb ea))).
Proof.
  intros Ha Hb Hle. apply dle_finite in Hle.
  rewrite !shl_align_value by lia.
  destruct Hle as [Hlt|[-> Hm]].
  - replace (Z.min eb ea) with ea by lia.
    rewrite Z.sub_diag, Z.pow_0_r.
    destruct Ha as (Hea & [_ Hma] & _). destruct Hb as (_ & _ & Hnorm).
    assert (2 ^ 52 <= Zpos mb) by (apply Hnorm; lia).
    assert (2 ^ 1 <= 2 ^ (eb - ea)) by (apply Z.pow_le_mono_r; lia).
    change (2 ^ 1) with 2 in *.
    change (2 ^ 53) with (2 * 2 ^ 52) in Hma.
    assert (0 < 2 ^ 52) by (by apply Z.pow_pos_nonneg). nia.
  - rewrite Z.min_id, Z.sub_diag, Z.pow_0_r. lia.
Qed.

(** The difference of two ordered doubles that are finite and not negative
    is not negative. *)
Lemma dsub_nonneg (a b : double) :
  nonneg_double a = true -> nonneg_double b = true ->
  is_finite a = true -> is_finite b = true ->
  dle a b = true ->
  nonneg_double (dsub b a) = true.
Proof.
  intros Ha Hb Hfa Hfb Hle.
  pose proof (nonneg_sign a Ha) as Hsa. pose proof (nonneg_sign b Hb) as Hsb.
  destruct a as [sa|sa| |sa ma ea]; [|done|done|];
    (destruct b as [sb|sb| |sb mb eb]; [|done|done|]); subst; try done.
  unfold dsub, SFsub. cbn [cond_Zopp].
  pose proof (aligned_le ma mb ea eb (nonneg_finite_format _ _ Ha)
                (nonneg_finite_format _ _ Hb) Hle) as Hal.
  destruct (Zpos (fst (shl_align mb eb (Z.min eb ea)))
            - Zpos (fst (shl_align ma ea (Z.min eb ea)))) as [|p|p] eqn:Hdiff;
    cbn [binary_normalize]; [reflexivity|apply binary_round_nonneg|lia].
Qed.
Module AtomicFacts.
Import Atomic.

(** ** The NAND shims *)

(** The all-ones word is [2^w - 1]. *)
Lemma all_ones_spec w : 0 <= w -> all_ones w = 2 ^ w - 1.
Proof.
  intros Hw. unfold all_ones, wrap. change (Z.lnot 0) with (-1).
  assert (0 < 2 ^ w) by (by apply Z.pow_pos_nonneg).
  symmetry. apply (Z.mod_unique _ _ (-1)); lia.
Qed.

(** XOR with the all-ones word complements the low [w] bits. *)
Lemma xor_all_ones w x :
  wrap w (Z.lxor (wrap w x) (all_ones w)) = wrap w (Z.lnot x).
Proof.
  destruct (Z.lt_ge_cases w 0) as [Hneg|Hw].
  - unfold all_ones, wrap. rewrite (Z.pow_neg_r 2 w Hneg), !Z.mod_0_r.
    change (Z.lnot 0) with (-1). apply Z.lxor_m1_r.
  - rewrite (all_ones_spec w Hw). unfold wrap. apply Z.bits_inj'.
    intros n Hn. destruct (Z.lt_ge_cases n w) as [Hlt|Hge].
    + rewrite !Z.mod_pow2_bits_low by lia.
      rewrite Z.lxor_spec, Z.lnot_spec by lia.
      rewrite Z.mod_pow2_bits_low by lia.
      replace (2 ^ w - 1) with (Z.ones w) by (rewrite Z.ones_equiv; lia).
      rewrite Z.ones_spec_low by lia. apply xorb_true_r.
    + by rewrite !Z.mod_pow2_bits_high by lia.
Qed.

Lemma xor_ones_after_and w old val :
  wrap w (Z.lxor (wrap w (Z.land old val)) (all_ones w))
  = wrap w (Z.lnot (Z.land old val)).
Proof. apply xor_all_ones. Qed.


(** The operand [~0] is the all-ones word of the type, and on 8 bits the
    sequence gives what the builtin gives on a sample. *)
Example all_ones_8 : all_ones 8 = 255.
Proof. reflexivity. Qed.

Example nand_workaround_sample :
  FETCH_NAND_workaround (mk_build (fun _ => true) false gcc_builtin 8) 8 202 64
  = 191
  /\ fst (gcc_builtin FETCH_NAND 8 202 64) = 191.
Proof. split; reflexivity. Qed.

(** On 64 bits [~0], an [int], becomes the word of 64 ones. *)
Example all_ones_64 : all_ones 64 = 18446744073709551615.
Proof. reflexivity. Qed.

(** ** The macro and the four exercise functions *)

Lemma DO_ATOMIC_OPS_metrics B w var m rc e :
  snd (fst (DO_ATOMIC_OPS B w var m rc e))
  = mk_metrics (dadd (duration m) (dsub (time_after e) (time_before e)))
               (dadd (count m) 64).
Proof.
  unfold DO_ATOMIC_OPS. by destruct (fold_left _ _ _).
Qed.

Lemma DO_ATOMIC_OPS_rc B w var m rc e :
  snd (DO_ATOMIC_OPS B w var m rc e) = if batch_check B w e then rc else -1.
Proof.
  unfold DO_ATOMIC_OPS. by destruct (fold_left _ _ _).
Qed.

Lemma exercise_word_metrics B w guard vals idx m e :
  snd (fst (exercise_word B w guard vals idx m e))
  = if guard
    then mk_metrics (dadd (duration m) (dsub (time_after e) (time_before e)))
                    (dadd (count m) 64)
    else m.
Proof.
  unfold exercise_word. destruct guard; [|reflexivity].
  pose proof (DO_ATOMIC_OPS_metrics B w (nth (Z.to_nat idx) vals 0) m 0 e) as H.
  destruct (DO_ATOMIC_OPS _ _ _ _ _ _) as [[v m'] rc]. exact H.
Qed.

Lemma exercise_word_rc B w guard vals idx m e :
  snd (exercise_word B w guard vals idx m e)
  = if guard then (if batch_check B w e then 0 else -1) else 0.
Proof.
  unfold exercise_word. destruct guard; [|reflexivity].
  pose proof (DO_ATOMIC_OPS_rc B w (nth (Z.to_nat idx) vals 0) m 0 e) as H.
  destruct (DO_ATOMIC_OPS _ _ _ _ _ _) as [[v m'] rc]. exact H.
Qed.

(** The entries of the table, by index. *)
Lemma atomic_func_info_cases B i fi :
  atomic_func_info B !! i = Some fi ->
  (i = 0%nat /\ func fi = stress_atomic_uint64 B)
  \/ (i = 1%nat /\ func fi = stress_atomic_uint32 B)
  \/ (i = 2%nat /\ func fi = stress_atomic_uint16 B)
  \/ (i = 3%nat /\ func fi = stress_atomic_uint8 B).
Proof.
  intros H. unfold atomic_func_info in H.
  destruct i as [|[|[|[|i]]]]; simpl in H; inversion H; subst; simpl; auto.
Qed.

(** What a call does to the accumulators it is given, and what it
    returns. *)
Lemma func_metrics B i fi ps m e :
  atomic_func_info B !! i = Some fi ->
  snd (fst (func fi ps m e))
  = if runs_batch B i
    then mk_metrics (dadd (duration m) (dsub (time_after e) (time_before e)))
                    (dadd (count m) 64)
    else m.
Proof.
  intros H.
  destruct (atomic_func_info_cases B i fi H) as [[-> ->]|[[-> ->]|[[-> ->]|[-> ->]]]];
    [ unfold stress_atomic_uint64;
      pose proof (exercise_word_metrics B 64 (sizeof_long B =? 8) (val64 ps) (idx64 ps) m e) as Hm
    | unfold stress_atomic_uint32;
      pose proof (exercise_word_metrics B 32 true (val32 ps) (idx32 ps) m e) as Hm
    | unfold stress_atomic_uint16;
      pose proof (exercise_word_metrics B 16 true (val16 ps) (idx16 ps) m e) as Hm
    | unfold stress_atomic_uint8;
      pose proof (exercise_word_metrics B 8 true (val8 ps) (idx8 ps) m e) as Hm ];
    destruct (exercise_word _ _ _ _ _ _ _) as [[[v x] m'] rc]; exact Hm.
Qed.

Lemma func_rc B i fi ps m e :
  atomic_func_info B !! i = Some fi ->
  snd (func fi ps m e) = if batch_ok B i e then 0 else -1.
Proof.
  intros H. unfold batch_ok.
  destruct (atomic_func_info_cases B i fi H) as [[-> ->]|[[-> ->]|[[-> ->]|[-> ->]]]];
    [ unfold stress_atomic_uint64;
      pose proof (exercise_word_rc B 64 (sizeof_long B =? 8) (val64 ps) (idx64 ps) m e) as Hm
    | unfold stress_atomic_uint32;
      pose proof (exercise_word_rc B 32 true (val32 ps) (idx32 ps) m e) as Hm
    | unfold stress_atomic_uint16;
      pose proof (exercise_word_rc B 16 true (val16 ps) (idx16 ps) m e) as Hm
    | unfold stress_atomic_uint8;
      pose proof (exercise_word_rc B 8 true (val8 ps) (idx8 ps) m e) as Hm ];
    destruct (exercise_word _ _ _ _ _ _ _) as [[[v x] m'] rc]; simpl in *;
    rewrite Hm; try reflexivity.
  by destruct (sizeof_long B =? 8).
Qed.

(** With every builtin present and working as documented the check cannot
    fail: a mismatch means that a builtin is missing or broken. *)
Lemma batch_check_gcc g sl w e :
  batch_check (mk_build (fun _ => true) g gcc_builtin sl) w e = true.
Proof.
  unfold batch_check, SHIM, SHIM_ATOMIC_LOAD. cbn.
  apply Z.eqb_eq. set (t := wrap w (mwc64 e)).
  rewrite wrap_sub_l.
  replace (wrap w (wrap w t + wrap w 2) - wrap w 1 - 1)
    with (wrap w (wrap w t + wrap w 2) - (wrap w 1 + 1)) by lia.
  rewrite wrap_sub_l.
  replace (wrap w t + wrap w 2 - (wrap w 1 + 1))
    with (wrap w t - (wrap w 1 + 1) + wrap w 2) by lia.
  rewrite wrap_add_r.
  replace (wrap w t - (wrap w 1 + 1) + 2) with (wrap w t + 1 - wrap w 1) by lia.
  rewrite wrap_sub_r.
  replace (wrap w t + 1 - 1) with (wrap w t) by lia.
  unfold t. by rewrite !wrap_wrap.
Qed.

(** ** The region *)

Lemma get_metrics_set_pid r p v q k :
  get_metrics (set_pid r p v) q k = get_metrics r q k.
Proof.
  unfold get_metrics, set_pid.
  destruct (decide (p = q)) as [->|Hne].
  - rewrite list_lookup_alter_eq. by destruct (r !! q).
  - by rewrite list_lookup_alter_ne.
Qed.

Lemma lookup_set_metrics_ne r p i m q :
  p <> q -> set_metrics r p i m !! q = r !! q.
Proof. intros Hne. unfold set_metrics. by apply list_lookup_alter_ne. Qed.

Lemma get_metrics_set_metrics_slot r p i m q k :
  p <> q -> get_metrics (set_metrics r p i m) q k = get_metrics r q k.
Proof. intros Hne. unfold get_metrics. by rewrite lookup_set_metrics_ne. Qed.

Lemma get_metrics_set_metrics_kind r p i m k :
  i <> k -> get_metrics (set_metrics r p i m) p k = get_metrics r p k.
Proof.
  intros Hne. unfold get_metrics, set_metrics. rewrite list_lookup_alter_eq.
  destruct (r !! p) as [s|]; [|reflexivity]. simpl.
  by rewrite list_lookup_insert_ne.
Qed.

(** Reading back what was written: the value written, or the old value
    where the index is outside the region (the write does nothing
    there). *)
Lemma get_metrics_set_metrics_same r p i m :
  get_metrics (set_metrics r p i m) p i = m
  \/ get_metrics (set_metrics r p i m) p i = get_metrics r p i.
Proof.
  unfold get_metrics, set_metrics. rewrite list_lookup_alter_eq.
  destruct (r !! p) as [s|]; [|by right]. simpl.
  destruct (decide (i < length (metrics s))%nat) as [Hlt|Hge].
  - left. by rewrite list_lookup_insert_eq.
  - right. rewrite list_insert_ge by lia. reflexivity.
Qed.

Lemma pid_set_metrics r p i m q :
  slot_pid (set_metrics r p i m) q = slot_pid r q.
Proof.
  unfold slot_pid, set_metrics.
  destruct (decide (p = q)) as [->|Hne].
  - rewrite list_lookup_alter_eq. by destruct (r !! q).
  - by rewrite list_lookup_alter_ne.
Qed.

(** ** One call through the slot pointer *)

Lemma call_func_world E f p i w :
  fst (call_func E f p i w)
  = mk_world (fst (fst (f (w_proc w) (get_metrics (atomic_info w) p i)
                          (batch E (calls w)))))
             (set_metrics (atomic_info w) p i
                (snd (fst (f (w_proc w) (get_metrics (atomic_info w) p i)
                             (batch E (calls w))))))
             (S (calls w)) (bogo w).
Proof.
  unfold call_func. by destruct (f _ _ _) as [[ps m] rc].
Qed.

Lemma call_func_rc E f p i w :
  snd (call_func E f p i w)
  = snd (f (w_proc w) (get_metrics (atomic_info w) p i) (batch E (calls w))).
Proof.
  unfold call_func. by destruct (f _ _ _) as [[ps m] rc].
Qed.

(** ** What the loops preserve

    A relation between the world before and after that holds across every
    call made through the table and across [stress_bogo_inc], and is
    reflexive and transitive, holds across the three loops. *)
Section Preserved.

Variable B : build.
Variable E : exercise_env.
Variable p : nat.
Variable P : world -> world -> Prop.

Hypothesis P_refl : forall w, P w w.
Hypothesis P_trans : forall w1 w2 w3, P w1 w2 -> P w2 w3 -> P w1 w3.
Hypothesis P_call : forall i fi w,
  atomic_func_info B !! i = Some fi ->
  P w (fst (call_func E (func fi) p i w)).
Hypothesis P_bogo : forall w, P w (stress_bogo_inc w).

Lemma exercise_rounds_preserves i fi n w :
  atomic_func_info B !! i = Some fi ->
  P w (fst (exercise_rounds E (func fi) p i n w)).
Proof using P_refl P_trans P_call.
  intros Hfi. revert w. induction n as [|n IH]; intros w; simpl.
  - apply P_refl.
  - pose proof (P_call i fi w Hfi) as Hc.
    destruct (call_func E (func fi) p i w) as [w' rc]. simpl in Hc.
    destruct (rc <? 0); simpl.
    + exact Hc.
    + eapply P_trans; [exact Hc|apply IH].
Qed.

Lemma exercise_funcs_preserves fs i n w :
  (forall t fi, fs !! t = Some fi -> atomic_func_info B !! (i + t)%nat = Some fi) ->
  P w (fst (exercise_funcs E fs p i n w)).
Proof using P_refl P_trans P_call.
  revert i w. induction fs as [|fi fs IH]; intros i w Hfs; simpl.
  - apply P_refl.
  - assert (Hfi : atomic_func_info B !! i = Some fi).
    { specialize (Hfs 0%nat fi eq_refl). by rewrite Nat.add_0_r in Hfs. }
    pose proof (exercise_rounds_preserves i fi n w Hfi) as Hr.
    destruct (exercise_rounds E (func fi) p i n w) as [w' failed]. simpl in Hr.
    destruct failed; simpl.
    + exact Hr.
    + eapply P_trans; [exact Hr|]. apply IH.
      intros t fj Ht. specialize (Hfs (S t) fj Ht).
      by rewrite Nat.add_succ_r in Hfs.
Qed.

Lemma stress_atomic_exercise_preserves fuel w :
  P w (fst (stress_atomic_exercise B E p fuel w)).
Proof using P_refl P_trans P_call P_bogo.
  revert w. induction fuel as [|fuel IH]; intros w;
    cbn [stress_atomic_exercise].
  - apply P_refl.
  - pose proof (exercise_funcs_preserves (atomic_func_info B) 0 rounds w
                  (fun t fi H => H)) as Hf.
    destruct (exercise_funcs E (atomic_func_info B) p 0 rounds w) as [w1 failed].
    simpl in Hf. destruct failed; simpl.
    + exact Hf.
    + destruct (stress_continue E (bogo w1)); simpl.
      * eapply P_trans; [exact Hf|]. eapply P_trans; [apply P_bogo|apply IH].
      * eapply P_trans; [exact Hf|apply P_bogo].
Qed.

End Preserved.

(** ** Slot isolation *)

(** A run of [stress_atomic_exercise] on slot [p] leaves every other slot
    as it was. *)
Lemma exercise_frame B E p fuel w q :
  p <> q ->
  atomic_info (fst (stress_atomic_exercise B E p fuel w)) !! q
  = atomic_info w !! q.
Proof.
  intros Hne.
  apply (stress_atomic_exercise_preserves B E p
           (fun w w' => atomic_info w' !! q = atomic_info w !! q)).
  - reflexivity.
  - intros w1 w2 w3 H12 H23. by rewrite H23.
  - intros i fi w0 _. rewrite call_func_world. simpl.
    by apply lookup_set_metrics_ne.
  - reflexivity.
Qed.

(** It leaves the pid of its own slot as it was, too. *)
Lemma exercise_pid B E p fuel w q :
  slot_pid (atomic_info (fst (stress_atomic_exercise B E p fuel w))) q
  = slot_pid (atomic_info w) q.
Proof.
  apply (stress_atomic_exercise_preserves B E p
           (fun w w' => slot_pid (atomic_info w') q = slot_pid (atomic_info w) q)).
  - reflexivity.
  - intros w1 w2 w3 H12 H23. by rewrite H23.
  - intros i fi w0 _. rewrite call_func_world. simpl. apply pid_set_metrics.
  - reflexivity.
Qed.

(** *** A process sees its own slot only *)

Lemma get_metrics_same_slot r1 r2 p i :
  r1 !! p = r2 !! p -> get_metrics r1 p i = get_metrics r2 p i.
Proof. intros H. unfold get_metrics. by rewrite H. Qed.

Lemma call_func_same E f p i w1 w2 :
  same_slot p w1 w2 ->
  snd (call_func E f p i w1) = snd (call_func E f p i w2)
  /\ same_slot p (fst (call_func E f p i w1)) (fst (call_func E f p i w2)).
Proof.
  intros (Hp & Hc & Hb & Hs).
  rewrite !call_func_rc, !call_func_world.
  rewrite (get_metrics_same_slot _ _ p i Hs), Hp, Hc, Hb.
  split; [reflexivity|]. unfold same_slot. cbn [w_proc calls bogo atomic_info].
  repeat split. unfold set_metrics. by rewrite !list_lookup_alter_eq, Hs.
Qed.

Lemma exercise_rounds_same E f p i n : forall w1 w2,
  same_slot p w1 w2 ->
  snd (exercise_rounds E f p i n w1) = snd (exercise_rounds E f p i n w2)
  /\ same_slot p (fst (exercise_rounds E f p i n w1))
       (fst (exercise_rounds E f p i n w2)).
Proof.
  induction n as [|n IH]; intros w1 w2 Hs; simpl; [by split|].
  destruct (call_func_same E f p i w1 w2 Hs) as [Hrc Hw].
  destruct (call_func E f p i w1) as [w1' rc1].
  destruct (call_func E f p i w2) as [w2' rc2].
  simpl in Hrc, Hw. subst rc2.
  destruct (rc1 <? 0); [by split|by apply IH].
Qed.

Lemma exercise_funcs_same E p n fs : forall i w1 w2,
  same_slot p w1 w2 ->
  snd (exercise_funcs E fs p i n w1) = snd (exercise_funcs E fs p i n w2)
  /\ same_slot p (fst (exercise_funcs E fs p i n w1))
       (fst (exercise_funcs E fs p i n w2)).
Proof.
  induction fs as [|fi fs IH]; intros i w1 w2 Hs; simpl; [by split|].
  destruct (exercise_rounds_same E (func fi) p i n w1 w2 Hs) as [Hfl Hw].
  destruct (exercise_rounds E (func fi) p i n w1) as [w1' fl1].
  destruct (exercise_rounds E (func fi) p i n w2) as [w2' fl2].
  simpl in Hfl, Hw. subst fl2.
  destruct fl1; [by split|by apply IH].
Qed.

(** What a process does on slot [p], and what it returns, depends on the
    region through slot [p] only. *)
Lemma exercise_same B E p fuel : forall w1 w2,
  same_slot p w1 w2 ->
  snd (stress_atomic_exercise B E p fuel w1)
  = snd (stress_atomic_exercise B E p fuel w2)
  /\ same_slot p (fst (stress_atomic_exercise B E p fuel w1))
       (fst (stress_atomic_exercise B E p fuel w2)).
Proof.
  induction fuel as [|fuel IH]; intros w1 w2 Hs;
    cbn [stress_atomic_exercise]; [by split|].
  destruct (exercise_funcs_same E p rounds (atomic_func_info B) 0 w1 w2 Hs)
    as [Hfl Hw].
  destruct (exercise_funcs E (atomic_func_info B) p 0 rounds w1) as [w1' fl1].
  destruct (exercise_funcs E (atomic_func_info B) p 0 rounds w2) as [w2' fl2].
  simpl in Hfl, Hw. subst fl2.
  destruct fl1; [by split|].
  destruct Hw as (Hp & Hc & Hb & Hslot). rewrite Hb.
  assert (Hinc : same_slot p (stress_bogo_inc w1') (stress_bogo_inc w2')).
  { unfold same_slot, stress_bogo_inc. cbn [w_proc calls bogo atomic_info].
    rewrite Hp, Hc, Hb. by repeat split. }
  destruct (stress_continue E (bogo w2')); [by apply IH|by split].
Qed.

Lemma get_metrics_lookup r r' q k :
  r' !! q = r !! q -> get_metrics r' q k = get_metrics r q k.
Proof. intros H. unfold get_metrics. by rewrite H. Qed.

(** ** Monotone accumulators *)

Lemma metrics_le_refl m : metrics_ok m -> metrics_le m m.
Proof. intros [Hd Hc]. split; by apply dle_refl. Qed.

Lemma metrics_le_trans m1 m2 m3 :
  metrics_ok m1 -> metrics_ok m2 -> metrics_ok m3 ->
  metrics_le m1 m2 -> metrics_le m2 m3 -> metrics_le m1 m3.
Proof.
  intros [A1 A2] [B1 B2] [C1 C2] [H1 H2] [H3 H4].
  split;
    [exact (dle_trans _ _ _ A1 B1 C1 H1 H3)|exact (dle_trans _ _ _ A2 B2 C2 H2 H4)].
Qed.

(** The amount a batch adds to [duration] is not negative when the clock
    did not run backwards. *)
Lemma elapsed_nonneg (before after : double) :
  is_reading before = true -> is_reading after = true ->
  dle before after = true ->
  nonneg_double (dsub after before) = true.
Proof.
  unfold is_reading. intros Hb Ha Hle.
  apply andb_prop in Hb as [Hb1 Hb2]. apply andb_prop in Ha as [Ha1 Ha2].
  by apply dsub_nonneg.
Qed.

(** One call never lowers accumulators that are not negative, if the clock
    did not run backwards during the batch; and it leaves them not
    negative. *)
Lemma func_metrics_le B i fi ps m e :
  atomic_func_info B !! i = Some fi ->
  is_reading (time_before e) = true -> is_reading (time_after e) = true ->
  dle (time_before e) (time_after e) = true ->
  metrics_ok m ->
  metrics_ok (snd (fst (func fi ps m e)))
  /\ metrics_le m (snd (fst (func fi ps m e))).
Proof.
  intros Hfi Hb Ha Ht [Hd Hc]. rewrite (func_metrics B i fi ps m e Hfi).
  destruct (runs_batch B i).
  - destruct (dadd_nonneg (duration m) (dsub (time_after e) (time_before e)) Hd
                (elapsed_nonneg _ _ Hb Ha Ht)) as [H1 H2].
    destruct (dadd_nonneg (count m) 64 Hc eq_refl) as [H3 H4].
    by repeat split.
  - split; [by split|]. by apply metrics_le_refl.
Qed.

Lemma exercise_metrics_le B E p fuel w q k :
  monotonic_clock E ->
  metrics_ok (get_metrics (atomic_info w) q k) ->
  metrics_ok
    (get_metrics (atomic_info (fst (stress_atomic_exercise B E p fuel w))) q k)
  /\ metrics_le (get_metrics (atomic_info w) q k)
       (get_metrics
          (atomic_info (fst (stress_atomic_exercise B E p fuel w))) q k).
Proof.
  intros Hclock.
  apply (stress_atomic_exercise_preserves B E p
           (fun w w' =>
              metrics_ok (get_metrics (atomic_info w) q k) ->
              metrics_ok (get_metrics (atomic_info w') q k)
              /\ metrics_le (get_metrics (atomic_info w) q k)
                            (get_metrics (atomic_info w') q k))).
  - intros w0 Hok. split; [done|by apply metrics_le_refl].
  - intros w1 w2 w3 H12 H23 Hok.
    destruct (H12 Hok) as [Hok2 Hle12]. destruct (H23 Hok2) as [Hok3 Hle23].
    split; [done|]. by apply (metrics_le_trans _ _ _ Hok Hok2 Hok3).
  - intros i fi w0 Hfi Hok. rewrite call_func_world. simpl.
    destruct (decide (p = q)) as [<-|Hpq].
    + destruct (decide (i = k)) as [<-|Hik].
      * destruct (Hclock (calls w0)) as (Hb & Ha & Ht).
        destruct (get_metrics_set_metrics_same (atomic_info w0) p i
                    (snd (fst (func fi (w_proc w0)
                       (get_metrics (atomic_info w0) p i)
                       (batch E (calls w0)))))) as [-> | ->].
        -- by apply (func_metrics_le B i fi).
        -- split; [done|by apply metrics_le_refl].
      * rewrite get_metrics_set_metrics_kind by done.
        split; [done|by apply metrics_le_refl].
    + rewrite get_metrics_set_metrics_slot by done.
      split; [done|by apply metrics_le_refl].
  - intros w0 Hok. split; [done|by apply metrics_le_refl].
Qed.

(** ** Each worker on its own slot *)

(** What a run leaves in its own slot depends on that slot alone. *)
Lemma region_after_local B E p fuel ps r1 r2 :
  r1 !! p = r2 !! p ->
  region_after B E p fuel ps r1 !! p = region_after B E p fuel ps r2 !! p.
Proof.
  intros Hr.
  apply (exercise_same B E p fuel (mk_world ps r1 0 0) (mk_world ps r2 0 0)).
  unfold same_slot. cbn [w_proc calls bogo atomic_info]. by repeat split.
Qed.

Lemma region_after_frame B E p fuel ps r q :
  p <> q -> region_after B E p fuel ps r !! q = r !! q.
Proof.
  intros Hne. exact (exercise_frame B E p fuel (mk_world ps r 0 0) q Hne).
Qed.

Lemma lookup_set_pid_ne r p v q : p <> q -> set_pid r p v !! q = r !! q.
Proof. intros Hne. unfold set_pid. by apply list_lookup_alter_ne. Qed.

Lemma child_slot_local B env ps c r1 r2 :
  r1 !! c = r2 !! c -> child_slot B env ps c r1 = child_slot B env ps c r2.
Proof.
  intros Hr. unfold child_slot, set_pid. rewrite !list_lookup_alter_eq.
  f_equal. destruct (0 <? fork_pid env c); [|exact Hr].
  by apply region_after_local.
Qed.

(** The fork loop gives each child its own slot: slot [c] of the region it
    leaves is what child [c] alone leaves there, and every other slot is
    as it was. *)
Lemma fork_children_slots B env ps : forall k i r c,
  fst (fork_children B env ps i k r) !! c
  = if (i <=? c)%nat && (c <? i + k)%nat
    then child_slot B env ps c r else r !! c.
Proof.
  induction k as [|k IH]; intros i r c; cbn [fork_children fst].
  - replace (c <? i + 0)%nat with (c <? i)%nat by (f_equal; lia).
    destruct (Nat.leb_spec i c), (Nat.ltb_spec c i); try reflexivity; lia.
  - set (r1 := if 0 <? fork_pid env i
               then atomic_info
                      (fst (stress_atomic_child B (child_env env i) i
                              (child_fuel env i) (mk_world ps r 0 0)))
               else r).
    assert (Hr1 : r1 = if 0 <? fork_pid env i
                       then region_after B (child_env env i) i
                              (child_fuel env i) ps r
                       else r).
    { unfold r1, region_after, stress_atomic_child.
      destruct (0 <? fork_pid env i); [|reflexivity].
      by destruct (stress_atomic_exercise B (child_env env i) i
                     (child_fuel env i) (mk_world ps r 0 0)) as [w' [rc|]]. }
    specialize (IH (S i) (set_pid r1 i (fork_pid env i)) c).
    destruct (fork_children B env ps (S i) k (set_pid r1 i (fork_pid env i)))
      as [r3 evs]. cbn [fst] in IH |- *. rewrite IH.
    assert (Hother : i <> c -> set_pid r1 i (fork_pid env i) !! c = r !! c).
    { intros Hne. rewrite lookup_set_pid_ne by done. rewrite Hr1.
      destruct (0 <? fork_pid env i); [|reflexivity].
      by apply region_after_frame. }
    destruct (Nat.leb_spec (S i) c) as [Hle|Hgt];
      destruct (Nat.ltb_spec c (S i + k)) as [Hlt|Hge]; cbn [andb].
    + destruct (Nat.leb_spec i c); [|lia].
      destruct (Nat.ltb_spec c (i + S k)); [|lia]. cbn [andb].
      apply child_slot_local. apply Hother. lia.
    + destruct (Nat.ltb_spec c (i + S k)); [lia|].
      rewrite andb_false_r. apply Hother. lia.
    + destruct (decide (i = c)) as [<-|Hne].
      * destruct (Nat.leb_spec i i); [|lia].
        destruct (Nat.ltb_spec i (i + S k)); [|lia]. cbn [andb].
        unfold child_slot. by rewrite Hr1.
      * destruct (Nat.leb_spec i c); [lia|]. cbn [andb]. by apply Hother.
    + destruct (decide (i = c)) as [<-|Hne]; [lia|].
      destruct (Nat.leb_spec i c); [lia|]. cbn [andb]. by apply Hother.
Qed.

Lemma stress_atomic_region B env ps :
  mmap_failed env = false ->
  snd (stress_atomic B env ps)
  = region_after B (parent_env env) STRESS_ATOMIC_MAX_PROCS (parent_fuel env) ps
      (fst (fork_children B env ps 0 STRESS_ATOMIC_MAX_PROCS region0)).
Proof.
  intros Hmap. unfold stress_atomic. rewrite Hmap. fold region0.
  destruct (fork_children B env ps 0 STRESS_ATOMIC_MAX_PROCS region0)
    as [r1 forks]. cbn [fst].
  change (S STRESS_ATOMIC_MAX_PROCS - 1)%nat with STRESS_ATOMIC_MAX_PROCS.
  unfold region_after.
  destruct (stress_atomic_exercise B (parent_env env) STRESS_ATOMIC_MAX_PROCS
              (parent_fuel env) (mk_world ps r1 0 0)) as [w [ret|]];
    [|reflexivity].
  by destruct (reap_children env (atomic_info w) 0 STRESS_ATOMIC_MAX_PROCS _).
Qed.

(** In a run of [stress_atomic] the accumulators of slot [c] are those
    worker [c] alone leaves there: child [c] for [c < 3], the parent for
    slot 3. *)
Lemma stress_atomic_slots B env ps c k :
  mmap_failed env = false ->
  get_metrics (snd (stress_atomic B env ps)) c k
  = get_metrics (worker_alone B env ps c) c k.
Proof.
  intros Hmap. rewrite (stress_atomic_region B env ps Hmap).
  unfold worker_alone, worker_ran, worker_env, worker_fuel.
  pose proof (fork_children_slots B env ps STRESS_ATOMIC_MAX_PROCS 0 region0 c)
    as Hfork.
  destruct (Nat.ltb_spec c STRESS_ATOMIC_MAX_PROCS) as [Hlt|Hge].
  - destruct (Nat.leb_spec 0 c); [|lia].
    destruct (Nat.ltb_spec c (0 + STRESS_ATOMIC_MAX_PROCS)); [|lia].
    cbn [andb] in Hfork. unfold child_slot in Hfork.
    rewrite (get_metrics_same_slot _ _ c k
               (region_after_frame B (parent_env env) STRESS_ATOMIC_MAX_PROCS
                  (parent_fuel env) ps _ c ltac:(lia))).
    rewrite (get_metrics_same_slot _ _ c k Hfork), get_metrics_set_pid.
    by destruct (0 <? fork_pid env c).
  - destruct (Nat.leb_spec 0 c); [|lia].
    destruct (Nat.ltb_spec c (0 + STRESS_ATOMIC_MAX_PROCS)); [lia|].
    cbn [andb] in Hfork.
    destruct (Nat.eqb_spec c STRESS_ATOMIC_MAX_PROCS) as [->|Hne].
    + apply get_metrics_same_slot. by apply region_after_local.
    + apply get_metrics_same_slot.
      rewrite region_after_frame by (intros Heq; by apply Hne). exact Hfork.
Qed.

(** The initialisation loops leave four slots of four zero accumulators
    each, with pid -1. *)
Example region0_is_zero :
  region0 = replicate 4 (mk_info (replicate 4 zero_metrics) (-1)).
Proof. reflexivity. Qed.

Lemma region0_ok q k : metrics_ok (get_metrics region0 q k).
Proof.
  destruct q as [|[|[|[|q]]]]; destruct k as [|[|[|[|k]]]]; by split.
Qed.

(** C5.  In [stress_atomic] each worker accumulates into its own slot
    only: the accumulators the parent finds in slot [c] when the run is
    over are those worker [c] alone leaves there from the region as it was
    initialised, child [c] for [c < 3] (nothing when its [fork] failed) and
    the parent for slot 3.  For the writes made on behalf of worker [i] (a
    run of [stress_atomic_exercise] on slot [i]) leave every other slot [j]
    as it was, its accumulators of every workload kind and the slot as a
    whole; and the only other write of the parent into a child's slot is the
    pid it records there after [fork], which leaves the accumulators of
    every slot as they were. *)
Theorem slot_isolation B env ps :
  mmap_failed env = false ->
  (forall c k,
      get_metrics (snd (stress_atomic B env ps)) c k
      = get_metrics (worker_alone B env ps c) c k)
  /\ (forall E i j fuel w,
        i <> j ->
        atomic_info (fst (stress_atomic_exercise B E i fuel w)) !! j
          = atomic_info w !! j
        /\ atomic_info (fst (stress_atomic_child B E i fuel w)) !! j
          = atomic_info w !! j
        /\ (forall k,
              get_metrics
                (atomic_info (fst (stress_atomic_exercise B E i fuel w))) j k
              = get_metrics (atomic_info w) j k)
        /\ (forall q k v,
              get_metrics (set_pid (atomic_info w) q v) j k
              = get_metrics (atomic_info w) j k)).
Proof.
  intros Hmap. split.
  - intros c k. by apply stress_atomic_slots.
  - intros E i j fuel w Hne.
    pose proof (exercise_frame B E i fuel w j Hne) as Hframe.
    repeat split.
    + exact Hframe.
    + unfold stress_atomic_child.
      destruct (stress_atomic_exercise B E i fuel w) as [w' [rc|]]; exact Hframe.
    + intros k. by apply get_metrics_lookup.
    + intros q k v. apply get_metrics_set_pid.
Qed.

(** Two processes on different slots can be run in either order: each slot
    ends up as its owner alone would leave it.  This is what lets
    [fork_children] run the children one after the other. *)
Lemma region_after_commute B Ei Ej i j fi fj psi psj r :
  i <> j ->
  region_after B Ej j fj psj (region_after B Ei i fi psi r)
  = region_after B Ei i fi psi (region_after B Ej j fj psj r).
Proof.
  intros Hne.
  assert (Hji : j <> i) by (intros ->; by apply Hne).
  apply list_eq. intros q.
  destruct (decide (q = i)) as [->|Hqi]; [|destruct (decide (q = j)) as [->|Hqj]].
  - rewrite (region_after_frame B Ej j fj psj _ i Hji).
    apply region_after_local. symmetry. by apply region_after_frame.
  - rewrite (region_after_frame B Ei i fi psi _ j Hne).
    apply region_after_local. by apply region_after_frame.
  - assert (Hiq : i <> q) by (intros ->; by apply Hqi).
    assert (Hjq : j <> q) by (intros ->; by apply Hqj).
    by rewrite !region_after_frame.
Qed.

Lemma slot_isolation_witness :
  mmap_failed atomic_env_ok = false
  /\ get_metrics (snd (stress_atomic build_lp64 atomic_env_ok proc0)) 0 1
     = get_metrics (worker_alone build_lp64 atomic_env_ok proc0 0) 0 1.
Proof.
  split; [reflexivity|].
  exact (proj1 (slot_isolation build_lp64 atomic_env_ok proc0 eq_refl)
           0%nat 1%nat).
Defined.

(** A run with one child: slot 0 holds the child's 1000 batches of one
    second, slot 3 the parent's 1000 batches of two seconds, and the slot of
    a child that was not created holds nothing. *)
Example each_slot_its_own_worker :
  let r := snd (stress_atomic build_lp64 atomic_env_child_failed proc0) in
  (get_metrics r 0 1, get_metrics r 1 1, get_metrics r 3 1)
  = (mk_metrics 1000 64000, zero_metrics, mk_metrics 2000 64000).
Proof. vm_compute. reflexivity. Qed.

(** C8, as the code has it.  A call of an exercise function that expands
    the macro (the 32, 16 and 8-bit functions always, the 64-bit one where
    [sizeof(long int) == sizeof(uint64_t)]) adds the difference of its two
    clock readings to [duration] and 64.0 to [count], both in double
    arithmetic; a call of the 64-bit function elsewhere leaves both as they
    were.  If the clock does not run backwards during a batch the amount
    added to [duration] is not negative, and accumulators that are not
    negative, as those of the initialised region are, stay so and are never
    lowered by a call: the rounding of the sums does not bring them down.
    Hence across a run of [stress_atomic_exercise] the accumulators of every
    slot and kind do not decrease.  Only the owning worker's loop changes
    them: a run on slot [p] leaves every other slot as it was, and in
    [stress_atomic] the accumulators of slot [c] are those worker [c] alone
    leaves there. *)
Theorem accumulators_monotone B E p fuel w :
  monotonic_clock E ->
  (forall i fi ps m c,
      atomic_func_info B !! i = Some fi ->
      let e := batch E c in
      let m' := snd (fst (func fi ps m e)) in
      (runs_batch B i = true ->
       duration m' = dadd (duration m) (dsub (time_after e) (time_before e))
       /\ count m' = dadd (count m) 64
       /\ nonneg_double (dsub (time_after e) (time_before e)) = true)
      /\ (runs_batch B i = false -> m' = m)
      /\ (metrics_ok m -> metrics_ok m' /\ metrics_le m m'))
  /\ (forall q k, metrics_ok (get_metrics region0 q k))
  /\ (forall q k,
        metrics_ok (get_metrics (atomic_info w) q k) ->
        metrics_ok
          (get_metrics
             (atomic_info (fst (stress_atomic_exercise B E p fuel w))) q k)
        /\ metrics_le (get_metrics (atomic_info w) q k)
             (get_metrics
                (atomic_info (fst (stress_atomic_exercise B E p fuel w))) q k))
  /\ (forall q,
        q <> p ->
        atomic_info (fst (stress_atomic_exercise B E p fuel w)) !! q
        = atomic_info w !! q)
  /\ (forall env ps c k,
        mmap_failed env = false ->
        get_metrics (snd (stress_atomic B env ps)) c k
        = get_metrics (worker_alone B env ps c) c k).
Proof.
  intros Hclock. split; [|split; [|split; [|split]]].
  - intros i fi ps m c Hfi e m'.
    destruct (Hclock c) as (Hb & Ha & Ht). fold e in Hb, Ha, Ht.
    split; [|split].
    + intros Hruns. unfold m'. rewrite (func_metrics B i fi ps m e Hfi), Hruns.
      split; [reflexivity|]. split; [reflexivity|]. by apply elapsed_nonneg.
    + intros Hruns. unfold m'. by rewrite (func_metrics B i fi ps m e Hfi), Hruns.
    + intros Hok. by apply (func_metrics_le B i fi).
  - apply region0_ok.
  - intros q k Hok. by apply exercise_metrics_le.
  - intros q Hne. apply exercise_frame. intros ->. by apply Hne.
  - intros env ps c k Hmap. by apply stress_atomic_slots.
Qed.

Lemma env_one_pass_monotonic : monotonic_clock env_one_pass.
Proof. intros c. by repeat split. Defined.

Lemma accumulators_monotone_witness :
  monotonic_clock env_one_pass
  /\ (metrics_ok (get_metrics (atomic_info world0) 3 1) ->
      metrics_ok
        (get_metrics
           (atomic_info
              (fst (stress_atomic_exercise build_lp64 env_one_pass 3 1 world0)))
           3 1)
      /\ metrics_le (get_metrics (atomic_info world0) 3 1)
           (get_metrics
              (atomic_info
                 (fst (stress_atomic_exercise build_lp64 env_one_pass 3 1 world0)))
              3 1)).
Proof.
  split; [exact env_one_pass_monotonic|].
  exact (proj1 (proj2 (proj2 (accumulators_monotone build_lp64 env_one_pass 3 1
                                world0 env_one_pass_monotonic)))
           3%nat 1%nat).
Defined.

(** The claim as first stated, "every invocation adds exactly 64.0 to the
    count", fails for the 64-bit function of a build whose [long int] has 4
    bytes: the call adds nothing. *)
Lemma count_not_always_64 :
  ~ (forall B i fi ps m e,
        atomic_func_info B !! i = Some fi ->
        count (snd (fst (func fi ps m e))) = dadd (count m) 64).
Proof.
  intros H.
  specialize (H build_ilp32 0%nat _ proc0 zero_metrics
                (mk_batch_env 0 0 0 1) eq_refl).
  vm_compute in H. discriminate.
Qed.

(** The same call on the two builds: half a second and 64 operations on
    the one, nothing on the other. *)
Example uint64_on_lp64 :
  snd (fst (stress_atomic_uint64 build_lp64 proc0 zero_metrics
              (mk_batch_env 5 0 (ddiv 1 2) (ddiv 3 2))))
  = mk_metrics 1 64.
Proof. vm_compute. reflexivity. Qed.

Example uint64_on_ilp32 :
  snd (fst (stress_atomic_uint64 build_ilp32 proc0 zero_metrics
              (mk_batch_env 5 0 (ddiv 1 2) (ddiv 3 2))))
  = zero_metrics.
Proof. reflexivity. Qed.

(** The sums are those of doubles: a tenth of a second and then two tenths
    make 0.30000000000000004 s (5404319552844596 * 2^-54), and the count
    stays a whole number. *)
Example sums_are_rounded :
  let m1 :=
    snd (fst (stress_atomic_uint32 build_lp64 proc0 zero_metrics
                (mk_batch_env 5 0 0 (ddiv 1 10)))) in
  let m2 :=
    snd (fst (stress_atomic_uint32 build_lp64 proc0 m1
                (mk_batch_env 6 0 0 (ddiv 2 10)))) in
  m2 = mk_metrics (S754_finite false 5404319552844596 (-54)) 128.
Proof. vm_compute. reflexivity. Qed.

(** ** Aggregation *)

Lemma sum_slots_spec r j k : forall i a b,
  sum_slots r j i k (a, b)
  = (fold_left dadd (map (fun i => duration (get_metrics r i j)) (seq i k)) a,
     fold_left dadd (map (fun i => count (get_metrics r i j)) (seq i k)) b).
Proof.
  induction k as [|k IH]; intros i a b; cbn [sum_slots seq map fold_left fst snd];
    [reflexivity|apply IH].
Qed.

Lemma aggregate_spec r j :
  aggregate r 4 j
  = Some (dsum (column duration r j 4), dsum (column count r j 4), rate_of r j).
Proof.
  unfold aggregate, rate_of, dsum, column. rewrite sum_slots_spec.
  set (d := fold_left dadd _ d0). set (c := fold_left dadd _ d0).
  destruct (dgt d d0) eqn:Hgt; [|reflexivity].
  by rewrite (fdiv_guarded c d Hgt).
Qed.

Lemma fork_children_no_report B env ps : forall k i r,
  List.filter is_metrics_set (snd (fork_children B env ps i k r)) = [].
Proof.
  induction k as [|k IH]; intros i r; cbn [fork_children]; [reflexivity|].
  match goal with
  | |- context [fork_children B env ps (S i) k ?r2] =>
      specialize (IH (S i) r2); destruct (fork_children B env ps (S i) k r2)
  end.
  exact IH.
Qed.

Lemma reap_children_no_report env r : forall k i rc,
  List.filter is_metrics_set (snd (reap_children env r i k rc)) = [].
Proof.
  induction k as [|k IH]; intros i rc; cbn [reap_children]; [reflexivity|].
  destruct (0 <? slot_pid r i); [|apply IH].
  destruct (waitpid_nohang env i) as [[code|sig]|ret].
  - specialize (IH (S i) (if code =? exit_code_failure then EXIT_FAILURE else rc)).
    destruct (reap_children env r (S i) k _). exact IH.
  - specialize (IH (S i) rc). destruct (reap_children env r (S i) k rc).
    cbn [snd] in *. destruct (kill0 env i =? 0); cbn; exact IH.
  - specialize (IH (S i) rc). destruct (reap_children env r (S i) k rc).
    cbn [snd] in *. destruct (kill0 env i =? 0); cbn; exact IH.
Qed.

Lemma report_rates_only r : forall fs j,
  List.filter is_metrics_set (report_rates r 4 fs j) = report_rates r 4 fs j.
Proof.
  induction fs as [|fi fs IH]; intros j; cbn [report_rates]; [reflexivity|].
  cbn [List.filter is_metrics_set]. by rewrite IH.
Qed.

(** C1.  For every region of four slots (the three children and the
    parent) and every workload kind [j], the aggregation ends without a
    division by zero, with [duration] the sum of the slots' durations of
    kind [j] and [count] the sum of their counts, each added up in double
    arithmetic from 0.0 in the order of the slots, and with [rate] equal to
    [count / duration] when [duration > 0] and to 0 otherwise.  The
    reporting loop hands exactly these four rates to [stress_metrics_set],
    one per kind in the order of the kinds, each under the name of its
    kind; they are the only metrics a run of [stress_atomic] sets, from the
    region as the workers left it. *)
Theorem aggregate_correct (B : build) (r : region) :
  (forall j,
      let d := dsum (column duration r j 4) in
      let c := dsum (column count r j 4) in
      aggregate r 4 j = Some (d, c, rate_of r j)
      /\ (dgt d d0 = true -> rate_of r j = ddiv c d /\ is_zero d = false)
      /\ (dgt d d0 = false -> rate_of r j = d0))
  /\ report_rates r 4 (atomic_func_info B) 0
     = [E_metrics_set 0 "uint64 atomic ops per sec" (Some (rate_of r 0));
        E_metrics_set 1 "uint32 atomic ops per sec" (Some (rate_of r 1));
        E_metrics_set 2 "uint16 atomic ops per sec" (Some (rate_of r 2));
        E_metrics_set 3 "uint8 atomic ops per sec" (Some (rate_of r 3))]
  /\ (forall env ps,
        mmap_failed env = false ->
        match stress_atomic B env ps with
        | (Returned _, tr, r') =>
            List.filter is_metrics_set tr
            = report_rates r' 4 (atomic_func_info B) 0
        | (OutOfFuel, tr, _) => List.filter is_metrics_set tr = []
        end).
Proof.
  split; [|split].
  - intros j d c. split; [apply aggregate_spec|].
    unfold rate_of. fold d c. split.
    + intros Hgt. rewrite Hgt. split; [reflexivity|].
      unfold dgt, SFltb in Hgt. by destruct d as [s|s| |s m e].
    + intros Hgt. by rewrite Hgt.
  - unfold atomic_func_info. cbn [report_rates name].
    by rewrite !aggregate_spec.
  - intros env ps Hmap. unfold stress_atomic. rewrite Hmap.
    pose proof (fork_children_no_report B env ps STRESS_ATOMIC_MAX_PROCS 0
                  (init_region (mmap_region (S STRESS_ATOMIC_MAX_PROCS))
                     (S STRESS_ATOMIC_MAX_PROCS))) as Hforks.
    destruct (fork_children B env ps 0 STRESS_ATOMIC_MAX_PROCS _) as [r1 forks].
    cbn [snd] in Hforks.
    destruct (stress_atomic_exercise B (parent_env env) _ (parent_fuel env) _)
      as [w [ret|]].
    + pose proof (reap_children_no_report env (atomic_info w)
                    STRESS_ATOMIC_MAX_PROCS 0
                    (if ret <? 0 then EXIT_FAILURE else EXIT_SUCCESS)) as Hreaps.
      destruct (reap_children env (atomic_info w) 0 STRESS_ATOMIC_MAX_PROCS _)
        as [rc' reaps]. cbn [snd] in Hreaps.
      cbn [List.filter is_metrics_set].
      rewrite !List.filter_app, Hforks, Hreaps, report_rates_only.
      cbn [List.filter is_metrics_set app]. by rewrite app_nil_r.
    + cbn [List.filter is_metrics_set]. exact Hforks.
Qed.

(** The example of the specification: (2.0, 10) and (3.0, 5) aggregate to
    duration 5.0, count 15 and rate 3.0. *)
Example aggregate_example :
  aggregate region_example 4 0 = Some (5 : double, 15 : double, 3 : double).
Proof. vm_compute. reflexivity. Qed.

(** A region of zeros: the rate of every kind is 0, and nothing is
    divided. *)
Example aggregate_zero :
  map (aggregate region0 4) [0%nat; 1%nat; 2%nat; 3%nat]
  = replicate 4 (Some (d0, d0, d0)).
Proof. reflexivity. Qed.

(** A negative total (a clock that ran backwards) is reported as rate 0, and
    so is a total that is not a number. *)
Example aggregate_negative :
  aggregate (set_metrics region0 2 1 (mk_metrics (-1) 64)) 4 1
  = Some ((-1) : double, 64 : double, d0)
  /\ aggregate (set_metrics region0 2 1 (mk_metrics S754_nan 64)) 4 1
     = Some (S754_nan, 64 : double, d0).
Proof. vm_compute. by split. Qed.

(** The quotient is that of doubles: 64000 operations in 3 seconds are
    reported as 21333.333333333332 (5864062014805333 * 2^-38). *)
Example aggregate_rounds :
  aggregate (set_metrics region0 3 2 (mk_metrics 3 64000)) 4 2
  = Some (3 : double, 64000 : double, S754_finite false 5864062014805333 (-38)).
Proof. vm_compute. reflexivity. Qed.

(** ** The exercise loops and the end-of-batch check *)

Section Checks.

Variable B : build.
Variable E : exercise_env.
Variable p : nat.

(** [n] rounds from call number [calls w], all passing. *)
Lemma exercise_rounds_ok i fi n : forall w,
  atomic_func_info B !! i = Some fi ->
  (forall d, (d < n)%nat -> batch_ok B i (batch E (calls w + d)) = true) ->
  exists w',
    exercise_rounds E (func fi) p i n w = (w', false)
    /\ calls w' = (calls w + n)%nat /\ bogo w' = bogo w.
Proof.
  induction n as [|n IH]; intros w Hfi Hok; simpl.
  - exists w. by rewrite Nat.add_0_r.
  - pose proof (call_func_rc E (func fi) p i w) as Hrc.
    pose proof (call_func_world E (func fi) p i w) as Hw.
    rewrite (func_rc B i fi _ _ _ Hfi) in Hrc.
    rewrite <- (Nat.add_0_r (calls w)), (Hok 0%nat ltac:(lia)) in Hrc.
    destruct (call_func E (func fi) p i w) as [w1 rc]. simpl in Hrc, Hw.
    subst rc. simpl.
    destruct (IH w1 Hfi) as (w' & Hr & Hc & Hb).
    { intros d Hd. rewrite Hw. cbn [calls]. rewrite Nat.add_succ_comm.
      apply Hok. lia. }
    exists w'. rewrite Hr, Hc, Hb, Hw. cbn [calls bogo].
    split; [reflexivity|]. split; [lia|reflexivity].
Qed.

(** [n] rounds of which round [d] is the first to fail: the loop returns
    at once, after [d + 1] calls. *)
Lemma exercise_rounds_fail i fi n : forall w d,
  atomic_func_info B !! i = Some fi ->
  (d < n)%nat ->
  (forall d', (d' < d)%nat -> batch_ok B i (batch E (calls w + d')) = true) ->
  batch_ok B i (batch E (calls w + d)) = false ->
  exists w',
    exercise_rounds E (func fi) p i n w = (w', true)
    /\ calls w' = (calls w + d + 1)%nat /\ bogo w' = bogo w.
Proof.
  induction n as [|n IH]; intros w d Hfi Hd Hok Hbad; [lia|]. simpl.
  pose proof (call_func_rc E (func fi) p i w) as Hrc.
  pose proof (call_func_world E (func fi) p i w) as Hw.
  rewrite (func_rc B i fi _ _ _ Hfi) in Hrc.
  destruct (call_func E (func fi) p i w) as [w1 rc]. simpl in Hrc, Hw.
  destruct d as [|d].
  - rewrite Nat.add_0_r in Hbad. rewrite Hbad in Hrc. subst rc. simpl.
    exists w1. rewrite Hw. cbn [calls bogo].
    split; [reflexivity|]. split; [lia|reflexivity].
  - rewrite <- (Nat.add_0_r (calls w)), (Hok 0%nat ltac:(lia)) in Hrc.
    subst rc. simpl.
    destruct (IH w1 d Hfi ltac:(lia)) as (w' & Hr & Hc & Hb).
    + intros d' Hd'. rewrite Hw. cbn [calls]. rewrite Nat.add_succ_comm.
      apply Hok. lia.
    + rewrite Hw. cbn [calls]. rewrite Nat.add_succ_comm. exact Hbad.
    + exists w'. rewrite Hr, Hc, Hb, Hw. cbn [calls bogo].
      split; [reflexivity|]. split; [lia|reflexivity].
Qed.

(** The loop over a suffix [fs] of the table that starts at index [i]. *)
Lemma exercise_funcs_ok n fs : forall i w,
  (forall t fi, fs !! t = Some fi -> atomic_func_info B !! (i + t)%nat = Some fi) ->
  (forall t d, (t < length fs)%nat -> (d < n)%nat ->
     batch_ok B (i + t) (batch E (calls w + t * n + d)) = true) ->
  exists w',
    exercise_funcs E fs p i n w = (w', false)
    /\ calls w' = (calls w + length fs * n)%nat /\ bogo w' = bogo w.
Proof.
  induction fs as [|fi fs IH]; intros i w Hfs Hok; simpl.
  - exists w. repeat split; lia.
  - assert (Hfi : atomic_func_info B !! i = Some fi).
    { specialize (Hfs 0%nat fi eq_refl). by rewrite Nat.add_0_r in Hfs. }
    destruct (exercise_rounds_ok i fi n w Hfi) as (w1 & Hr & Hc & Hb).
    { intros d Hd. specialize (Hok 0%nat d ltac:(simpl; lia) Hd).
      by rewrite Nat.add_0_r, Nat.mul_0_l, Nat.add_0_r in Hok. }
    rewrite Hr.
    destruct (IH (S i) w1) as (w' & Hr' & Hc' & Hb').
    + intros t fj Ht. specialize (Hfs (S t) fj Ht).
      by rewrite Nat.add_succ_r in Hfs.
    + intros t d Ht Hd. rewrite Hc.
      specialize (Hok (S t) d ltac:(simpl; lia) Hd).
      rewrite Nat.add_succ_r in Hok.
      replace (calls w + n + t * n + d)%nat with (calls w + S t * n + d)%nat
        by lia.
      exact Hok.
    + exists w'. rewrite Hr', Hc', Hb', Hc, Hb. repeat split; lia.
Qed.

Lemma exercise_funcs_fail n fs : forall i w t0 d0,
  (forall t fi, fs !! t = Some fi -> atomic_func_info B !! (i + t)%nat = Some fi) ->
  (t0 < length fs)%nat -> (d0 < n)%nat ->
  (forall t d, (d < n)%nat -> (t * n + d < t0 * n + d0)%nat ->
     batch_ok B (i + t) (batch E (calls w + t * n + d)) = true) ->
  batch_ok B (i + t0) (batch E (calls w + t0 * n + d0)) = false ->
  exists w',
    exercise_funcs E fs p i n w = (w', true)
    /\ calls w' = (calls w + t0 * n + d0 + 1)%nat /\ bogo w' = bogo w.
Proof.
  induction fs as [|fi fs IH]; intros i w t0 d0 Hfs Ht0 Hd0 Hok Hbad;
    simpl in Ht0; [lia|]. simpl.
  assert (Hfi : atomic_func_info B !! i = Some fi).
  { specialize (Hfs 0%nat fi eq_refl). by rewrite Nat.add_0_r in Hfs. }
  destruct t0 as [|t0].
  - rewrite Nat.add_0_r, Nat.mul_0_l, Nat.add_0_r in Hbad.
    destruct (exercise_rounds_fail i fi n w d0 Hfi Hd0) as (w1 & Hr & Hc & Hb).
    + intros d' Hd'. specialize (Hok 0%nat d' ltac:(lia) ltac:(lia)).
      by rewrite Nat.add_0_r, Nat.mul_0_l, Nat.add_0_r in Hok.
    + exact Hbad.
    + rewrite Hr. exists w1. repeat split; lia.
  - destruct (exercise_rounds_ok i fi n w Hfi) as (w1 & Hr & Hc & Hb).
    { intros d Hd. specialize (Hok 0%nat d Hd ltac:(lia)).
      by rewrite Nat.add_0_r, Nat.mul_0_l, Nat.add_0_r in Hok. }
    rewrite Hr.
    destruct (IH (S i) w1 t0 d0) as (w' & Hr' & Hc' & Hb').
    + intros t fj Ht. specialize (Hfs (S t) fj Ht).
      by rewrite Nat.add_succ_r in Hfs.
    + lia.
    + exact Hd0.
    + intros t d Hd Hlt. rewrite Hc.
      specialize (Hok (S t) d Hd ltac:(lia)).
      rewrite Nat.add_succ_r in Hok.
      replace (calls w + n + t * n + d)%nat with (calls w + S t * n + d)%nat
        by lia.
      exact Hok.
    + rewrite Hc. rewrite Nat.add_succ_r in Hbad.
      replace (calls w + n + t0 * n + d0)%nat
        with (calls w + S t0 * n + d0)%nat by lia.
      exact Hbad.
    + exists w'. rewrite Hr', Hc', Hb', Hc, Hb. repeat split; lia.
Qed.

Lemma kind_of_call_decompose n k t d :
  (t < STRESS_ATOMIC_MAX_FUNCS)%nat -> (d < n)%nat ->
  kind_of_call n (k * (STRESS_ATOMIC_MAX_FUNCS * n) + t * n + d) = t.
Proof using Type.
  unfold kind_of_call, STRESS_ATOMIC_MAX_FUNCS. intros Ht Hd.
  assert (Hq : ((k * (4 * n) + t * n + d) / n = 4 * k + t)%nat).
  { symmetry. apply (Nat.div_unique _ _ _ d); [exact Hd|]. lia. }
  rewrite Hq. symmetry. apply (Nat.mod_unique _ _ k); lia.
Qed.

Lemma rounds_pos : (0 < rounds)%nat.
Proof using Type. unfold rounds. lia. Qed.

(** One pass over the table, all of its calls passing. *)
Lemma pass_ok k w :
  calls w = (k * calls_per_pass)%nat ->
  (forall c, (c < calls_per_pass)%nat -> call_ok B E (calls w + c) = true) ->
  exists w',
    exercise_funcs E (atomic_func_info B) p 0 rounds w = (w', false)
    /\ calls w' = (S k * calls_per_pass)%nat /\ bogo w' = bogo w.
Proof using Type.
  intros Hcalls Hok.
  destruct (exercise_funcs_ok rounds (atomic_func_info B) 0 w (fun t fi H => H))
    as (w' & Hr & Hc & Hb).
  - intros t d Ht Hd. simpl in Ht.
    specialize (Hok (t * rounds + d)%nat). unfold call_ok in Hok.
    rewrite Hcalls in Hok |- *. unfold calls_per_pass in Hok |- *.
    rewrite Nat.add_assoc in Hok.
    rewrite (kind_of_call_decompose rounds k t d Ht Hd) in Hok.
    apply Hok. unfold STRESS_ATOMIC_MAX_FUNCS. nia.
  - exists w'. rewrite Hr, Hc, Hb, Hcalls. simpl length.
    unfold calls_per_pass, STRESS_ATOMIC_MAX_FUNCS. repeat split; lia.
Qed.

(** One pass in which call [c0] of the pass is the first to fail. *)
Lemma pass_fail k w c0 :
  calls w = (k * calls_per_pass)%nat ->
  (c0 < calls_per_pass)%nat ->
  (forall c, (c < c0)%nat -> call_ok B E (calls w + c) = true) ->
  call_ok B E (calls w + c0) = false ->
  exists w',
    exercise_funcs E (atomic_func_info B) p 0 rounds w = (w', true)
    /\ calls w' = (calls w + c0 + 1)%nat /\ bogo w' = bogo w.
Proof using Type.
  intros Hcalls Hc0 Hok Hbad.
  pose proof rounds_pos as Hpos.
  pose proof (Nat.div_mod_eq c0 rounds) as Hdm.
  pose proof (Nat.mod_upper_bound c0 rounds ltac:(lia)) as Hmod.
  set (t0 := (c0 / rounds)%nat) in *. set (d0 := (c0 mod rounds)%nat) in *.
  assert (Ht0 : (t0 < STRESS_ATOMIC_MAX_FUNCS)%nat).
  { unfold calls_per_pass in Hc0. nia. }
  destruct (exercise_funcs_fail rounds (atomic_func_info B) 0 w t0 d0
              (fun t fi H => H)) as (w' & Hr & Hc & Hb).
  - exact Ht0.
  - exact Hmod.
  - intros t d Hd Hlt.
    assert (Ht : (t < STRESS_ATOMIC_MAX_FUNCS)%nat) by nia.
    specialize (Hok (t * rounds + d)%nat ltac:(lia)). unfold call_ok in Hok.
    rewrite Hcalls in Hok |- *. unfold calls_per_pass in Hok |- *.
    rewrite Nat.add_assoc in Hok.
    by rewrite (kind_of_call_decompose rounds k t d Ht Hd) in Hok.
  - unfold call_ok in Hbad. rewrite Hdm in Hbad.
    rewrite Hcalls in Hbad |- *. unfold calls_per_pass in Hbad |- *.
    rewrite (Nat.mul_comm rounds t0), Nat.add_assoc in Hbad.
    by rewrite (kind_of_call_decompose rounds k t0 d0 Ht0 Hmod) in Hbad.
  - exists w'. rewrite Hr, Hc, Hb. repeat split; lia.
Qed.

(** The do-while loop from pass [k], when the first failing call is call
    [c] of the process, in pass [K]. *)
Lemma exercise_from_pass_fail c K : forall fuel k w,
  calls w = (k * calls_per_pass)%nat -> bogo w = k ->
  K = (c / calls_per_pass)%nat ->
  (k <= K)%nat -> (K < k + fuel)%nat ->
  (forall c', (c' < c)%nat -> call_ok B E c' = true) ->
  call_ok B E c = false ->
  (forall k', (k' < K)%nat -> stress_continue E k' = true) ->
  exists w',
    stress_atomic_exercise B E p fuel w = (w', Returned (-1))
    /\ calls w' = (c + 1)%nat /\ bogo w' = K.
Proof using Type.
  assert (Hcpp : (0 < calls_per_pass)%nat)
    by (unfold calls_per_pass, STRESS_ATOMIC_MAX_FUNCS, rounds; lia).
  induction fuel as [|fuel IH]; intros k w Hcalls Hbogo HK Hle Hlt Hok Hbad Hcont;
    [lia|].
  pose proof (Nat.div_mod_eq c calls_per_pass) as Hdm.
  pose proof (Nat.mod_upper_bound c calls_per_pass ltac:(lia)) as Hmod.
  rewrite <- HK in Hdm.
  cbn [stress_atomic_exercise].
  destruct (decide (k = K)) as [->|Hne].
  - destruct (pass_fail K w (c mod calls_per_pass)%nat Hcalls Hmod)
      as (w' & Hr & Hc & Hb).
    + intros c' Hc'. apply Hok. rewrite Hcalls. lia.
    + rewrite Hcalls. replace (K * calls_per_pass + c mod calls_per_pass)%nat
        with c by lia. exact Hbad.
    + rewrite Hr. exists w'. repeat split; lia.
  - destruct (pass_ok k w Hcalls) as (w1 & Hr & Hc & Hb).
    { intros c' Hc'. apply Hok. rewrite Hcalls. nia. }
    rewrite Hr, Hb, Hbogo, (Hcont k ltac:(lia)).
    apply (IH (S k)); try assumption; try lia.
    unfold stress_bogo_inc. cbn [bogo]. lia.
Qed.

(** The do-while loop from pass [k], when no call fails up to the pass
    [K] after which [stress_continue] first says no. *)
Lemma exercise_from_pass_ok K : forall fuel k w,
  calls w = (k * calls_per_pass)%nat -> bogo w = k ->
  (k <= K)%nat -> (K < k + fuel)%nat ->
  (forall c, (c < S K * calls_per_pass)%nat -> call_ok B E c = true) ->
  (forall k', (k' < K)%nat -> stress_continue E k' = true) ->
  stress_continue E K = false ->
  exists w',
    stress_atomic_exercise B E p fuel w = (w', Returned 0)
    /\ calls w' = (S K * calls_per_pass)%nat /\ bogo w' = S K.
Proof using Type.
  induction fuel as [|fuel IH]; intros k w Hcalls Hbogo Hle Hlt Hok Hcont Hstop;
    [lia|].
  cbn [stress_atomic_exercise].
  destruct (pass_ok k w Hcalls) as (w1 & Hr & Hc & Hb).
  { intros c' Hc'. apply Hok. rewrite Hcalls. nia. }
  rewrite Hr, Hb, Hbogo.
  destruct (decide (k = K)) as [->|Hne].
  - rewrite Hstop. exists (stress_bogo_inc w1).
    unfold stress_bogo_inc. cbn [calls bogo].
    split; [reflexivity|]. split; [exact Hc|lia].
  - rewrite (Hcont k ltac:(lia)).
    apply (IH (S k)); try assumption; try lia.
    unfold stress_bogo_inc. cbn [bogo]. lia.
Qed.

End Checks.

(** ** The parent *)

(** Once [rc] is [EXIT_FAILURE] the reaping loop keeps it. *)
Lemma reap_keeps_failure env r k : forall i,
  fst (reap_children env r i k EXIT_FAILURE) = EXIT_FAILURE.
Proof.
  induction k as [|k IH]; intros i; simpl; [reflexivity|].
  destruct (0 <? slot_pid r i); [|apply IH].
  destruct (waitpid_nohang env i) as [[code|sig]|ret].
  - destruct (code =? exit_code_failure);
      specialize (IH (S i));
      destruct (reap_children env r (S i) k EXIT_FAILURE); exact IH.
  - specialize (IH (S i)).
    destruct (reap_children env r (S i) k EXIT_FAILURE); exact IH.
  - specialize (IH (S i)).
    destruct (reap_children env r (S i) k EXIT_FAILURE); exact IH.
Qed.

(** A child found exited with [EXIT_FAILURE] makes the parent's [rc]
    [EXIT_FAILURE]. *)
Lemma reap_sees_failure env r k : forall i j rc,
  (i <= j < i + k)%nat ->
  0 < slot_pid r j ->
  waitpid_nohang env j = Reaped (Exited exit_code_failure) ->
  fst (reap_children env r i k rc) = EXIT_FAILURE.
Proof.
  induction k as [|k IH]; intros i j rc Hj Hpid Hw; [lia|]. simpl.
  destruct (decide (i = j)) as [->|Hne].
  - apply Z.ltb_lt in Hpid. rewrite Hpid, Hw. simpl.
    pose proof (reap_keeps_failure env r k (S j)) as Hk.
    destruct (reap_children env r (S j) k EXIT_FAILURE). exact Hk.
  - assert (Hrec : forall rc',
              fst (reap_children env r (S i) k rc') = EXIT_FAILURE).
    { intros rc'. apply (IH (S i) j rc'); [lia|exact Hpid|exact Hw]. }
    destruct (0 <? slot_pid r i); [|apply Hrec].
    destruct (waitpid_nohang env i) as [[code|sig]|ret].
    + specialize (Hrec (if code =? exit_code_failure then EXIT_FAILURE else rc)).
      destruct (reap_children env r (S i) k _). exact Hrec.
    + specialize (Hrec rc). destruct (reap_children env r (S i) k rc). exact Hrec.
    + specialize (Hrec rc). destruct (reap_children env r (S i) k rc). exact Hrec.
Qed.

(** C3.  Let call [c] of a process be the first whose end-of-batch check
    fails, the process having been told to continue after every earlier
    pass, and let the fuel reach the pass of that call.  Then the exercise
    function of that call returns -1; [stress_atomic_exercise] returns -1
    right after it (call [c] is the last call made, and the pass is not
    counted); a child exits with [EXIT_FAILURE]; and the parent, when the
    process is the parent, returns [EXIT_FAILURE] whatever the reaping loop
    finds.  Conversely, when no check fails and [stress_continue] first says
    no after pass [K], [stress_atomic_exercise] returns 0 after [K + 1]
    whole passes. *)
Theorem mismatch_never_swallowed B E fuel c :
  (forall c', (c' < c)%nat -> call_ok B E c' = true) ->
  call_ok B E c = false ->
  (forall k, (k < c / calls_per_pass)%nat -> stress_continue E k = true) ->
  (c / calls_per_pass < fuel)%nat ->
  (forall fi ps m,
      atomic_func_info B !! kind_of_call rounds c = Some fi ->
      snd (func fi ps m (batch E c)) = -1)
  /\ (forall p w, calls w = 0%nat -> bogo w = 0%nat ->
        exists w',
          stress_atomic_exercise B E p fuel w = (w', Returned (-1))
          /\ calls w' = (c + 1)%nat
          /\ bogo w' = (c / calls_per_pass)%nat)
  /\ (forall i w, calls w = 0%nat -> bogo w = 0%nat ->
        snd (stress_atomic_child B E i fuel w) = Returned EXIT_FAILURE)
  /\ (forall env ps,
        mmap_failed env = false -> parent_env env = E ->
        parent_fuel env = fuel ->
        fst (fst (stress_atomic B env ps)) = Returned EXIT_FAILURE)
  /\ (forall E' fuel' K p w,
        calls w = 0%nat -> bogo w = 0%nat ->
        (forall c', (c' < S K * calls_per_pass)%nat -> call_ok B E' c' = true) ->
        (forall k, (k < K)%nat -> stress_continue E' k = true) ->
        stress_continue E' K = false ->
        (K < fuel')%nat ->
        exists w',
          stress_atomic_exercise B E' p fuel' w = (w', Returned 0)
          /\ calls w' = (S K * calls_per_pass)%nat
          /\ bogo w' = S K).
Proof.
  intros Hok Hbad Hcont Hfuel.
  assert (Hex : forall p w, calls w = 0%nat -> bogo w = 0%nat ->
            exists w',
              stress_atomic_exercise B E p fuel w = (w', Returned (-1))
              /\ calls w' = (c + 1)%nat
              /\ bogo w' = (c / calls_per_pass)%nat).
  { intros p w Hc Hb.
    apply (exercise_from_pass_fail B E p c (c / calls_per_pass) fuel 0 w);
      try assumption; try reflexivity; lia. }
  split; [|split; [exact Hex|split; [|split]]].
  - intros fi ps m Hfi. rewrite (func_rc B _ fi ps m _ Hfi).
    unfold call_ok in Hbad. by rewrite Hbad.
  - intros i w Hc Hb. unfold stress_atomic_child.
    destruct (Hex i w Hc Hb) as (w' & -> & _). reflexivity.
  - intros env ps Hmmap HE Hf. unfold stress_atomic. rewrite Hmmap, HE, Hf.
    destruct (fork_children B env ps 0 STRESS_ATOMIC_MAX_PROCS _) as [r1 forks].
    destruct (Hex (S STRESS_ATOMIC_MAX_PROCS - 1)%nat (mk_world ps r1 0 0)
                eq_refl eq_refl) as (w' & -> & _).
    change (-1 <? 0) with true. cbv iota.
    pose proof (reap_keeps_failure env (atomic_info w') STRESS_ATOMIC_MAX_PROCS 0)
      as Hk.
    destruct (reap_children env (atomic_info w') 0 STRESS_ATOMIC_MAX_PROCS
                EXIT_FAILURE) as [rc' reaps].
    simpl in Hk. subst rc'. reflexivity.
  - intros E' fuel' K p w Hc Hb Hok' Hcont' Hstop Hfuel'.
    apply (exercise_from_pass_ok B E' p K fuel' 0 w); try assumption; lia.
Qed.

Lemma mismatch_never_swallowed_witness :
  call_ok build_broken env_one_pass 0 = false
  /\ fst (fst (stress_atomic build_broken atomic_env_ok proc0))
     = Returned EXIT_FAILURE.
Proof.
  assert (Hbad : call_ok build_broken env_one_pass 0 = false)
    by (vm_compute; reflexivity).
  split; [exact Hbad|].
  assert (H0 : (0 / calls_per_pass = 0)%nat) by (vm_compute; reflexivity).
  assert (Hok : forall c', (c' < 0)%nat -> call_ok build_broken env_one_pass c' = true)
    by (intros c' Hc'; lia).
  assert (Hcont : forall k, (k < 0 / calls_per_pass)%nat ->
                    stress_continue env_one_pass k = true)
    by (intros k Hk; rewrite H0 in Hk; lia).
  assert (Hfuel : (0 / calls_per_pass < 1)%nat) by (rewrite H0; lia).
  destruct (mismatch_never_swallowed build_broken env_one_pass 1 0
              Hok Hbad Hcont Hfuel) as (_ & _ & _ & Hparent & _).
  exact (Hparent atomic_env_ok proc0 eq_refl eq_refl eq_refl).
Defined.

(** With every builtin present and as documented no call fails its check,
    whatever the random words and the clock; the loop then returns 0 as soon
    as [stress_continue] says no. *)
Lemma healthy_build_never_fails g sl E c :
  call_ok (mk_build (fun _ => true) g gcc_builtin sl) E c = true.
Proof.
  unfold call_ok, batch_ok. destruct (runs_batch _ _); [|reflexivity].
  apply batch_check_gcc.
Qed.

Lemma healthy_build_returns_ok g sl E fuel K p w :
  calls w = 0%nat -> bogo w = 0%nat ->
  (forall k, (k < K)%nat -> stress_continue E k = true) ->
  stress_continue E K = false ->
  (K < fuel)%nat ->
  snd (stress_atomic_exercise (mk_build (fun _ => true) g gcc_builtin sl) E p
         fuel w) = Returned 0.
Proof.
  intros Hc Hb Hcont Hstop Hfuel.
  destruct (exercise_from_pass_ok (mk_build (fun _ => true) g gcc_builtin sl)
              E p K fuel 0 w) as (w' & Hr & _); try assumption; try lia.
  - intros c' _. apply healthy_build_never_fails.
  - by rewrite Hr.
Qed.

(** The broken build runs exactly one batch, the healthy one a whole pass of
    4000. *)
Example broken_build_stops_at_once :
  let '(w, o) := stress_atomic_exercise build_broken env_one_pass 3 5 world0 in
  (o, calls w, bogo w) = (Returned (-1), 1%nat, 0%nat).
Proof. vm_compute. reflexivity. Qed.

Example healthy_build_one_pass :
  let '(w, o) := stress_atomic_exercise build_lp64 env_one_pass 3 5 world0 in
  (o, calls w, bogo w, get_metrics (atomic_info w) 3 2)
  = (Returned 0, 4000%nat, 1%nat, mk_metrics 1000 64000).
Proof. vm_compute. reflexivity. Qed.

(** With [mmap] working, healthy builtins and no child (every fork fails)
    the parent reports the four rates of its own pass, 64 operations per
    second of batch time, and returns [EXIT_SUCCESS]. *)
Example stress_atomic_alone :
  fst (stress_atomic build_lp64 atomic_env_no_fork proc0)
  = (Returned EXIT_SUCCESS,
     [E_set_proc_state STRESS_STATE_RUN;
      E_fork 0 (-1); E_fork 1 (-1); E_fork 2 (-1);
      E_metrics_set 0 "uint64 atomic ops per sec" (Some (64 : double));
      E_metrics_set 1 "uint32 atomic ops per sec" (Some (64 : double));
      E_metrics_set 2 "uint16 atomic ops per sec" (Some (64 : double));
      E_metrics_set 3 "uint8 atomic ops per sec" (Some (64 : double));
      E_set_proc_state STRESS_STATE_DEINIT; E_munmap]).
Proof. vm_compute. reflexivity. Qed.

(** C7.  When mapping the shared region fails, [stress_atomic] returns
    [EXIT_NO_RESOURCE] at once: its only effect is the skip message; no
    process is forked, no accumulator is written (no region exists), and
    nothing else runs. *)
Theorem mmap_failure_is_skip B env ps :
  mmap_failed env = true ->
  stress_atomic B env ps = (Returned EXIT_NO_RESOURCE, [E_pr_inf_skip], []).
Proof.
  intros H. unfold stress_atomic. by rewrite H.
Qed.

Lemma mmap_failure_is_skip_witness :
  mmap_failed atomic_env_no_mmap = true
  /\ stress_atomic build_lp64 atomic_env_no_mmap proc0
     = (Returned EXIT_NO_RESOURCE, [E_pr_inf_skip], []).
Proof.
  split; [reflexivity|].
  exact (mmap_failure_is_skip build_lp64 atomic_env_no_mmap proc0 eq_refl).
Defined.

End AtomicFacts.

Module CgroupFacts.
Import Cgroup.

(** What happens at the label [again]: either the continue flag was cleared
    and the run ends with [EXIT_SUCCESS], or [fork] is called. *)
Lemma at_again redo env fuel n :
  (continue_flag (env n) = false ->
     mount_from_again redo env (S fuel) n
     = (Returns EXIT_SUCCESS,
        [E_stress_continue_flag false; E_set_proc_state_DEINIT]))
  /\ (continue_flag (env n) = true ->
      exists r rest,
        mount_from_again redo env (S fuel) n
        = (r, E_stress_continue_flag true :: E_fork (fork_r (env n)) :: rest)).
Proof.
  split; intros Hflag; cbn [mount_from_again]; rewrite Hflag; cbn [negb].
  - reflexivity.
  - unfold emit at 1. cbn [fst snd app]. eauto.
Qed.

(** C4, as the code has it.  When a reaped child was terminated by a signal,
    the event is logged.  If the signal is [SIGKILL] the supervisor logs the
    memory information and the restart and jumps back to [again] without
    consulting [stress_continue(args)]; there a replacement is forked unless
    the continue flag was cleared, in which case the run ends with
    [EXIT_SUCCESS]; the run is not marked failed.  For any other signal
    there is no jump: control reaches the loop condition, and the loop forks
    the next worker only if [stress_continue(args)] holds there (and the
    continue flag after it), and otherwise ends with [EXIT_SUCCESS]. *)
Theorem restart_on_sigkill redo env fuel n pid sig :
  continue_flag (env n) = true ->
  fork_r (env n) = ForkParent pid ->
  wait_r (env n) = WaitSignaled sig ->
  (sig = SIGKILL ->
     mount_from_again redo env (S fuel) n
     = emit [E_stress_continue_flag true; E_fork (ForkParent pid);
             E_waitpid pid; E_pr_dbg_child_died sig;
             E_stress_log_system_mem_info; E_pr_dbg_restarting; E_goto_again]
            (mount_from_again redo env fuel (S n)))
  /\ (sig <> SIGKILL ->
      mount_from_again redo env (S fuel) n
      = if continue_loop (env n)
        then emit [E_stress_continue_flag true; E_fork (ForkParent pid);
                   E_waitpid pid; E_pr_dbg_child_died sig;
                   E_stress_continue true]
                  (mount_from_again redo env fuel (S n))
        else (Returns EXIT_SUCCESS,
              [E_stress_continue_flag true; E_fork (ForkParent pid);
               E_waitpid pid; E_pr_dbg_child_died sig;
               E_stress_continue false; E_set_proc_state_DEINIT]))
  /\ (forall fuel',
        (continue_flag (env (S n)) = false ->
           mount_from_again redo env (S fuel') (S n)
           = (Returns EXIT_SUCCESS,
              [E_stress_continue_flag false; E_set_proc_state_DEINIT]))
        /\ (continue_flag (env (S n)) = true ->
            exists r rest,
              mount_from_again redo env (S fuel') (S n)
              = (r, E_stress_continue_flag true
                      :: E_fork (fork_r (env (S n))) :: rest))).
Proof.
  intros Hflag Hfork Hwait. split; [|split].
  - intros ->. cbn [mount_from_again]. rewrite Hflag, Hfork, Hwait.
    reflexivity.
  - intros Hsig. cbn [mount_from_again]. rewrite Hflag, Hfork, Hwait.
    apply Z.eqb_neq in Hsig. rewrite Hsig. cbn [negb].
    by destruct (continue_loop (env n)).
  - intros fuel'. apply at_again.
Qed.

Lemma restart_on_sigkill_witness :
  continue_flag (env_signal_then_exit SIGKILL 0) = true
  /\ fork_r (env_signal_then_exit SIGKILL 0) = ForkParent 100
  /\ wait_r (env_signal_then_exit SIGKILL 0) = WaitSignaled SIGKILL
  /\ mount_from_again stress_redo_fork (env_signal_then_exit SIGKILL) 3 0
     = emit [E_stress_continue_flag true; E_fork (ForkParent 100);
             E_waitpid 100; E_pr_dbg_child_died SIGKILL;
             E_stress_log_system_mem_info; E_pr_dbg_restarting; E_goto_again]
            (mount_from_again stress_redo_fork (env_signal_then_exit SIGKILL) 2 1).
Proof.
  split; [reflexivity|]. split; [reflexivity|]. split; [reflexivity|].
  exact (proj1 (restart_on_sigkill stress_redo_fork
                  (env_signal_then_exit SIGKILL) 2 0 100 SIGKILL
                  eq_refl eq_refl eq_refl) eq_refl).
Defined.

(** The claim as first stated, "termination by any other signal does not
    trigger a restart", would have a run whose first child dies of a signal
    other than [SIGKILL] fork once only.  A child that dies of [SIGSEGV]
    while [stress_continue(args)] holds is followed by a second fork. *)
Lemma other_signal_forks_again :
  ~ (forall redo env fuel pid sig,
        continue_flag (env 0%nat) = true ->
        fork_r (env 0%nat) = ForkParent pid ->
        wait_r (env 0%nat) = WaitSignaled sig ->
        sig <> SIGKILL ->
        forks (snd (stress_cgroup_mount redo env fuel)) = 1%nat).
Proof.
  intros H.
  specialize (H stress_redo_fork (env_signal_then_exit SIGSEGV) 3%nat 100 SIGSEGV
                eq_refl eq_refl eq_refl).
  assert (Hne : SIGSEGV <> SIGKILL) by (unfold SIGSEGV, SIGKILL; lia).
  specialize (H Hne). vm_compute in H. discriminate.
Qed.

(** The two runs side by side, and the run in which the budget is spent
    when the child dies: [SIGKILL] restarts, [SIGSEGV] does not. *)
Example run_sigkill :
  stress_cgroup_mount stress_redo_fork (env_signal_then_exit SIGKILL) 3
  = (Returns EXIT_SUCCESS,
     [E_set_proc_state_RUN;
      E_stress_continue_flag true; E_fork (ForkParent 100); E_waitpid 100;
      E_pr_dbg_child_died 9; E_stress_log_system_mem_info;
      E_pr_dbg_restarting; E_goto_again;
      E_stress_continue_flag true; E_fork (ForkParent 101); E_waitpid 101;
      E_stress_continue false; E_set_proc_state_DEINIT]).
Proof. reflexivity. Qed.

Example run_sigsegv :
  stress_cgroup_mount stress_redo_fork (env_signal_then_exit SIGSEGV) 3
  = (Returns EXIT_SUCCESS,
     [E_set_proc_state_RUN;
      E_stress_continue_flag true; E_fork (ForkParent 100); E_waitpid 100;
      E_pr_dbg_child_died 11; E_stress_continue true;
      E_stress_continue_flag true; E_fork (ForkParent 101); E_waitpid 101;
      E_stress_continue false; E_set_proc_state_DEINIT]).
Proof. reflexivity. Qed.

Example run_budget_spent :
  forks (snd (stress_cgroup_mount stress_redo_fork
                (env_signal_budget_spent SIGKILL) 3)) = 2%nat
  /\ forks (snd (stress_cgroup_mount stress_redo_fork
                   (env_signal_budget_spent SIGSEGV) 3)) = 1%nat.
Proof. split; reflexivity. Qed.

End CgroupFacts.

Module DevFacts.
Import Dev DevUtil.

(** ** The deadline guard of [stress_dev_rw] *)

Lemma readings_snoc tr c :
  readings (tr ++ [c]) = (readings tr + if is_time_now c then 1 else 0)%nat.
Proof.
  unfold readings. rewrite List.filter_app, length_app. simpl.
  by destruct (is_time_now c).
Qed.

Section Guarded.

Variable env : rw_env.

Lemma guarded_ret {A} (a : A) : guarded env (ret a).
Proof using Type. intros s Hs. exact Hs. Qed.

Lemma guarded_goto {A} (l : label) : guarded env (@goto A l).
Proof. intros s Hs. unfold goto. destruct l; [by left|exact Hs]. Qed.

Lemma guarded_bind {A C} (m : M A) (k : A -> M C) :
  guarded env m -> (forall a, guarded env (k a)) -> guarded env (bind m k).
Proof.
  intros Hm Hk s Hs. unfold bind. specialize (Hm s Hs).
  destruct (m s) as [[a|l] s'].
  - by apply Hk.
  - exact Hm.
Qed.

Lemma guarded_call c : is_time_now c = false -> guarded env (call c).
Proof.
  intros Hc s (H1 & H2 & H3 & H4). unfold call.
  repeat split; cbn [trace ticks timeout]; try assumption.
  rewrite readings_snoc, Hc. lia.
Qed.

Lemma guarded_when b (m : M unit) : guarded env m -> guarded env (when b m).
Proof. intros Hm. unfold when. destruct b; [exact Hm|apply guarded_ret]. Qed.

(** The guard itself: within the threshold the iteration goes on; beyond
    it, [timeout] is set, the descriptor is closed where it is still open,
    and the iteration is left for [next]. *)
Lemma deadline_run t_start close_fd s :
  deadline env t_start close_fd s
  = if fgt (time_now env (ticks s) - t_start) threshold
    then (inr next,
          mk_rw_state
            (if close_fd then (trace s ++ [S_time_now]) ++ [S_close]
             else trace s ++ [S_time_now])
            (S (ticks s)) true)
    else (inl tt,
          mk_rw_state (trace s ++ [S_time_now]) (S (ticks s)) (timeout s)).
Proof using Type.
  unfold deadline, bind, stress_time_now.
  destruct (fgt _ _); [|reflexivity]. by destruct close_fd.
Qed.

Lemma guarded_deadline close_fd :
  guarded env (deadline env (time_now env 0) close_fd).
Proof using Type.
  intros s (H1 & H2 & H3 & H4). rewrite deadline_run.
  fold (exceeds env (ticks s)).
  assert (Hr : readings (trace s ++ [S_time_now]) = S (ticks s))
    by (rewrite readings_snoc; simpl; lia).
  destruct (exceeds env (ticks s)) eqn:Hex.
  - right. unfold abandoned. cbn [trace ticks timeout].
    split; [lia|]. split.
    { destruct close_fd; [rewrite readings_snoc; simpl|]; lia. }
    split; [intros k Hk1 Hk2; apply H3; lia|].
    split; [by rewrite Nat.sub_succ, Nat.sub_0_r|].
    split; [reflexivity|].
    exists (trace s). destruct close_fd; [right|left]; [|reflexivity].
    by rewrite <- app_assoc.
  - unfold on_time. cbn [trace ticks timeout].
    split; [lia|]. split; [exact Hr|]. split; [|exact H4].
    intros k Hk. destruct (decide (k = ticks s)) as [->|Hne];
      [exact Hex|apply H3; lia].
Qed.

Lemma guarded_mmap_munmap p f : guarded env (mmap_munmap env p f).
Proof.
  unfold mmap_munmap. apply guarded_bind; [by apply guarded_call|].
  intros _. apply guarded_when. by apply guarded_call.
Qed.

Lemma guarded_run_dev_funcs path fs : guarded env (run_dev_funcs path fs).
Proof.
  induction fs as [|devpath fs IH]; simpl; [apply guarded_ret|].
  apply guarded_bind; [|intros _; exact IH].
  apply guarded_when. by apply guarded_call.
Qed.

(** The first reading of the clock puts the iteration on time. *)
Lemma guarded_from_start (k : Q -> M unit) :
  guarded env (k (time_now env 0)) ->
  match bind (stress_time_now env) k (mk_rw_state [] 0 false) with
  | (inl _, s') => on_time env s'
  | (inr rdwr, s') => on_time env s'
  | (inr next, s') => on_time env s' \/ abandoned env s'
  end.
Proof.
  intros Hk. unfold bind, stress_time_now. cbn [trace ticks timeout app].
  apply Hk. unfold on_time. cbn [trace ticks timeout].
  split; [lia|]. split; [reflexivity|]. split; [|reflexivity].
  intros j Hj. lia.
Qed.

End Guarded.

(** ** The loop body of [stress_dev_rw], piece by piece *)

Section Triples.

Context {A : Type}.
Variables Pre Mid Post Exit : list sys -> Prop.

Lemma triple_ret (a : A) : triple Pre (ret a) Pre Exit.
Proof using Type. intros s Hs. exact Hs. Qed.

Lemma triple_goto (l : label) :
  (forall tr, Pre tr -> Exit tr) -> triple Pre (@goto A l) Post Exit.
Proof using Type. intros H s Hs. by apply H. Qed.

Lemma triple_bind {C : Type} (m : M A) (k : A -> M C) :
  triple Pre m Mid Exit -> (forall a, triple Mid (k a) Post Exit) ->
  triple Pre (bind m k) Post Exit.
Proof using Type.
  intros Hm Hk s Hs. unfold bind. specialize (Hm s Hs).
  destruct (m s) as [[a|l] s'].
  - by apply Hk.
  - exact Hm.
Qed.

End Triples.

Section TripleSteps.

Variables Pre Post Exit : list sys -> Prop.

Lemma triple_call (c : sys) :
  (forall tr, Pre tr -> Post (tr ++ [c])) -> triple Pre (call c) Post Exit.
Proof using Type. intros H s Hs. by apply H. Qed.

Lemma triple_time_now (env : rw_env) :
  (forall tr, Pre tr -> Post (tr ++ [S_time_now])) ->
  triple Pre (stress_time_now env) Post Exit.
Proof using Type. intros H s Hs. by apply H. Qed.

Lemma triple_when (b : bool) (m : M unit) :
  triple Pre m Pre Exit -> triple Pre (when b m) Pre Exit.
Proof using Type.
  intros Hm. unfold when. destruct b; [exact Hm|apply triple_ret].
Qed.

(** The deadline guard: it reads the clock and goes on, or reads the clock,
    closes the descriptor where told to, and leaves. *)
Lemma triple_deadline (env : rw_env) (t_start : Q) (close_fd : bool) :
  (forall tr, Pre tr -> Post (tr ++ [S_time_now])) ->
  (forall tr, Pre tr ->
     Exit (if close_fd then (tr ++ [S_time_now]) ++ [S_close]
        else tr ++ [S_time_now])) ->
  triple Pre (deadline env t_start close_fd) Post Exit.
Proof using Type.
  intros HQ HX s Hs. rewrite deadline_run.
  destruct (fgt _ _); cbn [trace].
  - by apply HX.
  - by apply HQ.
Qed.

End TripleSteps.

Ltac guarded_step :=
  first
    [ apply guarded_ret
    | apply guarded_goto
    | apply guarded_deadline
    | apply guarded_mmap_munmap
    | apply guarded_run_dev_funcs
    | apply guarded_call; reflexivity
    | apply guarded_when
    | apply guarded_bind; [|intros ?] ].

(** The loop body up to [rdwr]. *)
Lemma rw_body_guarded env path :
  match rw_body env path (mk_rw_state [] 0 false) with
  | (inl _, s') => on_time env s'
  | (inr rdwr, s') => on_time env s'
  | (inr next, s') => on_time env s' \/ abandoned env s'
  end.
Proof.
  unfold rw_body. apply guarded_from_start.
  repeat guarded_step.
  - destruct (open1_errno env) as [errno|]; [|apply guarded_ret].
    destruct (errno =? EINTR); apply guarded_goto.
  - destruct (fstat_failed env); repeat guarded_step.
  - destruct (open2_errno env) as [errno|]; [|apply guarded_ret].
    destruct (errno =? EINTR); apply guarded_goto.
Qed.

Lemma rw_rdwr_on_time env s :
  on_time env s -> on_time env (snd (rw_rdwr env s)).
Proof.
  intros Hs.
  pose proof (guarded_call env (S_open O_RDONLY_WRONLY_NONBLOCK) eq_refl s Hs)
    as H1.
  unfold rw_rdwr, bind, when.
  destruct (call (S_open O_RDONLY_WRONLY_NONBLOCK) s) as [[[]|l] s1] eqn:Hc;
    [|discriminate Hc].
  destruct (open3_ok env); [|exact H1].
  pose proof (guarded_call env S_close eq_refl s1 H1) as H2.
  destruct (call S_close s1) as [[[]|l] s2] eqn:Hc2; [exact H2|discriminate Hc2].
Qed.

(** An iteration ends on time or abandoned. *)
Lemma rw_iteration_cases env path :
  on_time env (rw_iteration env path) \/ abandoned env (rw_iteration env path).
Proof.
  unfold rw_iteration. pose proof (rw_body_guarded env path) as H.
  destruct (rw_body env path _) as [[[]|[|]] s].
  - left. by apply rw_rdwr_on_time.
  - exact H.
  - left. by apply rw_rdwr_on_time.
Qed.

(** *** The order of the calls *)

Lemma appends_ret {A} (a : A) : appends (ret a).
Proof. intros s. exists []. by rewrite app_nil_r. Qed.

Lemma appends_goto {A} (l : label) : appends (@goto A l).
Proof. intros s. exists []. by rewrite app_nil_r. Qed.

Lemma appends_call c : appends (call c).
Proof. intros s. by exists [c]. Qed.

Lemma appends_set_timeout : appends set_timeout.
Proof. intros s. exists []. by rewrite app_nil_r. Qed.

Lemma appends_time_now env : appends (stress_time_now env).
Proof. intros s. by exists [S_time_now]. Qed.

Lemma appends_bind {A C} (m : M A) (k : A -> M C) :
  appends m -> (forall a, appends (k a)) -> appends (bind m k).
Proof.
  intros Hm Hk s. unfold bind. destruct (Hm s) as [n1 H1].
  destruct (m s) as [[a|l] s1]; simpl in H1.
  - destruct (Hk a s1) as [n2 H2]. exists (n1 ++ n2).
    by rewrite H2, H1, app_assoc.
  - by exists n1.
Qed.

Lemma appends_when b (m : M unit) : appends m -> appends (when b m).
Proof. intros Hm. unfold when. destruct b; [exact Hm|apply appends_ret]. Qed.

Lemma appends_run_dev_funcs path fs : appends (run_dev_funcs path fs).
Proof.
  induction fs as [|devpath fs IH]; simpl; [apply appends_ret|].
  apply appends_bind; [|intros _; exact IH].
  apply appends_when. apply appends_call.
Qed.

Ltac appends_step :=
  first
    [ apply appends_ret
    | apply appends_goto
    | apply appends_call
    | apply appends_set_timeout
    | apply appends_time_now
    | apply appends_run_dev_funcs
    | apply appends_when
    | apply appends_bind; [|intros ?] ].

Lemma appends_deadline env t_start close_fd :
  appends (deadline env t_start close_fd).
Proof.
  unfold deadline. apply appends_bind; [apply appends_time_now|].
  intros now. destruct (fgt _ _); repeat appends_step.
Qed.

(** One step of the body, run. *)
Lemma bind_call {A} c (k : unit -> M A) s :
  bind (call c) k s
  = k tt (mk_rw_state (trace s ++ [c]) (ticks s) (timeout s)).
Proof. reflexivity. Qed.

Lemma bind_deadline {A} env t_start close_fd (k : unit -> M A) s :
  bind (deadline env t_start close_fd) k s
  = if fgt (time_now env (ticks s) - t_start) threshold
    then (inr next,
          mk_rw_state
            (if close_fd then (trace s ++ [S_time_now]) ++ [S_close]
             else trace s ++ [S_time_now])
            (S (ticks s)) true)
    else k tt (mk_rw_state (trace s ++ [S_time_now]) (S (ticks s)) (timeout s)).
Proof.
  unfold bind at 1. rewrite deadline_run. by destruct (fgt _ _).
Qed.

(** The clock is read for [t_start] before the first [open]. *)
Lemma rw_iteration_starts env path :
  exists rest,
    trace (rw_iteration env path)
    = S_time_now :: S_open O_RDONLY_NONBLOCK :: rest.
Proof.
  assert (Hbody : exists k : M unit,
             appends k
             /\ rw_body env path (mk_rw_state [] 0 false)
                = k (mk_rw_state [S_time_now; S_open O_RDONLY_NONBLOCK] 1 false)).
  { eexists. split; [|unfold rw_body, bind at 1 2; cbn; reflexivity].
    unfold mmap_munmap.
    repeat first [apply appends_deadline | appends_step].
    - destruct (open1_errno env) as [errno|]; [|apply appends_ret].
      destruct (errno =? EINTR); apply appends_goto.
    - destruct (fstat_failed env); repeat appends_step.
    - destruct (open2_errno env) as [errno|]; [|apply appends_ret].
      destruct (errno =? EINTR); apply appends_goto. }
  destruct Hbody as (k & Hk & Hrun).
  assert (Hrdwr : appends (rw_rdwr env)) by (unfold rw_rdwr; repeat appends_step).
  unfold rw_iteration. rewrite Hrun.
  destruct (Hk (mk_rw_state [S_time_now; S_open O_RDONLY_NONBLOCK] 1 false))
    as [n1 H1].
  destruct (k _) as [[[]|[|]] s1]; simpl in H1.
  - destruct (Hrdwr s1) as [n2 H2]. rewrite H2, H1. by eexists.
  - rewrite H1. by eexists.
  - destruct (Hrdwr s1) as [n2 H2]. rewrite H2, H1. by eexists.
Qed.

(** And right after it, when the [open] gave a descriptor. *)
Lemma rw_iteration_first_check env path :
  exists rest,
    trace (rw_iteration env path)
    = S_time_now :: S_open O_RDONLY_NONBLOCK :: rest
    /\ (open1_errno env = None -> exists rest', rest = S_time_now :: rest').
Proof.
  destruct (open1_errno env) as [errno|] eqn:Ho.
  { destruct (rw_iteration_starts env path) as [rest Hrest].
    exists rest. split; [exact Hrest|]. by intros H. }
  assert (Hbody : exists k : M unit,
             appends k
             /\ rw_body env path (mk_rw_state [] 0 false)
                = k (mk_rw_state
                       [S_time_now; S_open O_RDONLY_NONBLOCK; S_time_now] 2
                       false)
                \/ exists tl,
                     rw_body env path (mk_rw_state [] 0 false)
                     = (inr next,
                        mk_rw_state
                          (S_time_now :: S_open O_RDONLY_NONBLOCK
                             :: S_time_now :: tl) 2 true)).
  { remember (rw_body env path (mk_rw_state [] 0 false)) as r eqn:Hr.
    unfold rw_body in Hr. unfold bind at 1, stress_time_now at 1 in Hr.
    cbn [trace ticks timeout app] in Hr. rewrite bind_call in Hr.
    cbn [trace ticks timeout app] in Hr. rewrite Ho in Hr.
    unfold bind at 1, ret at 1 in Hr. rewrite bind_deadline in Hr.
    cbn [trace ticks timeout app] in Hr. subst r.
    destruct (fgt _ _).
    - exists (ret tt). right. by eexists.
    - eexists. left. split; [|reflexivity].
      unfold mmap_munmap.
      repeat first [apply appends_deadline | appends_step].
      + destruct (fstat_failed env); repeat appends_step.
      + destruct (open2_errno env) as [e2|]; [|apply appends_ret].
        destruct (e2 =? EINTR); apply appends_goto. }
  assert (Hrdwr : appends (rw_rdwr env)) by (unfold rw_rdwr; repeat appends_step).
  unfold rw_iteration.
  destruct Hbody as (k & [[Hk Hrun]|[tl Hrun]]); rewrite Hrun.
  - destruct (Hk (mk_rw_state
                    [S_time_now; S_open O_RDONLY_NONBLOCK; S_time_now] 2 false))
      as [n1 H1].
    destruct (k _) as [[[]|[|]] s1]; simpl in H1.
    + destruct (Hrdwr s1) as [n2 H2]. rewrite H2, H1.
      eexists. split; [reflexivity|]. intros _. by eexists.
    + rewrite H1. eexists. split; [reflexivity|]. intros _. by eexists.
    + destruct (Hrdwr s1) as [n2 H2]. rewrite H2, H1.
      eexists. split; [reflexivity|]. intros _. by eexists.
  - cbn [trace]. eexists. split; [reflexivity|]. intros _. by eexists.
Qed.

(** *** A check follows every suspension point *)

Lemma existsb_time_snoc tr c :
  existsb is_time_now (tr ++ [c]) = existsb is_time_now tr || is_time_now c.
Proof. rewrite List.existsb_app. simpl. by rewrite orb_false_r. Qed.

Section Followed.

Variable gp : sys -> bool.
Hypothesis gp_time : gp S_time_now = false.

Lemma followed_snoc_time tr : followed gp (tr ++ [S_time_now]) = true.
Proof using gp_time.
  induction tr as [|a tr IH]; cbn [app followed].
  - by rewrite gp_time.
  - rewrite IH, existsb_time_snoc. cbn [is_time_now].
    by rewrite !orb_true_r.
Qed.

Lemma followed_snoc_quiet tr c :
  gp c = false -> followed gp tr = true -> followed gp (tr ++ [c]) = true.
Proof using Type.
  intros Hc. induction tr as [|a tr IH]; cbn [app followed]; intros H.
  - by rewrite Hc.
  - apply andb_prop in H as [H1 H2]. rewrite (IH H2), existsb_time_snoc.
    destruct (gp a); [|reflexivity]. cbn [negb orb] in H1 |- *.
    by rewrite H1.
Qed.

Lemma followed_In tr :
  followed gp tr = true ->
  forall pre c post,
    tr = pre ++ c :: post -> gp c = true -> In S_time_now post.
Proof using Type.
  intros H pre. revert tr H.
  induction pre as [|a pre IH]; intros tr H c post -> Hc; cbn [app followed] in H.
  - rewrite Hc in H. cbn [negb orb] in H. apply andb_prop in H as [H _].
    apply List.existsb_exists in H as (x & Hin & Hx). by destruct x.
  - apply andb_prop in H as [_ H]. by apply (IH _ H c post).
Qed.

End Followed.

(** The walk through the loop body: whatever the device answers, when the
    body is left, for [next], for [rdwr] or at its end, every call of the
    kind [gp] made so far was followed by a reading of the clock.  The kind
    may hold [open] for reading when the two opens give a descriptor. *)
Section Checked.

Variable env : rw_env.
Variable path : string.
Variable gp : sys -> bool.

Hypothesis gp_quiet : forall c,
  is_suspension_point c = false -> gp c = false.
Hypothesis gp_open :
  gp (S_open O_RDONLY_NONBLOCK) = true ->
  open1_errno env = None /\ open2_errno env = None.

Lemma checked_time_now (Pre : list sys -> Prop) :
  triple Pre (stress_time_now env) (all_followed gp) (all_followed gp).
Proof.
  apply triple_time_now. intros tr _. apply followed_snoc_time.
  by apply gp_quiet.
Qed.

Lemma checked_deadline (Pre : list sys -> Prop) t_start close_fd :
  triple Pre (deadline env t_start close_fd) (all_followed gp) (all_followed gp).
Proof.
  apply triple_deadline.
  - intros tr _. apply followed_snoc_time. by apply gp_quiet.
  - intros tr _. destruct close_fd.
    + apply followed_snoc_quiet; [by apply gp_quiet|].
      apply followed_snoc_time. by apply gp_quiet.
    + apply followed_snoc_time. by apply gp_quiet.
Qed.

Lemma checked_call c :
  is_suspension_point c = false ->
  triple (all_followed gp) (call c) (all_followed gp) (all_followed gp).
Proof.
  intros Hc. apply triple_call. intros tr. apply followed_snoc_quiet.
  by apply gp_quiet.
Qed.

Lemma unchecked_call (Pre : list sys -> Prop) c :
  triple Pre (call c) any_calls (all_followed gp).
Proof. by apply triple_call. Qed.

Lemma unchecked_mmap_munmap p f :
  triple any_calls (mmap_munmap env p f) any_calls (all_followed gp).
Proof.
  unfold mmap_munmap.
  apply (triple_bind _ any_calls); [apply unchecked_call|intros _].
  apply triple_when. apply unchecked_call.
Qed.

Lemma unchecked_run_dev_funcs fs :
  triple any_calls (run_dev_funcs path fs) any_calls (all_followed gp).
Proof.
  induction fs as [|d fs IH]; cbn [run_dev_funcs]; [apply triple_ret|].
  apply (triple_bind _ any_calls); [|intros _; exact IH].
  apply triple_when. apply unchecked_call.
Qed.

(** An [open] for reading and the test of what it gave. *)
Lemma checked_open {A} (o : option Z) (k : M A) (Post : list sys -> Prop) :
  (gp (S_open O_RDONLY_NONBLOCK) = true -> o = None) ->
  (forall Pre, triple Pre k Post (all_followed gp)) ->
  triple (all_followed gp)
    (bind (call (S_open O_RDONLY_NONBLOCK))
       (fun _ =>
          bind (match o with
                | Some errno => if errno =? EINTR then goto next else goto rdwr
                | None => ret tt
                end) (fun _ => k)))
    Post (all_followed gp).
Proof.
  intros Ho Hk.
  destruct (gp (S_open O_RDONLY_NONBLOCK)) eqn:Hg.
  - rewrite (Ho eq_refl).
    apply (triple_bind _ any_calls); [apply unchecked_call|intros _].
    apply (triple_bind _ any_calls); [apply triple_ret|intros _]. apply Hk.
  - apply (triple_bind _ (all_followed gp)).
    { apply triple_call. intros tr. by apply followed_snoc_quiet. }
    intros _. apply (triple_bind _ (all_followed gp)); [|intros _; apply Hk].
    destruct o as [errno|]; [|apply triple_ret].
    destruct (errno =? EINTR); by apply triple_goto.
Qed.

Ltac checked_then tac :=
  apply (triple_bind _ (all_followed gp)); [tac|intros ?].

Ltac unchecked_then tac :=
  apply (triple_bind _ any_calls); [tac|intros ?].

Lemma rw_body_checked :
  triple any_calls (rw_body env path) (all_followed gp) (all_followed gp).
Proof.
  unfold rw_body.
  checked_then ltac:(apply checked_time_now).
  apply checked_open; [intros Hg; by destruct (gp_open Hg)|intros Pre].
  checked_then ltac:(apply checked_deadline).
  checked_then ltac:(by apply checked_call).
  checked_then ltac:(idtac).
  { destruct (fstat_failed env); [by apply checked_call|].
    apply triple_when.
    checked_then ltac:(by apply checked_call). by apply triple_goto. }
  checked_then ltac:(idtac).
  { apply triple_when.
    checked_then ltac:(by apply checked_call).
    checked_then ltac:(by apply checked_call). by apply checked_call. }
  checked_then ltac:(idtac).
  { apply triple_when.
    checked_then ltac:(by apply checked_call).
    apply triple_when. by apply checked_call. }
  unchecked_then ltac:(apply unchecked_call).
  unchecked_then ltac:(apply unchecked_call).
  unchecked_then ltac:(apply unchecked_call).
  checked_then ltac:(apply checked_deadline).
  unchecked_then ltac:(apply unchecked_call).
  checked_then ltac:(apply checked_deadline).
  unchecked_then ltac:(apply unchecked_call).
  checked_then ltac:(apply checked_deadline).
  unchecked_then ltac:(apply unchecked_call).
  checked_then ltac:(apply checked_deadline).
  unchecked_then ltac:(apply unchecked_call).
  checked_then ltac:(apply checked_deadline).
  unchecked_then ltac:(apply unchecked_call).
  checked_then ltac:(apply checked_deadline).
  unchecked_then ltac:(apply (triple_bind _ any_calls);
                       [apply unchecked_call|intros ?; apply triple_when;
                                             apply unchecked_call]).
  unchecked_then ltac:(apply unchecked_mmap_munmap).
  unchecked_then ltac:(apply unchecked_call).
  checked_then ltac:(apply checked_deadline).
  apply checked_open; [intros Hg; by destruct (gp_open Hg)|intros Pre'].
  unchecked_then ltac:(apply (triple_bind _ any_calls);
                       [apply unchecked_call|intros ?; apply triple_when;
                                             apply unchecked_call]).
  unchecked_then ltac:(apply unchecked_mmap_munmap).
  unchecked_then ltac:(apply unchecked_call).
  unchecked_then ltac:(apply unchecked_run_dev_funcs).
  unchecked_then ltac:(apply unchecked_call).
  apply checked_deadline.
Qed.

Lemma rw_iteration_checked :
  all_followed gp (trace (rw_iteration env path)).
Proof.
  unfold rw_iteration.
  pose proof (rw_body_checked (mk_rw_state [] 0 false) I) as H.
  assert (Hrdwr : forall s, all_followed gp (trace s) ->
                            all_followed gp (trace (snd (rw_rdwr env s)))).
  { intros s Hs. unfold rw_rdwr, bind, call, when. cbn [fst snd trace].
    destruct (open3_ok env); cbn [trace ret snd].
    - apply followed_snoc_quiet; [by apply gp_quiet|].
      apply followed_snoc_quiet; [by apply gp_quiet|done].
    - apply followed_snoc_quiet; [by apply gp_quiet|done]. }
  destruct (rw_body env path _) as [[[]|[|]] s]; [by apply Hrdwr|done|by apply Hrdwr].
Qed.

End Checked.

(** *** The check comes before the next suspension point *)

Lemma check_walk_snoc tr c :
  check_walk (tr ++ [c]) = check_step (check_walk tr) c.
Proof. unfold check_walk. by rewrite fold_left_app. Qed.

Lemma missed_stays tr : fold_left check_step tr Missed = Missed.
Proof. by induction tr. Qed.

Lemma is_time_now_eq c : is_time_now c = true -> c = S_time_now.
Proof. by destruct c. Qed.

Lemma same_batch_shared k c c' :
  same_batch k c = true -> same_batch k c' = true -> same_batch c c' = true.
Proof.
  destruct k; try discriminate; destruct c; try discriminate;
    destruct c'; try discriminate; reflexivity.
Qed.

Lemma awaits_checked k : forall post,
  fold_left check_step post (Awaits k) = Checked -> checked_next k post.
Proof.
  induction post as [|x post IH]; cbn [fold_left]; [discriminate|].
  cbn [check_step].
  destruct (is_time_now x) eqn:Hx.
  { intros _. apply is_time_now_eq in Hx as ->. exists [], post.
    split; [reflexivity|constructor]. }
  destruct (is_suspension_point x) eqn:Hsusp.
  - destruct (same_batch k x) eqn:Hb; [|by rewrite missed_stays].
    intros H. destruct (IH H) as (mid & post' & -> & Hmid).
    exists (x :: mid), post'. split; [reflexivity|].
    constructor; [by split|exact Hmid].
  - intros H. destruct (IH H) as (mid & post' & -> & Hmid).
    exists (x :: mid), post'. split; [reflexivity|].
    constructor; [split; [done|congruence]|exact Hmid].
Qed.

Lemma checked_next_shared k c post :
  same_batch k c = true -> checked_next k post -> checked_next c post.
Proof.
  intros Hkc (mid & post' & -> & Hmid). exists mid, post'.
  split; [reflexivity|].
  eapply Forall_impl; [exact Hmid|]. intros c' [Ht Hs]. split; [exact Ht|].
  intros Hc'. by apply (same_batch_shared k), Hs.
Qed.

(** A walk that ends with every check made: every seek, [poll], [select],
    [fcntl] and [mmap] it met was followed by its check. *)
Lemma walk_checked_next tr :
  walks_to Checked tr ->
  forall pre c post,
    tr = pre ++ c :: post -> is_guard_point c = true -> checked_next c post.
Proof.
  unfold walks_to, check_walk. intros H pre c post -> Hc.
  rewrite fold_left_app in H. cbn [fold_left] in H.
  destruct (fold_left check_step pre Checked) as [|k|].
  - cbn [check_step] in H. rewrite Hc in H. by apply awaits_checked.
  - cbn [check_step] in H.
    assert (Ht : is_time_now c = false) by (by destruct c).
    assert (Hs : is_suspension_point c = true)
      by (unfold is_suspension_point; by rewrite Hc).
    rewrite Ht, Hs in H.
    destruct (same_batch k c) eqn:Hb; [|by rewrite missed_stays in H].
    apply (checked_next_shared k); [exact Hb|]. by apply awaits_checked.
  - cbn [check_step] in H. by rewrite missed_stays in H.
Qed.

Section Walk.

Variable env : rw_env.
Variable path : string.

Lemma walk_call st st' c (Exit : list sys -> Prop) :
  check_step st c = st' ->
  triple (walks_to st) (call c) (walks_to st') Exit.
Proof.
  intros H. apply triple_call. unfold walks_to. intros tr Htr.
  by rewrite check_walk_snoc, Htr.
Qed.

Lemma walk_time_now st :
  st <> Missed ->
  triple (walks_to st) (stress_time_now env) (walks_to Checked)
    (walks_to Checked).
Proof.
  intros Hst. apply triple_time_now. unfold walks_to. intros tr Htr.
  rewrite check_walk_snoc, Htr. by destruct st.
Qed.

Lemma walk_deadline st t_start close_fd :
  st <> Missed ->
  triple (walks_to st) (deadline env t_start close_fd) (walks_to Checked)
    (walks_to Checked).
Proof.
  intros Hst.
  assert (H : forall tr, walks_to st tr -> walks_to Checked (tr ++ [S_time_now])).
  { unfold walks_to. intros tr Htr. rewrite check_walk_snoc, Htr.
    by destruct st. }
  apply triple_deadline; [exact H|].
  intros tr Htr. destruct close_fd; [|by apply H].
  unfold walks_to. rewrite check_walk_snoc. by rewrite (H tr Htr).
Qed.

Lemma walk_mmap_munmap st k p f :
  check_step st (S_mmap p f) = Awaits k ->
  triple (walks_to st) (mmap_munmap env p f) (walks_to (Awaits k))
    (walks_to Checked).
Proof.
  intros H. unfold mmap_munmap.
  apply (triple_bind _ (walks_to (Awaits k))); [by apply walk_call|intros _].
  apply triple_when. by apply walk_call.
Qed.

Lemma walk_run_dev_funcs k fs :
  triple (walks_to (Awaits k)) (run_dev_funcs path fs) (walks_to (Awaits k))
    (walks_to Checked).
Proof.
  induction fs as [|d fs IH]; cbn [run_dev_funcs]; [apply triple_ret|].
  apply (triple_bind _ (walks_to (Awaits k))); [|intros _; exact IH].
  apply triple_when. by apply walk_call.
Qed.

Lemma walk_open_test (o : option Z) :
  triple (walks_to Checked)
    (match o with
     | Some errno => if errno =? EINTR then goto next else goto rdwr
     | None => ret tt
     end) (walks_to Checked) (walks_to Checked).
Proof.
  destruct o as [errno|]; [|apply triple_ret].
  destruct (errno =? EINTR); by apply triple_goto.
Qed.

Ltac walk_then st tac :=
  apply (triple_bind _ (walks_to st)); [tac|intros ?].

Ltac walk_quiet := walk_then Checked ltac:(by apply walk_call).

Ltac walk_check := walk_then Checked ltac:(by apply walk_deadline).

Lemma rw_body_walk :
  triple (walks_to Checked) (rw_body env path) (walks_to Checked)
    (walks_to Checked).
Proof.
  unfold rw_body.
  walk_then Checked ltac:(by apply walk_time_now).
  walk_quiet.
  walk_then Checked ltac:(apply walk_open_test).
  walk_check.
  walk_quiet.
  walk_then Checked ltac:(idtac).
  { destruct (fstat_failed env); [by apply walk_call|].
    apply triple_when. walk_quiet. by apply triple_goto. }
  walk_then Checked ltac:(idtac).
  { apply triple_when. walk_quiet. walk_quiet. by apply walk_call. }
  walk_then Checked ltac:(idtac).
  { apply triple_when. walk_quiet. apply triple_when. by apply walk_call. }
  walk_then (Awaits (S_lseek SEEK_SET)) ltac:(by apply walk_call).
  walk_then (Awaits (S_lseek SEEK_SET)) ltac:(by apply walk_call).
  walk_then (Awaits (S_lseek SEEK_SET)) ltac:(by apply walk_call).
  walk_check.
  walk_then (Awaits S_poll) ltac:(by apply walk_call).
  walk_check.
  walk_then (Awaits S_select) ltac:(by apply walk_call).
  walk_check.
  walk_then (Awaits (S_fcntl F_GETFD)) ltac:(by apply walk_call).
  walk_check.
  walk_then (Awaits (S_fcntl F_GETFL)) ltac:(by apply walk_call).
  walk_check.
  walk_then (Awaits (S_fcntl F_GETSIG)) ltac:(by apply walk_call).
  walk_check.
  walk_then (Awaits (S_mmap PROT_READ MAP_PRIVATE))
    ltac:(by apply walk_mmap_munmap).
  walk_then (Awaits (S_mmap PROT_READ MAP_PRIVATE))
    ltac:(by apply walk_mmap_munmap).
  walk_then (Awaits (S_mmap PROT_READ MAP_PRIVATE)) ltac:(by apply walk_call).
  walk_check.
  walk_quiet.
  walk_then Checked ltac:(apply walk_open_test).
  walk_then (Awaits (S_mmap PROT_WRITE MAP_PRIVATE))
    ltac:(by apply walk_mmap_munmap).
  walk_then (Awaits (S_mmap PROT_WRITE MAP_PRIVATE))
    ltac:(by apply walk_mmap_munmap).
  walk_then (Awaits (S_mmap PROT_WRITE MAP_PRIVATE)) ltac:(by apply walk_call).
  walk_then (Awaits (S_mmap PROT_WRITE MAP_PRIVATE))
    ltac:(apply walk_run_dev_funcs).
  walk_then (Awaits (S_mmap PROT_WRITE MAP_PRIVATE)) ltac:(by apply walk_call).
  by apply walk_deadline.
Qed.

Lemma rw_iteration_walk : walks_to Checked (trace (rw_iteration env path)).
Proof.
  unfold rw_iteration.
  pose proof (rw_body_walk (mk_rw_state [] 0 false) eq_refl) as H.
  assert (Hrdwr : forall s, walks_to Checked (trace s) ->
                            walks_to Checked (trace (snd (rw_rdwr env s)))).
  { intros s Hs. unfold rw_rdwr, bind, call, when. cbn [fst snd trace].
    unfold walks_to in *.
    destruct (open3_ok env); cbn [trace ret snd];
      rewrite ?check_walk_snoc, Hs; reflexivity. }
  destruct (rw_body env path _) as [[[]|[|]] s]; [by apply Hrdwr|done|by apply Hrdwr].
Qed.

End Walk.

(** *** The run of an iteration whose checks are known *)

(** An iteration that gets past [fstat] and whose first two checks pass
    while the third does not: it is abandoned right after [poll], and the
    last calls made are the third seek, the second check, [poll], the third
    check and [close]. *)
Lemma abandoned_at_third_check env path :
  gets_past_fstat env = true ->
  exceeds env 1 = false -> exceeds env 2 = false -> exceeds env 3 = true ->
  let s := rw_iteration env path in
  timeout s = true /\ ticks s = 4%nat
  /\ last_calls 5 (trace s)
     = [S_lseek SEEK_END; S_time_now; S_poll; S_time_now; S_close].
Proof.
  intros Hpast H1 H2 H3 s. unfold gets_past_fstat in Hpast.
  unfold exceeds in H1, H2, H3.
  assert (Hs : s = rw_iteration env path) by reflexivity. clearbody s.
  unfold rw_iteration, rw_body in Hs.
  unfold bind at 1, stress_time_now at 1 in Hs.
  cbn [trace ticks timeout app] in Hs.
  rewrite bind_call in Hs. cbn [trace ticks timeout app] in Hs.
  destruct (open1_errno env) as [errno|]; [discriminate Hpast|].
  unfold bind at 1, ret at 1 in Hs.
  rewrite bind_deadline in Hs. cbn [trace ticks timeout app] in Hs.
  rewrite H1 in Hs.
  rewrite bind_call in Hs. cbn [trace ticks timeout app] in Hs.
  destruct (fstat_failed env), (st_is_blk env), (st_is_chr env);
    try discriminate Hpast;
    destruct (strncmp_eq "/dev/vsock" path 9),
      (strncmp_eq "/dev/dri" path 7), (tcgets_ok env);
    cbn [orb andb negb when bind call ret trace ticks timeout app] in Hs;
    rewrite bind_deadline in Hs; cbn [trace ticks timeout app] in Hs;
    rewrite H2 in Hs;
    rewrite bind_call in Hs; cbn [trace ticks timeout app] in Hs;
    rewrite bind_deadline in Hs; cbn [trace ticks timeout app] in Hs;
    rewrite H3 in Hs; subst s; by repeat split.
Qed.


Lemma env_steps_clock k :
  (time_now (env_steps "/dev/ttyS0" (1 # 10)) k
   == time_now (env_steps "/dev/ttyS0" (1 # 10)) 0
      + inject_Z (Z.of_nat k) * (1 # 10))%Q.
Proof.
  unfold env_steps. cbn [time_now].
  change (inject_Z (Z.of_nat 0)) with 0%Q. lra.
Defined.


(** The iteration of the specification's example: each guarded step takes
    0.1 s, the third check (after [poll]) finds 0.3 s > 0.25 s, the
    descriptor is closed and nothing else is called. *)
Example deadline_at_third_check :
  rw_iteration (env_steps "/dev/ttyS0" (1 # 10)) "/dev/ttyS0"
  = mk_rw_state
      [S_time_now; S_open O_RDONLY_NONBLOCK; S_time_now;
       S_fstat; S_ioctl_TCGETS; S_dev_tty;
       S_lseek SEEK_SET; S_lseek SEEK_CUR; S_lseek SEEK_END; S_time_now;
       S_poll; S_time_now; S_close]
      4 true.
Proof. reflexivity. Qed.

(** At exactly 0.25 s the guard does not fire (the comparison is strict);
    with steps of 0.125 s the second check reads 0.25 s and passes, the third
    reads 0.375 s and abandons. *)
Example deadline_boundary :
  exceeds (env_steps "/dev/null" (1 # 8)) 2 = false
  /\ exceeds (env_steps "/dev/null" (1 # 8)) 3 = true
  /\ ticks (rw_iteration (env_steps "/dev/null" (1 # 8)) "/dev/null") = 4%nat.
Proof. repeat split. Qed.

(** With [loops = 3] the abandoned device is not tried again. *)
Example abandoned_not_retried :
  stress_dev_rw (fun _ => env_steps "/dev/ttyS0" (1 # 10)) 5 0 3
  = (Returned tt,
     [[S_spin_lock; S_spin_unlock;
       S_time_now; S_open O_RDONLY_NONBLOCK; S_time_now;
       S_fstat; S_ioctl_TCGETS; S_dev_tty;
       S_lseek SEEK_SET; S_lseek SEEK_CUR; S_lseek SEEK_END; S_time_now;
       S_poll; S_time_now; S_close]]).
Proof. reflexivity. Qed.

(** A clock that stands still: the iteration runs to its end, ten readings
    in all. *)
Example no_deadline_missed :
  let s := rw_iteration (env_steps "/dev/null" 0) "/dev/null" in
  (ticks s, timeout s, length (trace s)) = (10%nat, false, 37%nat).
Proof. reflexivity. Qed.

(** ** The traversal of [stress_dev_dir] *)

Section Traversal.

Variable env : dir_env.
Variable instance : Z.
Variable euid : Z.

(** Beyond depth 20 the call returns at once; so does it when the continue
    flag was cleared. *)
Lemma depth_cap fuel path recurse depth st :
  20 < depth ->
  stress_dev_dir env instance euid (S fuel) path recurse depth st
  = Some (tick_flag st).
Proof using Type.
  intros Hd. cbn [stress_dev_dir]. apply Z.ltb_lt in Hd. rewrite Hd.
  by destruct (negb _).
Qed.

Lemma visit_entries_total (visit : dirent -> dir_state -> option dir_state) :
  (forall d st, exists st', visit d st = Some st') ->
  forall ds st, exists st', visit_entries env visit ds st = Some st'.
Proof using Type.
  intros Hv ds. induction ds as [|d ds IH]; intros st; simpl; [eauto|].
  destruct (negb _); [eauto|].
  destruct (Hv d (tick_keep st)) as [st1 ->]. apply IH.
Qed.

Lemma visit_entry_total self path recurse depth :
  (forall p r st, exists st', self p r (depth + 1) st = Some st') ->
  forall d st,
    exists st', visit_entry env instance euid self path recurse depth d st = Some st'.
Proof using Type.
  intros Hself d st. unfold visit_entry.
  destruct (stress_is_dot_filename env (d_name d)); [eauto|].
  destruct ((euid =? 0) && _); [eauto|].
  destruct (too_many_of_driver (d_name d)); [eauto|].
  destruct (d_kind d); eauto.
  destruct (negb recurse); [eauto|].
  destruct (stress_hash_get _ _); [eauto|].
  destruct (stat_mode env _) as [mode|]; [|eauto].
  destruct (Z.land mode rw_group_other =? 0); [eauto|apply Hself].
Qed.

(** The traversal ends on every file system, finite or not: [22 - depth]
    nested calls at most are under way at any time. *)
Lemma stress_dev_dir_total : forall fuel path recurse depth st,
  (Z.to_nat (21 - depth) < fuel)%nat ->
  exists st',
    stress_dev_dir env instance euid fuel path recurse depth st = Some st'.
Proof using Type.
  induction fuel as [|fuel IH]; intros path recurse depth st Hfuel; [lia|].
  cbn [stress_dev_dir].
  destruct (negb _); [eauto|].
  destruct (20 <? depth) eqn:Hd; [eauto|].
  apply Z.ltb_ge in Hd.
  apply visit_entries_total. apply visit_entry_total.
  intros p r st1. apply IH. lia.
Qed.

Lemma scandir_depths_app a b :
  scandir_depths (a ++ b) = scandir_depths a ++ scandir_depths b.
Proof using Type.
  induction a as [|e a IH]; [reflexivity|].
  destruct e; simpl; by rewrite ?IH.
Qed.

Lemma extends_refl lo st : extends lo st st.
Proof using Type.
  exists []. split; [by rewrite app_nil_r|constructor].
Qed.

Lemma extends_trans lo st1 st2 st3 :
  extends lo st1 st2 -> extends lo st2 st3 -> extends lo st1 st3.
Proof using Type.
  intros (n1 & H1 & F1) (n2 & H2 & F2). exists (n1 ++ n2). split.
  - by rewrite H2, H1, app_assoc.
  - rewrite scandir_depths_app. by apply Forall_app.
Qed.

Lemma extends_weaken lo lo' st st' :
  lo' <= lo -> extends lo st st' -> extends lo' st st'.
Proof using Type.
  intros Hle (n & H & F). exists n. split; [exact H|].
  eapply Forall_impl; [exact F|]. simpl. intros z Hz. lia.
Qed.

Lemma extends_log lo evs st :
  scandir_depths evs = [] -> extends lo st (log evs st).
Proof using Type.
  intros H. exists evs. split; [reflexivity|]. rewrite H. constructor.
Qed.

Lemma extends_hash_add lo path st : extends lo st (hash_add path st).
Proof using Type.
  exists [D_hash_add path]. split; [reflexivity|constructor].
Qed.

Lemma extends_tick_keep lo st : extends lo st (tick_keep st).
Proof using Type.
  exists []. split; [by rewrite app_nil_r|constructor].
Qed.

Lemma extends_tick_flag lo st : extends lo st (tick_flag st).
Proof using Type.
  exists []. split; [by rewrite app_nil_r|constructor].
Qed.

Lemma extends_visit_device lo tmp st :
  extends lo st (visit_device env instance tmp st).
Proof using Type.
  unfold visit_device.
  destruct (stress_hash_get _ _); [apply extends_refl|].
  destruct (strstr _ _); [apply extends_hash_add|].
  destruct (negb _).
  - eapply extends_trans; [|apply extends_hash_add]. by apply extends_log.
  - destruct (_ =? 0); by apply extends_log.
Qed.

Lemma visit_entries_extends lo visit :
  (forall d st st', visit d st = Some st' -> extends lo st st') ->
  forall ds st st',
    visit_entries env visit ds st = Some st' -> extends lo st st'.
Proof using Type.
  intros Hv ds. induction ds as [|d ds IH]; intros st st' H; simpl in H.
  - inversion H; subst. by apply extends_log.
  - destruct (negb _).
    + inversion H; subst.
      eapply extends_trans; [apply extends_tick_keep|by apply extends_log].
    + destruct (visit d (tick_keep st)) as [st1|] eqn:Hd; [|discriminate].
      eapply extends_trans; [apply extends_tick_keep|].
      eapply extends_trans; [by apply (Hv d)|by apply IH].
Qed.

Lemma visit_entry_extends lo self path recurse depth :
  (forall p r st st', self p r (depth + 1) st = Some st' -> extends lo st st') ->
  forall d st st',
    visit_entry env instance euid self path recurse depth d st = Some st' ->
    extends lo st st'.
Proof using Type.
  intros Hself d st st' H. unfold visit_entry in H.
  destruct (stress_is_dot_filename env (d_name d));
    [inversion H; apply extends_refl|].
  destruct ((euid =? 0) && _); [inversion H; apply extends_refl|].
  destruct (too_many_of_driver (d_name d)); [inversion H; apply extends_refl|].
  destruct (d_kind d).
  - destruct (negb recurse); [inversion H; apply extends_refl|].
    destruct (stress_hash_get _ _); [inversion H; apply extends_refl|].
    destruct (stat_mode env _) as [mode|].
    + destruct (Z.land mode rw_group_other =? 0).
      * inversion H; subst.
        eapply extends_trans; [|apply extends_hash_add]. by apply extends_log.
      * eapply extends_trans; [|by eapply Hself]. by apply extends_log.
    + inversion H; subst.
      eapply extends_trans; [|apply extends_hash_add]. by apply extends_log.
  - inversion H; subst. apply extends_visit_device.
  - inversion H; subst. apply extends_visit_device.
  - inversion H; apply extends_refl.
Qed.

(** Every [scandir] of a call at [depth] is made at a depth between [depth]
    and 20: nested calls go one level down at a time and stop at the cap. *)
Lemma stress_dev_dir_depths : forall fuel path recurse depth st st',
  stress_dev_dir env instance euid fuel path recurse depth st = Some st' ->
  extends depth st st'.
Proof using Type.
  induction fuel as [|fuel IH]; intros path recurse depth st st' H;
    [discriminate|].
  cbn [stress_dev_dir] in H.
  destruct (negb _); [inversion H; apply extends_tick_flag|].
  destruct (20 <? depth) eqn:Hd; [inversion H; apply extends_tick_flag|].
  apply Z.ltb_ge in Hd.
  eapply extends_trans; [apply extends_tick_flag|].
  apply (extends_trans _ _ (log [D_scandir path depth] (tick_flag st))).
  - exists [D_scandir path depth]. split; [reflexivity|].
    simpl. constructor; [lia|constructor].
  - eapply visit_entries_extends; [|exact H].
    apply visit_entry_extends. intros p r st1 st2 Hrec.
    eapply extends_weaken; [|by eapply IH]. lia.
Qed.

End Traversal.

(** ** The digits [atoi] is given *)

Local Open Scope string_scope.

Lemma length_append_string (x y : string) :
  String.length (x ++ y) = (String.length x + String.length y)%nat.
Proof.
  induction x as [|a x IH]; simpl; [reflexivity|]. by rewrite IH.
Qed.

Lemma substring_0_0 (s : string) : substring 0 0 s = EmptyString.
Proof. by destruct s. Qed.

Lemma substring_all (s : string) : substring 0 (String.length s) s = s.
Proof.
  induction s as [|a s IH]; simpl; [reflexivity|]. by rewrite IH.
Qed.

Lemma substring_snoc (s : string) : forall p,
  (p < String.length s)%nat ->
  substring 0 (S p) s = substring 0 p s ++ String (char_at s p) EmptyString.
Proof.
  induction s as [|a s IH]; intros p Hp; simpl in Hp; [lia|].
  destruct p as [|p].
  - simpl. by rewrite substring_0_0.
  - change (substring 0 (S (S p)) (String a s))
      with (String a (substring 0 (S p) s)).
    rewrite (IH p) by lia. reflexivity.
Qed.

Lemma trailing_digits_length (s : string) :
  (String.length (trailing_digits s) <= String.length s)%nat.
Proof.
  induction s as [|a s IH]; simpl; [lia|].
  destruct (isdigit a && _); simpl; lia.
Qed.

(** The trailing digits of a string with one more character. *)
Lemma trailing_digits_snoc (x : string) (ch : ascii) :
  trailing_digits (x ++ String ch EmptyString)
  = if isdigit ch then trailing_digits x ++ String ch EmptyString else EmptyString.
Proof.
  induction x as [|a x IH].
  - simpl. by destruct (isdigit ch).
  - change (trailing_digits (String a x ++ String ch EmptyString))
      with (let t := trailing_digits (x ++ String ch EmptyString) in
            if isdigit a
               && (String.length t =? String.length (x ++ String ch EmptyString))%nat
            then String a (x ++ String ch EmptyString) else t).
    cbv zeta. rewrite IH, !length_append_string.
    destruct (isdigit ch).
    + rewrite length_append_string. simpl String.length.
      replace (String.length (trailing_digits x) + 1 =? String.length x + 1)%nat
        with (String.length (trailing_digits x) =? String.length x)%nat.
      * simpl. by destruct (isdigit a && _).
      * destruct (Nat.eqb_spec (String.length (trailing_digits x))
                    (String.length x)) as [->|Hne].
        -- by rewrite Nat.eqb_refl.
        -- symmetry. apply Nat.eqb_neq. lia.
    + simpl String.length.
      replace (0 =? String.length x + 1)%nat with false
        by (symmetry; apply Nat.eqb_neq; lia).
      by rewrite andb_false_r.
Qed.

(** The trailing digits are the end of the string. *)
Lemma trailing_digits_suffix (s : string) :
  substring (String.length s - String.length (trailing_digits s))
            (String.length (trailing_digits s)) s
  = trailing_digits s.
Proof.
  induction s as [|a s IH]; [reflexivity|].
  pose proof (trailing_digits_length s) as Hle.
  change (trailing_digits (String a s))
    with (if isdigit a
             && (String.length (trailing_digits s) =? String.length s)%nat
          then String a s else trailing_digits s).
  destruct (isdigit a && _).
  - rewrite Nat.sub_diag. apply substring_all.
  - simpl String.length.
    replace (S (String.length s) - String.length (trailing_digits s))%nat
      with (S (String.length s - String.length (trailing_digits s))) by lia.
    exact IH.
Qed.

(** Where the backward scan stops: just before the trailing digits of what
    follows the first character, the first character being never looked
    at. *)
Lemma scan_back_spec (c : ascii) (s : string) : forall p,
  (p <= String.length s)%nat ->
  scan_back (String c s) p
  = (p - String.length (trailing_digits (substring 0 p s)))%nat.
Proof.
  induction p as [|p IH]; intros Hp; [reflexivity|].
  cbn [scan_back].
  change (char_at (String c s) (S p)) with (char_at s p).
  rewrite (substring_snoc s p) by lia. rewrite trailing_digits_snoc.
  destruct (isdigit (char_at s p)).
  - rewrite IH by lia. rewrite length_append_string. simpl. lia.
  - simpl. lia.
Qed.

(** The string handed to [atoi]: the trailing digits of the name without its
    first character. *)
Lemma digit_suffix_tail (c : ascii) (s : string) :
  digit_suffix (String c s) = trailing_digits s.
Proof.
  unfold digit_suffix.
  pose proof (trailing_digits_length s) as Hle.
  simpl String.length.
  replace (S (String.length s) - 1)%nat with (String.length s) by lia.
  rewrite scan_back_spec by lia. rewrite substring_all.
  replace (S (String.length s)
           - S (String.length s - String.length (trailing_digits s)))%nat
    with (String.length (trailing_digits s)) by lia.
  change (substring (S ?n) ?m (String c s)) with (substring n m s).
  apply trailing_digits_suffix.
Qed.

(** The trailing digits start with a digit. *)
Lemma trailing_digits_head (s : string) c r :
  trailing_digits s = String c r -> isdigit c = true.
Proof.
  induction s as [|a s IH]; simpl; [discriminate|].
  destruct (isdigit a) eqn:Ha; cbn [andb]; [|exact IH].
  destruct (_ =? _)%nat; [|exact IH]. by intros [= <- _].
Qed.

Lemma atoi_digits_ge (s : string) : forall acc, 0 <= acc -> acc <= atoi_digits s acc.
Proof.
  induction s as [|a s IH]; intros acc Hacc; simpl; [lia|].
  destruct (isdigit a) eqn:Ha; [|lia].
  unfold isdigit in Ha. apply andb_prop in Ha as [H1 H2].
  apply Nat.leb_le in H1, H2.
  etrans; [|apply IH]; lia.
Qed.

(** On a run of digits [strtol] has no white space or sign to pass. *)
Lemma strtol_value_digits (s : string) :
  strtol_value (trailing_digits s) = atoi_digits (trailing_digits s) 0.
Proof.
  destruct (trailing_digits s) as [|c r] eqn:Ht; [reflexivity|].
  pose proof (trailing_digits_head s c r Ht) as Hc.
  unfold isdigit in Hc. apply andb_prop in Hc as [H1 H2].
  apply Nat.leb_le in H1, H2.
  cbn [strtol_value]. unfold isspace. cbv zeta.
  replace (nat_of_ascii c =? 32)%nat with false
    by (symmetry; apply Nat.eqb_neq; lia).
  replace (nat_of_ascii c <=? 13)%nat with false
    by (symmetry; apply Nat.leb_gt; lia).
  rewrite andb_false_r. cbn [orb].
  replace (nat_of_ascii c =? 45)%nat with false
    by (symmetry; apply Nat.eqb_neq; lia).
  replace (nat_of_ascii c =? 43)%nat with false
    by (symmetry; apply Nat.eqb_neq; lia).
  reflexivity.
Qed.

(** [atoi] gives the value of the digits when it fits an [int]. *)
Lemma atoi_fits (s : string) :
  atoi_digits (trailing_digits s) 0 <= INT_MAX ->
  atoi (trailing_digits s) = atoi_digits (trailing_digits s) 0.
Proof.
  intros Hle. unfold atoi, strtol. rewrite strtol_value_digits.
  pose proof (atoi_digits_ge (trailing_digits s) 0 ltac:(lia)) as Hge.
  unfold INT_MAX in Hle. unfold LONG_MAX, LONG_MIN, int_of_long.
  rewrite Z.min_r, Z.max_r by lia.
  rewrite Z.mod_small by lia. lia.
Qed.

Example digit_suffix_samples :
  map digit_suffix ["ttyS0"; "ttyS12"; "null"; "30"; "7"; "sda1"; "loop007"]
  = ["0"; "12"; EmptyString; "0"; EmptyString; "1"; "007"].
Proof. reflexivity. Qed.

Example too_many_samples :
  map too_many_of_driver
    ["ttyS0"; "ttyS1"; "ttyS2"; "ttyS3"; "ttyS12"; "null"; "30"; "7"; "13"]
  = [false; false; false; true; true; false; false; false; true].
Proof. reflexivity. Qed.

(** C9, as the code has it.  [stress_dev_dir] returns at once, scanning
    nothing, when its depth argument exceeds 20; a nested call is made at
    [depth + 1]; hence, with fuel for [22 - depth] nested calls, the
    traversal ends on every file system, and every [scandir] it makes is at
    a depth between [depth] and 20.  An entry whose name has more than one
    character is passed over entirely when [atoi], given the decimal digits
    that end the name after its first character, returns more than 2 (the
    first character is never taken as part of the number); it is not passed
    over by this rule when [atoi] returns at most 2, or when the name has a
    single character.  What [atoi] returns is the value of the digits when
    that value is at most [INT_MAX]; beyond it the [int] obtained from
    [strtol] decides. *)
Theorem bounded_traversal env instance euid path recurse depth st :
  (forall fuel,
      20 < depth ->
      stress_dev_dir env instance euid (S fuel) path recurse depth st
      = Some (tick_flag st))
  /\ (forall fuel,
        (Z.to_nat (21 - depth) < fuel)%nat ->
        exists st',
          stress_dev_dir env instance euid fuel path recurse depth st = Some st'
          /\ extends depth st st')
  /\ (forall self d mode,
        stress_is_dot_filename env (d_name d) = false ->
        (euid =? 0)%Z && String.eqb (d_name d) "hpet" = false ->
        too_many_of_driver (d_name d) = false ->
        d_kind d = DT_DIR -> recurse = true ->
        stress_hash_get (dev_hash_table st) (path ++ "/" ++ d_name d) = false ->
        stat_mode env (path ++ "/" ++ d_name d) = Some mode ->
        Z.land mode rw_group_other <> 0 ->
        visit_entry env instance euid self path recurse depth d st
        = self (path ++ "/" ++ d_name d) recurse (depth + 1)
            (log [D_stat (path ++ "/" ++ d_name d); D_inc_counter] st))
  /\ (forall c s, digit_suffix (String c s) = trailing_digits s)
  /\ (forall self c s kind,
        s <> EmptyString ->
        2 < atoi (trailing_digits s) ->
        too_many_of_driver (String c s) = true
        /\ visit_entry env instance euid self path recurse depth
             (mk_dirent (String c s) kind) st
           = Some st)
  /\ (forall c s,
        atoi (trailing_digits s) <= 2 \/ s = EmptyString ->
        too_many_of_driver (String c s) = false)
  /\ (forall s,
        atoi_digits (trailing_digits s) 0 <= INT_MAX ->
        atoi (trailing_digits s) = atoi_digits (trailing_digits s) 0)
  /\ (forall s,
        - 2 ^ 31 <= atoi s <= INT_MAX).
Proof.
  split; [|split; [|split; [|split; [|split; [|split; [|split]]]]]].
  - intros fuel Hd. by apply depth_cap.
  - intros fuel Hfuel.
    destruct (stress_dev_dir_total env instance euid fuel path recurse depth st
                Hfuel) as [st' Hst'].
    exists st'. split; [exact Hst'|].
    by apply (stress_dev_dir_depths env instance euid fuel path recurse).
  - intros self d mode Hdot Hhpet Hmany Hkind -> Hhash Hstat Hmode.
    unfold visit_entry. rewrite Hdot, Hhpet, Hmany, Hkind. cbn [negb].
    rewrite Hhash, Hstat. apply Z.eqb_neq in Hmode. by rewrite Hmode.
  - apply digit_suffix_tail.
  - intros self c s kind Hs Hgt.
    assert (Hmany : too_many_of_driver (String c s) = true).
    { unfold too_many_of_driver. rewrite digit_suffix_tail.
      destruct s as [|a s]; [done|]. simpl String.length.
      apply Z.ltb_lt in Hgt. by rewrite Hgt. }
    split; [exact Hmany|].
    unfold visit_entry. cbn [d_name]. rewrite Hmany.
    destruct (stress_is_dot_filename env _); [reflexivity|].
    by destruct ((euid =? 0)%Z && _).
  - intros c s Hs. unfold too_many_of_driver. rewrite digit_suffix_tail.
    destruct Hs as [Hle| ->]; [|reflexivity].
    destruct (1 <? String.length (String c s))%nat; [|reflexivity].
    by apply Z.ltb_ge.
  - apply atoi_fits.
  - intros s. unfold atoi, int_of_long, INT_MAX.
    pose proof (Z.mod_pos_bound (strtol s + 2 ^ 31) (2 ^ 32) ltac:(lia)). lia.
Qed.

Lemma bounded_traversal_witness :
  20 < 21
  /\ stress_dev_dir endless_fs 0 0 1 "/dev" true 21 dir_state0
     = Some (tick_flag dir_state0).
Proof.
  assert (H : 20 < 21) by lia.
  split; [exact H|].
  exact (proj1 (bounded_traversal endless_fs 0 0 "/dev" true 21 dir_state0)
           0%nat H).
Defined.

(** The claim as first stated takes the number from the whole run of digits
    that ends the name.  The entry [30] is all digits, its trailing digits
    parse to 30, and it is not passed over: the scan stops at the first
    character, and [atoi] is given ["0"]. *)
Lemma all_digit_name_not_skipped :
  ~ (forall name,
        (1 < String.length name)%nat ->
        2 < atoi (trailing_digits name) ->
        too_many_of_driver name = true).
Proof.
  intros H. specialize (H "30").
  assert (H1 : (1 < String.length "30")%nat) by (simpl; lia).
  assert (H2 : 2 < atoi (trailing_digits "30")) by (vm_compute; reflexivity).
  specialize (H H1 H2). vm_compute in H. discriminate.
Qed.

(** Past [INT_MAX] the digits are not the number compared with 2: the
    entry [sda2147483650] has a digit suffix worth more than 2, [atoi]
    returns a negative [int], and the entry is exercised; digits past
    [LONG_MAX] give -1. *)
Example beyond_int_max :
  atoi_digits (digit_suffix "sda2147483650") 0 = 2147483650
  /\ atoi (digit_suffix "sda2147483650") = -2147483646
  /\ too_many_of_driver "sda2147483650" = false
  /\ atoi (digit_suffix "sda99999999999999999999") = -1
  /\ too_many_of_driver "sda99999999999999999999" = false
  /\ too_many_of_driver "sda4294967299" = true.
Proof. by vm_compute. Qed.

(** On a tree without a bottom the traversal from depth 0 scans depths 0 to
    20 and stops; at every level [ttyS7] is passed over and [30] is
    exercised. *)
Example endless_tree_is_cut :
  match stress_dev_dir endless_fs 0 0 22 "/dev" true 0 dir_state0 with
  | Some st' =>
      scandir_depths (dir_trace st') = map Z.of_nat (seq 0 21)
      /\ existsb (fun e => match e with
                           | D_dev_rw p _ => String.eqb p "/dev/30"
                           | _ => false
                           end) (dir_trace st') = true
      /\ existsb (fun e => match e with
                           | D_dev_rw p _ | D_try_open p => strstr p "ttyS7"
                           | _ => false
                           end) (dir_trace st') = false
  | None => False
  end.
Proof. vm_compute. repeat split. Qed.

End DevFacts.

Module RetryFacts.

(** ** Fork failures in [stress_dev] and [stress_cgroup_mount] *)

Lemma transient_test errno :
  (errno =? EAGAIN) || (errno =? ENOMEM) = true <-> Dev.transient errno.
Proof.
  unfold Dev.transient. rewrite orb_true_iff, !Z.eqb_eq. reflexivity.
Qed.

(** The classification taken from the specification retries exactly the
    transient failures. *)
Lemma stress_redo_fork_transient errno :
  Cgroup.stress_redo_fork errno = true <-> Dev.transient errno.
Proof. apply transient_test. Qed.

(** [m] transient failures in a row, the continue predicate holding before
    each attempt: [m] forks are attempted, each followed by the jump back to
    [again], and the loop is then where it would be had they not happened.
    Nothing but the predicate bounds the number of attempts. *)
Lemma dev_retries env rc : forall m n fuel,
  (forall t, (t < m)%nat ->
     Dev.keep_at_again (env (n + t)%nat) = true
     /\ exists errno,
          Dev.dev_fork (env (n + t)%nat) = ForkFailed errno
          /\ Dev.transient errno) ->
  exists evs,
    Dev.dev_from_again env (m + fuel) n rc
    = emit evs (Dev.dev_from_again env fuel (n + m) rc)
    /\ Dev.dev_forks evs = m.
Proof.
  induction m as [|m IH]; intros n fuel H.
  - exists []. rewrite Nat.add_0_r. split; [|reflexivity].
    change (0 + fuel)%nat with fuel. unfold emit.
    by destruct (Dev.dev_from_again env fuel n rc).
  - destruct (H 0%nat ltac:(lia)) as (Hkeep & errno & Hfork & Htr).
    rewrite Nat.add_0_r in Hkeep, Hfork.
    destruct (IH (S n) fuel) as (evs & Hrun & Hforks).
    { intros t Ht. specialize (H (S t) ltac:(lia)).
      by rewrite Nat.add_succ_r in H. }
    exists ([Dev.V_keep_stressing true; Dev.V_fork (ForkFailed errno);
             Dev.V_goto_again] ++ evs).
    split.
    + change (S m + fuel)%nat with (S (m + fuel)).
      cbn [Dev.dev_from_again]. rewrite Hkeep, Hfork.
      apply transient_test in Htr. rewrite Htr. cbn [negb].
      rewrite Hrun. rewrite Nat.add_succ_r. unfold emit. cbn [fst snd].
      by rewrite <- !app_assoc.
    + unfold Dev.dev_forks in *. rewrite List.filter_app, length_app, Hforks.
      reflexivity.
Qed.

(** C6.  When [fork] fails in [stress_dev] with [EAGAIN] or [ENOMEM], the
    supervisor jumps back to [again], where [keep_stressing()] is consulted
    before the next attempt and ends the loop when it says no; with any
    other errno there is no jump, and control goes to the loop condition.
    [stress_cgroup_mount] does the same through [stress_redo_fork]: it
    jumps back to [again], where the continue flag is consulted, exactly
    when [stress_redo_fork] says yes, which by the specification is for
    [EAGAIN] and [ENOMEM]; otherwise it consults [stress_continue(args)],
    and either finishes or reports the failure and goes to the loop
    condition. *)
Theorem transient_fork_retried denv cenv fuel n rc errno :
  Dev.keep_at_again (denv n) = true ->
  Dev.dev_fork (denv n) = ForkFailed errno ->
  Cgroup.continue_flag (cenv n) = true ->
  Cgroup.fork_r (cenv n) = ForkFailed errno ->
  (Dev.transient errno ->
     Dev.dev_from_again denv (S fuel) n rc
     = emit [Dev.V_keep_stressing true; Dev.V_fork (ForkFailed errno);
             Dev.V_goto_again]
            (Dev.dev_from_again denv fuel (S n) rc))
  /\ (~ Dev.transient errno ->
      Dev.dev_from_again denv (S fuel) n rc
      = emit [Dev.V_keep_stressing true; Dev.V_fork (ForkFailed errno)]
          (if Dev.keep_at_loop (denv n)
           then emit [Dev.V_keep_stressing true]
                     (Dev.dev_from_again denv fuel (S n) rc)
           else (Returns rc, [Dev.V_keep_stressing false; Dev.V_spin_destroy])))
  /\ (forall fuel',
        Dev.keep_at_again (denv (S n)) = false ->
        Dev.dev_from_again denv (S fuel') (S n) rc
        = (Returns rc, [Dev.V_keep_stressing false; Dev.V_spin_destroy]))
  /\ (forall redo,
        redo errno = true ->
        Cgroup.mount_from_again redo cenv (S fuel) n
        = emit [Cgroup.E_stress_continue_flag true;
                Cgroup.E_fork (ForkFailed errno);
                Cgroup.E_stress_redo_fork errno true; Cgroup.E_goto_again]
               (Cgroup.mount_from_again redo cenv fuel (S n)))
  /\ (forall redo,
        redo errno = false ->
        Cgroup.mount_from_again redo cenv (S fuel) n
        = emit [Cgroup.E_stress_continue_flag true;
                Cgroup.E_fork (ForkFailed errno);
                Cgroup.E_stress_redo_fork errno false]
            (if Cgroup.continue_on_failure (cenv n)
             then emit [Cgroup.E_stress_continue true;
                        Cgroup.E_pr_err_fork_failed errno]
                    (if Cgroup.continue_loop (cenv n)
                     then emit [Cgroup.E_stress_continue true]
                            (Cgroup.mount_from_again redo cenv fuel (S n))
                     else emit [Cgroup.E_stress_continue false] Cgroup.finish)
             else emit [Cgroup.E_stress_continue false; Cgroup.E_goto_finish]
                    Cgroup.finish))
  /\ (Cgroup.stress_redo_fork errno = true <-> Dev.transient errno)
  /\ (forall fuel',
        Cgroup.continue_flag (cenv (S n)) = false ->
        Cgroup.mount_from_again Cgroup.stress_redo_fork cenv (S fuel') (S n)
        = (Returns EXIT_SUCCESS,
           [Cgroup.E_stress_continue_flag false;
            Cgroup.E_set_proc_state_DEINIT])).
Proof.
  intros Hkeep Hfork Hflag Hcfork.
  split; [|split; [|split; [|split; [|split; [|split]]]]].
  - intros Htr. cbn [Dev.dev_from_again]. rewrite Hkeep, Hfork.
    apply transient_test in Htr. rewrite Htr. reflexivity.
  - intros Hnt. cbn [Dev.dev_from_again]. rewrite Hkeep, Hfork.
    destruct ((errno =? EAGAIN) || (errno =? ENOMEM)) eqn:Htest.
    + apply transient_test in Htest. contradiction.
    + cbn [negb]. reflexivity.
  - intros fuel' Hstop. cbn [Dev.dev_from_again]. by rewrite Hstop.
  - intros redo Hredo. cbn [Cgroup.mount_from_again].
    rewrite Hflag, Hcfork, Hredo. reflexivity.
  - intros redo Hredo. cbn [Cgroup.mount_from_again].
    rewrite Hflag, Hcfork, Hredo. cbn [negb].
    destruct (Cgroup.continue_on_failure (cenv n)); cbn [negb]; [|reflexivity].
    by destruct (Cgroup.continue_loop (cenv n)).
  - apply stress_redo_fork_transient.
  - intros fuel' Hstop. cbn [Cgroup.mount_from_again]. by rewrite Hstop.
Qed.

Lemma transient_fork_retried_witness :
  Dev.keep_at_again (Dev.env_fork_fails 2 EAGAIN 0) = true
  /\ Dev.dev_fork (Dev.env_fork_fails 2 EAGAIN 0) = ForkFailed EAGAIN
  /\ Cgroup.continue_flag (Cgroup.env_fork_fails_once EAGAIN 0) = true
  /\ Cgroup.fork_r (Cgroup.env_fork_fails_once EAGAIN 0) = ForkFailed EAGAIN
  /\ Dev.transient EAGAIN
  /\ Dev.dev_from_again (Dev.env_fork_fails 2 EAGAIN) 5 0 EXIT_SUCCESS
     = emit [Dev.V_keep_stressing true; Dev.V_fork (ForkFailed EAGAIN);
             Dev.V_goto_again]
            (Dev.dev_from_again (Dev.env_fork_fails 2 EAGAIN) 4 1 EXIT_SUCCESS).
Proof.
  assert (Htr : Dev.transient EAGAIN) by (by left).
  split; [reflexivity|]. split; [reflexivity|]. split; [reflexivity|].
  split; [reflexivity|]. split; [exact Htr|].
  exact (proj1 (transient_fork_retried (Dev.env_fork_fails 2 EAGAIN)
                  (Cgroup.env_fork_fails_once EAGAIN) 4 0 EXIT_SUCCESS EAGAIN
                  eq_refl eq_refl eq_refl eq_refl) Htr).
Defined.

(** Two [EAGAIN] failures, then a fork that works. *)
Example stress_dev_retries_eagain :
  Dev.stress_dev (Dev.env_fork_fails 2 EAGAIN) 5
  = (Returns EXIT_SUCCESS,
     [Dev.V_keep_stressing true; Dev.V_fork (ForkFailed 11); Dev.V_goto_again;
      Dev.V_keep_stressing true; Dev.V_fork (ForkFailed 11); Dev.V_goto_again;
      Dev.V_keep_stressing true; Dev.V_fork (ForkParent 101);
      Dev.V_setpgid 101; Dev.V_waitpid 101;
      Dev.V_keep_stressing false; Dev.V_spin_destroy]).
Proof. reflexivity. Qed.

(** Another errno takes no jump: the loop condition is consulted, and when
    it holds the loop body starts over (and forks again). *)
Example stress_dev_other_errno :
  Dev.stress_dev (Dev.env_fork_fails 1 Dev.ENOSYS) 5
  = (Returns EXIT_SUCCESS,
     [Dev.V_keep_stressing true; Dev.V_fork (ForkFailed 38);
      Dev.V_keep_stressing true;
      Dev.V_keep_stressing true; Dev.V_fork (ForkParent 101);
      Dev.V_setpgid 101; Dev.V_waitpid 101;
      Dev.V_keep_stressing false; Dev.V_spin_destroy]).
Proof. reflexivity. Qed.

Example cgroup_retries_enomem :
  Cgroup.stress_cgroup_mount Cgroup.stress_redo_fork
    (Cgroup.env_fork_fails_once ENOMEM) 5
  = (Returns EXIT_SUCCESS,
     [Cgroup.E_set_proc_state_RUN;
      Cgroup.E_stress_continue_flag true; Cgroup.E_fork (ForkFailed 12);
      Cgroup.E_stress_redo_fork 12 true; Cgroup.E_goto_again;
      Cgroup.E_stress_continue_flag true; Cgroup.E_fork (ForkParent 101);
      Cgroup.E_waitpid 101; Cgroup.E_stress_continue false;
      Cgroup.E_set_proc_state_DEINIT]).
Proof. reflexivity. Qed.

End RetryFacts.

(** * Further properties of stress-atomic.c *)
Module AtomicMore.
Import Atomic AtomicNotions.

(** ** The pids of the region *)

Lemma slot_pid_set_pid r i v j :
  slot_pid (set_pid r i v) j
  = if decide (i = j /\ (i < length r)%nat) then v else slot_pid r j.
Proof.
  unfold slot_pid, set_pid.
  destruct (decide (i = j)) as [->|Hne].
  - rewrite list_lookup_alter_eq.
    destruct (r !! j) as [s|] eqn:Hs; simpl.
    + apply lookup_lt_Some in Hs. by rewrite decide_True.
    + apply lookup_ge_None in Hs. rewrite decide_False; [done|lia].
  - rewrite list_lookup_alter_ne by done. by rewrite decide_False by tauto.
Qed.

Lemma exercise_length B E p fuel w :
  length (atomic_info (fst (stress_atomic_exercise B E p fuel w)))
  = length (atomic_info w).
Proof.
  apply (AtomicFacts.stress_atomic_exercise_preserves B E p
           (fun w w' => length (atomic_info w') = length (atomic_info w))).
  - reflexivity.
  - intros w1 w2 w3 H12 H23. by rewrite H23.
  - intros i fi w0 _. rewrite AtomicFacts.call_func_world. simpl.
    unfold set_metrics. apply length_alter.
  - reflexivity.
Qed.

Lemma child_region B E i fuel w :
  atomic_info (fst (stress_atomic_child B E i fuel w))
  = atomic_info (fst (stress_atomic_exercise B E i fuel w)).
Proof.
  unfold stress_atomic_child.
  by destruct (stress_atomic_exercise B E i fuel w) as [w' [rc|]].
Qed.

(** The fork loop leaves in slot [j] what [fork] returned for child [j],
    and the length of the region as it was. *)
Lemma fork_children_pids B env ps k : forall i r,
  (i + k <= length r)%nat ->
  length (fst (fork_children B env ps i k r)) = length r
  /\ forall j,
       slot_pid (fst (fork_children B env ps i k r)) j
       = if decide (i <= j < i + k)%nat then fork_pid env j else slot_pid r j.
Proof.
  induction k as [|k IH]; intros i r Hlen; cbn [fork_children].
  - split; [reflexivity|]. intros j. rewrite decide_False; [done|lia].
  - set (r1 := if 0 <? fork_pid env i
               then atomic_info
                      (fst (stress_atomic_child B (child_env env i) i
                              (child_fuel env i) (mk_world ps r 0 0)))
               else r).
    assert (Hr1 : length r1 = length r
                  /\ forall j, slot_pid r1 j = slot_pid r j).
    { unfold r1. destruct (0 <? fork_pid env i); [|done].
      rewrite child_region. split.
      - apply exercise_length.
      - intros j. apply AtomicFacts.exercise_pid. }
    destruct Hr1 as [Hl1 Hp1].
    destruct (IH (S i) (set_pid r1 i (fork_pid env i))) as [Hl Hp].
    { unfold set_pid. rewrite length_alter. lia. }
    destruct (fork_children B env ps (S i) k (set_pid r1 i (fork_pid env i)))
      as [r3 evs]. cbn [fst] in Hl, Hp |- *.
    split.
    + rewrite Hl. unfold set_pid. rewrite length_alter. exact Hl1.
    + intros j. rewrite Hp, slot_pid_set_pid, Hp1.
      destruct (decide (S i <= j < S i + k)%nat).
      * rewrite decide_True; [done|lia].
      * destruct (decide (i = j /\ (i < length r1)%nat)) as [[-> _]|Hn].
        -- rewrite decide_True; [done|lia].
        -- rewrite decide_False; [done|lia].
Qed.

Lemma region0_length : length region0 = S STRESS_ATOMIC_MAX_PROCS.
Proof. reflexivity. Qed.

(** When the reaping loop starts, slot [j] of a child holds what [fork]
    returned for it. *)
Lemma parent_run_pids B env ps j :
  (j < STRESS_ATOMIC_MAX_PROCS)%nat ->
  slot_pid (atomic_info (fst (parent_run B env ps))) j = fork_pid env j.
Proof.
  intros Hj. unfold parent_run. rewrite AtomicFacts.exercise_pid.
  cbn [atomic_info]. unfold region_forked.
  destruct (fork_children_pids B env ps STRESS_ATOMIC_MAX_PROCS 0 region0)
    as [_ Hp]; [rewrite region0_length; lia|].
  rewrite Hp. rewrite decide_True; [done|lia].
Qed.

(** ** The reaping loop *)

Lemma reap_status env r k : forall i rc,
  (forall j, (i <= j < i + k)%nat -> slot_pid r j = fork_pid env j) ->
  fst (reap_children env r i k rc)
  = if existsb (child_failed env) (seq i k) then EXIT_FAILURE else rc.
Proof.
  induction k as [|k IH]; intros i rc Hpid; [reflexivity|].
  cbn [reap_children seq existsb]. unfold child_failed at 1.
  rewrite (Hpid i) by lia.
  assert (Hrec : forall rc',
            fst (reap_children env r (S i) k rc')
            = if existsb (child_failed env) (seq (S i) k)
              then EXIT_FAILURE else rc').
  { intros rc'. apply IH. intros j Hj. apply Hpid. lia. }
  destruct (0 <? fork_pid env i); cbn [andb orb]; [|apply Hrec].
  destruct (waitpid_nohang env i) as [[code|sig]|ret].
  - specialize (Hrec (if code =? exit_code_failure then EXIT_FAILURE else rc)).
    destruct (reap_children env r (S i) k _) as [rc2 evs]. cbn [fst] in *.
    rewrite Hrec. destruct (code =? exit_code_failure); cbn [orb]; [|done].
    by destruct (existsb _ _).
  - specialize (Hrec rc).
    destruct (reap_children env r (S i) k rc) as [rc2 evs]. exact Hrec.
  - specialize (Hrec rc).
    destruct (reap_children env r (S i) k rc) as [rc2 evs]. exact Hrec.
Qed.

Lemma reap_targets env r k : forall i rc,
  (i + k <= STRESS_ATOMIC_MAX_PROCS)%nat ->
  (forall j, (i <= j < i + k)%nat -> slot_pid r j = fork_pid env j) ->
  Forall (targets_child env) (snd (reap_children env r i k rc)).
Proof.
  induction k as [|k IH]; intros i rc Hik Hpid; [constructor|].
  cbn [reap_children]. rewrite (Hpid i) by lia.
  assert (Hrec : forall rc',
            Forall (targets_child env) (snd (reap_children env r (S i) k rc'))).
  { intros rc'. apply IH; [lia|]. intros j Hj. apply Hpid. lia. }
  destruct (Z.ltb_spec 0 (fork_pid env i)) as [Hpos|_]; [|apply Hrec].
  assert (Hwait : forall b, targets_child env (E_waitpid (fork_pid env i) b)).
  { intros b. split; [exact Hpos|]. exists i. split; [lia|done]. }
  assert (Hkill : forall s, targets_child env (E_kill (fork_pid env i) s)).
  { intros s. split; [exact Hpos|]. exists i. split; [lia|done]. }
  assert (Hkills : Forall (targets_child env)
            (if kill0 env i =? 0
             then [E_kill (fork_pid env i) 0; E_force_killed_bogo;
                   E_kill (fork_pid env i) SIGKILL]
             else [E_kill (fork_pid env i) 0])).
  { destruct (kill0 env i =? 0);
      repeat first [apply Forall_nil_2
                   |apply Forall_cons_2; [first [apply Hkill|exact I]|]]. }
  destruct (waitpid_nohang env i) as [[code|sig]|ret].
  - specialize (Hrec (if code =? exit_code_failure then EXIT_FAILURE else rc)).
    destruct (reap_children env r (S i) k _) as [rc2 evs]. cbn [snd] in *.
    constructor; [apply Hwait|exact Hrec].
  - specialize (Hrec rc).
    destruct (reap_children env r (S i) k rc) as [rc2 evs]. cbn [snd] in *.
    constructor; [apply Hwait|].
    apply Forall_app. split; [exact Hkills|].
    constructor; [apply Hwait|exact Hrec].
  - specialize (Hrec rc).
    destruct (reap_children env r (S i) k rc) as [rc2 evs]. cbn [snd] in *.
    constructor; [apply Hwait|].
    apply Forall_app. split; [exact Hkills|].
    constructor; [apply Hwait|exact Hrec].
Qed.

Lemma fork_children_events B env ps k : forall i r,
  Forall (targets_child env) (snd (fork_children B env ps i k r)).
Proof.
  induction k as [|k IH]; intros i r; cbn [fork_children]; [constructor|].
  specialize (IH (S i)
    (set_pid (if 0 <? fork_pid env i
              then atomic_info
                     (fst (stress_atomic_child B (child_env env i) i
                             (child_fuel env i) (mk_world ps r 0 0)))
              else r) i (fork_pid env i))).
  destruct (fork_children B env ps (S i) k _) as [r3 evs]. cbn [snd] in *.
  by constructor.
Qed.

Lemma report_rates_events env r n fs : forall j,
  Forall (targets_child env) (report_rates r n fs j).
Proof.
  induction fs as [|fi fs IH]; intros j; cbn [report_rates]; [constructor|].
  constructor; [exact I|apply IH].
Qed.

(** What [stress_atomic] is made of once the region is mapped: the parent's
    run, then the reaping loop on the region it leaves. *)
Lemma stress_atomic_unfold B env ps :
  mmap_failed env = false ->
  stress_atomic B env ps
  = let forks := snd (fork_children B env ps 0 STRESS_ATOMIC_MAX_PROCS region0) in
    match parent_run B env ps with
    | (w, OutOfFuel) =>
        (OutOfFuel, E_set_proc_state STRESS_STATE_RUN :: forks, atomic_info w)
    | (w, Returned ret) =>
        let rc := if ret <? 0 then EXIT_FAILURE else EXIT_SUCCESS in
        (Returned
           (fst (reap_children env (atomic_info w) 0 STRESS_ATOMIC_MAX_PROCS rc)),
         E_set_proc_state STRESS_STATE_RUN :: forks
           ++ snd (reap_children env (atomic_info w) 0 STRESS_ATOMIC_MAX_PROCS rc)
           ++ report_rates (atomic_info w) (S STRESS_ATOMIC_MAX_PROCS)
                (atomic_func_info B) 0
           ++ [E_set_proc_state STRESS_STATE_DEINIT; E_munmap],
         atomic_info w)
    end.
Proof.
  intros Hmmap. unfold stress_atomic, parent_run, region_forked. rewrite Hmmap.
  fold region0.
  destruct (fork_children B env ps 0 STRESS_ATOMIC_MAX_PROCS region0)
    as [r1 forks].
  cbn [fst snd].
  change (S STRESS_ATOMIC_MAX_PROCS - 1)%nat with STRESS_ATOMIC_MAX_PROCS.
  destruct (stress_atomic_exercise B (parent_env env) STRESS_ATOMIC_MAX_PROCS
              (parent_fuel env) (mk_world ps r1 0 0)) as [w [ret|]];
    [|reflexivity].
  cbv zeta.
  by destruct (reap_children env (atomic_info w) 0 STRESS_ATOMIC_MAX_PROCS _).
Qed.

(** The exit status of [stress_atomic], when the region is mapped and the
    parent's own run ends: [EXIT_FAILURE] exactly when that run returned a
    negative value or a child that was created was found exited with status
    [EXIT_FAILURE] by the non-blocking [waitpid]; [EXIT_SUCCESS] otherwise.
    A child killed by the reaping loop, or one that exited with any other
    status, does not count. *)
Theorem stress_atomic_status B env ps :
  mmap_failed env = false ->
  match parent_run B env ps with
  | (_, Returned ret) =>
      fst (fst (stress_atomic B env ps))
      = Returned
          (if (ret <? 0)
              || existsb (child_failed env) (seq 0 STRESS_ATOMIC_MAX_PROCS)
           then EXIT_FAILURE else EXIT_SUCCESS)
  | (_, OutOfFuel) => fst (fst (stress_atomic B env ps)) = OutOfFuel
  end.
Proof.
  intros Hmmap. rewrite (stress_atomic_unfold B env ps Hmmap). cbv zeta.
  pose proof (parent_run_pids B env ps) as Hpid.
  destruct (parent_run B env ps) as [w [ret|]]; [|reflexivity].
  cbn [fst snd] in *. rewrite reap_status.
  - destruct (ret <? 0); cbn [orb]; [|reflexivity].
    by destruct (existsb _ _).
  - intros j Hj. apply Hpid. lia.
Qed.


Lemma stress_atomic_status_witness :
  fst (fst (stress_atomic build_lp64 atomic_env_child_failed proc0))
  = Returned EXIT_FAILURE.
Proof.
  vm_cast_no_check
    (stress_atomic_status build_lp64 atomic_env_child_failed proc0 eq_refl).
Defined.

(** In the run of the witness the parent's own pass went well; the failure
    returned is that of the child it found exited with [EXIT_FAILURE]. *)
Example child_failure_is_returned :
  snd (parent_run build_lp64 atomic_env_child_failed proc0) = Returned 0
  /\ map (child_failed atomic_env_child_failed) [0%nat; 1%nat; 2%nat]
     = [true; false; false].
Proof. vm_compute. by split. Qed.

(** ** The index of the word exercised *)

Lemma land_size_minus_1 (idx : Z) (vals : list Z) :
  in_bounds vals idx ->
  Z.land (idx + 1) (Z.of_nat (length vals) - 1)
  = (idx + 1) mod Z.of_nat (length vals).
Proof.
  intros [(k & Hk & Hlen) _]. rewrite Hlen.
  replace (2 ^ k - 1) with (Z.ones k) by (rewrite Z.ones_equiv; lia).
  by apply Z.land_ones.
Qed.

Lemma exercise_word_index B w guard vals idx m e :
  in_bounds vals idx ->
  let '(vals', idx', _, _) := exercise_word B w guard vals idx m e in
  length vals' = length vals
  /\ idx' = (idx + 1) mod Z.of_nat (length vals)
  /\ in_bounds vals' idx'.
Proof.
  intros Hb. unfold exercise_word.
  destruct (if guard then DO_ATOMIC_OPS B w _ m 0 e else _) as [[var' m'] rc'].
  rewrite length_insert, (land_size_minus_1 idx vals Hb).
  split; [reflexivity|]. split; [reflexivity|].
  destruct Hb as [(k & Hk & Hlen) Hidx]. split.
  - exists k. by rewrite length_insert.
  - rewrite length_insert. apply Z.mod_pos_bound. lia.
Qed.

(** Each exercise function works on one word of its array per call and
    moves its index on by one, round the array: with an array whose size is
    a power of two, as [idx &= SIZEOF_ARRAY(..) - 1] needs, the index stays
    inside the array for ever, the array keeps its size, and the indices and
    arrays of the other three functions are left alone.  The 64-bit
    function moves its index on also where it exercises nothing. *)
Theorem index_goes_round B i fi ps m e :
  atomic_func_info B !! i = Some fi ->
  in_bounds (vals_of i ps) (idx_of i ps) ->
  let ps' := fst (fst (func fi ps m e)) in
  idx_of i ps' = (idx_of i ps + 1) mod Z.of_nat (length (vals_of i ps))
  /\ length (vals_of i ps') = length (vals_of i ps)
  /\ in_bounds (vals_of i ps') (idx_of i ps')
  /\ forall j, (j < STRESS_ATOMIC_MAX_FUNCS)%nat -> j <> i ->
       idx_of j ps' = idx_of j ps /\ vals_of j ps' = vals_of j ps.
Proof.
  intros Hfi Hb.
  destruct (AtomicFacts.atomic_func_info_cases B i fi Hfi)
    as [[-> ->]|[[-> ->]|[[-> ->]|[-> ->]]]]; cbn [vals_of idx_of] in Hb |- *.
  - pose proof (exercise_word_index B 64 (sizeof_long B =? 8) _ _ m e Hb) as H.
    unfold stress_atomic_uint64.
    destruct (exercise_word B 64 _ (val64 ps) (idx64 ps) m e)
      as [[[vals' idx'] m'] rc]. cbn [fst snd vals_of idx_of val64 idx64].
    destruct H as (Hl & Hi & Hb').
    split; [exact Hi|]. split; [exact Hl|]. split; [exact Hb'|].
    intros j Hj Hne. unfold STRESS_ATOMIC_MAX_FUNCS in Hj.
    destruct j as [|[|[|[|j]]]]; try done; lia.
  - pose proof (exercise_word_index B 32 true _ _ m e Hb) as H.
    unfold stress_atomic_uint32.
    destruct (exercise_word B 32 _ (val32 ps) (idx32 ps) m e)
      as [[[vals' idx'] m'] rc]. cbn [fst snd vals_of idx_of val32 idx32].
    destruct H as (Hl & Hi & Hb').
    split; [exact Hi|]. split; [exact Hl|]. split; [exact Hb'|].
    intros j Hj Hne. unfold STRESS_ATOMIC_MAX_FUNCS in Hj.
    destruct j as [|[|[|[|j]]]]; try done; lia.
  - pose proof (exercise_word_index B 16 true _ _ m e Hb) as H.
    unfold stress_atomic_uint16.
    destruct (exercise_word B 16 _ (val16 ps) (idx16 ps) m e)
      as [[[vals' idx'] m'] rc]. cbn [fst snd vals_of idx_of val16 idx16].
    destruct H as (Hl & Hi & Hb').
    split; [exact Hi|]. split; [exact Hl|]. split; [exact Hb'|].
    intros j Hj Hne. unfold STRESS_ATOMIC_MAX_FUNCS in Hj.
    destruct j as [|[|[|[|j]]]]; try done; lia.
  - pose proof (exercise_word_index B 8 true _ _ m e Hb) as H.
    unfold stress_atomic_uint8.
    destruct (exercise_word B 8 _ (val8 ps) (idx8 ps) m e)
      as [[[vals' idx'] m'] rc]. cbn [fst snd vals_of idx_of val8 idx8].
    destruct H as (Hl & Hi & Hb').
    split; [exact Hi|]. split; [exact Hl|]. split; [exact Hb'|].
    intros j Hj Hne. unfold STRESS_ATOMIC_MAX_FUNCS in Hj.
    destruct j as [|[|[|[|j]]]]; try done; lia.
Qed.

Lemma proc0_in_bounds : in_bounds (vals_of 1 proc0) (idx_of 1 proc0).
Proof. split; [exists 3; by split|]. simpl. lia. Defined.

Lemma index_goes_round_witness :
  let ps' :=
    fst (fst (stress_atomic_uint32 build_lp64 proc0 zero_metrics
                (mk_batch_env 5 0 0 1))) in
  idx_of 1 ps' = (idx_of 1 proc0 + 1) mod Z.of_nat (length (vals_of 1 proc0))
  /\ length (vals_of 1 ps') = length (vals_of 1 proc0)
  /\ in_bounds (vals_of 1 ps') (idx_of 1 ps')
  /\ forall j, (j < STRESS_ATOMIC_MAX_FUNCS)%nat -> j <> 1%nat ->
       idx_of j ps' = idx_of j proc0 /\ vals_of j ps' = vals_of j proc0.
Proof.
  exact (index_goes_round build_lp64 1
           (mk_func_info (stress_atomic_uint32 build_lp64) "uint32")
           proc0 zero_metrics (mk_batch_env 5 0 0 1) eq_refl proc0_in_bounds).
Defined.

(** Eight calls bring the index of an array of eight words back to where it
    was; on a 32-bit target the 64-bit function still moves its index. *)
Example index_samples :
  idx32 (fst (fst (stress_atomic_uint32 build_lp64
     (mk_proc (replicate 8 0) (replicate 8 0) (replicate 8 0) (replicate 8 0)
        0 7 0 0) zero_metrics (mk_batch_env 5 0 0 1)))) = 0
  /\ idx64 (fst (fst (stress_atomic_uint64 build_ilp32 proc0 zero_metrics
                        (mk_batch_env 5 0 0 1)))) = 1.
Proof. vm_compute. by split. Qed.

(** ** A builtin that is not there *)

Lemma wrap_small_const w c : 2 <= w -> 0 <= c < 4 -> wrap w c = c.
Proof.
  intros Hw Hc. unfold wrap. apply Z.mod_small.
  assert (2 ^ 2 <= 2 ^ w) by (apply Z.pow_le_mono_r; lia). lia.
Qed.

Lemma wrap_shift_ne w t c :
  2 <= w -> -4 < c < 4 -> c <> 0 -> wrap w (wrap w t - c) <> wrap w t.
Proof.
  intros Hw Hc Hc0. unfold wrap. rewrite Zminus_mod_idemp_l. intros Heq.
  assert (H4 : 2 ^ 2 <= 2 ^ w) by (apply Z.pow_le_mono_r; lia).
  assert (Hm : (t - (t - c)) mod 2 ^ w = 0).
  { rewrite Zminus_mod, Heq, Z.sub_diag. apply Z.mod_0_l. lia. }
  replace (t - (t - c)) with c in Hm by lia.
  pose proof (Z.div_mod c (2 ^ w) ltac:(lia)) as Hdm. rewrite Hm in Hdm.
  change (2 ^ 2) with 4 in H4.
  set (P := 2 ^ w) in *. set (q := c / P) in *.
  assert (Hq : q = 0 \/ 1 <= q \/ q <= -1) by lia.
  destruct Hq as [Hq|[Hq|Hq]]; nia.
Qed.


End AtomicMore.

(** * Further properties of stress-cgroup.c *)
Module CgroupOpsFacts.
Import Cgroup CgroupOps.

(** ** How [stress_cgroup_mount] ends *)

Lemma mount_ending_emit env evs r :
  forallb (fun e => negb (is_deinit e)) evs = true ->
  mount_ending env r -> mount_ending env (emit evs r).
Proof.
  intros Hevs.
  destruct r as [[[| |]|rc|] tr]; cbn [mount_ending emit fst snd]; try done.
  - intros (pre & -> & Hpre). exists (evs ++ pre). split.
    + by rewrite app_assoc.
    + rewrite forallb_app, Hevs. exact Hpre.
  - intros (pre & m & pid & -> & Hf & Hw & Hall).
    exists (evs ++ pre), m, pid. split; [by rewrite app_assoc|].
    split; [exact Hf|]. split; [exact Hw|].
    rewrite forallb_app, Hevs. exact Hall.
  - intros (pre & m & -> & H). exists (evs ++ pre), m. by rewrite app_assoc.
Qed.

Lemma mount_from_again_ends redo env : forall fuel n,
  mount_ending env (mount_from_again redo env fuel n).
Proof.
  induction fuel as [|fuel IH]; intros n; [exact I|].
  cbn [mount_from_again].
  assert (Hfinish : mount_ending env finish) by (by exists []).
  assert (Hloop : mount_ending env
            (if continue_loop (env n)
             then emit [E_stress_continue true]
                    (mount_from_again redo env fuel (S n))
             else emit [E_stress_continue false] finish)).
  { destruct (continue_loop (env n)); by apply mount_ending_emit. }
  destruct (negb (continue_flag (env n))); [by apply mount_ending_emit|].
  destruct (fork_r (env n)) as [errno|pid|] eqn:Hfork.
  - apply mount_ending_emit; [reflexivity|].
    destruct (redo errno); [by apply mount_ending_emit|].
    destruct (negb (continue_on_failure (env n)));
      by apply mount_ending_emit.
  - destruct (wait_r (env n)) as [errno|code|sig] eqn:Hwait.
    + apply mount_ending_emit; [reflexivity|].
      apply mount_ending_emit; [by destruct (negb (errno =? EINTR))|].
      exact Hloop.
    + destruct (Z.eqb_spec code exit_code_failure) as [->|Hcode].
      * exists [E_stress_continue_flag true], n, pid. by repeat split.
      * by do 2 (apply mount_ending_emit; [reflexivity|]).
    + do 2 (apply mount_ending_emit; [reflexivity|]).
      destruct (sig =? SIGKILL); [by apply mount_ending_emit|exact Hloop].
  - exists [E_stress_continue_flag true], n. by split.
Qed.

(** [stress_cgroup_mount] returns [EXIT_SUCCESS] through the label
    [finish] only, where the process state is set to [DEINIT], once and as
    the last effect.  It returns [EXIT_FAILURE] right after the wait that
    found the child exited with status [EXIT_FAILURE] and the report of it;
    that [return] does not pass [finish], so the process state is never set
    to [DEINIT] in a failed run.  It never returns [EXIT_NO_RESOURCE]. *)
Theorem stress_cgroup_mount_ends redo env fuel :
  match stress_cgroup_mount redo env fuel with
  | (Returns EXIT_SUCCESS, tr) =>
      exists pre,
        tr = pre ++ [E_set_proc_state_DEINIT]
        /\ forallb (fun e => negb (is_deinit e)) pre = true
  | (Returns EXIT_FAILURE, tr) =>
      exists pre m pid,
        tr = pre ++ [E_fork (ForkParent pid); E_waitpid pid;
                     E_pr_fail_child_failed]
        /\ fork_r (env m) = ForkParent pid
        /\ wait_r (env m) = WaitExited exit_code_failure
        /\ forallb (fun e => negb (is_deinit e)) tr = true
  | (Returns EXIT_NO_RESOURCE, _) => False
  | (Exits rc, tr) =>
      exists pre m,
        tr = pre ++ [E_fork ForkChild; E_stress_cgroup_child]
        /\ rc = child_rc (env m)
  | (StillLooping, _) => True
  end.
Proof.
  apply (mount_ending_emit env [E_set_proc_state_RUN]
           (mount_from_again redo env fuel 0) eq_refl).
  apply mount_from_again_ends.
Qed.

(** ** stress_cgroup_remove_nl *)

Lemma remove_nl_no_line_feed (str : string) :
  holds LF (stress_cgroup_remove_nl str) = false.
Proof.
  induction str as [|c str IH]; simpl; [reflexivity|].
  destruct (Ascii.eqb_spec c LF) as [->|Hc]; simpl; [reflexivity|].
  rewrite IH. by destruct (Ascii.eqb_spec c LF).
Qed.

(** [stress_cgroup_remove_nl] cuts the string at its first line feed: what
    is left begins the string, holds no line feed, and what was cut off is
    nothing or begins with a line feed.  A string without a line feed is
    left as it is. *)
Theorem remove_nl_cuts_at_line_feed (str : string) :
  holds LF (stress_cgroup_remove_nl str) = false
  /\ (exists rest,
        str = (stress_cgroup_remove_nl str ++ rest)%string
        /\ (rest = EmptyString \/ exists r, rest = String LF r))
  /\ (holds LF str = false -> stress_cgroup_remove_nl str = str).
Proof.
  split; [apply remove_nl_no_line_feed|].
  induction str as [|c str ((rest & IH2 & IH3) & IH4)]; simpl.
  - split; [|done]. exists EmptyString. by split; [|left].
  - destruct (Ascii.eqb_spec c LF) as [->|Hc]; simpl.
    + split; [|done].
      exists (String LF str). split; [reflexivity|]. right. by exists str.
    + split.
      * exists rest. split; [by rewrite <- IH2|exact IH3].
      * intros H. by rewrite IH4.
Qed.

Example remove_nl_samples :
  stress_cgroup_remove_nl ("cpu io memory" ++ String LF "pids")
  = "cpu io memory"%string
  /\ stress_cgroup_remove_nl "cpu io" = "cpu io"%string
  /\ stress_cgroup_remove_nl (String LF "cpu") = EmptyString.
Proof. repeat split. Qed.

(** ** stress_cgroup_umount *)

Lemma count_calls_app kind a b :
  count_calls kind (a ++ b) = (count_calls kind a + count_calls kind b)%nat.
Proof. unfold count_calls. by rewrite List.filter_app, length_app. Qed.

Section Umount.

Variable env : nat -> answer.
Variable have_umount2 : bool.

(** An attempt is one call of [umount] or [umount2], after the draw of
    [stress_mwc1()] where there is a choice; its answer is the one to that
    call. *)
Lemma umount_attempt_spec path tr :
  exists pre c,
    umount_attempt env have_umount2 path tr
    = (env (length tr + length pre)%nat, tr ++ pre ++ [c])
    /\ is_umount c = true
    /\ count_calls is_umount pre = 0%nat
    /\ count_calls is_nanosleep (pre ++ [c]) = 0%nat.
Proof.
  unfold umount_attempt, ask. destruct have_umount2.
  - destruct (negb _).
    + exists [G_mwc1], (G_umount2_force path).
      rewrite length_app, <- app_assoc. by repeat split.
    + exists [G_mwc1], (G_umount path).
      rewrite length_app, <- app_assoc. by repeat split.
  - exists [], (G_umount path). rewrite Nat.add_0_r. by repeat split.
Qed.

Lemma umount_loop_spec path : forall k i tr,
  exists new,
    umount_loop env have_umount2 path i k tr = tr ++ new
    /\ (count_calls is_umount new <= k)%nat
    /\ (count_calls is_nanosleep new <= count_calls is_umount new)%nat
    /\ (count_calls is_umount new = k
        \/ exists pre c,
             new = pre ++ [c] /\ is_umount c = true
             /\ a_ret (env (length tr + length pre)%nat) <> 0
             /\ a_errno (env (length tr + length pre)%nat) = EINVAL).
Proof.
  induction k as [|k IH]; intros i tr; cbn [umount_loop].
  - exists []. rewrite app_nil_r. split; [reflexivity|].
    unfold count_calls. simpl. split; [lia|]. split; [lia|]. by left.
  - destruct (umount_attempt_spec path tr) as (pre & c & -> & Hc & Hpre & Hsl).
    assert (Hatt : count_calls is_umount (pre ++ [c]) = 1%nat).
    { rewrite count_calls_app, Hpre. unfold count_calls. simpl. by rewrite Hc. }
    (* the loop goes on after [extra], a sleep or a report at most *)
    assert (Hgo : forall extra,
              (count_calls is_umount extra = 0)%nat ->
              (count_calls is_nanosleep extra <= 1)%nat ->
              exists new,
                umount_loop env have_umount2 path (i + 1) k
                  ((tr ++ pre ++ [c]) ++ extra) = tr ++ new
                /\ (count_calls is_umount new <= S k)%nat
                /\ (count_calls is_nanosleep new
                    <= count_calls is_umount new)%nat
                /\ (count_calls is_umount new = S k
                    \/ exists pre' c',
                         new = pre' ++ [c'] /\ is_umount c' = true
                         /\ a_ret (env (length tr + length pre')%nat) <> 0
                         /\ a_errno (env (length tr + length pre')%nat)
                            = EINVAL)).
    { intros extra Hex1 Hex2.
      destruct (IH (i + 1) ((tr ++ pre ++ [c]) ++ extra))
        as (new & -> & Hn1 & Hn2 & Hn3).
      exists ((pre ++ [c]) ++ extra ++ new).
      rewrite (count_calls_app is_umount (pre ++ [c])),
        (count_calls_app is_umount extra),
        (count_calls_app is_nanosleep (pre ++ [c])),
        (count_calls_app is_nanosleep extra), Hatt, Hex1, Hsl.
      split; [by rewrite <- !app_assoc|]. split; [lia|]. split; [lia|].
      destruct Hn3 as [Hn3|(pre' & c' & -> & Hc' & Hr & He)]; [left; lia|].
      right. exists ((pre ++ [c]) ++ extra ++ pre'), c'.
      split; [by rewrite <- !app_assoc|]. split; [exact Hc'|].
      rewrite !length_app in Hr, He |- *. simpl in Hr, He |- *.
      replace (length tr + (length pre + 1 + (length extra + length pre')))%nat
        with (length tr + (length pre + 1) + length extra + length pre')%nat
        by lia.
      by split. }
    destruct (Z.eqb_spec (a_ret (env (length tr + length pre)%nat)) 0)
      as [Hret|Hret].
    + destruct (1 <? i).
      * apply (Hgo [G_nanosleep umount_ns]); [reflexivity|].
        unfold count_calls. simpl. lia.
      * destruct (Hgo []) as (new & Hnew & H);
          [reflexivity|unfold count_calls; simpl; lia|].
        rewrite app_nil_r in Hnew. by exists new.
    + destruct (_ || _).
      * apply (Hgo [G_nanosleep umount_ns]); [reflexivity|].
        unfold count_calls. simpl. lia.
      * destruct (Z.eqb_spec (a_errno (env (length tr + length pre)%nat))
                    EINVAL) as [Herr|Herr].
        -- exists (pre ++ [c]). rewrite Hatt, Hsl.
           split; [reflexivity|]. split; [lia|]. split; [lia|].
           right. by exists pre, c.
        -- apply (Hgo [G_pr_inf_umount_failed path _]); [reflexivity|].
           unfold count_calls. simpl. lia.
Qed.

End Umount.

(** [stress_cgroup_umount] makes 100 attempts at most and sleeps once per
    attempt at most, a tenth of a second each time: it returns within ten
    seconds of sleep.  It gives up early in one case only, right after an
    attempt that failed with [EINVAL]; an attempt that succeeds does not end
    the loop (the path is unmounted again), nor does any other failure. *)
Theorem umount_bounded_until_einval env have_umount2 path tr :
  exists new,
    stress_cgroup_umount env have_umount2 path tr = tr ++ new
    /\ (count_calls is_umount new <= 100)%nat
    /\ (count_calls is_nanosleep new <= count_calls is_umount new)%nat
    /\ (count_calls is_umount new = 100%nat
        \/ exists pre c,
             new = pre ++ [c] /\ is_umount c = true
             /\ a_ret (env (length tr + length pre)%nat) <> 0
             /\ a_errno (env (length tr + length pre)%nat) = EINVAL).
Proof. apply umount_loop_spec. Qed.

(** When every [umount] succeeds the loop runs to its end: 100 calls, with
    a sleep after each from the third on.  When the second one fails with
    [EINVAL], as the comment in the code expects of a path that was
    unmounted, two calls are made and there is no sleep. *)
Example umount_samples :
  let all_ok := stress_cgroup_umount (always 0 0) false "/tmp/cg" [] in
  let second_einval :=
    stress_cgroup_umount
      (script [mk_answer 0 0 EmptyString] (mk_answer (-1) EINVAL EmptyString))
      false "/tmp/cg" [] in
  (count_calls is_umount all_ok, count_calls is_nanosleep all_ok)
  = (100%nat, 98%nat)
  /\ second_einval = [G_umount "/tmp/cg"; G_umount "/tmp/cg"].
Proof. vm_compute. by split. Qed.

(** ** stress_cgroup_read *)

Section Read.

Variable env : nat -> answer.

(** The read loop ends at the first [read] that gives nothing. *)
Lemma read_to_end_spec : forall j fuel len tr,
  (forall i, (i < j)%nat -> 0 < a_ret (env (length tr + i)%nat)) ->
  a_ret (env (length tr + j)%nat) <= 0 ->
  (j < fuel)%nat ->
  read_to_end env fuel len tr
  = (Some (len + bytes_read env (length tr) j),
     tr ++ replicate (S j) (G_read 1024)).
Proof.
  induction j as [|j IH]; intros fuel len tr Hpos Hend Hfuel;
    (destruct fuel as [|fuel]; [lia|]); cbn [read_to_end ask].
  - rewrite Nat.add_0_r in Hend.
    destruct (Z.ltb_spec 0 (a_ret (env (length tr)))); [lia|].
    cbn [bytes_read replicate]. by rewrite Z.add_0_r.
  - pose proof (Hpos 0%nat ltac:(lia)) as H0. rewrite Nat.add_0_r in H0.
    destruct (Z.ltb_spec 0 (a_ret (env (length tr)))); [|lia].
    rewrite (IH fuel (len + a_ret (env (length tr))) (tr ++ [G_read 1024])).
    + rewrite length_app. cbn [length bytes_read replicate].
      rewrite Nat.add_1_r, <- app_assoc. f_equal. f_equal. lia.
    + intros i Hi. rewrite length_app. cbn [length].
      replace (length tr + 1 + i)%nat with (length tr + S i)%nat by lia.
      apply Hpos. lia.
    + rewrite length_app. cbn [length].
      by replace (length tr + 1 + j)%nat with (length tr + S j)%nat by lia.
    + lia.
Qed.

(** The seeks: one per byte of the file, two at most, and neither an [open]
    nor a [close] among them. *)
Lemma seek_reads_spec len : forall k i tr,
  exists seeks,
    seek_reads env i k len tr = tr ++ seeks
    /\ count_calls is_lseek seeks
       = Z.to_nat (Z.min (Z.of_nat k) (Z.min 2 len - i))
    /\ count_calls is_open_or_close seeks = 0%nat.
Proof.
  induction k as [|k IH]; intros i tr; cbn [seek_reads].
  - exists []. rewrite app_nil_r. split; [reflexivity|].
    unfold count_calls. simpl. split; [lia|reflexivity].
  - destruct (Z.ltb_spec i 2) as [H2|H2]; cbn [andb].
    + destruct (Z.ltb_spec i len) as [Hl|Hl].
      * unfold ask, tell.
        set (tr2 := (tr ++ [G_mwc32modn (wrap 32 len)])
                      ++ [G_lseek (a_ret (env (length tr)))]).
        set (rd := if 0 <=? a_ret (env (length (tr ++ [G_mwc32modn (wrap 32 len)])))
                   then [G_read 1024] else []).
        assert (Hrd : (if 0 <=? a_ret
                              (env (length (tr ++ [G_mwc32modn (wrap 32 len)])))
                       then tr2 ++ [G_read 1024] else tr2) = tr2 ++ rd).
        { unfold rd. destruct (0 <=? _); [reflexivity|by rewrite app_nil_r]. }
        rewrite Hrd.
        destruct (IH (i + 1) (tr2 ++ rd)) as (seeks & -> & Hn & Hoc).
        exists ([G_mwc32modn (wrap 32 len);
                 G_lseek (a_ret (env (length tr)))] ++ rd ++ seeks).
        split; [unfold tr2; by rewrite <- !app_assoc|].
        rewrite !count_calls_app, Hn, Hoc.
        assert (Hrd1 : count_calls is_lseek rd = 0%nat
                       /\ count_calls is_open_or_close rd = 0%nat)
          by (unfold rd; by destruct (0 <=? _)).
        destruct Hrd1 as [-> ->]. unfold count_calls. simpl.
        split; [lia|reflexivity].
      * exists []. rewrite app_nil_r. split; [reflexivity|].
        unfold count_calls. simpl. split; [lia|reflexivity].
    + exists []. rewrite app_nil_r. split; [reflexivity|].
      unfold count_calls. simpl. split; [lia|reflexivity].
Qed.

End Read.

(** [stress_cgroup_read] on a file that opens: it reads until a [read]
    gives nothing (here the [j]-th one after the first), seeks once per byte
    of the file and twice at most (an empty file is not sought in), and
    closes the descriptor once, as its last call.  When [open] fails it
    makes no other call. *)
Theorem read_then_seek_then_close env path tr j fuel :
  0 <= a_ret (env (length tr)) ->
  (forall i, (i < j)%nat -> 0 < a_ret (env (length tr + 2 + i)%nat)) ->
  a_ret (env (length tr + 2 + j)%nat) <= 0 ->
  (j < fuel)%nat ->
  exists seeks,
    stress_cgroup_read env fuel path tr
    = (Back,
       tr ++ [G_open path; G_fstat] ++ replicate (S j) (G_read 1024)
          ++ seeks ++ [G_close])
    /\ count_calls is_lseek seeks
       = Z.to_nat (Z.min 2 (bytes_read env (length tr + 2) j))
    /\ count_calls is_open_or_close seeks = 0%nat.
Proof.
  intros Hopen Hpos Hend Hfuel. unfold stress_cgroup_read, ask, tell.
  destruct (Z.ltb_spec (a_ret (env (length tr))) 0); [lia|].
  rewrite (read_to_end_spec env j fuel 0 ((tr ++ [G_open path]) ++ [G_fstat])).
  - rewrite Z.add_0_l.
    destruct (seek_reads_spec env
                (bytes_read env (length ((tr ++ [G_open path]) ++ [G_fstat])) j)
                2 0 (((tr ++ [G_open path]) ++ [G_fstat])
                       ++ replicate (S j) (G_read 1024)))
      as (seeks & -> & Hn & Hoc).
    exists seeks. rewrite !length_app in Hn. cbn [length] in Hn.
    replace (length tr + 1 + 1)%nat with (length tr + 2)%nat in Hn by lia.
    split; [by rewrite <- !app_assoc|]. split; [|exact Hoc].
    rewrite Hn. lia.
  - intros i Hi. rewrite !length_app. cbn [length].
    replace (length tr + 1 + 1 + i)%nat with (length tr + 2 + i)%nat by lia.
    by apply Hpos.
  - rewrite !length_app. cbn [length].
    by replace (length tr + 1 + 1 + j)%nat with (length tr + 2 + j)%nat by lia.
  - exact Hfuel.
Qed.

Lemma read_then_seek_then_close_witness :
  exists seeks,
    stress_cgroup_read
      (script [mk_answer 3 0 EmptyString; mk_answer 0 0 EmptyString;
               mk_answer 1 0 EmptyString] (mk_answer 0 0 EmptyString))
      5 "/cg/cpu.stat" []
    = (Back,
       [] ++ [G_open "/cg/cpu.stat"; G_fstat] ++ replicate 2 (G_read 1024)
          ++ seeks ++ [G_close])
    /\ count_calls is_lseek seeks
       = Z.to_nat
           (Z.min 2
              (bytes_read
                 (script [mk_answer 3 0 EmptyString; mk_answer 0 0 EmptyString;
                          mk_answer 1 0 EmptyString] (mk_answer 0 0 EmptyString))
                 (length (@nil cg_call) + 2) 1))
    /\ count_calls is_open_or_close seeks = 0%nat.
Proof.
  apply (read_then_seek_then_close
           (script [mk_answer 3 0 EmptyString; mk_answer 0 0 EmptyString;
                    mk_answer 1 0 EmptyString] (mk_answer 0 0 EmptyString))
           "/cg/cpu.stat" [] 1 5).
  - simpl. lia.
  - intros i Hi. destruct i as [|i]; [simpl; lia|lia].
  - simpl. lia.
  - lia.
Defined.

(** A file of one byte is sought in once; a file that does not open is left
    at once. *)
Example read_samples :
  stress_cgroup_read
    (script [mk_answer 3 0 EmptyString; mk_answer 0 0 EmptyString;
             mk_answer 1 0 EmptyString] (mk_answer 0 0 EmptyString))
    5 "/cg/cpu.stat" []
  = (Back, [G_open "/cg/cpu.stat"; G_fstat; G_read 1024; G_read 1024;
            G_mwc32modn 1; G_lseek 0; G_read 1024; G_close])
  /\ stress_cgroup_read (always (-1) 2) 5 "/cg/cpu.stat" []
     = (Back, [G_open "/cg/cpu.stat"]).
Proof. vm_compute. by split. Qed.

(** ** stress_cgroup_controllers *)

Lemma append_assoc_string (x y z : string) :
  ((x ++ y) ++ z)%string = (x ++ y ++ z)%string.
Proof. induction x as [|c x IH]; simpl; [reflexivity|by rewrite IH]. Qed.

Lemma append_nil_r_string (x : string) : (x ++ EmptyString)%string = x.
Proof. induction x as [|c x IH]; simpl; [reflexivity|by rewrite IH]. Qed.

Lemma substring_whole (s : string) : forall n,
  (String.length s <= n)%nat -> substring 0 n s = s.
Proof.
  induction s as [|c s IH]; intros [|n] Hn; simpl in *; try reflexivity;
    [lia|]. rewrite IH; [reflexivity|lia].
Qed.

(** A token and what is left, in terms of the words of the line. *)
Lemma take_token_words (s : string) : forall cur,
  words_from s cur
  = match (cur ++ fst (take_token s))%string with
    | EmptyString => words (snd (take_token s))
    | w => w :: words (snd (take_token s))
    end.
Proof.
  induction s as [|c s IH]; intros cur; cbn [words_from take_token].
  - cbn [fst snd]. rewrite append_nil_r_string. by destruct cur.
  - destruct (Ascii.eqb c " ").
    + cbn [fst snd]. rewrite append_nil_r_string. by destruct cur.
    + rewrite IH. destruct (take_token s) as [t more]. cbn [fst snd].
      by rewrite append_assoc_string.
Qed.

Lemma skip_spaces_words (s : string) : words (skip_spaces s) = words s.
Proof.
  unfold words. induction s as [|c s IH]; cbn [skip_spaces words_from];
    [reflexivity|].
  destruct (Ascii.eqb c " ") eqn:Hc; [exact IH|].
  cbn [words_from]. by rewrite Hc.
Qed.

Lemma take_token_length (s : string) :
  (String.length (fst (take_token s)) + String.length (snd (take_token s))
   <= String.length s)%nat.
Proof.
  induction s as [|c s IH]; cbn [take_token]; [simpl; lia|].
  destruct (Ascii.eqb c " "); [simpl; lia|].
  destruct (take_token s) as [t more]. simpl in *. lia.
Qed.

Lemma skip_spaces_length (s : string) :
  (String.length (skip_spaces s) <= String.length s)%nat.
Proof.
  induction s as [|c s IH]; cbn [skip_spaces]; [lia|].
  destruct (Ascii.eqb c " "); simpl; lia.
Qed.

Lemma skip_spaces_head (s : string) :
  match skip_spaces s with
  | EmptyString => True
  | String c _ => Ascii.eqb c " " = false
  end.
Proof.
  induction s as [|c s IH]; cbn [skip_spaces]; [exact I|].
  destruct (Ascii.eqb c " ") eqn:Hc; [exact IH|exact Hc].
Qed.

(** What [strtok] hands out is the first word of what is left, and what it
    leaves has the other words and is shorter. *)
Lemma strtok_words (saved : string) :
  match strtok saved with
  | None => words saved = []
  | Some (token, more) =>
      words saved = token :: words more
      /\ (String.length more < String.length saved)%nat
  end.
Proof.
  unfold strtok. rewrite <- (skip_spaces_words saved).
  pose proof (skip_spaces_head saved) as Hhead.
  pose proof (skip_spaces_length saved) as Hlen.
  destruct (skip_spaces saved) as [|c s]; [reflexivity|].
  pose proof (take_token_length (String c s)) as Htl.
  unfold words at 1. rewrite take_token_words. cbn [append].
  cbn [take_token] in *. rewrite Hhead in *.
  destruct (take_token s) as [t more]. cbn [fst snd] in *.
  split; [reflexivity|]. simpl in Htl, Hlen. lia.
Qed.

Lemma controllers_loop_words path : forall turns saved tr,
  (String.length saved < turns)%nat ->
  controllers_loop path turns saved tr
  = tr ++ map (fun w =>
                 G_system_write path
                   (fst (snprintf 256 ("+" ++ w ++ String LF EmptyString)))
                   (snd (snprintf 256 ("+" ++ w ++ String LF EmptyString))))
            (words saved).
Proof.
  induction turns as [|turns IH]; intros saved tr Hlen; [lia|].
  cbn [controllers_loop]. pose proof (strtok_words saved) as Hw.
  destruct (strtok saved) as [[token more]|].
  - destruct Hw as [-> Hmore].
    destruct (snprintf 256 _) as [controller ret] eqn:Hs.
    rewrite IH by lia. unfold tell. rewrite <- app_assoc. cbn [map app].
    by rewrite Hs.
  - rewrite Hw. cbn [map]. by rewrite app_nil_r.
Qed.

(** The words of a line hold neither a space nor a character the line does
    not hold, and none is empty. *)
Lemma holds_append c (x y : string) :
  holds c (x ++ y) = holds c x || holds c y.
Proof.
  induction x as [|a x IH]; simpl; [reflexivity|].
  by rewrite IH, orb_assoc.
Qed.

Lemma words_from_spec (c : ascii) (s : string) : forall cur,
  holds " " cur = false -> holds c cur = false -> holds c s = false ->
  Forall (fun w => w <> EmptyString /\ holds " " w = false
                   /\ holds c w = false) (words_from s cur).
Proof.
  induction s as [|a s IH]; intros cur Hsp Hc Hs; cbn [words_from].
  - destruct cur; [constructor|]. by repeat constructor.
  - simpl in Hs. apply orb_false_iff in Hs as [Ha Hs].
    destruct (Ascii.eqb a " ") eqn:Hasp.
    + destruct cur as [|x cur]; [by apply IH|].
      constructor; [done|by apply IH].
    + apply IH; [| |exact Hs]; rewrite holds_append; simpl.
      * by rewrite Hsp, Hasp.
      * by rewrite Hc, Ha.
Qed.

(** [stress_cgroup_controllers], when the read of [cgroup.subtree_control]
    works: one write per word of the first line of what was read, in the
    order of the words, each of [+word] and a line feed, with the length
    [snprintf] returned.  No word is empty or holds a space or a line feed.
    A word of up to 253 characters is written in full; a longer one is cut
    to the 255 characters the buffer takes, while the length handed to
    [stress_system_write] stays that of the uncut text. *)
Theorem controllers_one_write_per_word env realpathname tr :
  0 <= a_ret (env (length tr)) ->
  let path :=
    fst (snprintf (PATH_MAX + 32)
           (realpathname ++ "/" ++ "cgroup.subtree_control")) in
  let line := stress_cgroup_remove_nl (a_data (env (length tr))) in
  stress_cgroup_controllers env realpathname tr
  = tr ++ G_system_read path 512
       :: map (fun w =>
                 G_system_write path
                   (substring 0 255 ("+" ++ w ++ String LF EmptyString))
                   (Z.of_nat (String.length w) + 2))
            (words line)
  /\ Forall (fun w => w <> EmptyString /\ holds " " w = false
                      /\ holds LF w = false) (words line)
  /\ (forall w, (String.length w <= 253)%nat ->
        substring 0 255 ("+" ++ w ++ String LF EmptyString)
        = ("+" ++ w ++ String LF EmptyString)%string).
Proof.
  intros Hret path line. split; [|split].
  - unfold stress_cgroup_controllers, ask. fold path.
    destruct (Z.ltb_spec (a_ret (env (length tr))) 0); [lia|]. fold line.
    rewrite controllers_loop_words by lia.
    rewrite <- app_assoc. cbn [app]. f_equal. f_equal.
    apply map_ext. intros w. unfold snprintf. cbn [fst snd].
    f_equal. cbn [append String.length].
    rewrite DevFacts.length_append_string. simpl. lia.
  - apply words_from_spec; [reflexivity|reflexivity|].
    apply remove_nl_no_line_feed.
  - intros w Hw. apply substring_whole. cbn [append String.length].
    rewrite DevFacts.length_append_string. simpl. lia.
Qed.

Lemma controllers_one_write_per_word_witness :
  0 <= a_ret (env_controllers (length (@nil cg_call)))
  /\ words (stress_cgroup_remove_nl (a_data (env_controllers 0)))
     = ["cpu"; "io"; "memory"]%string
  /\ stress_cgroup_controllers env_controllers "/cg" []
     = [G_system_read "/cg/cgroup.subtree_control" 512;
        G_system_write "/cg/cgroup.subtree_control" ("+cpu" ++ String LF EmptyString) 5;
        G_system_write "/cg/cgroup.subtree_control" ("+io" ++ String LF EmptyString) 4;
        G_system_write "/cg/cgroup.subtree_control" ("+memory" ++ String LF EmptyString) 8].
Proof.
  assert (H : 0 <= a_ret (env_controllers (length (@nil cg_call))))
    by (simpl; lia).
  split; [exact H|]. split; [reflexivity|].
  exact (proj1 (controllers_one_write_per_word env_controllers "/cg" [] H)).
Defined.

Example controllers_sample :
  stress_cgroup_controllers env_controllers "/cg" []
  = [G_system_read "/cg/cgroup.subtree_control" 512;
     G_system_write "/cg/cgroup.subtree_control" ("+cpu" ++ String LF "") 5;
     G_system_write "/cg/cgroup.subtree_control" ("+io" ++ String LF "") 4;
     G_system_write "/cg/cgroup.subtree_control" ("+memory" ++ String LF "") 8].
Proof. vm_compute. reflexivity. Qed.

(** ** stress_cgroup_new_group *)

Lemma Forall_read_pid_writes cmd new :
  forallb is_read_call new = true -> pid_writes cmd new = [].
Proof.
  induction new as [|c new IH]; intros H; [reflexivity|].
  simpl in H. apply andb_true_iff in H as [Hc H].
  destruct c; try discriminate Hc; simpl; by apply IH.
Qed.

Lemma pid_writes_app cmd a b :
  pid_writes cmd (a ++ b) = pid_writes cmd a ++ pid_writes cmd b.
Proof.
  induction a as [|c a IH]; simpl; [reflexivity|].
  destruct c; simpl; rewrite ?IH; try reflexivity.
  by destruct (String.eqb buf cmd).
Qed.

Section Group.

Variable env : nat -> answer.
Variable n : nat.
Hypothesis Hends : ends_within env n.

(** The read loop ends, whatever was read before. *)
Lemma read_to_end_total : forall j fuel len tr,
  a_ret (env (length tr + j)%nat) <= 0 -> (j < fuel)%nat ->
  exists len' k,
    read_to_end env fuel len tr = (Some len', tr ++ replicate k (G_read 1024)).
Proof using Type.
  induction j as [|j IH]; intros fuel len tr Hend Hfuel;
    (destruct fuel as [|fuel]; [lia|]); cbn [read_to_end ask].
  - rewrite Nat.add_0_r in Hend.
    destruct (Z.ltb_spec 0 (a_ret (env (length tr)))); [lia|].
    by exists len, 1%nat.
  - destruct (Z.ltb_spec 0 (a_ret (env (length tr)))).
    + destruct (IH fuel (len + a_ret (env (length tr))) (tr ++ [G_read 1024]))
        as (len' & k & ->); [|lia|].
      * rewrite length_app. cbn [length].
        by replace (length tr + 1 + j)%nat with (length tr + S j)%nat by lia.
      * exists len', (S k). by rewrite <- app_assoc.
    + by exists len, 1%nat.
Qed.

Lemma forallb_replicate_read k :
  forallb is_read_call (replicate k (G_read 1024)) = true.
Proof. induction k as [|k IH]; [reflexivity|exact IH]. Qed.

Lemma seek_reads_calls len : forall k i tr,
  exists seeks,
    seek_reads env i k len tr = tr ++ seeks
    /\ forallb is_read_call seeks = true.
Proof using Type.
  induction k as [|k IH]; intros i tr; cbn [seek_reads].
  - exists []. by rewrite app_nil_r.
  - destruct ((i <? 2) && (i <? len)); [|exists []; by rewrite app_nil_r].
    unfold ask, tell.
    destruct (0 <=? _).
    + destruct (IH (i + 1)
                  (((tr ++ [G_mwc32modn (wrap 32 len)])
                      ++ [G_lseek (a_ret (env (length tr)))]) ++ [G_read 1024]))
        as (seeks & -> & Hs).
      exists ([G_mwc32modn (wrap 32 len); G_lseek (a_ret (env (length tr)));
               G_read 1024] ++ seeks).
      split; [by rewrite <- !app_assoc|exact Hs].
    + destruct (IH (i + 1)
                  ((tr ++ [G_mwc32modn (wrap 32 len)])
                     ++ [G_lseek (a_ret (env (length tr)))]))
        as (seeks & -> & Hs).
      exists ([G_mwc32modn (wrap 32 len); G_lseek (a_ret (env (length tr)))]
                ++ seeks).
      split; [by rewrite <- !app_assoc|exact Hs].
Qed.

(** [stress_cgroup_read] returns, having made calls of its own only. *)
Lemma stress_cgroup_read_total fuel path tr :
  (n <= fuel)%nat ->
  exists new,
    stress_cgroup_read env fuel path tr = (Back, tr ++ new)
    /\ forallb is_read_call new = true.
Proof using Hends.
  intros Hfuel. unfold stress_cgroup_read, ask, tell.
  destruct (a_ret (env (length tr)) <? 0); [by exists [G_open path]|].
  destruct (Hends (length ((tr ++ [G_open path]) ++ [G_fstat])))
    as (j & Hj & Hend).
  destruct (read_to_end_total j fuel 0 ((tr ++ [G_open path]) ++ [G_fstat]))
    as (len & k & ->); [exact Hend|lia|].
  destruct (seek_reads_calls len 2 0
              (((tr ++ [G_open path]) ++ [G_fstat])
                 ++ replicate k (G_read 1024))) as (seeks & -> & Hs).
  exists ([G_open path; G_fstat] ++ replicate k (G_read 1024)
            ++ seeks ++ [G_close]).
  split; [by rewrite <- !app_assoc|].
  cbn [app forallb andb is_read_call].
  rewrite !forallb_app, forallb_replicate_read, Hs. reflexivity.
Qed.

End Group.

Lemma substring_length_le (s : string) : forall k,
  (k <= String.length s)%nat -> String.length (substring 0 k s) = k.
Proof.
  induction s as [|c s IH]; intros [|k] Hk; simpl in *; try reflexivity;
    [lia|]. rewrite IH; [reflexivity|lia].
Qed.

(** The line written for a pid ends in a line feed, or fills the buffer. *)
Lemma pid_line_shape pid :
  holds LF (pid_line pid) = true \/ String.length (pid_line pid) = 63%nat.
Proof.
  unfold pid_line, snprintf. cbn [fst]. change (64 - 1)%nat with 63%nat.
  destruct (decide (String.length (fmt_jd pid ++ String LF EmptyString) <= 63)%nat)
    as [Hle|Hgt].
  - left. rewrite substring_whole by exact Hle.
    rewrite holds_append. simpl. apply orb_true_r.
  - right. apply substring_length_le. lia.
Qed.

(** No value of the table can be taken for the line of a pid. *)
Lemma values_not_pid_line :
  forallb (fun nv =>
             match snd nv with
             | Some v => negb (holds LF v) && (String.length v <? 63)%nat
             | None => true
             end) cgroup_values = true.
Proof. vm_compute. reflexivity. Qed.

Lemma value_differs pid v :
  negb (holds LF v) && (String.length v <? 63)%nat = true ->
  String.eqb v (pid_line pid) = false.
Proof.
  intros H. apply andb_true_iff in H as [Hh Hl].
  apply String.eqb_neq. intros ->.
  destruct (pid_line_shape pid) as [H|H].
  - by rewrite H in Hh.
  - rewrite H in Hl. discriminate Hl.
Qed.

Lemma count_calls_read kind new :
  (forall c, is_read_call c = true -> kind c = false) ->
  forallb is_read_call new = true -> count_calls kind new = 0%nat.
Proof.
  intros Hk. unfold count_calls.
  induction new as [|c new IH]; intros H; [reflexivity|].
  simpl in H. apply andb_true_iff in H as [Hc H]. simpl.
  rewrite (Hk c Hc). by apply IH.
Qed.

Section GroupParent.

Variable env : nat -> answer.
Variable n : nat.
Hypothesis Hends : ends_within env n.

Variable fuel : nat.
Hypothesis Hfuel : (n <= fuel)%nat.

Variable realpathname : string.
Variable pid : Z.

(** The loop over the values: for each of them the pid is written to the
    group and then to the root, and nothing is written in between that could
    be taken for it. *)
Lemma new_group_values_spec : forall values tr,
  forallb (fun nv =>
             match snd nv with
             | Some v => negb (holds LF v) && (String.length v <? 63)%nat
             | None => true
             end) values = true ->
  exists mid,
    new_group_values env fuel realpathname pid values tr = (Back, tr ++ mid)
    /\ pid_writes (pid_line pid) mid
       = concat (map (fun _ => [group_procs realpathname pid;
                                root_procs realpathname]) values)
    /\ count_calls is_group_call mid = 0%nat.
Proof using Hends Hfuel.
  assert (Hgroup : forall c, is_read_call c = true -> is_group_call c = false)
    by (by intros []).
  induction values as [|[name value] values IH]; intros tr Hvals;
    cbn [new_group_values].
  - exists []. by rewrite app_nil_r.
  - simpl in Hvals. apply andb_true_iff in Hvals as [Hv Hvals].
    set (filename :=
           fst (snprintf (PATH_MAX + 64)
                  (realpathname ++ "/stress-ng-" ++ fmt_jd pid ++ "/" ++ name))).
    set (add := G_system_write (group_procs realpathname pid) (pid_line pid)
                  (snd (snprintf 64 (fmt_jd pid ++ String LF EmptyString)))).
    set (del := G_system_write (root_procs realpathname) (pid_line pid)
                  (snd (snprintf 64 (fmt_jd pid ++ String LF EmptyString)))).
    assert (Hadd : forall t, stress_cgroup_add_pid realpathname pid t = t ++ [add])
      by reflexivity.
    assert (Hdel : forall t, stress_cgroup_del_pid realpathname pid t = t ++ [del])
      by reflexivity.
    rewrite Hadd.
    destruct (stress_cgroup_read_total env n Hends fuel filename (tr ++ [add])
                Hfuel) as (r1 & -> & Hr1).
    (* the write of the value and the second read, if any *)
    assert (Hwritten : exists w,
              match value with
              | Some v =>
                  stress_cgroup_read env fuel filename
                    (tell (G_system_write filename v
                             (Z.of_nat (String.length v)))
                       ((tr ++ [add]) ++ r1))
              | None => (Back, (tr ++ [add]) ++ r1)
              end = (Back, ((tr ++ [add]) ++ r1) ++ w)
              /\ pid_writes (pid_line pid) w = []
              /\ count_calls is_group_call w = 0%nat).
    { destruct value as [v|].
      - unfold tell.
        destruct (stress_cgroup_read_total env n Hends fuel filename
                    (((tr ++ [add]) ++ r1)
                       ++ [G_system_write filename v
                             (Z.of_nat (String.length v))]) Hfuel)
          as (r2 & -> & Hr2).
        exists ([G_system_write filename v (Z.of_nat (String.length v))] ++ r2).
        split; [by rewrite <- !app_assoc|]. split.
        + cbn [app pid_writes]. rewrite (value_differs pid v Hv).
          by apply Forall_read_pid_writes.
        + rewrite count_calls_app, (count_calls_read _ r2 Hgroup Hr2).
          reflexivity.
      - exists []. by rewrite app_nil_r. }
    destruct Hwritten as (w & -> & Hw1 & Hw2).
    rewrite Hdel.
    destruct (IH ((((tr ++ [add]) ++ r1) ++ w) ++ [del]) Hvals)
      as (mid & -> & Hm1 & Hm2).
    exists ([add] ++ r1 ++ w ++ [del] ++ mid).
    split; [by rewrite <- !app_assoc|]. split.
    + assert (Ha : pid_writes (pid_line pid) [add]
                   = [group_procs realpathname pid])
        by (unfold add; cbn [pid_writes]; by rewrite String.eqb_refl).
      assert (Hd : pid_writes (pid_line pid) [del] = [root_procs realpathname])
        by (unfold del; cbn [pid_writes]; by rewrite String.eqb_refl).
      rewrite !pid_writes_app, Ha, Hd, Hw1, Hm1,
        (Forall_read_pid_writes _ r1 Hr1).
      reflexivity.
    + rewrite !count_calls_app, Hw2, Hm2, (count_calls_read _ r1 Hgroup Hr1).
      reflexivity.
Qed.

End GroupParent.

(** The parent's side of [stress_cgroup_new_group], for whatever [fork]
    returned but 0 (a failed [fork] is not told from a child's pid: -1 is
    then used as the pid).  When [mkdir] fails the function removes the
    directory and returns: the child is not killed.  When it works, the pid
    is written to the group and then back to the root once for each of the
    62 values, so that it is in the root when the loop ends; then the child
    is killed and the directory removed, as the last two calls. *)
Theorem new_group_moves_pid_in_and_out env n fuel realpathname tr :
  let pid := a_ret (env (length tr)) in
  let dir := group_dir realpathname pid in
  pid <> 0 -> ends_within env n -> (n <= fuel)%nat ->
  (a_ret (env (length tr + 1)%nat) < 0 ->
   stress_cgroup_new_group env fuel realpathname tr
   = (Back, tr ++ [G_fork; G_mkdir dir; G_rmdir dir]))
  /\ (0 <= a_ret (env (length tr + 1)%nat) ->
      exists mid,
        stress_cgroup_new_group env fuel realpathname tr
        = (Back,
           tr ++ [G_fork; G_mkdir dir] ++ mid ++ [G_kill_pid pid; G_rmdir dir])
        /\ pid_writes (pid_line pid) mid
           = concat (replicate 62 [group_procs realpathname pid;
                                   root_procs realpathname])
        /\ count_calls is_group_call mid = 0%nat).
Proof.
  intros pid dir Hpid Hends Hfuel.
  unfold stress_cgroup_new_group, ask, tell. fold pid.
  destruct (Z.eqb_spec pid 0) as [|_]; [done|].
  subst dir. unfold group_dir.
  rewrite length_app. cbn [length].
  split; intros Hmk.
  - destruct (Z.ltb_spec (a_ret (env (length tr + 1)%nat)) 0); [|lia].
    by rewrite <- !app_assoc.
  - destruct (Z.ltb_spec (a_ret (env (length tr + 1)%nat)) 0); [lia|].
    destruct (new_group_values_spec env n Hends fuel Hfuel realpathname pid
                cgroup_values
                ((tr ++ [G_fork])
                   ++ [G_mkdir
                         (fst (snprintf (PATH_MAX + 64)
                                 (realpathname ++ "/stress-ng-"
                                    ++ fmt_jd pid)))])
                values_not_pid_line) as (mid & -> & Hm1 & Hm2).
    exists mid. split; [by rewrite <- !app_assoc|]. split; [|exact Hm2].
    rewrite Hm1. reflexivity.
Qed.

Lemma env_group_ends pid : ends_within (env_group pid) 3.
Proof.
  intros [|[|k]].
  - exists 1%nat. split; [lia|]. simpl. lia.
  - exists 0%nat. split; [lia|]. simpl. lia.
  - exists 0%nat. split; [lia|]. rewrite Nat.add_0_r. simpl. lia.
Defined.

Lemma new_group_moves_pid_in_and_out_witness :
  exists mid,
    stress_cgroup_new_group (env_group (-1)) 3 "/cg" []
    = (Back,
       [] ++ [G_fork;
              G_mkdir (group_dir "/cg" (a_ret (env_group (-1) (length (@nil cg_call)))))]
          ++ mid
          ++ [G_kill_pid (a_ret (env_group (-1) (length (@nil cg_call))));
              G_rmdir (group_dir "/cg" (a_ret (env_group (-1) (length (@nil cg_call)))))])
    /\ pid_writes (pid_line (a_ret (env_group (-1) (length (@nil cg_call))))) mid
       = concat (replicate 62
                   [group_procs "/cg" (a_ret (env_group (-1) (length (@nil cg_call))));
                    root_procs "/cg"])
    /\ count_calls is_group_call mid = 0%nat.
Proof.
  refine (proj2 (new_group_moves_pid_in_and_out (env_group (-1)) 3 3 "/cg" []
                   _ (env_group_ends (-1)) _) _).
  - simpl. lia.
  - lia.
  - simpl. lia.
Defined.

(** A failed [fork]: the pid used is -1. *)
Example new_group_after_failed_fork :
  let '(f, tr) := stress_cgroup_new_group (env_group (-1)) 3 "/cg" [] in
  f = Back
  /\ firstn 3 tr
     = [G_fork; G_mkdir "/cg/stress-ng--1";
        G_system_write "/cg/stress-ng--1/cgroup.procs" ("-1" ++ String LF "") 3]
  /\ skipn (length tr - 2) tr
     = [G_kill_pid (-1); G_rmdir "/cg/stress-ng--1"].
Proof. vm_compute. by repeat split. Qed.

(** ** stress_cgroup_child *)

Section Child.

Variable env : nat -> answer.
Variable have_umount2 : bool.

Lemma stress_cgroup_read_not_gone fuel path tr :
  fst (stress_cgroup_read env fuel path tr) <> Gone.
Proof using Type.
  unfold stress_cgroup_read, ask.
  destruct (_ <? 0); [done|].
  by destruct (read_to_end env fuel 0 _) as [[len|] tr2].
Qed.

Lemma read_files_loop_not_gone fuel realpathname names : forall tr,
  fst (read_files_loop env fuel realpathname names tr) <> Gone.
Proof using Type.
  induction names as [|name names IH]; intros tr; cbn [read_files_loop];
    [done|].
  pose proof (stress_cgroup_read_not_gone fuel
                (fst (snprintf (PATH_MAX + 32) (realpathname ++ "/" ++ name)))
                tr) as H.
  destruct (stress_cgroup_read env fuel _ tr) as [[| |] tr1]; [apply IH|done..].
Qed.

Lemma new_group_child_end : forall fuel tr,
  match new_group_child env fuel tr with
  | (Gone, tr') => exists pre, tr' = pre ++ [G_exit 0]
  | (Back, _) => False
  | (Spent, _) => True
  end.
Proof using Type.
  induction fuel as [|fuel IH]; intros tr; cbn [new_group_child]; [exact I|].
  unfold ask, tell. destruct (negb (_ =? 0)); [apply IH|]. by eexists.
Qed.

Lemma new_group_values_not_gone fuel realpathname pid values : forall tr,
  fst (new_group_values env fuel realpathname pid values tr) <> Gone.
Proof using Type.
  induction values as [|[name value] values IH]; intros tr;
    cbn [new_group_values]; [done|].
  set (filename :=
         fst (snprintf (PATH_MAX + 64)
                (realpathname ++ "/stress-ng-" ++ fmt_jd pid ++ "/" ++ name))).
  pose proof (stress_cgroup_read_not_gone fuel filename
                (stress_cgroup_add_pid realpathname pid tr)) as H1.
  destruct (stress_cgroup_read env fuel filename _) as [[| |] tr2];
    [|done..].
  destruct value as [v|].
  - pose proof (stress_cgroup_read_not_gone fuel filename
                  (tell (G_system_write filename v
                           (Z.of_nat (String.length v))) tr2)) as H2.
    destruct (stress_cgroup_read env fuel filename _) as [[| |] tr3];
      [apply IH|done..].
  - apply IH.
Qed.

(** When [stress_cgroup_new_group] does not return, it is in the child it
    forked, which exits with status 0. *)
Lemma new_group_gone fuel realpathname tr :
  match stress_cgroup_new_group env fuel realpathname tr with
  | (Gone, tr') => exists pre, tr' = pre ++ [G_exit 0]
  | _ => True
  end.
Proof using Type.
  unfold stress_cgroup_new_group, ask.
  destruct (_ =? 0).
  - pose proof (new_group_child_end fuel (tr ++ [G_fork])) as H.
    by destruct (new_group_child env fuel _) as [[| |] tr'].
  - destruct (_ <? 0); [done|].
    pose proof (new_group_values_not_gone fuel realpathname
                  (a_ret (env (length tr))) cgroup_values
                  ((tr ++ [G_fork])
                     ++ [G_mkdir
                           (fst (snprintf (PATH_MAX + 64)
                                   (realpathname ++ "/stress-ng-"
                                      ++ fmt_jd (a_ret (env (length tr))))))]))
      as H.
    by destruct (new_group_values env fuel realpathname _ cgroup_values _)
      as [[| |] tr'].
Qed.

Lemma child_loop_ending realpathname : forall fuel tr,
  child_ending env have_umount2 realpathname
    (child_loop env have_umount2 fuel realpathname tr).
Proof using Type.
  induction fuel as [|fuel IH]; intros tr; cbn [child_loop]; [exact I|].
  unfold ask.
  destruct (_ <? 0).
  { unfold child_cleanup, tell. cbn [child_ending]. eexists. reflexivity. }
  destruct (stress_cgroup_read_files env (S fuel) realpathname _)
    as [[| |] tr3]; [|exact I..].
  pose proof (new_group_gone (S fuel) realpathname tr3) as Hgone.
  destruct (stress_cgroup_new_group env (S fuel) realpathname tr3)
    as [[| |] tr4]; [|split; [reflexivity|exact Hgone]|exact I].
  destruct (negb (_ =? 0)); [apply IH|].
  unfold child_cleanup, tell. cbn [child_ending]. eexists. reflexivity.
Qed.

End Child.

(** [stress_cgroup_child] returns [EXIT_FAILURE] when [mkdir] or [realpath]
    fails, before anything is mounted.  Once the directory is there it never
    does, nor does it return [EXIT_NO_RESOURCE]: [rc] is never assigned, and
    it returns [EXIT_SUCCESS] after the [umount] attempts of the label
    [cleanup] and the removal of the directory, as its last call.  The only
    other way out is the exit with status 0 of the process forked by
    [stress_cgroup_new_group]. *)
Theorem child_fails_at_setup_only env have_umount2 fuel tr :
  let start :=
    tr ++ [G_parent_died_alarm; G_sched_settings_apply; G_temp_dir] in
  let pathname := a_data (env (length tr + 2)%nat) in
  let made := env (length tr + 3)%nat in
  let resolved := env (length tr + 4)%nat in
  let r := stress_cgroup_child env have_umount2 fuel tr in
  (a_ret made < 0 ->
   r = (Returns EXIT_FAILURE,
        start ++ [G_mkdir pathname; G_pr_fail_mkdir pathname (a_errno made)]))
  /\ (0 <= a_ret made -> a_ret resolved = 0 ->
      r = (Returns EXIT_FAILURE,
           start ++ [G_mkdir pathname; G_realpath pathname;
                     G_pr_fail_realpath pathname (a_errno resolved);
                     G_temp_dir_rm]))
  /\ (0 <= a_ret made -> a_ret resolved <> 0 ->
      child_ending env have_umount2 (a_data resolved) r).
Proof.
  intros start pathname made resolved r.
  unfold r, stress_cgroup_child, ask, tell.
  rewrite !length_app. cbn [length].
  replace (length tr + 1 + 1)%nat with (length tr + 2)%nat by lia.
  replace (length tr + 2 + 1)%nat with (length tr + 3)%nat by lia.
  replace (length tr + 3 + 1)%nat with (length tr + 4)%nat by lia.
  fold pathname made resolved.
  split; [|split].
  - intros Hmk. destruct (Z.ltb_spec (a_ret made) 0); [|lia].
    unfold start. by rewrite <- !app_assoc.
  - intros Hmk Hrp. destruct (Z.ltb_spec (a_ret made) 0); [lia|].
    rewrite Hrp. cbn [Z.eqb]. unfold start. by rewrite <- !app_assoc.
  - intros Hmk Hrp. destruct (Z.ltb_spec (a_ret made) 0); [lia|].
    destruct (Z.eqb_spec (a_ret resolved) 0); [done|].
    apply child_loop_ending.
Qed.

(** A [mount] that fails does not make the child fail.  When the first
    [mount] fails the child reports it, unless [errno] is [ENOSPC], [ENOMEM]
    or [ENODEV], and then goes to [cleanup] and returns [EXIT_SUCCESS]: the
    parent, which looks for [EXIT_FAILURE], is told nothing. *)
Theorem failed_mount_is_not_a_failure env have_umount2 fuel tr :
  let pathname := a_data (env (length tr + 2)%nat) in
  let resolved := env (length tr + 4)%nat in
  let mounted := env (length tr + 5)%nat in
  let quiet :=
    (a_errno mounted =? ENOSPC) || (a_errno mounted =? ENOMEM)
    || (a_errno mounted =? ENODEV) in
  0 <= a_ret (env (length tr + 3)%nat) -> a_ret resolved <> 0 ->
  a_ret mounted < 0 -> (1 <= fuel)%nat ->
  stress_cgroup_child env have_umount2 fuel tr
  = (Returns EXIT_SUCCESS,
     stress_cgroup_umount env have_umount2 (a_data resolved)
       (tr ++ [G_parent_died_alarm; G_sched_settings_apply; G_temp_dir;
               G_mkdir pathname; G_realpath pathname;
               G_mount (a_data resolved)]
           ++ (if quiet then [] else [G_pr_fail_mount (a_errno mounted)]))
       ++ [G_temp_dir_rm]).
Proof.
  intros pathname resolved mounted quiet Hmk Hrp Hmount Hfuel.
  destruct fuel as [|fuel]; [lia|].
  unfold stress_cgroup_child, ask, tell.
  rewrite !length_app. cbn [length].
  replace (length tr + 1 + 1)%nat with (length tr + 2)%nat by lia.
  replace (length tr + 2 + 1)%nat with (length tr + 3)%nat by lia.
  replace (length tr + 3 + 1)%nat with (length tr + 4)%nat by lia.
  fold pathname resolved.
  destruct (Z.ltb_spec (a_ret (env (length tr + 3)%nat)) 0); [lia|].
  destruct (Z.eqb_spec (a_ret resolved) 0); [done|].
  cbn [child_loop]. unfold ask, child_cleanup, tell.
  rewrite !length_app. cbn [length].
  replace (length tr + 1 + 1 + 1 + 1 + 1)%nat with (length tr + 5)%nat by lia.
  fold mounted.
  destruct (Z.ltb_spec (a_ret mounted) 0); [|lia].
  match goal with
  | |- (_, stress_cgroup_umount _ _ _ ?a ++ _)
       = (_, stress_cgroup_umount _ _ _ ?b ++ _) =>
      replace a with b; [reflexivity|]
  end.
  unfold quiet.
  destruct (a_errno mounted =? ENOSPC), (a_errno mounted =? ENOMEM),
    (a_errno mounted =? ENODEV); cbn [negb andb orb];
    rewrite <- ?app_assoc; reflexivity.
Qed.

Lemma failed_mount_is_not_a_failure_witness :
  stress_cgroup_child (env_mount_fails EPERM) false 1 []
  = (Returns EXIT_SUCCESS,
     stress_cgroup_umount (env_mount_fails EPERM) false
       (a_data (env_mount_fails EPERM (length (@nil cg_call) + 4)%nat))
       ([] ++ [G_parent_died_alarm; G_sched_settings_apply; G_temp_dir;
               G_mkdir (a_data (env_mount_fails EPERM
                                  (length (@nil cg_call) + 2)%nat));
               G_realpath (a_data (env_mount_fails EPERM
                                     (length (@nil cg_call) + 2)%nat));
               G_mount (a_data (env_mount_fails EPERM
                                  (length (@nil cg_call) + 4)%nat))]
           ++ (if (a_errno (env_mount_fails EPERM (length (@nil cg_call) + 5)%nat)
                   =? ENOSPC)
                  || (a_errno (env_mount_fails EPERM
                                 (length (@nil cg_call) + 5)%nat) =? ENOMEM)
                  || (a_errno (env_mount_fails EPERM
                                 (length (@nil cg_call) + 5)%nat) =? ENODEV)
               then []
               else [G_pr_fail_mount
                       (a_errno (env_mount_fails EPERM
                                   (length (@nil cg_call) + 5)%nat))]))
       ++ [G_temp_dir_rm]).
Proof.
  refine (failed_mount_is_not_a_failure (env_mount_fails EPERM) false 1 []
            _ _ _ _).
  - simpl. lia.
  - simpl. lia.
  - simpl. lia.
  - lia.
Defined.

(** The run: the failure is reported, the path is unmounted (here the
    [umount] says [EINVAL] at once), the directory removed, and the status
    is [EXIT_SUCCESS]; with [ENOMEM] nothing is reported. *)
Example failed_mount_runs :
  stress_cgroup_child (env_mount_fails EPERM) false 1 []
  = (Returns EXIT_SUCCESS,
     [G_parent_died_alarm; G_sched_settings_apply; G_temp_dir;
      G_mkdir "tmp-cg"; G_realpath "tmp-cg"; G_mount "/tmp/cg";
      G_pr_fail_mount EPERM; G_umount "/tmp/cg"; G_temp_dir_rm])
  /\ stress_cgroup_child (env_mount_fails ENOMEM) false 1 []
     = (Returns EXIT_SUCCESS,
        [G_parent_died_alarm; G_sched_settings_apply; G_temp_dir;
         G_mkdir "tmp-cg"; G_realpath "tmp-cg"; G_mount "/tmp/cg";
         G_umount "/tmp/cg"; G_temp_dir_rm]).
Proof. vm_compute. by split. Qed.

End CgroupOpsFacts.

(** * Further properties of stress-dev.c *)
Module DevUtilFacts.
Import Dev DevUtil DevFacts.

(** ** dev_basename *)

(** No slash of a string is followed by a character. *)
Lemma no_inner_slash_cons (c : ascii) (rest : string) :
  (c = "/"%char -> rest = EmptyString) ->
  (forall i, slash_at rest i -> S i = String.length rest) ->
  forall i, slash_at (String c rest) i -> S i = String.length (String c rest).
Proof.
  intros Hc Hrest [|i] Hi; unfold slash_at in Hi; simpl in Hi.
  - injection Hi as ->. by rewrite Hc.
  - simpl. f_equal. by apply Hrest.
Qed.

(** Where the scan ends: at [base], the string scanned having no slash
    followed by a character; or at what follows the last such slash. *)
Lemma basename_from_spec (ptr : string) : forall base,
  ((forall i, slash_at ptr i -> S i = String.length ptr)
   /\ basename_from ptr base = base)
  \/ exists pre,
       ptr = (pre ++ String "/" (basename_from ptr base))%string
       /\ basename_from ptr base <> EmptyString
       /\ forall i, slash_at (basename_from ptr base) i ->
            S i = String.length (basename_from ptr base).
Proof.
  induction ptr as [|c rest IH]; intros base; simpl.
  - left. split; [|reflexivity]. intros i Hi. discriminate Hi.
  - destruct (IH (if Ascii.eqb c "/" && negb (String.eqb rest EmptyString)
                  then rest else base)) as [[Hno Heq] | (pre & Hpre & Hne & Hsl)].
    + rewrite Heq.
      destruct (Ascii.eqb_spec c "/") as [->|Hc]; simpl.
      * destruct (String.eqb_spec rest EmptyString) as [->|Hrest]; simpl.
        -- left. split; [|reflexivity]. by apply no_inner_slash_cons.
        -- right. exists EmptyString. by repeat split.
      * left. split; [|reflexivity]. by apply no_inner_slash_cons.
    + right. exists (String c pre). simpl. rewrite <- Hpre. by repeat split.
Qed.

(** [dev_basename] gives the part of the path after its last slash that is
    followed by a character: the path is a directory part, empty or ending
    in a slash, followed by the base name; the base name holds no slash but,
    at most, a last one (a path with a trailing slash keeps it); and it is
    empty for the empty path only. *)
Theorem dev_basename_spec (devpath : string) :
  (exists dir,
      devpath = (dir ++ dev_basename devpath)%string
      /\ (dir = EmptyString \/ exists pre, dir = (pre ++ "/")%string))
  /\ (forall i, slash_at (dev_basename devpath) i ->
        S i = String.length (dev_basename devpath))
  /\ (dev_basename devpath = EmptyString <-> devpath = EmptyString).
Proof.
  unfold dev_basename.
  destruct (basename_from_spec devpath devpath)
    as [[Hno Heq] | (pre & Hpre & Hne & Hsl)].
  - rewrite Heq. split; [|split; [exact Hno|done]].
    exists EmptyString. split; [reflexivity|by left].
  - split; [|split; [exact Hsl|]].
    + exists (pre ++ "/")%string. split; [|right; by exists pre].
      rewrite Hpre at 1. clear. induction pre as [|c pre IH]; simpl;
        [reflexivity|by rewrite IH].
    + split; [done|]. intros ->. by destruct pre.
Qed.

Example dev_basename_samples :
  dev_basename "/dev/sda" = "sda"%string
  /\ dev_basename "/dev/disk/by-id/x1" = "x1"%string
  /\ dev_basename "/dev/sda/" = "sda/"%string
  /\ dev_basename "sda" = "sda"%string
  /\ dev_basename "/" = "/"%string.
Proof. repeat split. Qed.

(** ** mixup_sort *)

(** Whatever the hash, [mixup_sort] is a consistent comparison for
    [scandir]: its value is -1, 0 or 1, swapping the arguments negates it,
    it is 0 exactly when the two names hash alike, and the order it gives
    is transitive. *)
Theorem mixup_sort_consistent (stress_hash_pjw : string -> Z) (a b c : dirent) :
  let cmp := mixup_sort stress_hash_pjw in
  (cmp a b = -1 \/ cmp a b = 0 \/ cmp a b = 1)
  /\ cmp b a = - cmp a b
  /\ (cmp a b = 0 <-> stress_hash_pjw (d_name a) = stress_hash_pjw (d_name b))
  /\ (cmp a b <= 0 -> cmp b c <= 0 -> cmp a c <= 0)
  /\ (cmp a b < 0 -> cmp b c < 0 -> cmp a c < 0).
Proof.
  unfold mixup_sort. simpl.
  set (ha := stress_hash_pjw (d_name a)).
  set (hb := stress_hash_pjw (d_name b)).
  set (hc := stress_hash_pjw (d_name c)).
  destruct (Z.eqb_spec ha hb), (Z.eqb_spec hb ha), (Z.eqb_spec hb hc),
    (Z.eqb_spec ha hc), (Z.ltb_spec ha hb), (Z.ltb_spec hb ha),
    (Z.ltb_spec hb hc), (Z.ltb_spec ha hc); try lia;
    repeat split; intros; try lia.
Qed.

(** ** One descriptor at a time, and none left open *)

Lemma fd_discipline_app env st a b :
  fd_discipline env st (a ++ b)
  = match fd_discipline env st a with
    | Some st' => fd_discipline env st' b
    | None => None
    end.
Proof.
  revert st. induction a as [|c a IH]; intros st; simpl; [reflexivity|].
  destruct (fd_step env st c); [apply IH|reflexivity].
Qed.

Section Descriptor.

Variable env : rw_env.


Lemma fd_at_snoc held n held' n' c tr :
  fd_step env (held, n) c = Some (held', n') ->
  fd_at env held n tr -> fd_at env held' n' (tr ++ [c]).
Proof.
  unfold fd_at. intros Hc Htr. rewrite fd_discipline_app, Htr.
  cbn [fd_discipline]. by rewrite Hc.
Qed.

Lemma fd_call held n held' n' c :
  fd_step env (held, n) c = Some (held', n') ->
  triple (fd_at env held n) (call c) (fd_at env held' n')
    (fd_closed env).
Proof. intros Hc. apply triple_call. intros tr. by apply fd_at_snoc. Qed.

Lemma fd_time_now held n :
  triple (fd_at env held n) (stress_time_now env) (fd_at env held n)
    (fd_closed env).
Proof.
  apply triple_time_now. intros tr. apply fd_at_snoc. by destruct held.
Qed.

(** A guard met with the descriptor held closes it before it leaves. *)
Lemma fd_deadline_held n t_start :
  triple (fd_at env true n) (deadline env t_start true) (fd_at env true n)
    (fd_closed env).
Proof.
  apply triple_deadline.
  - intros tr. by apply fd_at_snoc.
  - intros tr Htr. exists n.
    apply (fd_at_snoc true n); [reflexivity|].
    by apply (fd_at_snoc true n).
Qed.

(** A guard met after the [close] leaves the descriptor alone. *)
Lemma fd_deadline_closed n t_start :
  triple (fd_at env false n) (deadline env t_start false) (fd_at env false n)
    (fd_closed env).
Proof.
  apply triple_deadline.
  - intros tr. by apply fd_at_snoc.
  - intros tr Htr. exists n. by apply (fd_at_snoc false n).
Qed.

Lemma fd_mmap_munmap n p f :
  triple (fd_at env true n) (mmap_munmap env p f) (fd_at env true n)
    (fd_closed env).
Proof.
  unfold mmap_munmap.
  apply (triple_bind _ (fd_at env true n)); [by apply fd_call|intros _].
  apply triple_when. by apply fd_call.
Qed.

Lemma fd_run_dev_funcs n path fs :
  triple (fd_at env true n) (run_dev_funcs path fs) (fd_at env true n)
    (fd_closed env).
Proof.
  induction fs as [|d fs IH]; cbn [run_dev_funcs]; [apply triple_ret|].
  apply (triple_bind _ (fd_at env true n)); [|intros _; exact IH].
  apply triple_when. by apply fd_call.
Qed.

(** What follows an [open] for reading: no descriptor and a jump, or a
    descriptor held. *)
Lemma fd_after_open (o : option Z) n :
  triple (fd_at env (match o with None => true | Some _ => false end) n)
    (match o with
     | Some errno => if errno =? EINTR then goto next else goto rdwr
     | None => ret tt
     end)
    (fd_at env true n)
    (fd_closed env).
Proof.
  destruct o as [errno|]; [|apply triple_ret].
  destruct (errno =? EINTR); apply triple_goto; intros tr Htr; by exists n.
Qed.

Ltac fd_seq held n :=
  apply (triple_bind _ (fd_at env held n)); [|intros ?].

Lemma rw_body_fd path :
  triple (fd_at env false 0) (rw_body env path) (fd_at env false 2)
    (fd_closed env).
Proof.
  unfold rw_body.
  fd_seq false 0%nat; [apply fd_time_now|].
  fd_seq (match open1_errno env with None => true | Some _ => false end) 1%nat;
    [apply fd_call; reflexivity|].
  fd_seq true 1%nat; [apply fd_after_open|].
  fd_seq true 1%nat; [apply fd_deadline_held|].
  fd_seq true 1%nat; [by apply fd_call|].
  fd_seq true 1%nat.
  { destruct (fstat_failed env); [by apply fd_call|].
    apply triple_when.
    apply (triple_bind _ (fd_at env false 1)); [by apply fd_call|intros _].
    apply triple_goto. intros tr Htr. by exists 1%nat. }
  fd_seq true 1%nat.
  { apply triple_when. repeat (first [fd_seq true 1%nat | by apply fd_call]). }
  fd_seq true 1%nat.
  { apply triple_when. fd_seq true 1%nat; [by apply fd_call|].
    apply triple_when. by apply fd_call. }
  do 3 (fd_seq true 1%nat; [by apply fd_call|]).
  do 5 (fd_seq true 1%nat; [apply fd_deadline_held|];
        fd_seq true 1%nat; [by apply fd_call|]).
  fd_seq true 1%nat; [apply fd_deadline_held|].
  do 2 (fd_seq true 1%nat; [apply fd_mmap_munmap|]).
  fd_seq false 1%nat; [by apply fd_call|].
  fd_seq false 1%nat; [apply fd_deadline_closed|].
  fd_seq (match open2_errno env with None => true | Some _ => false end) 2%nat;
    [apply fd_call; reflexivity|].
  fd_seq true 2%nat; [apply fd_after_open|].
  do 2 (fd_seq true 2%nat; [apply fd_mmap_munmap|]).
  fd_seq true 2%nat; [by apply fd_call|].
  fd_seq true 2%nat; [apply fd_run_dev_funcs|].
  fd_seq false 2%nat; [by apply fd_call|].
  apply fd_deadline_closed.
Qed.

(** The code at [rdwr] opens and closes a descriptor of its own. *)
Lemma rw_rdwr_fd s :
  fd_closed env (trace s) -> fd_closed env (trace (snd (rw_rdwr env s))).
Proof.
  intros [n Hn]. unfold rw_rdwr, bind, call, when. cbn [fst snd trace].
  destruct (open3_ok env) eqn:Hok; cbn [trace ret snd].
  - exists n. apply (fd_at_snoc true n); [reflexivity|].
    apply (fd_at_snoc false n); [|exact Hn]. simpl. by rewrite Hok.
  - exists n. apply (fd_at_snoc false n); [|exact Hn]. simpl. by rewrite Hok.
Qed.

End Descriptor.

(** In every iteration of [stress_dev_rw], whatever the device answers and
    whenever the deadline strikes: a descriptor is opened only when none is
    held, every call on [fd] and every [close] is made on a descriptor that
    an [open] gave and that was not closed since, and no descriptor is held
    when the iteration ends. *)
Theorem one_descriptor_none_leaked (env : rw_env) (path : string) :
  exists n,
    fd_discipline env (false, 0%nat) (trace (rw_iteration env path))
    = Some (false, n).
Proof.
  unfold rw_iteration.
  pose proof (rw_body_fd env path (mk_rw_state [] 0 false) eq_refl) as H.
  destruct (rw_body env path _) as [[[]|[|]] s].
  - apply (rw_rdwr_fd env). by exists 2%nat.
  - exact H.
  - by apply (rw_rdwr_fd env).
Qed.

(** The discipline tells a lost descriptor, a call on no descriptor and a
    descriptor left open from a sound run. *)
Example fd_discipline_samples :
  let env := env_steps "/dev/ttyS0" (1 # 10) in
  fd_discipline env (false, 0%nat)
    [S_open O_RDONLY_NONBLOCK; S_open O_RDONLY_NONBLOCK] = None
  /\ fd_discipline env (false, 0%nat) [S_open O_RDONLY_NONBLOCK; S_close; S_fstat]
     = None
  /\ fd_discipline env (false, 0%nat) [S_open O_RDONLY_NONBLOCK; S_fstat]
     = Some (true, 1%nat)
  /\ fd_discipline env (false, 0%nat) (trace (rw_iteration env "/dev/ttyS0"))
     = Some (false, 1%nat).
Proof. vm_compute. repeat split. Qed.

(** ** Pieces that add calls of one kind only *)

Section Quiet.

(** The calls an invariant does not look at, the invariant, and what holds
    at a jump. *)
Variable quiet : sys -> bool.
Variables Inv Exit : list sys -> Prop.

Hypothesis Inv_quiet : forall tr c, quiet c = true -> Inv tr -> Inv (tr ++ [c]).
Hypothesis Inv_Exit : forall tr, Inv tr -> Exit tr.
Hypothesis quiet_time_now : quiet S_time_now = true.
Hypothesis quiet_close : quiet S_close = true.
Hypothesis quiet_munmap : quiet S_munmap = true.
Hypothesis quiet_mmap : forall p f, quiet (S_mmap p f) = true.

Lemma quiet_call c : quiet c = true -> triple Inv (call c) Inv Exit.
Proof using Inv_quiet.
  intros Hc. apply triple_call. intros tr. by apply Inv_quiet.
Qed.

Lemma quiet_goto {A} (l : label) : triple Inv (@goto A l) Inv Exit.
Proof using Inv_Exit. by apply triple_goto. Qed.

Lemma quiet_stress_time_now env : triple Inv (stress_time_now env) Inv Exit.
Proof using Inv_quiet quiet_time_now.
  apply triple_time_now. intros tr. by apply Inv_quiet.
Qed.

Lemma quiet_deadline env t_start close_fd :
  triple Inv (deadline env t_start close_fd) Inv Exit.
Proof using Inv_quiet Inv_Exit quiet_time_now quiet_close.
  apply triple_deadline.
  - intros tr. by apply Inv_quiet.
  - intros tr Htr. apply Inv_Exit. destruct close_fd.
    + apply Inv_quiet; [done|]. by apply Inv_quiet.
    + by apply Inv_quiet.
Qed.

Lemma quiet_mmap_munmap env p f : triple Inv (mmap_munmap env p f) Inv Exit.
Proof using Inv_quiet quiet_mmap quiet_munmap.
  unfold mmap_munmap.
  apply (triple_bind _ Inv); [by apply quiet_call|intros _].
  apply triple_when. by apply quiet_call.
Qed.

Lemma quiet_after_open (o : option Z) :
  triple Inv
    (match o with
     | Some errno => if errno =? EINTR then goto next else goto rdwr
     | None => ret tt
     end) Inv Exit.
Proof using Inv_Exit.
  destruct o as [errno|]; [|apply triple_ret].
  destruct (errno =? EINTR); apply quiet_goto.
Qed.

Lemma quiet_run_dev_funcs path fs :
  (forall d, quiet (S_dev_func d) = true) ->
  triple Inv (run_dev_funcs path fs) Inv Exit.
Proof using Inv_quiet.
  intros Hd. induction fs as [|d fs IH]; cbn [run_dev_funcs];
    [apply triple_ret|].
  apply (triple_bind _ Inv); [|intros _; exact IH].
  apply triple_when. by apply quiet_call.
Qed.

Lemma quiet_rdwr env s :
  quiet (S_open O_RDONLY_WRONLY_NONBLOCK) = true ->
  Inv (trace s) -> Inv (trace (snd (rw_rdwr env s))).
Proof using Inv_quiet quiet_close.
  intros Ho Hs. unfold rw_rdwr, bind, call, when. cbn [fst snd trace].
  destruct (open3_ok env); cbn [trace ret snd].
  - apply Inv_quiet; [done|]. by apply Inv_quiet.
  - by apply Inv_quiet.
Qed.

End Quiet.

(** ** The terminal branch *)

Lemma strncmp_prefix (a p path : string) (n : nat) :
  substring 0 n a = p -> String.length p = n ->
  String.prefix p path = true -> strncmp_eq a path n = true.
Proof.
  intros Ha Hn Hp. unfold strncmp_eq. rewrite Ha.
  apply prefix_correct in Hp. rewrite Hn in Hp. rewrite Hp.
  apply String.eqb_refl.
Qed.

Lemma Forall_snoc_quiet (quiet : sys -> bool) tr c :
  quiet c = true ->
  Forall (fun c => quiet c = true) tr ->
  Forall (fun c => quiet c = true) (tr ++ [c]).
Proof. intros Hc Htr. apply Forall_app. split; [done|]. by constructor. Qed.

Ltac quiet_step Hq :=
  first
    [ apply triple_ret
    | apply quiet_goto; done
    | apply (quiet_deadline _ _ _ Hq); done
    | apply (quiet_mmap_munmap _ _ _ Hq); done
    | apply quiet_after_open; done
    | apply (quiet_stress_time_now _ _ _ Hq); done
    | apply (quiet_call _ _ _ Hq); reflexivity
    | apply triple_when
    | eapply triple_bind; [|intros ?] ].

(** [strncmp("/dev/vsock", path, 9)] and [strncmp("/dev/dri", path, 7)]
    compare one character less than the two names have: a character device
    whose path begins with [/dev/dr] or [/dev/vsoc] is never sent [TCGETS],
    and [stress_dev_tty] is never run on it. *)
Theorem no_termios_on_dr_or_vsoc (env : rw_env) (path : string) :
  String.prefix "/dev/dr" path = true \/ String.prefix "/dev/vsoc" path = true ->
  Forall (fun c => is_tty_call c = false) (trace (rw_iteration env path)).
Proof.
  intros Hpath.
  set (quiet := fun c => negb (is_tty_call c)).
  assert (Hq : forall tr c, quiet c = true ->
             Forall (fun c => quiet c = true) tr ->
             Forall (fun c => quiet c = true) (tr ++ [c]))
    by apply Forall_snoc_quiet.
  assert (Hcond : st_is_chr env && negb (strncmp_eq "/dev/vsock" path 9)
                  && negb (strncmp_eq "/dev/dri" path 7) = false).
  { destruct Hpath as [H|H].
    - rewrite (strncmp_prefix "/dev/dri" "/dev/dr" path 7 eq_refl eq_refl H).
      apply andb_false_r.
    - rewrite (strncmp_prefix "/dev/vsock" "/dev/vsoc" path 9 eq_refl eq_refl H).
      simpl. by rewrite andb_false_r. }
  assert (Hbody : triple (Forall (fun c => quiet c = true)) (rw_body env path)
                    (Forall (fun c => quiet c = true))
                    (Forall (fun c => quiet c = true))).
  { unfold rw_body. rewrite Hcond.
    repeat quiet_step Hq.
    destruct (fstat_failed env); repeat quiet_step Hq. }
  assert (Hall : Forall (fun c => quiet c = true) (trace (rw_iteration env path))).
  { unfold rw_iteration.
    pose proof (Hbody (mk_rw_state [] 0 false) (Forall_nil_2 _)) as H.
    destruct (rw_body env path _) as [[[]|[|]] s].
    - by apply (quiet_rdwr _ _ Hq).
    - exact H.
    - by apply (quiet_rdwr _ _ Hq). }
  eapply Forall_impl; [exact Hall|]. intros c Hc. unfold quiet in Hc.
  by destruct (is_tty_call c).
Qed.

Lemma no_termios_on_dr_or_vsoc_witness :
  Forall (fun c => is_tty_call c = false)
    (trace (rw_iteration (env_steps "/dev/drbd0" (1 # 100)) "/dev/drbd0")).
Proof.
  apply (no_termios_on_dr_or_vsoc (env_steps "/dev/drbd0" (1 # 100)) "/dev/drbd0").
  left. reflexivity.
Defined.

(** The same character device under another name is sent [TCGETS]. *)
Example termios_elsewhere :
  In S_ioctl_TCGETS
    (trace (rw_iteration (env_steps "/dev/ttyS0" (1 # 100)) "/dev/ttyS0"))
  /\ ~ In S_ioctl_TCGETS
       (trace (rw_iteration (env_steps "/dev/drbd0" (1 # 100)) "/dev/drbd0")).
Proof.
  split.
  - vm_compute. tauto.
  - vm_compute. intros H. repeat (destruct H as [H|H]; [discriminate H|]).
    exact H.
Qed.

(** ** The device functions *)

Lemma dev_funcs_called_app a b :
  dev_funcs_called (a ++ b) = dev_funcs_called a ++ dev_funcs_called b.
Proof.
  induction a as [|c a IH]; simpl; [reflexivity|].
  destruct c; simpl; by rewrite ?IH.
Qed.

Lemma dev_funcs_called_quiet tr c :
  is_dev_func c = false -> dev_funcs_called (tr ++ [c]) = dev_funcs_called tr.
Proof.
  intros Hc. rewrite dev_funcs_called_app.
  destruct c; try discriminate Hc; simpl; by rewrite app_nil_r.
Qed.

(** The loop over [dev_funcs] calls the functions of the matching entries,
    in the order of the table. *)
Lemma run_dev_funcs_called path c0 fs : forall l Exit,
  triple (fun tr => In c0 tr /\ dev_funcs_called tr = l) (run_dev_funcs path fs)
    (fun tr =>
       In c0 tr
       /\ dev_funcs_called tr
          = l ++ List.filter
                   (fun d => strncmp_eq path d (String.length d)) fs)
    Exit.
Proof.
  induction fs as [|d fs IH]; intros l Exit; cbn [run_dev_funcs List.filter].
  - intros s Hs. cbn. by rewrite app_nil_r.
  - destruct (strncmp_eq path d (String.length d)); cbn [when].
    + eapply triple_bind.
      * apply (triple_call _
                 (fun tr => In c0 tr /\ dev_funcs_called tr = l ++ [d])).
        intros tr [Hin Htr]. split; [rewrite in_app_iff; by left|].
        rewrite dev_funcs_called_app, Htr. reflexivity.
      * intros _. intros s Hs. specialize (IH (l ++ [d]) Exit s Hs).
        destruct (run_dev_funcs path fs s) as [[a|lab] s']; [|exact IH].
        destruct IH as [Hin IH]. split; [exact Hin|].
        rewrite IH. by rewrite <- app_assoc.
    + eapply triple_bind; [apply triple_ret|]. intros _. apply IH.
Qed.

(** A path begins with a table entry exactly when [strncmp] over the length
    of the entry finds no difference. *)
Lemma strncmp_eq_prefix path d :
  strncmp_eq path d (String.length d) = String.prefix d path.
Proof.
  unfold strncmp_eq. rewrite DevFacts.substring_all.
  destruct (String.prefix d path) eqn:Hp.
  - apply prefix_correct in Hp. rewrite Hp. apply String.eqb_refl.
  - apply String.eqb_neq. intros Heq. apply prefix_correct in Heq.
    congruence.
Qed.

(** Two strings that begin the same string: one begins the other. *)
Lemma prefix_comparable (a b p : string) :
  String.prefix a p = true -> String.prefix b p = true ->
  String.prefix a b = true \/ String.prefix b a = true.
Proof.
  revert b p. induction a as [|x a IH]; intros b p Ha Hb;
    [left; by destruct b|].
  destruct b as [|y b]; [by right|].
  destruct p as [|z p]; [discriminate Ha|].
  simpl in Ha, Hb |- *.
  destruct (ascii_dec x z) as [->|]; [|discriminate Ha].
  destruct (ascii_dec y z) as [->|]; [|discriminate Hb].
  destruct (ascii_dec z z) as [_|Hne]; [|by destruct Hne].
  by apply (IH b p).
Qed.

(** No entry of [dev_funcs] begins another one. *)
Lemma dev_funcs_apart :
  forallb (fun a =>
    forallb (fun b => String.eqb a b
                      || negb (String.prefix a b || String.prefix b a))
      dev_funcs) dev_funcs = true.
Proof. vm_compute. reflexivity. Qed.

Lemma filter_at_most_one {T : Type} (f : T -> bool) (l : list T) :
  (forall a b, In a l -> In b l -> f a = true -> f b = true -> a = b) ->
  List.NoDup l ->
  List.filter f l = [] \/ exists a, List.filter f l = [a].
Proof.
  intros Huniq Hnd. induction l as [|x l IH]; simpl; [by left|].
  inversion Hnd as [|x' l' Hx Hnd']; subst.
  assert (IH' : List.filter f l = [] \/ exists a, List.filter f l = [a]).
  { apply IH; [|exact Hnd']. intros a b Ha Hb. apply Huniq; by right. }
  destruct IH' as [H|[a H]]; rewrite H.
  - destruct (f x); [right; by exists x|by left].
  - destruct (f x) eqn:Hfx; [|right; by exists a].
    assert (Ha : In a (List.filter f l)) by (rewrite H; by left).
    apply List.filter_In in Ha as [Hal Hfa].
    assert (x = a) by (apply Huniq; [by left|by right|done|done]).
    by subst a.
Qed.

Lemma matching_at_most_one path :
  matching path = []
  \/ exists d, matching path = [d] /\ In d dev_funcs
               /\ String.prefix d path = true.
Proof.
  destruct (filter_at_most_one
              (fun d => strncmp_eq path d (String.length d)) dev_funcs)
    as [H|[d H]].
  - intros a b Ha Hb Hfa Hfb. rewrite strncmp_eq_prefix in Hfa, Hfb.
    pose proof dev_funcs_apart as Hap.
    rewrite forallb_forall in Hap. specialize (Hap a Ha).
    rewrite forallb_forall in Hap. specialize (Hap b Hb).
    destruct (String.eqb_spec a b) as [|Hne]; [done|]. simpl in Hap.
    destruct (prefix_comparable a b path Hfa Hfb) as [H|H];
      rewrite H in Hap; simpl in Hap; try discriminate Hap.
    by rewrite orb_true_r in Hap.
  - unfold dev_funcs.
    repeat (constructor; [intros H; repeat (destruct H as [H|H];
      [discriminate H|]); exact H|]). constructor.
  - by left.
  - right. exists d. split; [exact H|].
    assert (Hd : In d (matching path)) by (unfold matching; rewrite H; by left).
    apply List.filter_In in Hd as [Hin Hf].
    by rewrite strncmp_eq_prefix in Hf.
Qed.

Ltac quiet_leaf Hq HIE :=
  solve
    [ repeat first
        [ apply triple_ret
        | apply (quiet_goto _ _ HIE)
        | apply (quiet_deadline _ _ _ Hq HIE); reflexivity
        | apply (quiet_mmap_munmap _ _ _ Hq); reflexivity
        | apply (quiet_after_open _ _ HIE)
        | apply (quiet_stress_time_now _ _ _ Hq); reflexivity
        | apply (quiet_call _ _ _ Hq); reflexivity
        | apply triple_when
        | match goal with
          | |- triple _ (if ?b then _ else _) _ _ => destruct b
          end
        | eapply triple_bind; [|intros ?] ] ].

Ltac quiet_walk Hq HIE :=
  repeat
    match goal with
    | |- triple _ (bind _ _) _ _ =>
        eapply triple_bind; [quiet_leaf Hq HIE|intros ?]
    end.

Section Dispatch.

Variable env : rw_env.
Variable path : string.

Lemma before_fsync_quiet tr c :
  not_fsync_nor_table c = true -> before_fsync tr -> before_fsync (tr ++ [c]).
Proof.
  intros Hc [Hf Hd]. apply andb_true_iff in Hc as [Hc1 Hc2]. split.
  - rewrite in_app_iff. intros [H|[->|[]]]; [done|discriminate Hc2].
  - rewrite dev_funcs_called_quiet; [done|by destruct (is_dev_func c)].
Qed.

Lemma after_table_quiet tr c :
  not_table c = true -> after_table path tr -> after_table path (tr ++ [c]).
Proof.
  intros Hc [Hf Hd]. split.
  - rewrite in_app_iff. by left.
  - rewrite dev_funcs_called_quiet; [done|].
    unfold not_table in Hc. by destruct (is_dev_func c).
Qed.

Lemma either_side_quiet tr c :
  not_fsync_nor_table c = true ->
  either_side path tr -> either_side path (tr ++ [c]).
Proof.
  intros Hc [H|H]; [left; by apply before_fsync_quiet|right].
  apply after_table_quiet; [|exact H].
  apply andb_true_iff in Hc as [Hc _]. exact Hc.
Qed.

Lemma rw_body_called :
  triple before_fsync (rw_body env path) (after_table path) (either_side path).
Proof.
  assert (HIE1 : forall tr, before_fsync tr -> either_side path tr) by (by left).
  assert (HIE2 : forall tr, after_table path tr -> either_side path tr)
    by (by right).
  unfold rw_body.
  quiet_walk before_fsync_quiet HIE1.
  apply (triple_bind _ (fun tr => In S_fsync tr /\ dev_funcs_called tr = [])).
  { apply triple_call. intros tr [Hf Hd]. split.
    - rewrite in_app_iff. right. by left.
    - by rewrite dev_funcs_called_quiet. }
  intros _.
  apply (triple_bind _ (after_table path));
    [apply (run_dev_funcs_called path S_fsync dev_funcs [] (either_side path))|].
  intros _.
  quiet_walk after_table_quiet HIE2.
  quiet_leaf after_table_quiet HIE2.
Qed.

Lemma rw_iteration_called : either_side path (trace (rw_iteration env path)).
Proof.
  unfold rw_iteration.
  assert (H0 : before_fsync (trace (mk_rw_state [] 0 false)))
    by (split; [intros []|reflexivity]).
  pose proof (rw_body_called (mk_rw_state [] 0 false) H0) as H.
  destruct (rw_body env path _) as [[[]|[|]] s].
  - apply (quiet_rdwr _ _ either_side_quiet); [reflexivity..|]. by right.
  - exact H.
  - by apply (quiet_rdwr _ _ either_side_quiet).
Qed.

End Dispatch.

(** In an iteration of [stress_dev_rw] that gets as far as [fsync] the
    function of every [dev_funcs] entry whose device path begins the path of
    the device is called ([/dev/null] also stands for [/dev/nullb0]), and in
    one that does not none is called; no path is begun by two entries, so
    at most one function is called. *)
Theorem device_function_by_prefix (env : rw_env) (path : string) :
  let tr := trace (rw_iteration env path) in
  (In S_fsync tr -> dev_funcs_called tr = matching path)
  /\ (~ In S_fsync tr -> dev_funcs_called tr = [])
  /\ (matching path = []
      \/ exists d, matching path = [d] /\ In d dev_funcs
                   /\ String.prefix d path = true).
Proof.
  intros tr. split; [|split; [|apply matching_at_most_one]].
  - intros Hf. destruct (rw_iteration_called env path) as [[Hn _]|[_ H]];
      [done|exact H].
  - intros Hf. destruct (rw_iteration_called env path) as [[_ H]|[Hn _]];
      [exact H|done].
Qed.

Example device_function_samples :
  matching "/dev/nullb0" = ["/dev/null"%string]
  /\ matching "/dev/memory_bandwidth" = ["/dev/mem"%string]
  /\ matching "/dev/sda" = []
  /\ dev_funcs_called
       (trace (rw_iteration (env_steps "/dev/nullb0" (1 # 100)) "/dev/nullb0"))
     = ["/dev/null"%string].
Proof. vm_compute. repeat split. Qed.

(** ** Devices the traversal leaves alone *)

Section Adds.

Variable ok : dir_event -> Prop.

Lemma adds_refl st : adds ok st st.
Proof using Type. exists []. split; [by rewrite app_nil_r|constructor]. Qed.

Lemma adds_trans st1 st2 st3 :
  adds ok st1 st2 -> adds ok st2 st3 -> adds ok st1 st3.
Proof using Type.
  intros (n1 & H1 & F1) (n2 & H2 & F2). exists (n1 ++ n2). split.
  - by rewrite H2, H1, app_assoc.
  - by apply Forall_app.
Qed.

Lemma adds_log evs st : Forall ok evs -> adds ok st (log evs st).
Proof using Type. intros H. by exists evs. Qed.

Lemma adds_hash_add path st :
  ok (D_hash_add path) -> adds ok st (hash_add path st).
Proof using Type.
  intros H. exists [D_hash_add path]. split; [reflexivity|].
  by constructor.
Qed.

Lemma adds_tick_keep st : adds ok st (tick_keep st).
Proof using Type. exists []. split; [by rewrite app_nil_r|constructor]. Qed.

Lemma adds_tick_flag st : adds ok st (tick_flag st).
Proof using Type. exists []. split; [by rewrite app_nil_r|constructor]. Qed.

Variable env : dir_env.
Variable instance : Z.
Variable euid : Z.

(** The events that touch no device. *)
Hypothesis ok_untouched : forall e, device_touched e = None -> ok e.

Lemma adds_visit_device tmp st :
  (strstr tmp "watchdog" = false ->
   forall e, device_touched e = Some tmp -> ok e) ->
  adds ok st (visit_device env instance tmp st).
Proof using ok_untouched.
  intros Htmp. unfold visit_device.
  destruct (stress_hash_get _ _); [apply adds_refl|].
  destruct (strstr _ _); [apply adds_hash_add; by apply ok_untouched|].
  specialize (Htmp eq_refl).
  destruct (negb _).
  - eapply adds_trans; [|apply adds_hash_add; by apply ok_untouched].
    apply adds_log. constructor; [by apply Htmp|constructor].
  - destruct (_ =? 0); apply adds_log.
    + constructor; [by apply Htmp|].
      constructor; [by apply Htmp|].
      constructor; [by apply ok_untouched|constructor].
    + constructor; [by apply Htmp|constructor].
Qed.

(** What is known of a device entry when it gets to [visit_device]. *)
Lemma adds_visit_entry self path recurse depth d :
  (forall p r st st', self p r (depth + 1) st = Some st' -> adds ok st st') ->
  ((euid =? 0) && String.eqb (d_name d) "hpet" = false ->
   strstr (path ++ "/" ++ d_name d) "watchdog" = false ->
   forall e,
     device_touched e = Some (path ++ "/" ++ d_name d)%string -> ok e) ->
  forall st st',
    visit_entry env instance euid self path recurse depth d st = Some st' ->
    adds ok st st'.
Proof using ok_untouched.
  intros Hself Hdev st st' H. unfold visit_entry in H.
  destruct (stress_is_dot_filename env (d_name d));
    [inversion H; apply adds_refl|].
  destruct ((euid =? 0) && _); [inversion H; apply adds_refl|].
  specialize (Hdev eq_refl).
  destruct (too_many_of_driver (d_name d)); [inversion H; apply adds_refl|].
  destruct (d_kind d).
  - destruct (negb recurse); [inversion H; apply adds_refl|].
    destruct (stress_hash_get _ _); [inversion H; apply adds_refl|].
    destruct (stat_mode env _) as [mode|].
    + destruct (Z.land mode rw_group_other =? 0).
      * inversion H; subst.
        eapply adds_trans; [|apply adds_hash_add; by apply ok_untouched].
        apply adds_log. constructor; [by apply ok_untouched|constructor].
      * eapply adds_trans; [|by eapply Hself]. apply adds_log.
        constructor; [by apply ok_untouched|].
        constructor; [by apply ok_untouched|constructor].
    + inversion H; subst.
      eapply adds_trans; [|apply adds_hash_add; by apply ok_untouched].
      apply adds_log. constructor; [by apply ok_untouched|constructor].
  - inversion H; subst. by apply adds_visit_device.
  - inversion H; subst. by apply adds_visit_device.
  - inversion H; apply adds_refl.
Qed.

(** An invariant of the events of a whole traversal, from what is known of
    each device entry that is opened. *)
Lemma adds_stress_dev_dir :
  (forall path d,
      In d (scandir env path) ->
      (euid =? 0) && String.eqb (d_name d) "hpet" = false ->
      strstr (path ++ "/" ++ d_name d) "watchdog" = false ->
      forall e,
        device_touched e = Some (path ++ "/" ++ d_name d)%string -> ok e) ->
  forall fuel path recurse depth st st',
    stress_dev_dir env instance euid fuel path recurse depth st = Some st' ->
    adds ok st st'.
Proof using ok_untouched.
  intros Hdev.
  induction fuel as [|fuel IH]; intros path recurse depth st st' H;
    [discriminate|].
  cbn [stress_dev_dir] in H.
  destruct (negb _); [inversion H; apply adds_tick_flag|].
  destruct (20 <? depth); [inversion H; apply adds_tick_flag|].
  eapply adds_trans; [apply adds_tick_flag|].
  apply (adds_trans _ (log [D_scandir path depth] (tick_flag st))).
  { apply adds_log. constructor; [by apply ok_untouched|constructor]. }
  revert H. generalize (log [D_scandir path depth] (tick_flag st)).
  assert (Hin : forall d, In d (scandir env path) -> In d (scandir env path))
    by done.
  revert Hin. generalize (scandir env path) at 1 3.
  intros ds. induction ds as [|d ds IHds]; intros Hin st0 H; simpl in H.
  - inversion H; subst. apply adds_log.
    constructor; [by apply ok_untouched|constructor].
  - destruct (negb _).
    + inversion H; subst.
      eapply adds_trans; [apply adds_tick_keep|]. apply adds_log.
      constructor; [by apply ok_untouched|constructor].
    + destruct (visit_entry _ _ _ _ _ _ _ d (tick_keep st0)) as [st1|] eqn:Hd;
        [|discriminate].
      eapply adds_trans; [apply adds_tick_keep|].
      eapply adds_trans.
      * eapply adds_visit_entry; [|..|exact Hd].
        -- intros p r s1 s2 Hrec. by eapply IH.
        -- apply Hdev. apply Hin. by left.
      * apply IHds; [|exact H]. intros d' Hd'. apply Hin. by right.
Qed.

End Adds.

(** A device with [watchdog] anywhere in its path (opening one can reboot
    the machine) is never opened and never handed to [stress_dev_rw],
    whatever the file system holds and however the traversal is cut short;
    the traversal itself always ends. *)
Theorem watchdog_never_opened env instance euid fuel path recurse depth st :
  (Z.to_nat (21 - depth) < fuel)%nat ->
  exists st' new,
    stress_dev_dir env instance euid fuel path recurse depth st = Some st'
    /\ dir_trace st' = dir_trace st ++ new
    /\ Forall spares_watchdog new.
Proof.
  intros Hfuel.
  destruct (DevFacts.stress_dev_dir_total env instance euid fuel path recurse
              depth st Hfuel) as [st' Hst'].
  exists st'.
  destruct (adds_stress_dev_dir spares_watchdog env instance euid) with
    (fuel := fuel) (path := path) (recurse := recurse) (depth := depth)
    (st := st) (st' := st') as (new & Hnew & Hall).
  - intros e He p Hp. congruence.
  - intros p d _ _ Hw e He q Hq. congruence.
  - exact Hst'.
  - by exists new.
Qed.

Lemma watchdog_never_opened_witness :
  exists st' new,
    stress_dev_dir guarded_fs 0 1000 30 "/dev" true 0 dir_state0 = Some st'
    /\ dir_trace st' = dir_trace dir_state0 ++ new
    /\ Forall spares_watchdog new.
Proof.
  apply (watchdog_never_opened guarded_fs 0 1000 30 "/dev" true 0 dir_state0).
  vm_compute. lia.
Defined.

(** The run on the sample [/dev]: the two watchdogs and the device below
    [watchdogs] are put aside without an [open]; [hpet] and the port are
    exercised when the caller is not root. *)
Example guarded_fs_run :
  option_map dir_trace
    (stress_dev_dir guarded_fs 0 1000 30 "/dev" true 0 dir_state0)
  = Some [D_scandir "/dev" 0;
          D_hash_add "/dev/watchdog"; D_hash_add "/dev/watchdog0";
          D_try_open "/dev/hpet"; D_dev_rw "/dev/hpet" 1; D_inc_counter;
          D_try_open "/dev/ttyS0"; D_dev_rw "/dev/ttyS0" 1; D_inc_counter;
          D_stat "/dev/watchdogs"; D_inc_counter;
          D_scandir "/dev/watchdogs" 1; D_hash_add "/dev/watchdogs/wd1";
          D_dirent_list_free; D_dirent_list_free]%string.
Proof. vm_compute. reflexivity. Qed.

(** *** [hpet] *)

Lemma no_slash_app (x y : string) :
  no_slash (x ++ String "/" y) = false.
Proof.
  induction x as [|c x IH]; simpl; [reflexivity|].
  rewrite IH. apply andb_false_r.
Qed.

(** The last component of a path is its own. *)
Lemma last_component_inj (a : string) : forall b n1 n2,
  no_slash n1 = true -> no_slash n2 = true ->
  (a ++ String "/" n1)%string = (b ++ String "/" n2)%string -> n1 = n2.
Proof.
  induction a as [|c a IH]; intros [|c' b] n1 n2 H1 H2 Heq; simpl in Heq.
  - by injection Heq.
  - injection Heq as _ Heq. subst n1. by rewrite no_slash_app in H1.
  - injection Heq as _ Heq. subst n2. by rewrite no_slash_app in H2.
  - injection Heq as _ Heq. by apply (IH b).
Qed.

(** When the caller is root ([euid] 0) an entry named [hpet] is never
    opened and never handed to [stress_dev_rw], in whatever directory it is
    found (directory entries have no slash in their names). *)
Theorem hpet_spared_as_root env instance fuel path recurse depth st :
  (forall p d, In d (scandir env p) -> no_slash (d_name d) = true) ->
  (Z.to_nat (21 - depth) < fuel)%nat ->
  exists st' new,
    stress_dev_dir env instance 0 fuel path recurse depth st = Some st'
    /\ dir_trace st' = dir_trace st ++ new
    /\ Forall spares_hpet new.
Proof.
  intros Hnames Hfuel.
  destruct (DevFacts.stress_dev_dir_total env instance 0 fuel path recurse
              depth st Hfuel) as [st' Hst'].
  exists st'.
  destruct (adds_stress_dev_dir spares_hpet env instance 0) with
    (fuel := fuel) (path := path) (recurse := recurse) (depth := depth)
    (st := st) (st' := st') as (new & Hnew & Hall).
  - intros e He p dir Hp. congruence.
  - intros p d Hd Hh _ e He q dir Hq.
    rewrite He in Hq. injection Hq as <-. intros Heq.
    change (p ++ "/" ++ d_name d)%string
      with (p ++ String "/" (d_name d))%string in Heq.
    change (dir ++ "/hpet")%string with (dir ++ String "/" "hpet")%string in Heq.
    apply last_component_inj in Heq; [|by apply (Hnames p)|reflexivity].
    rewrite Heq in Hh. discriminate Hh.
  - exact Hst'.
  - by exists new.
Qed.

Lemma hpet_spared_as_root_witness :
  exists st' new,
    stress_dev_dir guarded_fs 0 0 30 "/dev" true 0 dir_state0 = Some st'
    /\ dir_trace st' = dir_trace dir_state0 ++ new
    /\ Forall spares_hpet new.
Proof.
  apply (hpet_spared_as_root guarded_fs 0 30 "/dev" true 0 dir_state0).
  - intros p d. unfold guarded_fs. cbn [scandir].
    destruct (String.eqb p "/dev").
    + intros H. repeat (destruct H as [<-|H]; [reflexivity|]). destruct H.
    + destruct (String.eqb p "/dev/watchdogs").
      * intros H. repeat (destruct H as [<-|H]; [reflexivity|]). destruct H.
      * intros [].
  - vm_compute. lia.
Defined.

Example guarded_fs_run_as_root :
  option_map dir_trace
    (stress_dev_dir guarded_fs 0 0 30 "/dev" true 0 dir_state0)
  = Some [D_scandir "/dev" 0;
          D_hash_add "/dev/watchdog"; D_hash_add "/dev/watchdog0";
          D_try_open "/dev/ttyS0"; D_dev_rw "/dev/ttyS0" 1; D_inc_counter;
          D_stat "/dev/watchdogs"; D_inc_counter;
          D_scandir "/dev/watchdogs" 1; D_hash_add "/dev/watchdogs/wd1";
          D_dirent_list_free; D_dirent_list_free]%string.
Proof. vm_compute. reflexivity. Qed.

(** ** How long [stress_dev_rw] stays with a device *)

Lemma dev_rw_returns envs : forall fuel n loops,
  0 <= loops -> (Z.to_nat loops < fuel)%nat ->
  exists passes,
    stress_dev_rw envs fuel n loops = (Returned tt, passes)
    /\ (length passes <= Z.to_nat loops)%nat.
Proof.
  induction fuel as [|fuel IH]; intros n loops Hl Hf; [lia|].
  cbn [stress_dev_rw].
  destruct (Z.eqb_spec loops (-1)) as [->|_]; [lia|]. cbn [orb].
  destruct (Z.ltb_spec 0 loops) as [Hpos|Hzero].
  - destruct (negb (spin_lock_ret (envs n) =? 0));
      [eexists; split; [reflexivity|simpl; lia]|].
    destruct (_ || _); [eexists; split; [reflexivity|simpl; lia]|].
    destruct (timeout _); [eexists; split; [reflexivity|simpl; lia]|].
    destruct (IH (S n) (loops - 1)) as (passes & Hp & Hlen); [lia|lia|].
    rewrite Hp. eexists. split; [reflexivity|].
    cbn [emit fst snd app length]. lia.
  - exists []. split; [reflexivity|simpl; lia].
Qed.

(** [stress_dev_dir] hands a device to [stress_dev_rw] with
    [loops = instance + 1], 8 at most; such a call always returns, after at
    most [loops] passes of its loop: a device is exercised at most 8 times
    per visit, whatever it answers. *)
Theorem device_exercised_at_most_8_times envs instance fuel n :
  0 <= instance -> (8 < fuel)%nat ->
  1 <= dir_loops instance <= 8
  /\ exists passes,
       stress_dev_rw envs fuel n (dir_loops instance) = (Returned tt, passes)
       /\ (length passes <= Z.to_nat (dir_loops instance))%nat
       /\ (length passes <= 8)%nat.
Proof.
  intros Hi Hf.
  assert (Hl : 1 <= dir_loops instance <= 8).
  { unfold dir_loops. destruct (Z.ltb_spec instance 8); lia. }
  split; [exact Hl|].
  destruct (dev_rw_returns envs fuel n (dir_loops instance)) as (p & Hp & Hlen);
    [lia|lia|].
  exists p. split; [exact Hp|]. split; [exact Hlen|lia].
Qed.

Lemma device_exercised_at_most_8_times_witness :
  1 <= dir_loops 3 <= 8
  /\ exists passes,
       stress_dev_rw (fun _ => env_steps "/dev/null" (1 # 100)) 9 0 (dir_loops 3)
       = (Returned tt, passes)
       /\ (length passes <= Z.to_nat (dir_loops 3))%nat
       /\ (length passes <= 8)%nat.
Proof.
  apply (device_exercised_at_most_8_times
           (fun _ => env_steps "/dev/null" (1 # 100)) 3 9 0); lia.
Defined.

(** A thread calls [stress_dev_rw(args, -1)]: such a call does not count its
    passes and does not stop at a missed deadline.  It returns at the first
    pass that finds the lock failing, [dev_path] empty or the continue flag
    cleared, and goes on as long as there is none. *)
Theorem thread_call_runs_until_told envs fuel n k :
  (forall j, (j < k)%nat -> rw_stops (envs (n + j)%nat) = false) ->
  (rw_stops (envs (n + k)%nat) = true ->
   (k < fuel)%nat ->
   exists passes,
     stress_dev_rw envs fuel n (-1) = (Returned tt, passes)
     /\ length passes = S k)
  /\ ((fuel <= k)%nat ->
      exists passes,
        stress_dev_rw envs fuel n (-1) = (OutOfFuel, passes)
        /\ length passes = fuel).
Proof.
  revert n k. induction fuel as [|fuel IH]; intros n k Hgo.
  - split; [lia|]. intros _. by exists [].
  - cbn [stress_dev_rw]. change (-1 =? -1) with true. cbn [orb].
    change (0 <? -1) with false. cbv iota.
    destruct k as [|k].
    + split; [|lia]. intros Hstop _. unfold rw_stops in Hstop.
      rewrite Nat.add_0_r in Hstop.
      destruct (negb (spin_lock_ret (envs n) =? 0)); [by eexists|].
      cbn [orb] in Hstop. rewrite Hstop. by eexists.
    + pose proof (Hgo 0%nat ltac:(lia)) as H0. rewrite Nat.add_0_r in H0.
      unfold rw_stops in H0.
      apply orb_false_iff in H0 as [H0 Hflag].
      apply orb_false_iff in H0 as [Hlock Hpath].
      rewrite Hlock, Hpath, Hflag. cbn [orb].
      assert (Hgo' : forall j, (j < k)%nat ->
                       rw_stops (envs (S n + j)%nat) = false).
      { intros j Hj. replace (S n + j)%nat with (n + S j)%nat by lia.
        apply Hgo. lia. }
      destruct (IH (S n) k Hgo') as [Hret Hout].
      replace (S n + k)%nat with (n + S k)%nat in Hret by lia.
      split.
      * intros Hstop Hk. destruct Hret as (p & Hp & Hlen); [done|lia|].
        rewrite Hp. eexists. split; [reflexivity|]. simpl. by rewrite Hlen.
      * intros Hk. destruct Hout as (p & Hp & Hlen); [lia|].
        rewrite Hp. eexists. split; [reflexivity|]. simpl. by rewrite Hlen.
Qed.

Lemma thread_call_runs_until_told_witness :
  exists passes,
    stress_dev_rw
      (fun i => if (i <? 2)%nat then env_slow "/dev/null"
                else env_slow EmptyString) 5 0 (-1)
    = (Returned tt, passes)
    /\ length passes = 3%nat.
Proof.
  refine (proj1 (thread_call_runs_until_told
                   (fun i => if (i <? 2)%nat then env_slow "/dev/null"
                             else env_slow EmptyString) 5 0 2 _) _ _).
  - intros j Hj. destruct j as [|[|j]]; [reflexivity|reflexivity|lia].
  - reflexivity.
  - lia.
Defined.

(** With [loops > 0] the same slow device is left after its first pass. *)
Example slow_device_left_at_once :
  let '(o, passes) := stress_dev_rw (fun _ => env_slow "/dev/null") 9 0 8 in
  (o, length passes) = (Returned tt, 1%nat)
  /\ timeout (rw_iteration (env_slow "/dev/null") "/dev/null") = true.
Proof. vm_compute. by split. Qed.

(** ** How [stress_dev] ends *)

Lemma dev_ending_emit env evs r :
  dev_ending env r -> dev_ending env (emit evs r).
Proof.
  destruct r as [[[| |]|rc|] tr]; cbn [dev_ending emit fst snd]; try done.
  - intros (pre & ->). exists (evs ++ pre). by rewrite app_assoc.
  - intros (pre & m & pid & code & -> & H).
    exists (evs ++ pre), m, pid, code. by rewrite app_assoc.
  - intros (pre & m & -> & H). exists (evs ++ pre), m. by rewrite app_assoc.
Qed.

Lemma dev_from_again_ends env : forall fuel n,
  dev_ending env (dev_from_again env fuel n EXIT_SUCCESS).
Proof.
  induction fuel as [|fuel IH]; intros n; [exact I|].
  cbn [dev_from_again].
  assert (Hleave : dev_ending env
            (emit [V_keep_stressing false]
               (Returns EXIT_SUCCESS, [V_spin_destroy])))
    by (by exists []).
  assert (Hloop : dev_ending env
            (if keep_at_loop (env n)
             then emit [V_keep_stressing true]
                    (dev_from_again env fuel (S n) EXIT_SUCCESS)
             else emit [V_keep_stressing false]
                    (Returns EXIT_SUCCESS, [V_spin_destroy]))).
  { destruct (keep_at_loop (env n)); [|exact Hleave].
    apply dev_ending_emit, IH. }
  destruct (negb (keep_at_again (env n))); [exact Hleave|].
  destruct (dev_fork (env n)) as [errno|pid|] eqn:Hfork.
  - apply dev_ending_emit.
    destruct ((errno =? EAGAIN) || (errno =? ENOMEM)); [|exact Hloop].
    apply dev_ending_emit, IH.
  - destruct (dev_wait (env n)) as [errno|code|sig] eqn:Hwait.
    + by do 3 apply dev_ending_emit.
    + destruct (Z.eqb_spec code 0) as [->|Hcode]; cbn [negb].
      * by do 2 apply dev_ending_emit.
      * exists [V_keep_stressing true], n, pid, code. by repeat split.
    + by do 2 apply dev_ending_emit.
  - exists [V_keep_stressing true], n. by split.
Qed.

(** [stress_dev] is left in two ways only.  It returns [EXIT_SUCCESS] when
    [keep_stressing()] says no, at the label [again] or in the loop
    condition.  It returns [EXIT_FAILURE] right after a wait that found the
    child exited with a status other than 0, whatever that status is (a
    child that could not set itself up exits with [EXIT_NO_RESOURCE]), and
    forks no more.  It never returns [EXIT_NO_RESOURCE] itself, and in both
    cases the lock is destroyed last. *)
Theorem stress_dev_ends env fuel :
  match stress_dev env fuel with
  | (Returns EXIT_SUCCESS, tr) =>
      exists pre, tr = pre ++ [V_keep_stressing false; V_spin_destroy]
  | (Returns EXIT_FAILURE, tr) =>
      exists pre m pid code,
        tr = pre ++ [V_fork (ForkParent pid); V_setpgid pid; V_waitpid pid;
                     V_spin_destroy]
        /\ dev_fork (env m) = ForkParent pid
        /\ dev_wait (env m) = WaitExited code /\ code <> 0
  | (Returns EXIT_NO_RESOURCE, _) => False
  | (Exits rc, tr) =>
      exists pre m,
        tr = pre ++ [V_fork ForkChild; V_child] /\ rc = dev_child_rc (env m)
  | (StillLooping, _) => True
  end.
Proof. apply (dev_from_again_ends env fuel 0). Qed.

End DevUtilFacts.

(** * The cache of SCSI devices *)

Module DevScsiFacts.
Import Dev DevUtil DevScsi DevUtilFacts.

Lemma block_loop_In devname l :
  block_loop devname l = true <-> In devname l.
Proof.
  induction l as [|d l IH]; cbn [block_loop In]; [done|].
  destruct (String.eqb_spec devname d) as [->|Hne].
  - split; [by left|done].
  - rewrite IH. split; [by right|]. by intros [Heq|H]; [congruence|].
Qed.

Lemma device_loop_keeps env devname l : forall st,
  scsi_hash_table (snd (device_loop env devname l st)) = scsi_hash_table st
  /\ spin_calls (snd (device_loop env devname l st)) = spin_calls st.
Proof.
  induction l as [|d l IH]; intros st; cbn [device_loop]; [done|].
  destruct (starts_with_dot d); [apply IH|].
  unfold do_scandir.
  destruct (scsi_scandir env (scsi_block_path_of d)) as [|b bl].
  - destruct (IH (mk_scsi_state (scsi_hash_table st) (spin_calls st)
                    (scanned st ++ [scsi_block_path_of d]))) as [H1 H2].
    by rewrite H1, H2.
  - destruct (block_loop devname (b :: bl)); [done|].
    destruct (IH (mk_scsi_state (scsi_hash_table st) (spin_calls st)
                    (scanned st ++ [scsi_block_path_of d]))) as [H1 H2].
    by rewrite H1, H2.
Qed.

Lemma device_loop_listed env devname l : forall st,
  fst (device_loop env devname l st) = true
  <-> exists d_name,
        In d_name l /\ starts_with_dot d_name = false
        /\ In devname (scsi_scandir env (scsi_block_path_of d_name)).
Proof.
  induction l as [|d l IH]; intros st; cbn [device_loop].
  - split; [done|]. by intros (d & [] & _).
  - destruct (starts_with_dot d) eqn:Hdot.
    + rewrite IH. split.
      * intros (d' & Hin & H). exists d'. split; [by right|exact H].
      * intros (d' & [<-|Hin] & Hnd & H); [congruence|]. by exists d'.
    + unfold do_scandir.
      destruct (scsi_scandir env (scsi_block_path_of d)) as [|b bl] eqn:Hb.
      * rewrite IH. split.
        -- intros (d' & Hin & H). exists d'. split; [by right|exact H].
        -- intros (d' & [<-|Hin] & Hnd & H).
           ++ rewrite Hb in H. destruct H.
           ++ by exists d'.
      * destruct (block_loop devname (b :: bl)) eqn:Hloop.
        -- split; [|done]. intros _. exists d. split; [by left|].
           split; [exact Hdot|]. rewrite Hb. by apply block_loop_In.
        -- rewrite IH. split.
           ++ intros (d' & Hin & H). exists d'. split; [by right|exact H].
           ++ intros (d' & [<-|Hin] & Hnd & H).
              ** rewrite Hb in H. apply block_loop_In in H. congruence.
              ** by exists d'.
Qed.

(** [is_scsi_dev] says yes for a path that is not empty and either is in
    the cache, when the lock could be taken, or has its last component
    listed as a block device of a SCSI device under [/sys/class/scsi_device];
    it says no for every other path.  Only the last component of the path
    is looked for under [/sys]. *)
Theorem is_scsi_dev_answer env devpath st :
  fst (is_scsi_dev env devpath st) = true
  <-> devpath <> EmptyString
      /\ ((scsi_spin_lock env (spin_calls st) = 0
           /\ stress_hash_get (scsi_hash_table st) devpath = true)
          \/ listed env (dev_basename devpath)).
Proof.
  unfold is_scsi_dev.
  assert (Hempty : dev_basename devpath = EmptyString <-> devpath = EmptyString).
  { unfold dev_basename.
    destruct (basename_from_spec devpath devpath)
      as [[_ Heq] | (pre & Hpre & Hne & _)].
    - by rewrite Heq.
    - split; [done|]. intros ->. by destruct pre. }
  destruct (dev_basename devpath) as [|c name] eqn:Hname.
  { split; [done|]. intros [Hne _]. exfalso. by apply Hne, Hempty. }
  assert (Hne : devpath <> EmptyString).
  { intros H. apply Hempty in H. discriminate H. }
  unfold is_scsi_dev_cached, spin_lock. cbn [scsi_hash_table].
  destruct (Z.eqb_spec (scsi_spin_lock env (spin_calls st)) 0) as [Hl|Hl];
    cbn [negb].
  - destruct (stress_hash_get (scsi_hash_table st) devpath) eqn:Hget.
    + split; [|done]. intros _. split; [exact Hne|]. by left.
    + unfold do_scandir, listed.
      destruct (scsi_scandir env scsi_device_path) as [|d0 dl] eqn:Hroot.
      * split; [done|]. intros [_ [[_ H]|(d & [] & _)]]. discriminate H.
      * match goal with
        | |- context [device_loop env ?n ?l ?s] =>
            pose proof (device_loop_listed env n l s) as Hloop;
            destruct (device_loop env n l s) as [[|] st3]
        end; cbn [fst] in Hloop |- *.
        -- split; [|done]. intros _. split; [exact Hne|]. right.
           by apply Hloop.
        -- split; [done|]. intros [_ [[_ H]|H]]; [discriminate H|].
           by apply Hloop.
  - unfold do_scandir, listed.
    destruct (scsi_scandir env scsi_device_path) as [|d0 dl] eqn:Hroot.
    + split; [done|]. intros [_ [[H _]|(d & [] & _)]]. done.
    + match goal with
      | |- context [device_loop env ?n ?l ?s] =>
          pose proof (device_loop_listed env n l s) as Hloop;
          destruct (device_loop env n l s) as [[|] st3]
      end; cbn [fst] in Hloop |- *.
      * split; [|done]. intros _. split; [exact Hne|]. right. by apply Hloop.
      * split; [done|]. intros [_ [[H _]|H]]; [done|]. by apply Hloop.
Qed.

Lemma hash_get_add table path :
  stress_hash_get (stress_hash_add table path) path = true.
Proof.
  unfold stress_hash_get, stress_hash_add. cbn [existsb].
  by rewrite String.eqb_refl.
Qed.

(** What [is_scsi_dev] leaves in the cache when the lock works: the path,
    after a yes; what was there, after a no. *)
Lemma is_scsi_dev_cache env devpath st :
  lock_works env ->
  (fst (is_scsi_dev env devpath st) = true ->
   stress_hash_get (scsi_hash_table (snd (is_scsi_dev env devpath st)))
     devpath = true)
  /\ (fst (is_scsi_dev env devpath st) = false ->
      scsi_hash_table (snd (is_scsi_dev env devpath st))
      = scsi_hash_table st).
Proof.
  intros Hlock. unfold is_scsi_dev.
  destruct (dev_basename devpath) as [|c name]; [done|].
  unfold is_scsi_dev_cached, spin_lock. rewrite Hlock.
  cbn [Z.eqb negb scsi_hash_table].
  destruct (stress_hash_get (scsi_hash_table st) devpath) eqn:Hget; [done|].
  unfold do_scandir.
  destruct (scsi_scandir env scsi_device_path) as [|d0 dl]; [done|].
  match goal with
  | |- context [device_loop env ?n ?l ?s] =>
      destruct (device_loop_keeps env n l s) as [Ht Hs];
      destruct (device_loop env n l s) as [[|] st3]
  end; cbn [fst snd scsi_hash_table] in *.
  - split; [|done]. intros _. unfold add_scsi_dev, spin_lock.
    rewrite Hlock. cbn [Z.eqb negb scsi_hash_table]. apply hash_get_add.
  - done.
Qed.

(** A yes is remembered, a no is not.  When the lock works, a path that
    [is_scsi_dev] said yes for gets a yes from then on whatever [/sys] holds
    by then, and without any [scandir]; a no leaves the cache as it was, so
    that the next call scans [/sys] again. *)
Theorem scsi_yes_is_remembered env env' devpath st :
  lock_works env -> lock_works env' ->
  let st1 := snd (is_scsi_dev env devpath st) in
  (fst (is_scsi_dev env devpath st) = true ->
   fst (is_scsi_dev env' devpath st1) = true
   /\ scanned (snd (is_scsi_dev env' devpath st1)) = scanned st1)
  /\ (fst (is_scsi_dev env devpath st) = false ->
      scsi_hash_table st1 = scsi_hash_table st).
Proof.
  intros Hlock Hlock' st1.
  destruct (is_scsi_dev_cache env devpath st Hlock) as [Hyes Hno].
  split; [|exact Hno].
  intros Htrue. specialize (Hyes Htrue). fold st1 in Hyes.
  assert (Hne : dev_basename devpath <> EmptyString).
  { intros He. unfold is_scsi_dev in Htrue. by rewrite He in Htrue. }
  unfold is_scsi_dev.
  destruct (dev_basename devpath) as [|c name]; [done|].
  unfold is_scsi_dev_cached, spin_lock. rewrite Hlock'.
  cbn [Z.eqb negb scsi_hash_table]. by rewrite Hyes.
Qed.

Lemma scsi_yes_is_remembered_witness :
  (fst (is_scsi_dev env_sda "/dev/sda" scsi_start) = true ->
   fst (is_scsi_dev env_unplugged "/dev/sda"
          (snd (is_scsi_dev env_sda "/dev/sda" scsi_start))) = true
   /\ scanned (snd (is_scsi_dev env_unplugged "/dev/sda"
                      (snd (is_scsi_dev env_sda "/dev/sda" scsi_start))))
      = scanned (snd (is_scsi_dev env_sda "/dev/sda" scsi_start)))
  /\ (fst (is_scsi_dev env_sda "/dev/sda" scsi_start) = false ->
      scsi_hash_table (snd (is_scsi_dev env_sda "/dev/sda" scsi_start))
      = scsi_hash_table scsi_start).
Proof.
  refine (scsi_yes_is_remembered env_sda env_unplugged "/dev/sda" scsi_start
            _ _).
  - intros n. reflexivity.
  - intros n. reflexivity.
Defined.

(** The disk is found by two calls of [scandir] and cached under its path;
    once it is unplugged the cached path is still a SCSI device, and another
    path to it no longer is. *)
Example scsi_cache_run :
  is_scsi_dev env_sda "/dev/sda" scsi_start
  = (true,
     mk_scsi_state ["/dev/sda"%string] 2
       [scsi_device_path;
        "/sys/class/scsi_device//0:0:0:0/device/block"%string])
  /\ fst (is_scsi_dev env_unplugged "/dev/sda"
            (snd (is_scsi_dev env_sda "/dev/sda" scsi_start))) = true
  /\ fst (is_scsi_dev env_unplugged "/dev/block/sda"
            (snd (is_scsi_dev env_sda "/dev/sda" scsi_start))) = false
  /\ fst (is_scsi_dev env_sda "/dev/block/sda" scsi_start) = true
  /\ fst (is_scsi_dev env_sda "/dev/sdb" scsi_start) = false
  /\ fst (is_scsi_dev env_sda EmptyString scsi_start) = false.
Proof. vm_compute. by repeat split. Qed.

End DevScsiFacts.
